(** * axenc: lexer, parser and IR builder, embedded in Rocq

    A shallow embedding of the front end of the axen compiler
    (lexer.hpp / lexer.cpp, parser.hpp and the parser sources, the AST node
    headers and the codegen sources), followed by the properties
    established about it.

    Conventions of the embedding:
    - a C++ member function that mutates its object becomes a function in a
      state-and-error monad over a record holding the object's fields;
    - [exit(EXIT_FAILURE)], [error::reportError] (which exits), an uncaught
      C++ exception and a null-pointer dereference all end the process; they
      are the [Abort] outcomes of the monad;
    - a [while] loop becomes a [Fixpoint] on a fuel argument whose body tests
      the loop condition exactly as the source does; [OutOfFuel] is the
      outcome of a loop that was given too little fuel;
    - [std::map] is an association list kept in ascending key order, which
      is the order its iterators visit. *)

From Stdlib Require Import String Ascii List ZArith Bool Arith Lia.
From Stdlib Require Import Sorted Permutation.
Import ListNotations.

Open Scope string_scope.
Open Scope list_scope.
Open Scope nat_scope.

Set Implicit Arguments.
Set Warnings "-register-all".

(** ** Outcomes *)

Module error.

(** [enum class ErrorType] of error.hpp. *)
Inductive ErrorType := Syntax | Semantic | Codegen | Internal.

End error.

(** How a run of the compiler can end other than by returning. *)
Inductive Err :=
| Fatal (kind : error.ErrorType) (msg : string) (* error::reportError, exits *)
| ExitFailure (msg : string)    (* fprintf(stderr, ...); exit(EXIT_FAILURE) *)
| OutOfRange                    (* std::out_of_range: string::at, std::stoi *)
| InvalidArgument               (* std::invalid_argument: std::stoi *)
| NullDeref                     (* dereference of a null pointer *)
| FilesystemError               (* std::filesystem::filesystem_error *)
| LLVMError                     (* a request the LLVM API does not allow *)
| OutOfFuel.                    (* the embedding's loop bound was too small *)

Inductive Res (A : Type) :=
| Ok (a : A)
| Abort (e : Err).

Arguments Ok {A} a.
Arguments Abort {A} e.

(** State-and-error monad over a state [S]. *)
Definition M (S A : Type) := S -> Res (A * S).

Definition ret {S A} (a : A) : M S A := fun s => Ok (a, s).
Definition abort {S A} (e : Err) : M S A := fun _ => Abort e.
Definition bind {S A B} (m : M S A) (k : A -> M S B) : M S B :=
  fun s => match m s with
           | Ok (a, s') => k a s'
           | Abort e => Abort e
           end.
Definition get {S} : M S S := fun s => Ok (s, s).
Definition gets {S A} (f : S -> A) : M S A := fun s => Ok (f s, s).
Definition put {S} (s : S) : M S unit := fun _ => Ok (tt, s).
Definition modify {S} (f : S -> S) : M S unit := fun s => Ok (tt, f s).
Definition liftRes {S A} (r : Res A) : M S A :=
  fun s => match r with
           | Ok a => Ok (a, s)
           | Abort e => Abort e
           end.
Definition fromOption {S A} (o : option A) (e : Err) : M S A :=
  match o with
  | Some a => ret a
  | None => abort e
  end.

Declare Scope monad_scope.
Delimit Scope monad_scope with monad.
Notation "x <- m ;; k" := (bind m (fun x => k))
  (at level 61, m at next level, right associativity) : monad_scope.
Notation "' pat <- m ;; k" := (bind m (fun x => match x with pat => k end))
  (at level 61, pat pattern, m at next level, right associativity) : monad_scope.
Notation "m ;;; k" := (bind m (fun _ => k))
  (at level 61, right associativity) : monad_scope.
Open Scope monad_scope.

(** ** Characters and strings *)

Definition chr (n : nat) : ascii := ascii_of_nat n.

Definition NL : ascii := chr 10.
Definition TAB : ascii := chr 9.
Definition DQUOTE : ascii := chr 34.
Definition BACKSLASH : ascii := chr 92.

Definition code (c : ascii) : nat := nat_of_ascii c.

Definition between (lo hi : nat) (c : ascii) : bool :=
  (lo <=? code c) && (code c <=? hi).

(** <cctype> in the "C" locale. *)
Definition isdigit (c : ascii) : bool := between 48 57 c.
Definition isalpha (c : ascii) : bool := between 65 90 c || between 97 122 c.
Definition isalnum (c : ascii) : bool := isalpha c || isdigit c.
Definition isspace (c : ascii) : bool := (code c =? 32) || between 9 13 c.

Definition str1 (c : ascii) : string := String c EmptyString.

(** [s += c] *)
Definition push_char (s : string) (c : ascii) : string := s ++ str1 c.

(** [s.find(c) != std::string::npos] *)
Fixpoint contains_char (c : ascii) (s : string) : bool :=
  match s with
  | EmptyString => false
  | String d r => Ascii.eqb c d || contains_char c r
  end.

(** ** std::map with string keys

    The entries are kept in strictly ascending key order (byte-wise
    lexicographic, as [std::less<std::string>] orders them); iterating the
    list is iterating the map from [begin()] to [end()]. *)

Module smap.

Definition t (V : Type) := list (string * V).

Definition empty {V} : t V := [].

(** [m.find(k)] *)
Fixpoint find {V} (k : string) (m : t V) : option V :=
  match m with
  | [] => None
  | (k', v) :: r => if String.eqb k k' then Some v else find k r
  end.

(** [m[k] = v]: inserts, or overwrites the value of an existing key. *)
Fixpoint assign {V} (k : string) (v : V) (m : t V) : t V :=
  match m with
  | [] => [(k, v)]
  | (k', v') :: r =>
      match String.compare k k' with
      | Lt => (k, v) :: m
      | Eq => (k, v) :: r
      | Gt => (k', v') :: assign k v r
      end
  end.

(** [m.insert({k, v})]: inserts only if the key is absent. *)
Fixpoint insert {V} (k : string) (v : V) (m : t V) : t V :=
  match m with
  | [] => [(k, v)]
  | (k', v') :: r =>
      match String.compare k k' with
      | Lt => (k, v) :: m
      | Eq => m
      | Gt => (k', v') :: insert k v r
      end
  end.

(** [m.insert(first, last)] over the entries of another map. *)
Definition insert_range {V} (new : t V) (m : t V) : t V :=
  fold_left (fun acc kv => insert (fst kv) (snd kv) acc) new m.

(** [std::distance(m.begin(), m.find(k))] when the key is present. *)
Fixpoint index_of {V} (k : string) (m : t V) : option nat :=
  match m with
  | [] => None
  | (k', _) :: r =>
      if String.eqb k k' then Some 0
      else match index_of k r with
           | Some i => Some (S i)
           | None => None
           end
  end.

Definition keys {V} (m : t V) : list string := map fst m.
Definition values {V} (m : t V) : list V := map snd m.

End smap.

(** [std::set<std::string>], as the list of its elements. *)
Module sset.

Definition t := list string.

Fixpoint mem (k : string) (s : t) : bool :=
  match s with
  | [] => false
  | k' :: r => String.eqb k k' || mem k r
  end.

Definition insert (k : string) (s : t) : t :=
  if mem k s then s else k :: s.

End sset.

(** ** Lexer (lexer.hpp, lexer.cpp) *)

Module lexer.

(** [enum class TokenType].  [Intdef] is not an enumerator of lexer.hpp and
    no entry of [keywordMap] produces it; it is listed because
    [Parser::parseFile] switches on it. *)
Inductive TokenType :=
| IntLit | FloatLit | StringLit
| Return | Break | Continue | If | While | Else | Ptr
| Import | Class | Typedef
| LParen | RParen | LBrace | RBrace | LBracket | RBracket
| Period | Comma | Semi | Ampersand | Dollar | Percent
| Plus | Minus | Asterisk | Slash | Equals | Less | Greater
| Identifier | EndOfFile
| Intdef.

Scheme Equality for TokenType.

Definition keywordMap : list (string * TokenType) :=
  [ ("return", Return); ("break", Break); ("continue", Continue);
    ("if", If); ("else", Else); ("while", While);
    ("ptr", Ptr); ("import", Import); ("class", Class);
    ("typedef", Typedef) ].

Definition symbolMap : list (ascii * TokenType) :=
  [ ("("%char, LParen); (")"%char, RParen); ("{"%char, LBrace); ("}"%char, RBrace);
    ("["%char, LBracket); ("]"%char, RBracket); ("."%char, Period); (","%char, Comma);
    ("+"%char, Plus); ("-"%char, Minus); ("*"%char, Asterisk); ("/"%char, Slash);
    ("="%char, Equals); ("<"%char, Less); (">"%char, Greater); (";"%char, Semi);
    ("&"%char, Ampersand); ("$"%char, Dollar); ("%"%char, Percent) ].

Fixpoint find_keyword (s : string) (m : list (string * TokenType)) : option TokenType :=
  match m with
  | [] => None
  | (k, t) :: r => if String.eqb s k then Some t else find_keyword s r
  end.

Fixpoint find_symbol (c : ascii) (m : list (ascii * TokenType)) : option TokenType :=
  match m with
  | [] => None
  | (k, t) :: r => if Ascii.eqb c k then Some t else find_symbol c r
  end.

(** [tokenToKeyword] and [tokenToSymbol]: the reversed tables. *)
Fixpoint tokenToKeyword (t : TokenType) (m : list (string * TokenType)) : option string :=
  match m with
  | [] => None
  | (k, t') :: r => if TokenType_beq t t' then Some k else tokenToKeyword t r
  end.

Fixpoint tokenToSymbol (t : TokenType) (m : list (ascii * TokenType)) : option ascii :=
  match m with
  | [] => None
  | (k, t') :: r => if TokenType_beq t t' then Some k else tokenToSymbol t r
  end.

(** [struct Token].  [row] and [col] are C++ [int]s; they only ever count
    characters of the source, so they are unbounded integers here. *)
Record Token := mkToken {
  type : TokenType;
  src : string;
  row : Z;
  col : Z
}.

(** The mutable and constant fields of [class Lexer]. *)
Record Lexer := mkLexer {
  src_ : string;
  srcCursor_ : nat;
  lookAhead_ : list Token;
  tokensCursor_ : nat;
  row_ : Z;
  col_ : Z
}.

(** [struct LexerState] *)
Record LexerState := mkLexerState {
  st_srcCursor : nat;
  st_lookAhead : list Token;
  st_tokensCursor : nat;
  st_row : Z;
  st_col : Z
}.

(** [Lexer::Lexer(std::string src)] *)
Definition new (source : string) : Lexer :=
  mkLexer source 0 [] 0 1 1.

Definition saveState (L : Lexer) : LexerState :=
  mkLexerState (srcCursor_ L) (lookAhead_ L) (tokensCursor_ L) (row_ L) (col_ L).

Definition restoreState (state : LexerState) (L : Lexer) : Lexer :=
  mkLexer (src_ L) (st_srcCursor state) (st_lookAhead state)
          (st_tokensCursor state) (st_row state) (st_col state).

Definition LM := M Lexer.

Definition size (L : Lexer) : nat := String.length (src_ L).

(** [src_.at(srcCursor_ + offset)]; [at] throws when out of range. *)
Definition peekChar (offset : nat) : LM ascii :=
  L <- get ;;
  fromOption (String.get (srcCursor_ L + offset) (src_ L)) OutOfRange.

(** [row_++; col_ = 1;] after a newline, [col_++;] after another character. *)
Definition advancePosition (c : ascii) (L : Lexer) : Lexer :=
  if Ascii.eqb c NL
  then mkLexer (src_ L) (srcCursor_ L) (lookAhead_ L) (tokensCursor_ L) (row_ L + 1) 1
  else mkLexer (src_ L) (srcCursor_ L) (lookAhead_ L) (tokensCursor_ L) (row_ L)
               (col_ L + 1).

(** [srcCursor_++] *)
Definition advanceCursor (L : Lexer) : Lexer :=
  mkLexer (src_ L) (S (srcCursor_ L)) (lookAhead_ L) (tokensCursor_ L) (row_ L) (col_ L).

Definition consumeChar : LM ascii :=
  c <- peekChar 0 ;;
  modify (advancePosition c) ;;;
  c' <- peekChar 0 ;;
  modify advanceCursor ;;;
  ret c'.

(** [srcCursor_ + k < src_.size()] *)
Definition inRange (k : nat) : LM bool :=
  gets (fun L => srcCursor_ L + k <? size L).

(** [while (srcCursor_ < src_.size() && peekChar() != '\n') consumeChar();] *)
Fixpoint skipLineComment (fuel : nat) : LM unit :=
  match fuel with
  | O => abort OutOfFuel
  | S fuel' =>
      more <- inRange 0 ;;
      if more then
        c <- peekChar 0 ;;
        if negb (Ascii.eqb c NL) then consumeChar ;;; skipLineComment fuel'
        else ret tt
      else ret tt
  end.

(** The loop that skips the body of a block comment:
    [while (srcCursor_ + 1 < src_.size()) { if (peekChar() == '*' &&
    peekChar(1) == '/') { consumeChar(); consumeChar(); break; }
    consumeChar(); }] *)
Fixpoint skipBlockComment (fuel : nat) : LM unit :=
  match fuel with
  | O => abort OutOfFuel
  | S fuel' =>
      more <- inRange 1 ;;
      if more then
        c <- peekChar 0 ;;
        isEnd <- (if Ascii.eqb c "*"%char
                  then (c1 <- peekChar 1 ;; ret (Ascii.eqb c1 "/"%char))
                  else ret false) ;;
        if isEnd then consumeChar ;;; consumeChar ;;; ret tt
        else consumeChar ;;; skipBlockComment fuel'
      else ret tt
  end.

(** [while (srcCursor_ < src_.length() && p(peekChar())) acc += consumeChar();] *)
Fixpoint scanWhile (p : ascii -> bool) (fuel : nat) (acc : string) : LM string :=
  match fuel with
  | O => abort OutOfFuel
  | S fuel' =>
      more <- inRange 0 ;;
      if more then
        c <- peekChar 0 ;;
        if p c then (c' <- consumeChar ;; scanWhile p fuel' (push_char acc c'))
        else ret acc
      else ret acc
  end.

(** The fraction loop of a number: as [scanWhile isdigit], and it reports
    whether its body ran (the body is what sets the type to [FloatLit]). *)
Fixpoint scanFraction (fuel : nat) (acc : string) (ran : bool) : LM (string * bool) :=
  match fuel with
  | O => abort OutOfFuel
  | S fuel' =>
      more <- inRange 0 ;;
      if more then
        c <- peekChar 0 ;;
        if isdigit c then (c' <- consumeChar ;; scanFraction fuel' (push_char acc c') true)
        else ret (acc, ran)
      else ret (acc, ran)
  end.

(** The loop over the content of a string literal. *)
Fixpoint scanString (fuel : nat) (acc : string) : LM string :=
  match fuel with
  | O => abort OutOfFuel
  | S fuel' =>
      more <- inRange 0 ;;
      if more then
        c <- peekChar 0 ;;
        if negb (Ascii.eqb c DQUOTE) then
          more1 <- inRange 1 ;;
          if Ascii.eqb c BACKSLASH && more1 then
            consumeChar ;;;
            escaped <- consumeChar ;;
            let add :=
              if Ascii.eqb escaped "n"%char then NL
              else if Ascii.eqb escaped "t"%char then TAB
              else if Ascii.eqb escaped DQUOTE then DQUOTE
              else if Ascii.eqb escaped BACKSLASH then BACKSLASH
              else escaped in
            scanString fuel' (push_char acc add)
          else
            c' <- consumeChar ;;
            scanString fuel' (push_char acc c')
        else ret acc
      else ret acc
  end.

(** The part of the body of [nextToken]'s loop that follows the skipping of
    white space and comments: it returns a token or ends the process. *)
Definition lexToken (fuel : nat) : LM Token :=
  newToken <- gets (fun L => mkToken EndOfFile
                                     (String.substring (srcCursor_ L) 1 (src_ L))
                                     (row_ L) (col_ L)) ;;
  (c <- peekChar 0 ;;
   match find_symbol c symbolMap with
   | Some ty =>
       consumeChar ;;;
       ret (mkToken ty (src newToken) (row newToken) (col newToken))
   | None =>
       if isdigit c then
         newIntLiteral <- scanWhile isdigit fuel "" ;;
         d <- peekChar 0 ;;
         if Ascii.eqb d "."%char then
           dot <- consumeChar ;;
           '(lit, isFloat) <- scanFraction fuel (push_char newIntLiteral dot) false ;;
           ret (mkToken (if isFloat then FloatLit else IntLit) lit
                        (row newToken) (col newToken))
         else
           ret (mkToken IntLit newIntLiteral (row newToken) (col newToken))
       else if Ascii.eqb c DQUOTE then
         consumeChar ;;;
         stringContent <- scanString fuel "" ;;
         more <- inRange 0 ;;
         if negb more then abort (ExitFailure "Unterminated string literal.")
         else
           consumeChar ;;;
           ret (mkToken StringLit stringContent (row newToken) (col newToken))
       else if isalpha c || Ascii.eqb c "_"%char then
         newKeyword <- scanWhile (fun a => isalnum a || Ascii.eqb a "_"%char) fuel "" ;;
         match find_keyword newKeyword keywordMap with
         | Some ty => ret (mkToken ty newKeyword (row newToken) (col newToken))
         | None => ret (mkToken Identifier newKeyword (row newToken) (col newToken))
         end
       else
         abort (ExitFailure ("Invalid character found during lexing: '" ++ str1 c ++ "'."))
   end).

(** The loop of [Lexer::nextToken]. *)
Fixpoint nextTokenLoop (fuel : nat) : LM Token :=
  match fuel with
  | O => abort OutOfFuel
  | S fuel' =>
      more <- inRange 0 ;;
      if more then
        c <- peekChar 0 ;;
        if Ascii.eqb c NL || isspace c then consumeChar ;;; nextTokenLoop fuel'
        else
          more1 <- inRange 1 ;;
          if Ascii.eqb c "/"%char && more1 then
            c1 <- peekChar 1 ;;
            if Ascii.eqb c1 "/"%char then
              consumeChar ;;; consumeChar ;;;
              skipLineComment fuel ;;;
              nextTokenLoop fuel'
            else if Ascii.eqb c1 "*"%char then
              consumeChar ;;; consumeChar ;;;
              skipBlockComment fuel ;;;
              nextTokenLoop fuel'
            else lexToken fuel
          else lexToken fuel
      else
        gets (fun L => mkToken EndOfFile
                               (String.substring (srcCursor_ L) (size L - srcCursor_ L)
                                                 (src_ L))
                               0 0)
  end.

(** [Lexer::nextToken].  Every iteration of every loop consumes a
    character, so one more than the length of the source bounds them all. *)
Definition nextToken : LM Token :=
  n <- gets size ;;
  nextTokenLoop (S n).

Definition push_back (t : Token) : LM unit :=
  modify (fun L => mkLexer (src_ L) (srcCursor_ L) (lookAhead_ L ++ [t])
                           (tokensCursor_ L) (row_ L) (col_ L)).

(** [while (lookAhead_.size() <= offset) lookAhead_.push_back(nextToken());] *)
Fixpoint fillLookAhead (fuel : nat) (offset : nat) : LM unit :=
  match fuel with
  | O => abort OutOfFuel
  | S fuel' =>
      missing <- gets (fun L => length (lookAhead_ L) <=? offset) ;;
      if missing then t <- nextToken ;; push_back t ;;; fillLookAhead fuel' offset
      else ret tt
  end.

(** [Lexer::peek]: at most [offset + 1] tokens are missing from the deque. *)
Definition peek (offset : nat) : LM Token :=
  fillLookAhead (S (S offset)) offset ;;;
  L <- get ;;
  fromOption (nth_error (lookAhead_ L) offset) OutOfRange.

(** [Lexer::peekT] *)
Definition peekT (t : TokenType) (offset : nat) : LM bool :=
  tok <- peek offset ;; ret (TokenType_beq (type tok) t).

(** [Lexer::consume] *)
Definition pop_front (L : Lexer) : Lexer :=
  mkLexer (src_ L) (srcCursor_ L) (tl (lookAhead_ L)) (tokensCursor_ L) (row_ L) (col_ L).

Definition consume : LM Token :=
  empty <- gets (fun L => match lookAhead_ L with [] => true | _ => false end) ;;
  (if empty then t <- nextToken ;; push_back t else ret tt) ;;;
  L <- get ;;
  tok <- fromOption (hd_error (lookAhead_ L)) OutOfRange ;;
  modify pop_front ;;;
  ret tok.

(** The tokens of a whole source text, by repeated [consume], up to and
    including the first [EndOfFile]. *)
Fixpoint tokens (fuel : nat) : LM (list Token) :=
  match fuel with
  | O => abort OutOfFuel
  | S fuel' =>
      t <- consume ;;
      if TokenType_beq (type t) EndOfFile then ret [t]
      else (r <- tokens fuel' ;; ret (t :: r))
  end.

Definition tokenize (source : string) : Res (list Token) :=
  match tokens (S (String.length source)) (new source) with
  | Ok (ts, _) => Ok ts
  | Abort e => Abort e
  end.

End lexer.

(** ** AST nodes (nodes/types.hpp, nodes/expression.hpp, nodes/statement.hpp,
       nodes/function.hpp) *)

Module ast.

Inductive PrimitiveType :=
| Void | Bool | Char | Short | Int | Long | Half | Float | Double | Quad.

Scheme Equality for PrimitiveType.

(** The classes derived from [TypeNode].  A [ClassReferenceNode] holds a
    [std::shared_ptr<ClassNode>]; every [ClassNode] is created by
    [Parser::parseClass], which appends it to [Parser::classes_], so the
    pointer is the position of the declaration in that vector: all
    references to one class see the members added to it later. *)
Inductive TypeNode :=
| PrimitiveTypeNode (type_ : PrimitiveType) (isSigned_ : bool)
| PointerTypeNode (target_ : TypeNode)
| ArrayTypeNode (target_ : TypeNode) (length_ : Z)
| ClassReferenceNode (decl_ : nat).

(** [TypeNode::isSigned] *)
Fixpoint isSigned (t : TypeNode) : bool :=
  match t with
  | PrimitiveTypeNode _ s => s
  | PointerTypeNode target => isSigned target
  | ArrayTypeNode target _ => isSigned target
  | ClassReferenceNode _ => false
  end.

(** [class ClassNode].  A member's type is a [std::shared_ptr<TypeNode>],
    which [Parser::parseType] leaves null when no type was found. *)
Record ClassNode := mkClassNode {
  name_ : string;
  members_ : smap.t (option TypeNode)
}.

Definition lookupMemberType (c : ClassNode) (name : string) : option TypeNode :=
  match smap.find name (members_ c) with
  | Some ty => ty
  | None => None
  end.

(** [ClassNode::lookupMemberIndex]; a missing member is an internal error. *)
Definition lookupMemberIndex (c : ClassNode) (name : string) : Res nat :=
  match smap.index_of name (members_ c) with
  | Some i => Ok i
  | None => Abort (Fatal error.Internal
                     ("Could not find index of member '" ++ name ++ "' in struct '"
                      ++ name_ c ++ "'"))
  end.

Definition addMembers (newMembers : smap.t (option TypeNode)) (c : ClassNode) : ClassNode :=
  mkClassNode (name_ c) (smap.insert_range newMembers (members_ c)).

(** The value of a float literal is kept as the text handed to [std::stof]. *)
Inductive FloatValue :=
| stof (text : string)
| negated (f : FloatValue).

Inductive BinaryOperationType :=
| Add | Subtract | Multiply | Divide | Less | More | Equal.

(** The classes derived from [ExpressionNode]; the last constructor
    argument called [isSigned_] is the base-class field. *)
Inductive ExpressionNode :=
| VariableReference (name_ : string) (isSigned_ : bool)
| StructAccess (structExpr_ : ExpressionNode) (memberName_ structName_ : string)
               (isSigned_ : bool) (type_ : nat)
| ArrayAccess (arrayExpr_ indexExpr_ : ExpressionNode) (isSigned_ : bool)
              (type_ : TypeNode)
| PtrIndexAccess (ptrExpr_ indexExpr_ : ExpressionNode) (isSigned_ : bool)
                 (type_ : TypeNode)
| Dref (target_ : ExpressionNode) (derivedType_ : TypeNode) (isSigned_ : bool)
| AddressOf (target_ : ExpressionNode) (isSigned_ : bool)
| IntLiteral (value_ : Z)
| FloatLiteral (value_ : FloatValue)
| StringLiteral (value_ : string)
| FunctionCall (name_ : string) (args_ : list ExpressionNode) (isSigned_ : bool)
| BinaryOperation (type_ : BinaryOperationType) (L_ R_ : ExpressionNode)
                  (isSigned_ : bool).

(** [ExpressionNode::isSigned] *)
Definition exprIsSigned (e : ExpressionNode) : bool :=
  match e with
  | VariableReference _ s => s
  | StructAccess _ _ _ s _ => s
  | ArrayAccess _ _ s _ => s
  | PtrIndexAccess _ _ s _ => s
  | Dref _ _ s => s
  | AddressOf _ s => s
  | IntLiteral _ => true
  | FloatLiteral _ => true
  | StringLiteral _ => false
  | FunctionCall _ _ s => s
  | BinaryOperation _ _ _ s => s
  end.

Definition isFunctionCall (e : ExpressionNode) : bool :=
  match e with
  | FunctionCall _ _ _ => true
  | _ => false
  end.

(** The classes derived from [StatementNode]. *)
Inductive StatementNode :=
| VariableDeclaration (type_ : TypeNode) (name_ : string)
                      (initialValue_ : option ExpressionNode)
| AssignmentStatement (target_ value_ : ExpressionNode)
| Return (value_ : option ExpressionNode)
| If (condition_ : ExpressionNode) (trueBody_ : list StatementNode)
     (falseBody_ : option (list StatementNode))
| While (condition_ : ExpressionNode) (body_ : list StatementNode)
| ExpressionStatement (expression_ : ExpressionNode).

(** [class FunctionNode].  [params_] is a [std::optional] that the parser
    always fills; [type_] and the parameter types may be null pointers. *)
Record FunctionNode := mkFunctionNode {
  fn_name_ : string;
  fn_type_ : option TypeNode;
  fn_isPublic_ : bool;
  fn_params_ : list (string * option TypeNode);
  fn_body_ : option (list StatementNode);
  fn_isDetached_ : bool
}.

End ast.

(** ** Parser state and utilities (parser.hpp) *)

Module parser.

(** The fields of [class Parser].  [scopes] is a [std::vector] used as a
    stack; the list holds it from [back()] to [front()]. *)
Record Parser := mkParser {
  currentClassName_ : string;
  currentFileName_ : string;
  sourceCode_ : string;
  rootFilePath_ : string;
  lexer_ : lexer.Lexer;
  functions_ : list ast.FunctionNode;
  classes_ : list ast.ClassNode;
  scopes : list (smap.t (option ast.TypeNode));
  types_ : smap.t ast.TypeNode;
  intDefs_ : smap.t Z;
  importedFiles_ : sset.t
}.

Definition set_currentClassName (x : string) (p : Parser) : Parser :=
  mkParser x (currentFileName_ p) (sourceCode_ p) (rootFilePath_ p) (lexer_ p)
           (functions_ p) (classes_ p) (scopes p) (types_ p) (intDefs_ p)
           (importedFiles_ p).
Definition set_currentFileName (x : string) (p : Parser) : Parser :=
  mkParser (currentClassName_ p) x (sourceCode_ p) (rootFilePath_ p) (lexer_ p)
           (functions_ p) (classes_ p) (scopes p) (types_ p) (intDefs_ p)
           (importedFiles_ p).
Definition set_lexer (x : lexer.Lexer) (p : Parser) : Parser :=
  mkParser (currentClassName_ p) (currentFileName_ p) (sourceCode_ p)
           (rootFilePath_ p) x (functions_ p) (classes_ p) (scopes p) (types_ p)
           (intDefs_ p) (importedFiles_ p).
Definition set_functions (x : list ast.FunctionNode) (p : Parser) : Parser :=
  mkParser (currentClassName_ p) (currentFileName_ p) (sourceCode_ p)
           (rootFilePath_ p) (lexer_ p) x (classes_ p) (scopes p) (types_ p)
           (intDefs_ p) (importedFiles_ p).
Definition set_classes (x : list ast.ClassNode) (p : Parser) : Parser :=
  mkParser (currentClassName_ p) (currentFileName_ p) (sourceCode_ p)
           (rootFilePath_ p) (lexer_ p) (functions_ p) x (scopes p) (types_ p)
           (intDefs_ p) (importedFiles_ p).
Definition set_scopes (x : list (smap.t (option ast.TypeNode))) (p : Parser) : Parser :=
  mkParser (currentClassName_ p) (currentFileName_ p) (sourceCode_ p)
           (rootFilePath_ p) (lexer_ p) (functions_ p) (classes_ p) x (types_ p)
           (intDefs_ p) (importedFiles_ p).
Definition set_types (x : smap.t ast.TypeNode) (p : Parser) : Parser :=
  mkParser (currentClassName_ p) (currentFileName_ p) (sourceCode_ p)
           (rootFilePath_ p) (lexer_ p) (functions_ p) (classes_ p) (scopes p) x
           (intDefs_ p) (importedFiles_ p).
Definition set_intDefs (x : smap.t Z) (p : Parser) : Parser :=
  mkParser (currentClassName_ p) (currentFileName_ p) (sourceCode_ p)
           (rootFilePath_ p) (lexer_ p) (functions_ p) (classes_ p) (scopes p)
           (types_ p) x (importedFiles_ p).
Definition set_importedFiles (x : sset.t) (p : Parser) : Parser :=
  mkParser (currentClassName_ p) (currentFileName_ p) (sourceCode_ p)
           (rootFilePath_ p) (lexer_ p) (functions_ p) (classes_ p) (scopes p)
           (types_ p) (intDefs_ p) x.

(** The primitive types registered by the constructor, in its order. *)
Definition primitives : list (string * ast.TypeNode) :=
  [ ("bool", ast.PrimitiveTypeNode ast.Bool false);
    ("void", ast.PrimitiveTypeNode ast.Void false);
    ("char", ast.PrimitiveTypeNode ast.Char true);
    ("uchar", ast.PrimitiveTypeNode ast.Char false);
    ("short", ast.PrimitiveTypeNode ast.Short true);
    ("ushort", ast.PrimitiveTypeNode ast.Short false);
    ("int", ast.PrimitiveTypeNode ast.Int true);
    ("uint", ast.PrimitiveTypeNode ast.Int false);
    ("long", ast.PrimitiveTypeNode ast.Long true);
    ("ulong", ast.PrimitiveTypeNode ast.Long false);
    ("half", ast.PrimitiveTypeNode ast.Half true);
    ("float", ast.PrimitiveTypeNode ast.Float true);
    ("double", ast.PrimitiveTypeNode ast.Double true);
    ("quad", ast.PrimitiveTypeNode ast.Quad true) ].

(** [Parser::Parser(std::string &&sourceCode, std::string filePath)].  The
    lexer pointer is null until [parse] runs; it is the lexer of the empty
    text here. *)
Definition new (sourceCode filePath : string) : Parser :=
  mkParser "" "" sourceCode filePath (lexer.new "") [] [] []
           (fold_left (fun m kv => smap.insert (fst kv) (snd kv) m) primitives smap.empty)
           smap.empty [].

Definition PM := M Parser.

(** A call through [lexer_->]. *)
Definition liftL {A} (m : lexer.LM A) : PM A :=
  fun p => match m (lexer_ p) with
           | Ok (a, L) => Ok (a, set_lexer L p)
           | Abort e => Abort e
           end.

Definition peek (offset : nat) : PM lexer.Token := liftL (lexer.peek offset).
Definition peekT (t : lexer.TokenType) (offset : nat) : PM bool := liftL (lexer.peekT t offset).
Definition consume : PM lexer.Token := liftL lexer.consume.
Definition peekType : PM lexer.TokenType := t <- peek 0 ;; ret (lexer.type t).

(** [error::reportError] with the location read from [lexer_->peek()]. *)
Definition emitSyntaxError {A} (msg : string) : PM A :=
  peek 0 ;;; abort (Fatal error.Syntax msg).

Definition emitSemanticError {A} (msg : string) : PM A :=
  peek 0 ;;; abort (Fatal error.Semantic msg).

Definition expectedString (t : lexer.TokenType) : string :=
  if lexer.TokenType_beq t lexer.Identifier then "<identifier>"
  else match lexer.tokenToKeyword t lexer.keywordMap with
       | Some k => k
       | None => match lexer.tokenToSymbol t lexer.symbolMap with
                 | Some c => str1 c
                 | None => ""
                 end
       end.

Definition expect (t : lexer.TokenType) : PM lexer.Token :=
  tok <- peek 0 ;;
  if negb (lexer.TokenType_beq (lexer.type tok) t)
  then abort (Fatal error.Syntax ("Expected token: '" ++ expectedString t ++ "'"))
  else consume.

Definition validateIdentifier (id : string) : PM unit :=
  if contains_char "_"%char id
  then emitSyntaxError ("Invalid identifier '" ++ id
                        ++ "': underscores are not allowed in identifiers")
  else ret tt.

Definition pushScope : PM unit :=
  modify (fun p => set_scopes (smap.empty :: scopes p) p).

Definition popScope : PM unit :=
  modify (fun p => set_scopes (tl (scopes p)) p).

(** [scopes.back()[name] = type]; [back()] of an empty vector is undefined. *)
Definition indexVariableType (name : string) (type : option ast.TypeNode) : PM unit :=
  ss <- gets scopes ;;
  match ss with
  | top :: rest => modify (set_scopes (smap.assign name type top :: rest))
  | [] => abort NullDeref
  end.

Fixpoint lookupIn (name : string) (ss : list (smap.t (option ast.TypeNode)))
  : option ast.TypeNode :=
  match ss with
  | [] => None
  | s :: r => match smap.find name s with
              | Some found => found
              | None => lookupIn name r
              end
  end.

Definition lookupVariableType (name : string) : PM (option ast.TypeNode) :=
  gets (fun p => lookupIn name (scopes p)).

Definition registerPrimitiveType (name : string) (type : ast.TypeNode) : PM unit :=
  modify (fun p => set_types (smap.insert name type (types_ p)) p).

Definition registerStructType (name : string) (structDeclNode : nat) : PM unit :=
  modify (fun p => set_types (smap.insert name (ast.ClassReferenceNode structDeclNode)
                                          (types_ p)) p).

Definition getTypeNode (name : string) : PM (option ast.TypeNode) :=
  gets (fun p => smap.find name (types_ p)).

Fixpoint findFunction (name : string) (fs : list ast.FunctionNode) : option ast.FunctionNode :=
  match fs with
  | [] => None
  | f :: r => if String.eqb (ast.fn_name_ f) name then Some f else findFunction name r
  end.

Definition lookupFunctionReturnType (name : string) : PM (option ast.TypeNode) :=
  gets (fun p => match findFunction name (functions_ p) with
                 | Some f => ast.fn_type_ f
                 | None => None
                 end).

(** [std::dynamic_pointer_cast<ast::PrimitiveTypeNode>] *)
Definition asPrimitiveTypeNode (t : option ast.TypeNode) : option ast.TypeNode :=
  match t with
  | Some (ast.PrimitiveTypeNode k s) => Some (ast.PrimitiveTypeNode k s)
  | _ => None
  end.

(** [std::dynamic_pointer_cast<ast::ClassNode>] applied to a
    [std::shared_ptr<ast::TypeNode>]: [ClassNode] is not a base of any class
    derived from [TypeNode], so the cast yields null for every object. *)
Definition asClassNode (t : option ast.TypeNode) : option nat := None.

(** [std::dynamic_pointer_cast<ast::PointerTypeNode>], giving the target. *)
Definition asPointerTypeNode (t : option ast.TypeNode) : option ast.TypeNode :=
  match t with
  | Some (ast.PointerTypeNode target) => Some target
  | _ => None
  end.

(** [std::dynamic_pointer_cast<ast::ArrayTypeNode>], giving the target. *)
Definition asArrayTypeNode (t : option ast.TypeNode) : option ast.TypeNode :=
  match t with
  | Some (ast.ArrayTypeNode target _) => Some target
  | _ => None
  end.

(** [std::dynamic_pointer_cast<ast::ClassReferenceNode>], giving the
    declaration it refers to. *)
Definition asClassReferenceNode (t : option ast.TypeNode) : option nat :=
  match t with
  | Some (ast.ClassReferenceNode decl) => Some decl
  | _ => None
  end.

Definition insertTypeDef (alias targetName : string) : PM unit :=
  targetType <- getTypeNode targetName ;;
  match asPrimitiveTypeNode targetType with
  | Some targetPrimitiveType => registerPrimitiveType alias targetPrimitiveType
  | None =>
      match asClassNode targetType with
      | Some targetClassType => registerStructType alias targetClassType
      | None => emitSyntaxError "Invalid target type in typedef"
      end
  end.

(** The declaration behind a class handle. *)
Definition getDecl (decl : nat) : PM ast.ClassNode :=
  cs <- gets classes_ ;;
  fromOption (nth_error cs decl) NullDeref.

(** *** std::stoi

    [std::stoi(str, nullptr, base)] as [strtol] reads it: leading white
    space, an optional sign, for base 16 an optional [0x]/[0X] prefix, then
    the longest run of digits of the base.  No digit is
    [std::invalid_argument]; a value outside [int] is [std::out_of_range]. *)

Definition digitValue (c : ascii) : option Z :=
  if isdigit c then Some (Z.of_nat (code c) - 48)%Z
  else if between 97 122 c then Some (Z.of_nat (code c) - 87)%Z
  else if between 65 90 c then Some (Z.of_nat (code c) - 55)%Z
  else None.

Definition isDigitOf (base : Z) (c : ascii) : bool :=
  match digitValue c with
  | Some d => (d <? base)%Z
  | None => false
  end.

Fixpoint stoiDigits (base : Z) (s : string) (acc : option Z) : option Z :=
  match s with
  | EmptyString => acc
  | String c r =>
      match digitValue c with
      | Some d =>
          if (d <? base)%Z
          then stoiDigits base r
                 (Some (match acc with Some a => a | None => 0 end * base + d)%Z)
          else acc
      | None => acc
      end
  end.

Fixpoint skipSpaces (s : string) : string :=
  match s with
  | String c r => if isspace c then skipSpaces r else s
  | EmptyString => s
  end.

Definition stripSign (s : string) : bool * string :=
  match s with
  | String c r =>
      if Ascii.eqb c "-"%char then (true, r)
      else if Ascii.eqb c "+"%char then (false, r)
      else (false, s)
  | EmptyString => (false, s)
  end.

Definition stripHexPrefix (base : Z) (s : string) : string :=
  match s with
  | String z (String x (String d r)) =>
      if (base =? 16)%Z && Ascii.eqb z "0"%char
         && (Ascii.eqb x "x"%char || Ascii.eqb x "X"%char) && isDigitOf 16 d
      then String d r
      else s
  | _ => s
  end.

Definition INT_MIN : Z := (- 2147483648)%Z.
Definition INT_MAX : Z := 2147483647%Z.

Definition stoi (str : string) (base : Z) : Res Z :=
  let '(neg, s1) := stripSign (skipSpaces str) in
  match stoiDigits base (stripHexPrefix base s1) None with
  | None => Abort InvalidArgument
  | Some v =>
      let v' := if neg then (- v)%Z else v in
      if (INT_MIN <=? v')%Z && (v' <=? INT_MAX)%Z then Ok v' else Abort OutOfRange
  end.

(** [intStr.size() > 2 && intStr[0] == '0' && (intStr[1] == 'x' ||
    intStr[1] == 'X') ? 16 : 10] *)
Definition literalBase (intStr : string) : Z :=
  match intStr with
  | String c0 (String c1 _) =>
      if (2 <? String.length intStr) && Ascii.eqb c0 "0"%char
         && (Ascii.eqb c1 "x"%char || Ascii.eqb c1 "X"%char)
      then 16%Z else 10%Z
  | _ => 10%Z
  end.

(** *** Types (the [Parser::parseType] that detects the base of the length) *)

(** [while (lexer_->peekT(t)) { n++; lexer_->consume(); }] *)
Fixpoint countTokens (t : lexer.TokenType) (fuel : nat) (n : nat) : PM nat :=
  match fuel with
  | O => abort OutOfFuel
  | S fuel' =>
      b <- peekT t 0 ;;
      if b then consume ;;; countTokens t fuel' (S n) else ret n
  end.

(** [for (int i = 0; i < ptrs; i++) newType = PointerTypeNode(newType);] *)
Fixpoint wrapPointers (ptrs : nat) (newType : ast.TypeNode) : ast.TypeNode :=
  match ptrs with
  | O => newType
  | S n => wrapPointers n (ast.PointerTypeNode newType)
  end.

Definition parseType (fuel : nat) : PM (option ast.TypeNode) :=
  ptrs <- countTokens lexer.Ptr fuel 0 ;;
  tok <- peek 0 ;;
  newType <- getTypeNode (lexer.src tok) ;;
  match newType with
  | Some ty =>
      consume ;;;
      isArray <- peekT lexer.LBracket 0 ;;
      arrayLen <- (if isArray then
                     consume ;;;
                     intTok <- expect lexer.IntLit ;;
                     let intStr := lexer.src intTok in
                     len <- liftRes (stoi intStr (literalBase intStr)) ;;
                     expect lexer.RBracket ;;;
                     ret len
                   else ret 0%Z) ;;
      let pointed := wrapPointers ptrs ty in
      ret (Some (if (arrayLen =? 0)%Z then pointed
                 else ast.ArrayTypeNode pointed arrayLen))
  | None => ret None
  end.

(** [while (lexer_->peekT(TokenType::Ptr, i)) i++;] *)
Fixpoint countPtrAhead (fuel : nat) (i : nat) : PM nat :=
  match fuel with
  | O => abort OutOfFuel
  | S fuel' =>
      b <- peekT lexer.Ptr i ;;
      if b then countPtrAhead fuel' (S i) else ret i
  end.

Definition getNextTypeLength (fuel : nat) : PM nat :=
  i <- countPtrAhead fuel 0 ;;
  isId <- peekT lexer.Identifier i ;;
  let i := if isId then S i else i in
  isArray <- peekT lexer.LBracket i ;;
  if isArray then
    let i := S i in
    isInt <- peekT lexer.IntLit i ;;
    let i := if isInt then S i else i in
    isClose <- peekT lexer.RBracket i ;;
    ret (if isClose then S i else i)
  else ret i.

(** *** Values, expressions and statements (value.cpp, expression.cpp,
        statement.cpp)

    The functions below call one another; they recurse on a common fuel. *)

(** [for (int i = 0; i < drefs; i++) { ... }]: one [Dref] per level. *)
Fixpoint applyDrefs (drefs : nat) (target : ast.ExpressionNode)
         (derivedType : ast.TypeNode) : PM (ast.ExpressionNode * ast.TypeNode) :=
  match drefs with
  | O => ret (target, derivedType)
  | S n =>
      match asPointerTypeNode (Some derivedType) with
      | None => emitSemanticError "Cannot dereference non-pointer type"
      | Some pointee =>
          applyDrefs n (ast.Dref target pointee (ast.isSigned pointee)) pointee
      end
  end.

Definition getOperatorPrecedence (t : lexer.TokenType) : Z :=
  match t with
  | lexer.Asterisk | lexer.Slash => 20
  | lexer.Plus | lexer.Minus => 10
  | lexer.Less | lexer.Greater => 5
  | lexer.Equals => 3
  | _ => -1
  end%Z.

Definition tokenToBinaryOp (t : lexer.TokenType) : PM ast.BinaryOperationType :=
  match t with
  | lexer.Plus => ret ast.Add
  | lexer.Minus => ret ast.Subtract
  | lexer.Asterisk => ret ast.Multiply
  | lexer.Slash => ret ast.Divide
  | lexer.Less => ret ast.Less
  | lexer.Greater => ret ast.More
  | lexer.Equals => ret ast.Equal
  | _ => emitSemanticError "Invalid binary operator"
  end.

(** The lambda [isTerminator] of [parseBinaryOpRHS]. *)
Definition isTerminator (terminator : lexer.TokenType) : PM bool :=
  ty <- peekType ;;
  ret (lexer.TokenType_beq ty terminator
       || (lexer.TokenType_beq terminator lexer.Comma
           && lexer.TokenType_beq ty lexer.RParen)).

(** The check made on a call by name: inside a class, a name starting with
    [currentClassName_ + "_"] is a member function called without an
    instance. *)
Definition checkInstanceCall (name : string) : PM unit :=
  className <- gets currentClassName_ ;;
  if negb (String.eqb className "") && contains_char "_"%char name
     && String.prefix (className ++ "_") name
  then emitSemanticError ("Cannot call member function '" ++ name
                          ++ "' without an instance of the class")
  else ret tt.

Fixpoint parseValue (fuel : nat) : PM (ast.ExpressionNode * ast.TypeNode) :=
  match fuel with
  | O => abort OutOfFuel
  | S fuel' =>
      drefs <- countTokens lexer.Dollar fuel 0 ;;
      isAmp <- peekT lexer.Ampersand 0 ;;
      addressOf <- (if isAmp then consume ;;; ret true else ret false) ;;
      nameToken <- expect lexer.Identifier ;;
      validateIdentifier (lexer.src nameToken) ;;;
      let name := lexer.src nameToken in
      found <- lookupVariableType name ;;
      '(target, derivedType) <-
        match found with
        | Some ty => ret (ast.VariableReference name (ast.isSigned ty), ty)
        | None =>
            thisType <- lookupVariableType "this" ;;
            member <-
              match thisType with
              | Some (ast.PointerTypeNode (ast.ClassReferenceNode decl as targetType)
                      as thisTy) =>
                  structDecl <- getDecl decl ;;
                  match ast.lookupMemberType structDecl name with
                  | Some fieldType =>
                      let thisRef := ast.VariableReference "this" (ast.isSigned thisTy) in
                      let derefThis := ast.Dref thisRef targetType (ast.isSigned targetType) in
                      ret (Some (ast.StructAccess derefThis name (ast.name_ structDecl)
                                                  (ast.isSigned fieldType) decl,
                                 fieldType))
                  | None => ret None
                  end
              | _ => ret None
              end ;;
            match member with
            | Some r => ret r
            | None => emitSemanticError ("Undefined variable '" ++ name ++ "'")
            end
        end ;;
      '(target, derivedType) <- applyDrefs drefs target derivedType ;;
      parsePostfix fuel' addressOf target derivedType
  end

(** The loop [while (true)] of [parseValue] over the postfix operations,
    with the code that follows it. *)
with parsePostfix (fuel : nat) (addressOf : bool) (target : ast.ExpressionNode)
                  (derivedType : ast.TypeNode)
  : PM (ast.ExpressionNode * ast.TypeNode) :=
  match fuel with
  | O => abort OutOfFuel
  | S fuel' =>
      isPeriod <- peekT lexer.Period 0 ;;
      if isPeriod then
        consume ;;;
        (* the struct type, after one automatic dereference of a pointer *)
        let '(structType, target, derivedType) :=
          match derivedType with
          | ast.ClassReferenceNode decl => (Some decl, target, derivedType)
          | ast.PointerTypeNode (ast.ClassReferenceNode decl as pointee) =>
              (Some decl, ast.Dref target pointee (ast.isSigned pointee), pointee)
          | _ => (None, target, derivedType)
          end in
        match structType with
        | None => emitSemanticError "Cannot access member of non-struct type"
        | Some decl =>
            memDrefs <- countTokens lexer.Dollar fuel 0 ;;
            fieldToken <- expect lexer.Identifier ;;
            validateIdentifier (lexer.src fieldToken) ;;;
            let fieldName := lexer.src fieldToken in
            isCall <- peekT lexer.LParen 0 ;;
            if isCall then
              structDecl <- getDecl decl ;;
              let methodName := (ast.name_ structDecl ++ "_" ++ fieldName)%string in
              consume ;;;
              let thisArg := ast.AddressOf target (ast.isSigned derivedType) in
              functionArgs <- parseArgs fuel' [thisArg] ;;
              consume ;;;
              functionReturnType <- lookupFunctionReturnType methodName ;;
              match functionReturnType with
              | None => emitSemanticError ("Call to undefined member method '"
                                           ++ methodName ++ "'")
              | Some rt =>
                  ret (ast.FunctionCall methodName functionArgs (ast.isSigned rt), rt)
              end
            else
              structDecl <- getDecl decl ;;
              let structName := ast.name_ structDecl in
              match ast.lookupMemberType structDecl fieldName with
              | None => emitSemanticError ("Struct '" ++ structName ++ "' has no member '"
                                           ++ fieldName ++ "'")
              | Some fieldType =>
                  let target := ast.StructAccess target fieldName structName
                                                 (ast.isSigned fieldType) decl in
                  '(target, derivedType) <- applyDrefs memDrefs target fieldType ;;
                  parsePostfix fuel' addressOf target derivedType
              end
        end
      else
        isBracket <- peekT lexer.LBracket 0 ;;
        if isBracket then
          memDrefs <- countTokens lexer.Dollar fuel 0 ;;
          consume ;;;
          match derivedType with
          | ast.ArrayTypeNode elem _ =>
              indexExpression <- parseExpression fuel' lexer.RBracket ;;
              expect lexer.RBracket ;;;
              let target := ast.ArrayAccess target indexExpression
                                            (ast.isSigned derivedType) derivedType in
              '(target, derivedType) <- applyDrefs memDrefs target elem ;;
              parsePostfix fuel' addressOf target derivedType
          | ast.PointerTypeNode pointee =>
              indexExpression <- parseExpression fuel' lexer.RBracket ;;
              expect lexer.RBracket ;;;
              let target := ast.PtrIndexAccess target indexExpression
                                               (ast.isSigned derivedType) derivedType in
              '(target, derivedType) <- applyDrefs memDrefs target pointee ;;
              parsePostfix fuel' addressOf target derivedType
          | _ => emitSemanticError
                   "Cannot apply subscript operator to non-array/non-pointer type"
          end
        else
          ret (if addressOf then ast.AddressOf target (ast.isSigned derivedType)
               else target, derivedType)
  end

(** [while (lexer_->peek().type != RParen) { functionArgs.emplace_back(
    parseExpression(Comma)); if (lexer_->peek().type == Comma)
    lexer_->consume(); }] *)
with parseArgs (fuel : nat) (functionArgs : list ast.ExpressionNode)
  : PM (list ast.ExpressionNode) :=
  match fuel with
  | O => abort OutOfFuel
  | S fuel' =>
      ty <- peekType ;;
      if negb (lexer.TokenType_beq ty lexer.RParen) then
        arg <- parseExpression fuel' lexer.Comma ;;
        ty' <- peekType ;;
        (if lexer.TokenType_beq ty' lexer.Comma then consume ;;; ret tt else ret tt) ;;;
        parseArgs fuel' (functionArgs ++ [arg])
      else ret functionArgs
  end

with parsePrimaryExpression (fuel : nat) (terminator : lexer.TokenType)
  : PM ast.ExpressionNode :=
  match fuel with
  | O => abort OutOfFuel
  | S fuel' =>
      ty <- peekType ;;
      match ty with
      | lexer.IntLit =>
          tok <- expect lexer.IntLit ;;
          let intStr := lexer.src tok in
          v <- liftRes (stoi intStr (literalBase intStr)) ;;
          ret (ast.IntLiteral v)
      | lexer.StringLit =>
          tok <- expect lexer.StringLit ;;
          ret (ast.StringLiteral (lexer.src tok))
      | lexer.FloatLit =>
          tok <- expect lexer.FloatLit ;;
          ret (ast.FloatLiteral (ast.stof (lexer.src tok)))
      | lexer.Minus =>
          consume ;;;
          isFloat <- peekT lexer.FloatLit 0 ;;
          if isFloat then
            tok <- expect lexer.FloatLit ;;
            ret (ast.FloatLiteral (ast.negated (ast.stof (lexer.src tok))))
          else
            tok <- expect lexer.IntLit ;;
            let intStr := lexer.src tok in
            v <- liftRes (stoi intStr (literalBase intStr)) ;;
            ret (ast.IntLiteral (0 - v))
      | lexer.Ampersand | lexer.Dollar | lexer.Identifier =>
          isCall <- peekT lexer.LParen 1 ;;
          if isCall then
            nameToken <- expect lexer.Identifier ;;
            validateIdentifier (lexer.src nameToken) ;;;
            let name := lexer.src nameToken in
            expect lexer.LParen ;;;
            functionArgs <- parseArgs fuel' [] ;;
            consume ;;;
            functionReturnType <- lookupFunctionReturnType name ;;
            match functionReturnType with
            | None => emitSemanticError ("Call to undefined function '" ++ name ++ "'")
            | Some rt =>
                checkInstanceCall name ;;;
                ret (ast.FunctionCall name functionArgs (ast.isSigned rt))
            end
          else
            isId <- peekT lexer.Identifier 0 ;;
            tok <- peek 0 ;;
            intDef <- gets (fun p => smap.find (lexer.src tok) (intDefs_ p)) ;;
            match isId, intDef with
            | true, Some v => expect lexer.Identifier ;;; ret (ast.IntLiteral v)
            | _, _ => '(e, _) <- parseValue fuel' ;; ret e
            end
      | lexer.LParen =>
          expect lexer.LParen ;;;
          expr <- parseExpression fuel' lexer.RParen ;;
          expect lexer.RParen ;;;
          ret expr
      | _ => emitSyntaxError "Unexpected token in expression"
      end
  end

with parseBinaryOpRHS (fuel : nat) (exprPrec : Z) (lhs : ast.ExpressionNode)
                      (terminator : lexer.TokenType) : PM ast.ExpressionNode :=
  match fuel with
  | O => abort OutOfFuel
  | S fuel' =>
      stop <- isTerminator terminator ;;
      if stop then ret lhs
      else
        tokType <- peekType ;;
        nextIsEquals <- peekT lexer.Equals 1 ;;
        (if lexer.TokenType_beq tokType lexer.Equals && negb nextIsEquals
         then emitSemanticError
                "Variable assignment is not an expression, did you mean '=='?"
         else ret tt) ;;;
        let tokPrec := getOperatorPrecedence tokType in
        if (tokPrec <? exprPrec)%Z then ret lhs
        else
          (if lexer.TokenType_beq tokType lexer.Equals
           then consume ;;; consume ;;; ret tt
           else consume ;;; ret tt) ;;;
          rhs <- parsePrimaryExpression fuel' terminator ;;
          nextTokType <- peekType ;;
          stop' <- isTerminator terminator ;;
          rhs <- (if stop' then ret rhs
                  else
                    nextIsEquals' <- (if lexer.TokenType_beq nextTokType lexer.Equals
                                      then peekT lexer.Equals 1 else ret true) ;;
                    if lexer.TokenType_beq nextTokType lexer.Equals && negb nextIsEquals'
                    then ret rhs
                    else
                      let nextPrec := getOperatorPrecedence nextTokType in
                      if (tokPrec <? nextPrec)%Z
                      then parseBinaryOpRHS fuel' (tokPrec + 1)%Z rhs terminator
                      else ret rhs) ;;
          (if negb (Bool.eqb (ast.exprIsSigned lhs) (ast.exprIsSigned rhs))
           then emitSemanticError
                  "Cannot create binary operation with types of different signedness"
           else ret tt) ;;;
          op <- tokenToBinaryOp tokType ;;
          parseBinaryOpRHS fuel' exprPrec
            (ast.BinaryOperation op lhs rhs (ast.exprIsSigned lhs)) terminator
  end

with parseExpression (fuel : nat) (terminator : lexer.TokenType)
  : PM ast.ExpressionNode :=
  match fuel with
  | O => abort OutOfFuel
  | S fuel' =>
      lhs <- parsePrimaryExpression fuel' terminator ;;
      parseBinaryOpRHS fuel' 0%Z lhs terminator
  end.

(** [parseStatement] and its loops over the statements of a block:
    [parseBlock true] is [while (!peekT(Else) && !peekT(RBrace))],
    [parseBlock false] is [while (!peekT(RBrace))]. *)
Fixpoint parseStatement (fuel : nat) : PM ast.StatementNode :=
  match fuel with
  | O => abort OutOfFuel
  | S fuel' =>
      ty <- peekType ;;
      match ty with
      | lexer.Return =>
          consume ;;;
          isSemi <- peekT lexer.Semi 0 ;;
          if isSemi then consume ;;; ret (ast.Return None)
          else
            returnValue <- parseExpression fuel' lexer.Semi ;;
            expect lexer.Semi ;;;
            ret (ast.Return (Some returnValue))
      | lexer.If =>
          consume ;;;
          expect lexer.LParen ;;;
          condition <- parseExpression fuel' lexer.RParen ;;
          expect lexer.RParen ;;;
          expect lexer.LBrace ;;;
          trueBody <- parseBlock fuel' true [] ;;
          expect lexer.RBrace ;;;
          isElse <- peekT lexer.Else 0 ;;
          if isElse then
            consume ;;;
            falseBody <- parseBlock fuel' false [] ;;
            expect lexer.RBrace ;;;
            ret (ast.If condition trueBody (Some falseBody))
          else ret (ast.If condition trueBody None)
      | lexer.While =>
          consume ;;;
          expect lexer.LParen ;;;
          condition <- parseExpression fuel' lexer.RParen ;;
          expect lexer.RParen ;;;
          expect lexer.LBrace ;;;
          body <- parseBlock fuel' false [] ;;
          expect lexer.RBrace ;;;
          ret (ast.While condition body)
      | _ =>
          type <- parseType fuel ;;
          match type with
          | Some declared =>
              nameToken <- expect lexer.Identifier ;;
              validateIdentifier (lexer.src nameToken) ;;;
              let name := lexer.src nameToken in
              isInit <- peekT lexer.Equals 0 ;;
              initialValue <- (if isInit then
                                 consume ;;;
                                 e <- parseExpression fuel' lexer.Semi ;;
                                 ret (Some e)
                               else ret None) ;;
              expect lexer.Semi ;;;
              indexVariableType name (Some declared) ;;;
              ret (ast.VariableDeclaration declared name initialValue)
          | None =>
              isId <- peekT lexer.Identifier 0 ;;
              isCall <- (if isId then peekT lexer.LParen 1 else ret false) ;;
              if isCall then
                nameToken <- expect lexer.Identifier ;;
                validateIdentifier (lexer.src nameToken) ;;;
                let name := lexer.src nameToken in
                expect lexer.LParen ;;;
                functionArgs <- parseArgs fuel' [] ;;
                consume ;;;
                expect lexer.Semi ;;;
                functionReturnType <- lookupFunctionReturnType name ;;
                match functionReturnType with
                | None => emitSemanticError ("Call to undefined function '" ++ name ++ "'")
                | Some rt =>
                    checkInstanceCall name ;;;
                    ret (ast.ExpressionStatement
                           (ast.FunctionCall name functionArgs (ast.isSigned rt)))
                end
              else
                '(target, derivedType) <- parseValue fuel' ;;
                if ast.isFunctionCall target then
                  expect lexer.Semi ;;;
                  ret (ast.ExpressionStatement target)
                else
                  expect lexer.Equals ;;;
                  newValue <- parseExpression fuel' lexer.Semi ;;
                  expect lexer.Semi ;;;
                  ret (ast.AssignmentStatement target newValue)
          end
      end
  end

with parseBlock (fuel : nat) (stopAtElse : bool) (body : list ast.StatementNode)
  : PM (list ast.StatementNode) :=
  match fuel with
  | O => abort OutOfFuel
  | S fuel' =>
      isElse <- (if stopAtElse then peekT lexer.Else 0 else ret false) ;;
      isClose <- (if isElse then ret false else peekT lexer.RBrace 0) ;;
      if negb isElse && negb isClose then
        stmt <- parseStatement fuel' ;;
        parseBlock fuel' stopAtElse (body ++ [stmt])
      else ret body
  end.

(** *** Functions, classes and files (function.cpp, parser.cpp) *)

(** The loop of [parseFunction] over the declared parameters. *)
Fixpoint parseParams (fuel : nat) (params : list (string * option ast.TypeNode))
  : PM (list (string * option ast.TypeNode)) :=
  match fuel with
  | O => abort OutOfFuel
  | S fuel' =>
      ty <- peekType ;;
      if negb (lexer.TokenType_beq ty lexer.RParen) then
        paramType <- parseType fuel ;;
        token <- expect lexer.Identifier ;;
        validateIdentifier (lexer.src token) ;;;
        isComma <- peekT lexer.Comma 0 ;;
        (if isComma then consume ;;; ret tt else ret tt) ;;;
        parseParams fuel' (params ++ [(lexer.src token, paramType)])
      else ret params
  end.

(** [for (const auto &param : params) indexVariableType(param.first,
    param.second);] *)
Fixpoint indexParams (params : list (string * option ast.TypeNode)) : PM unit :=
  match params with
  | [] => ret tt
  | (name, type) :: r => indexVariableType name type ;;; indexParams r
  end.

Definition parseFunction (fuel : nat) : PM ast.FunctionNode :=
  className <- gets currentClassName_ ;;
  let isDetached := String.eqb className "" in
  type <- parseType fuel ;;
  nameToken <- expect lexer.Identifier ;;
  validateIdentifier (lexer.src nameToken) ;;;
  let baseName := lexer.src nameToken in
  let name := if isDetached then baseName
              else if negb (String.eqb className "")
                   then (className ++ "_" ++ baseName)%string
                   else baseName in
  expect lexer.LParen ;;;
  (* add 'this' parameter for non-detached member functions *)
  params <- (if negb isDetached && negb (String.eqb className "") then
               thisType <- getTypeNode className ;;
               match thisType with
               | Some ty => ret [("this", Some (ast.PointerTypeNode ty))]
               | None => ret []
               end
             else ret []) ;;
  params <- parseParams fuel params ;;
  expect lexer.RParen ;;;
  next <- consume ;;
  body <- (if lexer.TokenType_beq (lexer.type next) lexer.LBrace then
             pushScope ;;;
             indexParams params ;;;
             stmts <- parseBlock fuel false [] ;;
             expect lexer.RBrace ;;;
             popScope ;;;
             ret (Some stmts)
           else ret None) ;;
  ret (ast.mkFunctionNode name type true params body isDetached).

(** The loop of [parseClass] that skips the parameters of a function. *)
Fixpoint skipParams (fuel : nat) : PM unit :=
  match fuel with
  | O => abort OutOfFuel
  | S fuel' =>
      ty <- peekType ;;
      if negb (lexer.TokenType_beq ty lexer.RParen) then
        (if negb (lexer.TokenType_beq ty lexer.RParen)
            && negb (lexer.TokenType_beq ty lexer.Comma)
         then
           parseType fuel ;;;
           token <- expect lexer.Identifier ;;
           validateIdentifier (lexer.src token)
         else ret tt) ;;;
        isComma <- peekT lexer.Comma 0 ;;
        (if isComma then consume ;;; ret tt else ret tt) ;;;
        skipParams fuel'
      else ret tt
  end.

(** [while (braceDepth > 0 && lexer_->peek().type != EndOfFile) { ... }] *)
Fixpoint skipBody (fuel : nat) (braceDepth : Z) : PM unit :=
  match fuel with
  | O => abort OutOfFuel
  | S fuel' =>
      if (0 <? braceDepth)%Z then
        ty <- peekType ;;
        if negb (lexer.TokenType_beq ty lexer.EndOfFile) then
          let braceDepth :=
            if lexer.TokenType_beq ty lexer.LBrace then (braceDepth + 1)%Z
            else if lexer.TokenType_beq ty lexer.RBrace then (braceDepth - 1)%Z
            else braceDepth in
          consume ;;;
          skipBody fuel' braceDepth
        else ret tt
      else ret tt
  end.

(** The first pass of [parseClass]: the loop that fills [members]. *)
Fixpoint parseMembers (fuel : nat) (members : smap.t (option ast.TypeNode))
  : PM (smap.t (option ast.TypeNode)) :=
  match fuel with
  | O => abort OutOfFuel
  | S fuel' =>
      ty <- peekType ;;
      if negb (lexer.TokenType_beq ty lexer.EndOfFile)
         && negb (lexer.TokenType_beq ty lexer.RBrace) then
        type <- parseType fuel ;;
        token <- expect lexer.Identifier ;;
        validateIdentifier (lexer.src token) ;;;
        isFunction <- peekT lexer.LParen 0 ;;
        if negb isFunction then
          expect lexer.Semi ;;;
          parseMembers fuel' (smap.assign (lexer.src token) type members)
        else
          expect lexer.LParen ;;;
          skipParams fuel ;;;
          expect lexer.RParen ;;;
          hasBody <- peekT lexer.LBrace 0 ;;
          (if hasBody then consume ;;; skipBody fuel 1%Z
           else expect lexer.Semi ;;; ret tt) ;;;
          parseMembers fuel' members
      else ret members
  end.

(** [classRef->getDecl()->addMembers(members)] *)
Fixpoint updateClass (decl : nat) (f : ast.ClassNode -> ast.ClassNode)
         (cs : list ast.ClassNode) : list ast.ClassNode :=
  match cs, decl with
  | [], _ => []
  | c :: r, O => f c :: r
  | c :: r, S n => c :: updateClass n f r
  end.

(** The block of [parseClass] commented "create struct for data members". *)
Definition closeClass (members : smap.t (option ast.TypeNode)) : PM unit :=
  className <- gets currentClassName_ ;;
  if negb (String.eqb className "") && negb (Nat.eqb (length members) 0) then
    existingType <- getTypeNode className ;;
    match existingType with
    | Some existing =>
        match asClassReferenceNode (Some existing) with
        | Some decl =>
            modify (fun p => set_classes
                               (updateClass decl (ast.addMembers members) (classes_ p)) p)
        | None => ret tt
        end
    | None =>
        decl <- gets (fun p => length (classes_ p)) ;;
        modify (fun p => set_classes
                           (classes_ p ++ [ast.mkClassNode className members]) p) ;;;
        registerStructType className decl
    end
  else ret tt.

(** [Parser::parseFunctions]: the second pass over a class body. *)
Fixpoint parseFunctions (fuel : nat) : PM unit :=
  match fuel with
  | O => abort OutOfFuel
  | S fuel' =>
      ty <- peekType ;;
      if negb (lexer.TokenType_beq ty lexer.EndOfFile)
         && negb (lexer.TokenType_beq ty lexer.RBrace) then
        (if lexer.TokenType_beq ty lexer.Typedef then consume ;;; ret tt else ret tt) ;;;
        len <- getNextTypeLength fuel ;;
        isFunction <- peekT lexer.LParen (len + 1) ;;
        if isFunction then
          f <- parseFunction fuel ;;
          modify (fun p => set_functions (functions_ p ++ [f]) p) ;;;
          parseFunctions fuel'
        else
          parseType fuel ;;;
          expect lexer.Identifier ;;;
          expect lexer.Semi ;;;
          parseFunctions fuel'
      else ret tt
  end.

Definition parseClass (fuel : nat) : PM unit :=
  savedState <- liftL (gets lexer.saveState) ;;
  members <- parseMembers fuel smap.empty ;;
  closeClass members ;;;
  liftL (modify (lexer.restoreState savedState)) ;;;
  parseFunctions fuel.

(** Modelled from the spec: [Parser::insertIntDef] and the table
    [intDefs_] are not declared in parser.hpp; the spec describes the
    extension as one that "maps an identifier to a compile-time integer
    constant usable in expression context". *)
Definition insertIntDef (alias : string) (targetInt : Z) : PM unit :=
  modify (fun p => set_intDefs (smap.insert alias targetInt (intDefs_ p)) p).

(** [Parser::parseFile] *)
Fixpoint parseFile (fuel : nat) : PM unit :=
  match fuel with
  | O => abort OutOfFuel
  | S fuel' =>
      ty <- peekType ;;
      if negb (lexer.TokenType_beq ty lexer.EndOfFile) then
        match ty with
        | lexer.Import =>
            consume ;;;
            expect lexer.StringLit ;;;
            expect lexer.Semi ;;;
            ret tt
        | lexer.Typedef =>
            expect lexer.Typedef ;;;
            aliasTok <- expect lexer.Identifier ;;
            targetTok <- expect lexer.Identifier ;;
            insertTypeDef (lexer.src aliasTok) (lexer.src targetTok) ;;;
            expect lexer.Semi ;;;
            ret tt
        | lexer.Intdef =>
            expect lexer.Intdef ;;;
            aliasTok <- expect lexer.Identifier ;;
            intTok <- expect lexer.IntLit ;;
            let intStr := lexer.src intTok in
            targetInt <- liftRes (stoi intStr (literalBase intStr)) ;;
            insertIntDef (lexer.src aliasTok) targetInt ;;;
            expect lexer.Semi ;;;
            ret tt
        | lexer.Class =>
            consume ;;;
            classNameToken <- expect lexer.Identifier ;;
            validateIdentifier (lexer.src classNameToken) ;;;
            modify (set_currentClassName (lexer.src classNameToken)) ;;;
            expect lexer.LBrace ;;;
            parseClass fuel ;;;
            expect lexer.RBrace ;;;
            modify (set_currentClassName "")
        | _ =>
            f <- parseFunction fuel ;;
            modify (fun p => set_functions (functions_ p ++ [f]) p)
        end ;;;
        parseFile fuel'
      else ret tt
  end.

(** *** Imports ([Parser::parse], [Parser::processImports])

    [std::filesystem] and [std::ifstream] are the outside world of the
    parser.  A disk is the list of its files, each under its canonical path
    with its text; [resolve] is the path an import names, seen from the
    importing file (the importing file's directory joined with a relative
    path); [canonical] is [std::filesystem::canonical]. *)
Record FileSystem := mkFileSystem {
  resolve : string -> string -> string;
  canonical : string -> string;
  disk : list (string * string)
}.

Fixpoint readDisk (path : string) (d : list (string * string)) : option string :=
  match d with
  | [] => None
  | (k, text) :: r => if String.eqb path k then Some text else readDisk path r
  end.

(** [std::filesystem::exists] *)
Definition fileExists (fs : FileSystem) (path : string) : bool :=
  match readDisk (canonical fs path) (disk fs) with
  | Some _ => true
  | None => false
  end.

(** The text read through [std::ifstream in(path)]. *)
Definition fileText (fs : FileSystem) (path : string) : string :=
  match readDisk (canonical fs path) (disk fs) with
  | Some text => text
  | None => ""
  end.

(** Import processing.  [None] is the outcome of a run that was given too
    little fuel; the parser of one file is a parameter, so that what is
    said of the traversal of the import graph holds whatever it does. *)
Section Imports.

Variable fs : FileSystem.
Variable parseFile_ : PM unit.

Definition IM (A : Type) := Parser -> option (Res (A * Parser)).

Definition now_ {A} (m : PM A) : IM A := fun p => Some (m p).

Definition outOfFuel {A} : IM A := fun _ => None.

Definition andThen {A B} (m : IM A) (k : A -> IM B) : IM B :=
  fun p => match m p with
           | None => None
           | Some (Abort e) => Some (Abort e)
           | Some (Ok (a, p')) => k a p'
           end.

(** The statement [import "file";], giving the text of the literal. *)
Definition importStatement : PM string :=
  consume ;;;
  tok <- expect lexer.StringLit ;;
  expect lexer.Semi ;;;
  ret (lexer.src tok).

(** [lexer_ = std::make_shared<lexer::Lexer>(sourceCode); currentFileName_ =
    canonicalPath;] *)
Definition enterFile (sourceCode canonicalPath : string) (p : Parser) : Parser :=
  set_currentFileName canonicalPath (set_lexer (lexer.new sourceCode) p).

(** [lexer_ = savedLexer; currentFileName_ = savedFileName;] *)
Definition leaveFile (savedLexer : lexer.Lexer) (savedFileName : string)
           (p : Parser) : Parser :=
  set_currentFileName savedFileName (set_lexer savedLexer p).

(** [Parser::processImports].  [savedLexer] is a second pointer to the lexer
    object that [lexer_] points to, so it refers to that lexer as the
    [import] statement left it; the object is not touched while [lexer_]
    points to the lexer of the imported file. *)
Fixpoint processImports (fuel : nat) : IM unit :=
  match fuel with
  | O => outOfFuel
  | S fuel' =>
      andThen (now_ (gets currentFileName_)) (fun savedFileName =>
      andThen (now_ (peekT lexer.EndOfFile 0)) (fun isEnd =>
      if isEnd then now_ (ret tt)
      else
      andThen (now_ (peekT lexer.Import 0)) (fun isImport =>
      if negb isImport then now_ (ret tt)
      else
      andThen (now_ importStatement) (fun importFile =>
      let importPath := resolve fs savedFileName importFile in
      if negb (fileExists fs importPath) then
        now_ (emitSemanticError ("Cannot import nonexistent file: '"
                                 ++ importFile ++ "'"))
      else
      let canonicalPath := canonical fs importPath in
      andThen (now_ (gets importedFiles_)) (fun imported =>
      if sset.mem canonicalPath imported then processImports fuel'
      else
      andThen (now_ (modify (set_importedFiles (sset.insert canonicalPath imported))))
              (fun _ =>
      andThen (now_ (gets lexer_)) (fun savedLexer =>
      andThen (now_ (modify (enterFile (fileText fs importPath) canonicalPath)))
              (fun _ =>
      andThen (processImports fuel') (fun _ =>
      andThen (now_ parseFile_) (fun _ =>
      andThen (now_ (modify (leaveFile savedLexer savedFileName))) (fun _ =>
      processImports fuel')))))))))))
  end.

(** [importedFiles_.insert(std::filesystem::canonical(rootFilePath_).string())];
    [canonical] throws when the file does not exist. *)
Definition insertRoot : PM unit :=
  root <- gets rootFilePath_ ;;
  if negb (String.eqb root "") then
    if fileExists fs root then
      modify (fun q => set_importedFiles
                         (sset.insert (canonical fs root) (importedFiles_ q)) q)
    else abort FilesystemError
  else ret tt.

(** [Parser::parse] *)
Definition parse (fuel : nat) : IM unit :=
  andThen (now_ (modify (fun p => enterFile (sourceCode_ p) (rootFilePath_ p) p)))
          (fun _ =>
  andThen (now_ insertRoot) (fun _ =>
  andThen (processImports fuel) (fun _ =>
  now_ parseFile_))).

End Imports.

End parser.

(** ** LLVM IR, as far as the IR builder uses it

    Every [IRBuilder::Create...] call is recorded as one instruction appended
    to the block at the insertion point.  (LLVM's constant folder, which can
    answer a request on constants with a constant, is not part of the
    model.) *)

Module llvm.

Inductive Type_ :=
| VoidTy
| IntegerTy (bits : nat)
| HalfTy | FloatTy | DoubleTy | FP128Ty
| PointerTy
| ArrayTy (element : Type_) (numElements : Z)
| StructTy (name : string).

Fixpoint Type_beq (a b : Type_) : bool :=
  match a, b with
  | VoidTy, VoidTy => true
  | IntegerTy n, IntegerTy m => Nat.eqb n m
  | HalfTy, HalfTy | FloatTy, FloatTy | DoubleTy, DoubleTy | FP128Ty, FP128Ty => true
  | PointerTy, PointerTy => true
  | ArrayTy e n, ArrayTy e' n' => Type_beq e e' && Z.eqb n n'
  | StructTy n, StructTy m => String.eqb n m
  | _, _ => false
  end.

Definition isIntegerTy (t : Type_) : bool :=
  match t with IntegerTy _ => true | _ => false end.
Definition isPointerTy (t : Type_) : bool :=
  match t with PointerTy => true | _ => false end.
Definition isVoidTy (t : Type_) : bool :=
  match t with VoidTy => true | _ => false end.

(** [llvm::Value]: what an operand is, with what [getType] needs. *)
Inductive Value :=
| Argument (index : nat) (ty : Type_)
| ConstantInt (bits : nat) (value : Z)
| ConstantFP (value : ast.FloatValue)
| GlobalString (text : string)
| AllocaInst (id : nat) (allocatedType : Type_)
| GetElementPtrInst (id : nat) (resultElementType : Type_)
| Instruction (id : nat) (ty : Type_).

Definition getType (v : Value) : Type_ :=
  match v with
  | Argument _ ty => ty
  | ConstantInt bits _ => IntegerTy bits
  | ConstantFP _ => FloatTy
  | GlobalString _ => PointerTy
  | AllocaInst _ _ => PointerTy
  | GetElementPtrInst _ _ => PointerTy
  | Instruction _ ty => ty
  end.

Inductive BinaryOp := Add | Sub | Mul | UDiv.
Inductive Predicate := ICMP_ULT | ICMP_UGT | ICMP_EQ.
Inductive CastOp := SExt | ZExt | Trunc.

(** The instructions the builder is asked for; [result] is the value the
    request returns. *)
Inductive Instr :=
| Alloca (result : Value) (name : string)
| Store (val ptr : Value)
| Load (result : Value) (ptr : Value) (name : string)
| GEP (result : Value) (sourceElementType : Type_) (ptr : Value)
      (indices : list Value) (name : string)
| Cast (op : CastOp) (result : Value) (val : Value)
| Neg (result : Value) (val : Value)
| Binary (op : BinaryOp) (result : Value) (lhs rhs : Value)
| ICmp (pred : Predicate) (result : Value) (lhs rhs : Value)
| Call (result : Value) (callee : string) (args : list Value)
| Ret (val : option Value)
| Br (dest : nat)
| CondBr (cond : Value) (ifTrue ifFalse : nat).

(** [Instruction::isTerminator] *)
Definition isTerminator (i : Instr) : bool :=
  match i with
  | Ret _ | Br _ | CondBr _ _ _ => true
  | _ => false
  end.

(** [llvm::BasicBlock]: its name and its instructions, first to last. *)
Record BasicBlock := mkBasicBlock {
  bb_name : string;
  instructions : list Instr
}.

(** [BasicBlock::getTerminator]: the last instruction when it is a
    terminator. *)
Definition getTerminator (b : BasicBlock) : option Instr :=
  match last (map Some (instructions b)) None with
  | Some i => if isTerminator i then Some i else None
  | None => None
  end.

Inductive Linkage := ExternalLinkage | InternalLinkage.

(** [llvm::Function]: its name, type and linkage as handed to
    [Function::Create], the names set on its arguments, its blocks in the
    order of their creation. *)
Record Function := mkFunction {
  f_name : string;
  returnType : Type_;
  paramTypes : list Type_;
  linkage : Linkage;
  argNames : list string;
  blocks : list BasicBlock
}.

End llvm.

(** ** The IR builder (nodes/context.hpp and the codegen sources) *)

Module codegen.

(** [struct CodegenContext].  [functions] is the function list of the
    module; the builder inserts into block [insertBlock] of the function
    [insertFunction].  [bodies] holds what [StructType::setBody] was given.
    [classes] is the AST's table of class declarations, which the class
    handles of the type nodes refer to.  The stack [scopes] is held from
    [back()] to [front()]; an [AllocaInst *] in it is the identifier of the
    instruction with its allocated type. *)
Record CodegenContext := mkContext {
  classes : list ast.ClassNode;
  functions : list llvm.Function;
  insertFunction : nat;
  insertBlock : option nat;
  scopes : list (smap.t (nat * llvm.Type_));
  namedStructs : smap.t (llvm.Type_ * list string);
  bodies : smap.t (list llvm.Type_);
  globals : list string;
  nextId : nat
}.

Definition CG := M CodegenContext.

Definition set_functions (x : list llvm.Function) (c : CodegenContext) :=
  mkContext (classes c) x (insertFunction c) (insertBlock c) (scopes c)
            (namedStructs c) (bodies c) (globals c) (nextId c).
Definition set_insertPoint (f : nat) (b : option nat) (c : CodegenContext) :=
  mkContext (classes c) (functions c) f b (scopes c)
            (namedStructs c) (bodies c) (globals c) (nextId c).
Definition set_scopes (x : list (smap.t (nat * llvm.Type_))) (c : CodegenContext) :=
  mkContext (classes c) (functions c) (insertFunction c) (insertBlock c) x
            (namedStructs c) (bodies c) (globals c) (nextId c).
Definition set_namedStructs (x : smap.t (llvm.Type_ * list string)) (c : CodegenContext) :=
  mkContext (classes c) (functions c) (insertFunction c) (insertBlock c) (scopes c)
            x (bodies c) (globals c) (nextId c).
Definition set_bodies (x : smap.t (list llvm.Type_)) (c : CodegenContext) :=
  mkContext (classes c) (functions c) (insertFunction c) (insertBlock c) (scopes c)
            (namedStructs c) x (globals c) (nextId c).
Definition set_globals (x : list string) (c : CodegenContext) :=
  mkContext (classes c) (functions c) (insertFunction c) (insertBlock c) (scopes c)
            (namedStructs c) (bodies c) x (nextId c).
Definition set_nextId (x : nat) (c : CodegenContext) :=
  mkContext (classes c) (functions c) (insertFunction c) (insertBlock c) (scopes c)
            (namedStructs c) (bodies c) (globals c) x.

(** The context the driver starts from, for the classes parsed. *)
Definition new (cs : list ast.ClassNode) : CodegenContext :=
  mkContext cs [] 0 None [] smap.empty smap.empty [] 0.

Definition reportError {A} (kind : error.ErrorType) (msg : string) : CG A :=
  abort (Fatal kind msg).

Definition fresh : CG nat :=
  id <- gets nextId ;;
  modify (set_nextId (S id)) ;;;
  ret id.

Fixpoint updateNth {A} (n : nat) (f : A -> A) (l : list A) : list A :=
  match l, n with
  | [], _ => []
  | x :: r, O => f x :: r
  | x :: r, S m => x :: updateNth m f r
  end.

Definition appendInstr (i : llvm.Instr) (b : llvm.BasicBlock) : llvm.BasicBlock :=
  llvm.mkBasicBlock (llvm.bb_name b) (llvm.instructions b ++ [i]).

Definition withBlocks (g : list llvm.BasicBlock -> list llvm.BasicBlock)
           (f : llvm.Function) : llvm.Function :=
  llvm.mkFunction (llvm.f_name f) (llvm.returnType f) (llvm.paramTypes f)
                  (llvm.linkage f) (llvm.argNames f) (g (llvm.blocks f)).

(** Insertion of an instruction at the insertion point (nothing is
    inserted while the builder has no insertion point). *)
Definition insertAt (i : llvm.Instr) (c : CodegenContext) : CodegenContext :=
  match insertBlock c with
  | Some b =>
      set_functions (updateNth (insertFunction c)
                               (withBlocks (updateNth b (appendInstr i)))
                               (functions c)) c
  | None => c
  end.

Definition emit (i : llvm.Instr) : CG unit := modify (insertAt i).

(** [BasicBlock::Create(ctx.llvmContext, name, parentFunction)]: the new
    block goes to the end of the function's block list. *)
Definition currentFunction (c : CodegenContext) : option llvm.Function :=
  nth_error (functions c) (insertFunction c).

Definition addBlock (name : string) (c : CodegenContext) : CodegenContext :=
  set_functions (updateNth (insertFunction c)
                           (withBlocks (fun bs => bs ++ [llvm.mkBasicBlock name []]))
                           (functions c)) c.

Definition createBlock (name : string) : CG nat :=
  c <- get ;;
  f <- fromOption (currentFunction c) NullDeref ;;
  modify (addBlock name) ;;;
  ret (length (llvm.blocks f)).

Definition SetInsertPoint (b : nat) : CG unit :=
  modify (fun c => set_insertPoint (insertFunction c) (Some b) c).

(** [ctx.builder.GetInsertBlock()], dereferenced. *)
Definition currentBlock (c : CodegenContext) : option llvm.BasicBlock :=
  match insertBlock c, currentFunction c with
  | Some b, Some f => nth_error (llvm.blocks f) b
  | _, _ => None
  end.

Definition GetInsertBlock : CG llvm.BasicBlock :=
  c <- get ;;
  fromOption (currentBlock c) NullDeref.

Definition hasTerminator : CG bool :=
  blk <- GetInsertBlock ;;
  ret (match llvm.getTerminator blk with Some _ => true | None => false end).

Definition getCurrentFunctionReturnType : CG llvm.Type_ :=
  c <- get ;;
  f <- fromOption (currentFunction c) NullDeref ;;
  ret (llvm.returnType f).

Definition pushScope : CG unit :=
  modify (fun c => set_scopes (smap.empty :: scopes c) c).
Definition popScope : CG unit :=
  modify (fun c => set_scopes (tl (scopes c)) c).

Definition declareVariable (name : string) (alloca : nat * llvm.Type_) : CG unit :=
  ss <- gets scopes ;;
  match ss with
  | top :: rest => modify (set_scopes (smap.assign name alloca top :: rest))
  | [] => abort NullDeref
  end.

Fixpoint lookupIn (name : string) (ss : list (smap.t (nat * llvm.Type_)))
  : option (nat * llvm.Type_) :=
  match ss with
  | [] => None
  | s :: r => match smap.find name s with
              | Some found => Some found
              | None => lookupIn name r
              end
  end.

Definition lookupVariable (name : string) : CG (option (nat * llvm.Type_)) :=
  gets (fun c => lookupIn name (scopes c)).

(** The builder requests used by the sources. *)
Definition CreateAlloca (ty : llvm.Type_) (name : string) : CG (nat * llvm.Type_) :=
  id <- fresh ;;
  emit (llvm.Alloca (llvm.AllocaInst id ty) name) ;;; ret (id, ty).

Definition allocaValue (a : nat * llvm.Type_) : llvm.Value :=
  llvm.AllocaInst (fst a) (snd a).

Definition CreateStore (val ptr : llvm.Value) : CG unit :=
  emit (llvm.Store val ptr).

Definition CreateLoad (ty : llvm.Type_) (ptr : llvm.Value) (name : string) : CG llvm.Value :=
  id <- fresh ;;
  let v := llvm.Instruction id ty in
  emit (llvm.Load v ptr name) ;;; ret v.

Definition CreateGEP (ty resultElementType : llvm.Type_) (ptr : llvm.Value)
           (indices : list llvm.Value) (name : string) : CG llvm.Value :=
  id <- fresh ;;
  let v := llvm.GetElementPtrInst id resultElementType in
  emit (llvm.GEP v ty ptr indices name) ;;; ret v.

Definition CreateCast (op : llvm.CastOp) (val : llvm.Value) (ty : llvm.Type_)
  : CG llvm.Value :=
  id <- fresh ;;
  let v := llvm.Instruction id ty in
  emit (llvm.Cast op v val) ;;; ret v.

Definition CreateNeg (val : llvm.Value) : CG llvm.Value :=
  id <- fresh ;;
  let v := llvm.Instruction id (llvm.getType val) in
  emit (llvm.Neg v val) ;;; ret v.

Definition CreateBinary (op : llvm.BinaryOp) (l r : llvm.Value) : CG llvm.Value :=
  id <- fresh ;;
  let v := llvm.Instruction id (llvm.getType l) in
  emit (llvm.Binary op v l r) ;;; ret v.

Definition CreateICmp (pred : llvm.Predicate) (l r : llvm.Value) : CG llvm.Value :=
  id <- fresh ;;
  let v := llvm.Instruction id (llvm.IntegerTy 1) in
  emit (llvm.ICmp pred v l r) ;;; ret v.

Definition CreateCall (callee : llvm.Function) (args : list llvm.Value) : CG llvm.Value :=
  id <- fresh ;;
  let v := llvm.Instruction id (llvm.returnType callee) in
  emit (llvm.Call v (llvm.f_name callee) args) ;;; ret v.

Definition CreateRet (v : llvm.Value) : CG unit := emit (llvm.Ret (Some v)).
Definition CreateRetVoid : CG unit := emit (llvm.Ret None).
Definition CreateBr (dest : nat) : CG unit := emit (llvm.Br dest).
Definition CreateCondBr (cond : llvm.Value) (t f : nat) : CG unit :=
  emit (llvm.CondBr cond t f).

(** [CodegenContext::convertIfNeeded] (values and types are never null
    where it is called). *)
Definition convertIfNeeded (value : llvm.Value) (targetType : llvm.Type_)
           (isSigned : bool) : CG llvm.Value :=
  let valueType := llvm.getType value in
  if llvm.Type_beq valueType targetType then ret value
  else
    match valueType, targetType with
    | llvm.IntegerTy valueBits, llvm.IntegerTy targetBits =>
        if valueBits <? targetBits then
          if isSigned then CreateCast llvm.SExt value targetType
          else CreateCast llvm.ZExt value targetType
        else if targetBits <? valueBits then CreateCast llvm.Trunc value targetType
        else ret value
    | _, _ => ret value
    end.

Definition checkTypeCompatible (t1 t2 : llvm.Type_) : bool := llvm.Type_beq t1 t2.

(** *** Types (type.cpp, ClassNode::codeGen) *)

Definition primitiveCodeGen (k : ast.PrimitiveType) : llvm.Type_ :=
  match k with
  | ast.Void => llvm.VoidTy
  | ast.Bool => llvm.IntegerTy 1
  | ast.Char => llvm.IntegerTy 8
  | ast.Short => llvm.IntegerTy 16
  | ast.Int => llvm.IntegerTy 32
  | ast.Long => llvm.IntegerTy 64
  | ast.Half => llvm.HalfTy
  | ast.Float => llvm.FloatTy
  | ast.Double => llvm.DoubleTy
  | ast.Quad => llvm.FP128Ty
  end.

Definition getDecl (decl : nat) : CG ast.ClassNode :=
  cs <- gets classes ;;
  fromOption (nth_error cs decl) NullDeref.

(** [for (const auto &pair : members_) llvmMembers.push_back(
    pair.second->codeGen(ctx));] *)
Fixpoint membersCodeGen (typeCodeGen : ast.TypeNode -> CG llvm.Type_)
         (members : list (string * option ast.TypeNode)) : CG (list llvm.Type_) :=
  match members with
  | [] => ret []
  | (_, Some ty) :: r =>
      t <- typeCodeGen ty ;;
      ts <- membersCodeGen typeCodeGen r ;;
      ret (t :: ts)
  | (_, None) :: _ => abort NullDeref
  end.

(** [ClassNode::codeGen], given the code generator of the member types. *)
Definition classCodeGen (typeCodeGen : ast.TypeNode -> CG llvm.Type_)
           (cls : ast.ClassNode) : CG llvm.Type_ :=
  found <- gets (fun c => smap.find (ast.name_ cls) (namedStructs c)) ;;
  match found with
  | Some (ty, _) => ret ty
  | None =>
      let llvmStruct := llvm.StructTy (ast.name_ cls) in
      let memberNames := smap.keys (ast.members_ cls) in
      (* ctx.declareStruct(name_, llvmStruct, memberNames) *)
      modify (fun c => set_namedStructs
                         (smap.insert (ast.name_ cls) (llvmStruct, memberNames)
                                      (namedStructs c)) c) ;;;
      llvmMembers <- membersCodeGen typeCodeGen (ast.members_ cls) ;;
      (* llvmStruct->setBody(llvmMembers) *)
      modify (fun c => set_bodies (smap.assign (ast.name_ cls) llvmMembers (bodies c)) c) ;;;
      ret llvmStruct
  end.

(** [TypeNode::codeGen].  The fuel bounds the chain of classes entered
    through their members. *)
Fixpoint typeCodeGen (fuel : nat) : ast.TypeNode -> CG llvm.Type_ :=
  match fuel with
  | O => fun _ => abort OutOfFuel
  | S fuel' =>
      fix go (t : ast.TypeNode) : CG llvm.Type_ :=
        match t with
        | ast.PrimitiveTypeNode k _ => ret (primitiveCodeGen k)
        | ast.ClassReferenceNode decl =>
            cls <- getDecl decl ;;
            classCodeGen (typeCodeGen fuel') cls
        | ast.PointerTypeNode target =>
            go target ;;; ret llvm.PointerTy
        | ast.ArrayTypeNode target len =>
            targetType <- go target ;;
            ret (llvm.ArrayTy targetType len)
        end
  end.

(** [ClassNode::codeGen] as the driver calls it for every class. *)
Definition ClassNode_codeGen (fuel : nat) (cls : ast.ClassNode) : CG llvm.Type_ :=
  classCodeGen (typeCodeGen fuel) cls.

(** *** Expressions (codegen/expression.cpp) *)

Definition i32 (v : Z) : llvm.Value := llvm.ConstantInt 32 v.

(** The element type a GEP over [ty] with the indices given ends at. *)
Definition structElementType (name : string) (index : nat) : CG llvm.Type_ :=
  bs <- gets bodies ;;
  body <- fromOption (smap.find name bs) LLVMError ;;
  fromOption (nth_error body index) LLVMError.

Section Expressions.

Variable fuel : nat.

(** [StructAccess::codeGenLValue], given the l-value of [structExpr_]. *)
Definition StructAccess_codeGenLValue (structExprLValue : CG llvm.Value)
           (memberName : string) (type_ : nat) : CG llvm.Value :=
  structPtr <- structExprLValue ;;
  ty <- typeCodeGen fuel (ast.ClassReferenceNode type_) ;;
  match ty with
  | llvm.StructTy structName =>
      decl <- getDecl type_ ;;
      memberIndex <- liftRes (ast.lookupMemberIndex decl memberName) ;;
      elem <- structElementType structName memberIndex ;;
      CreateGEP ty elem structPtr [i32 0; i32 (Z.of_nat memberIndex)] ""
  | _ => reportError error.Codegen "Expected struct type but got different type"
  end.

(** [ArrayAccess::codeGenLValue], given the l-value of [arrayExpr_] and the
    value of [indexExpr_]. *)
Definition ArrayAccess_codeGenLValue (arrayExprLValue indexExprValue : CG llvm.Value)
           (type_ : ast.TypeNode) : CG llvm.Value :=
  arrayPtr <- arrayExprLValue ;;
  indexVal <- indexExprValue ;;
  if negb (llvm.isIntegerTy (llvm.getType indexVal))
  then reportError error.Codegen "Array index must be an integer type"
  else
    ty <- typeCodeGen fuel type_ ;;
    match ty with
    | llvm.ArrayTy elem _ =>
        CreateGEP ty elem arrayPtr [i32 0; indexVal] "arrayidx"
    | _ => reportError error.Codegen "Expected array type but got different type"
    end.

(** [PtrIndexAccess::codeGenLValue], given the values of [ptrExpr_] and of
    [indexExpr_]. *)
Definition PtrIndexAccess_codeGenLValue (ptrExprValue indexExprValue : CG llvm.Value)
           (type_ : ast.TypeNode) : CG llvm.Value :=
  ptrVal <- ptrExprValue ;;
  if negb (llvm.isPointerTy (llvm.getType ptrVal))
  then reportError error.Codegen "Cannot index into non-pointer type"
  else
    indexVal <- indexExprValue ;;
    if negb (llvm.isIntegerTy (llvm.getType indexVal))
    then reportError error.Codegen "Pointer index must be an integer type"
    else
      match type_ with
      | ast.PointerTypeNode target =>
          ty <- typeCodeGen fuel target ;;
          CreateGEP ty ty ptrVal [indexVal] "ptridx"
      | _ => abort NullDeref
      end.

(** The part of [BinaryOperation::codeGen] that follows the lowering of the
    two operands. *)
Definition BinaryOperation_emit (type_ : ast.BinaryOperationType) (isSigned_ : bool)
           (L R0 : llvm.Value) : CG llvm.Value :=
  R <- convertIfNeeded R0 (llvm.getType L) isSigned_ ;;
  let Lty := llvm.getType L in
  let Rty := llvm.getType R in
  let integers := llvm.isIntegerTy Lty && llvm.isIntegerTy Rty in
  match type_ with
  | ast.Add =>
      if llvm.isPointerTy Lty then
        if negb (llvm.isIntegerTy Rty)
        then reportError error.Codegen "Cannot add non-integer to pointer"
        else CreateGEP Lty Lty L [R] ""
      else if llvm.isPointerTy Rty then
        if negb (llvm.isIntegerTy Lty)
        then reportError error.Codegen "Cannot add non-integer to pointer"
        else CreateGEP Rty Rty R [L] ""
      else
        if negb integers
        then reportError error.Codegen "Addition requires integer operands"
        else CreateBinary llvm.Add L R
  | ast.Subtract =>
      if llvm.isPointerTy Lty then
        if negb (llvm.isIntegerTy Rty)
        then reportError error.Codegen "Cannot subtract non-integer from pointer"
        else (n <- CreateNeg R ;; CreateGEP Lty Lty L [n] "")
      else
        if negb integers
        then reportError error.Codegen "Subtraction requires integer operands"
        else CreateBinary llvm.Sub L R
  | ast.Multiply =>
      if negb integers
      then reportError error.Codegen "Multiplication requires integer operands"
      else CreateBinary llvm.Mul L R
  | ast.Divide =>
      if negb integers
      then reportError error.Codegen "Division requires integer operands"
      else CreateBinary llvm.UDiv L R
  | ast.Less =>
      if negb integers
      then reportError error.Codegen "Comparison requires integer operands"
      else CreateICmp llvm.ICMP_ULT L R
  | ast.More =>
      if negb integers
      then reportError error.Codegen "Comparison requires integer operands"
      else CreateICmp llvm.ICMP_UGT L R
  | ast.Equal =>
      if negb integers
      then reportError error.Codegen "Equality comparison requires integer operands"
      else CreateICmp llvm.ICMP_EQ L R
  end.

Definition findFunction (name : string) : CG (option llvm.Function) :=
  gets (fun c => find (fun f => String.eqb (llvm.f_name f) name) (functions c)).

(** [ExpressionNode::codeGen] and [ExpressionNode::codeGenLValue]. *)
Fixpoint codeGen (e : ast.ExpressionNode) : CG llvm.Value :=
  match e with
  | ast.VariableReference name _ =>
      alloca <- lookupVariable name ;;
      match alloca with
      | Some a => CreateLoad (snd a) (allocaValue a) "varValRef"
      | None => reportError error.Codegen ("Undefined variable '" ++ name ++ "'")
      end
  | ast.Dref target derivedType _ =>
      ptr <- codeGen target ;;
      if negb (llvm.isPointerTy (llvm.getType ptr))
      then reportError error.Codegen "Cannot dereference non-pointer type"
      else
        ty <- typeCodeGen fuel derivedType ;;
        CreateLoad ty ptr "varValRef"
  | ast.AddressOf target _ => codeGenLValue target
  | ast.StructAccess structExpr memberName structName _ type_ =>
      fieldPtr <- StructAccess_codeGenLValue (codeGenLValue structExpr) memberName type_ ;;
      decl <- getDecl type_ ;;
      match ast.lookupMemberType decl memberName with
      | None => reportError error.Codegen
                  ("Struct '" ++ structName ++ "' has no member named '"
                   ++ memberName ++ "'")
      | Some memberType =>
          fieldType <- typeCodeGen fuel memberType ;;
          CreateLoad fieldType fieldPtr (structName ++ "_member")
      end
  | ast.ArrayAccess arrayExpr indexExpr _ type_ =>
      elemPtr <- ArrayAccess_codeGenLValue (codeGenLValue arrayExpr) (codeGen indexExpr)
                                           type_ ;;
      ty <- typeCodeGen fuel type_ ;;
      match ty with
      | llvm.ArrayTy elemType _ => CreateLoad elemType elemPtr "arrayval"
      | _ => reportError error.Codegen "Expected array type but got different type"
      end
  | ast.PtrIndexAccess ptrExpr indexExpr _ type_ =>
      elemPtr <- PtrIndexAccess_codeGenLValue (codeGen ptrExpr) (codeGen indexExpr)
                                              type_ ;;
      typeCodeGen fuel type_ ;;;
      match type_ with
      | ast.PointerTypeNode target =>
          dirType <- typeCodeGen fuel target ;;
          CreateLoad dirType elemPtr "ptrval"
      | _ => abort NullDeref
      end
  | ast.IntLiteral value => ret (i32 value)
  | ast.FloatLiteral value => ret (llvm.ConstantFP value)
  | ast.StringLiteral value =>
      (* CreateGlobalString, then the GEP to the first byte *)
      modify (fun c => set_globals (globals c ++ [value]) c) ;;;
      let gvar := llvm.GlobalString value in
      CreateGEP (llvm.ArrayTy (llvm.IntegerTy 8) (Z.of_nat (S (String.length value))))
                (llvm.IntegerTy 8) gvar [i32 0; i32 0] ""
  | ast.FunctionCall name args _ =>
      calleeFunc <- findFunction name ;;
      match calleeFunc with
      | None => reportError error.Codegen ("Unknown function '" ++ name ++ "'")
      | Some callee =>
          if negb (Nat.eqb (length (llvm.paramTypes callee)) (length args))
          then reportError error.Codegen
                 ("Function '" ++ name ++ "' has a different number of arguments")
          else
            argValues <-
              (fix lower (l : list ast.ExpressionNode) : CG (list llvm.Value) :=
                 match l with
                 | [] => ret []
                 | a :: r =>
                     argValue <- codeGen a ;;
                     rest <- lower r ;;
                     ret (argValue :: rest)
                 end) args ;;
            CreateCall callee argValues
      end
  | ast.BinaryOperation type_ L_ R_ isSigned_ =>
      L <- codeGen L_ ;;
      R <- codeGen R_ ;;
      BinaryOperation_emit type_ isSigned_ L R
  end

with codeGenLValue (e : ast.ExpressionNode) : CG llvm.Value :=
  match e with
  | ast.VariableReference name _ =>
      alloca <- lookupVariable name ;;
      match alloca with
      | Some a => ret (allocaValue a)
      | None => reportError error.Codegen ("Undefined variable '" ++ name ++ "'")
      end
  | ast.Dref target _ _ =>
      ptr <- codeGenLValue target ;;
      if negb (llvm.isPointerTy (llvm.getType ptr))
      then reportError error.Codegen "Cannot dereference non-pointer type"
      else CreateLoad (llvm.getType ptr) ptr "varValRef"
  | ast.StructAccess structExpr memberName _ _ type_ =>
      StructAccess_codeGenLValue (codeGenLValue structExpr) memberName type_
  | ast.ArrayAccess arrayExpr indexExpr _ type_ =>
      ArrayAccess_codeGenLValue (codeGenLValue arrayExpr) (codeGen indexExpr) type_
  | ast.PtrIndexAccess ptrExpr indexExpr _ type_ =>
      PtrIndexAccess_codeGenLValue (codeGen ptrExpr) (codeGen indexExpr) type_
  | _ => abort (ExitFailure "Lvalue codegen not supported on this expression.")
  end.

End Expressions.

(** *** Statements (codegen/statement.cpp) *)

Section Statements.

Variable fuel : nat.

Definition VariableDeclaration_codeGen (type_ : ast.TypeNode) (name_ : string)
           (initialValue_ : option ast.ExpressionNode) : CG unit :=
  type <- typeCodeGen fuel type_ ;;
  variable <- CreateAlloca type name_ ;;
  match initialValue_ with
  | Some init =>
      init_val <- codeGen fuel init ;;
      converted <- convertIfNeeded init_val type (ast.exprIsSigned init) ;;
      if checkTypeCompatible type (llvm.getType converted)
      then CreateStore converted (allocaValue variable)
      else reportError error.Codegen
             ("Cannot initialize variable '" ++ name_ ++ "' with incompatible type")
  | None => ret tt
  end ;;;
  declareVariable name_ variable.

Definition AssignmentStatement_codeGen (target_ value_ : ast.ExpressionNode) : CG unit :=
  ptr <- codeGenLValue fuel target_ ;;
  val <- codeGen fuel value_ ;;
  let targetType :=
    match ptr with
    | llvm.AllocaInst _ allocated => allocated
    | llvm.GetElementPtrInst _ resultElementType => resultElementType
    | _ => llvm.getType val
    end in
  converted <- convertIfNeeded val targetType (ast.exprIsSigned value_) ;;
  CreateStore converted ptr.

Definition Return_codeGen (value_ : option ast.ExpressionNode) : CG unit :=
  match value_ with
  | Some e =>
      value <- codeGen fuel e ;;
      returnType <- getCurrentFunctionReturnType ;;
      converted <- convertIfNeeded value returnType (ast.exprIsSigned e) ;;
      if negb (checkTypeCompatible returnType (llvm.getType converted))
      then reportError error.Codegen
             "Return value type does not match function return type"
      else CreateRet converted
  | None =>
      returnType <- getCurrentFunctionReturnType ;;
      if negb (llvm.isVoidTy returnType)
      then reportError error.Codegen "Non-void function must return a value"
      else CreateRetVoid
  end.

(** [if (!ctx.builder.GetInsertBlock()->getTerminator())
    ctx.builder.CreateBr(mergeBB);] *)
Definition branchIfOpen (mergeBB : nat) : CG unit :=
  closed <- hasTerminator ;;
  if closed then ret tt else CreateBr mergeBB.

(** [StatementNode::codeGen] *)
Fixpoint StatementNode_codeGen (s : ast.StatementNode) : CG unit :=
  match s with
  | ast.VariableDeclaration type_ name_ initialValue_ =>
      VariableDeclaration_codeGen type_ name_ initialValue_
  | ast.AssignmentStatement target_ value_ =>
      AssignmentStatement_codeGen target_ value_
  | ast.Return value_ => Return_codeGen value_
  | ast.If condition_ trueBody_ falseBody_ =>
      GetInsertBlock ;;;
      thenBB <- createBlock "then" ;;
      elseBB <- match falseBody_ with
                | Some _ => (b <- createBlock "else" ;; ret (Some b))
                | None => ret None
                end ;;
      mergeBB <- createBlock "ifcont" ;;
      condValue <- codeGen fuel condition_ ;;
      if negb (llvm.isIntegerTy (llvm.getType condValue))
      then reportError error.Codegen "If statement condition must be integer type"
      else
        match elseBB with
        | Some e => CreateCondBr condValue thenBB e
        | None => CreateCondBr condValue thenBB mergeBB
        end ;;;
        SetInsertPoint thenBB ;;;
        (fix each (l : list ast.StatementNode) : CG unit :=
           match l with
           | [] => ret tt
           | stmt :: r => StatementNode_codeGen stmt ;;; each r
           end) trueBody_ ;;;
        branchIfOpen mergeBB ;;;
        match falseBody_, elseBB with
        | Some falseBody, Some e =>
            SetInsertPoint e ;;;
            (fix each (l : list ast.StatementNode) : CG unit :=
               match l with
               | [] => ret tt
               | stmt :: r => StatementNode_codeGen stmt ;;; each r
               end) falseBody ;;;
            branchIfOpen mergeBB
        | _, _ => ret tt
        end ;;;
        SetInsertPoint mergeBB
  | ast.While condition_ body_ =>
      GetInsertBlock ;;;
      condBB <- createBlock "cond" ;;
      bodyBB <- createBlock "body" ;;
      exitBB <- createBlock "exit" ;;
      CreateBr condBB ;;;
      SetInsertPoint condBB ;;;
      condValue <- codeGen fuel condition_ ;;
      if negb (llvm.isIntegerTy (llvm.getType condValue))
      then reportError error.Codegen "While statement condition must be integer type"
      else
        CreateCondBr condValue bodyBB exitBB ;;;
        SetInsertPoint bodyBB ;;;
        (fix each (l : list ast.StatementNode) : CG unit :=
           match l with
           | [] => ret tt
           | stmt :: r => StatementNode_codeGen stmt ;;; each r
           end) body_ ;;;
        CreateBr condBB ;;;
        SetInsertPoint exitBB
  | ast.ExpressionStatement expression_ =>
      codeGen fuel expression_ ;;; ret tt
  end.

(** *** Functions (codegen/function.cpp) *)

(** The loop of [generateFunctionBody] over the parameters; [i] is the
    position of the argument. *)
Fixpoint copyParams (i : nat) (params : list (string * llvm.Type_)) : CG unit :=
  match params with
  | [] => ret tt
  | (name, ty) :: r =>
      alloca <- CreateAlloca ty name ;;
      CreateStore (llvm.Argument i ty) (allocaValue alloca) ;;;
      declareVariable name alloca ;;;
      copyParams (S i) r
  end.

(** The loop of [generateFunctionBody] over the statements of the body,
    left as soon as the insertion block has a terminator. *)
Fixpoint generateStatements (body : list ast.StatementNode) : CG unit :=
  match body with
  | [] => ret tt
  | bodyNode :: r =>
      StatementNode_codeGen bodyNode ;;;
      closed <- hasTerminator ;;
      if closed then ret tt else generateStatements r
  end.

Definition setArgNames (names : list string) (f : llvm.Function) : llvm.Function :=
  llvm.mkFunction (llvm.f_name f) (llvm.returnType f) (llvm.paramTypes f)
                  (llvm.linkage f) names (llvm.blocks f).

(** [FunctionNode::generateFunctionBody]; [function] is the position of the
    function in the module. *)
Definition generateFunctionBody (node : ast.FunctionNode) (function : nat)
           (paramTypes : list llvm.Type_) (body : list ast.StatementNode) : CG unit :=
  modify (fun c => set_insertPoint function (insertBlock c) c) ;;;
  entry <- createBlock "entry" ;;
  SetInsertPoint entry ;;;
  pushScope ;;;
  modify (fun c => set_functions
                     (updateNth function (setArgNames (map fst (ast.fn_params_ node)))
                                (functions c)) c) ;;;
  copyParams 0 (combine (map fst (ast.fn_params_ node)) paramTypes) ;;;
  generateStatements body ;;;
  closed <- hasTerminator ;;
  (if closed then ret tt else CreateRetVoid) ;;;
  popScope.

(** [for (auto &param : *params_) parameters.emplace_back(
    param.second->codeGen(ctx));] *)
Fixpoint paramsCodeGen (params : list (string * option ast.TypeNode))
  : CG (list llvm.Type_) :=
  match params with
  | [] => ret []
  | (_, Some ty) :: r =>
      t <- typeCodeGen fuel ty ;;
      ts <- paramsCodeGen r ;;
      ret (t :: ts)
  | (_, None) :: _ => abort NullDeref
  end.

(** [FunctionNode::codeGen]; it returns the position in the module of the
    function created. *)
Definition FunctionNode_codeGen (node : ast.FunctionNode) : CG nat :=
  match ast.fn_type_ node with
  | None => abort NullDeref
  | Some type_ =>
      type <- typeCodeGen fuel type_ ;;
      parameters <- paramsCodeGen (ast.fn_params_ node) ;;
      function <- gets (fun c => length (functions c)) ;;
      modify (fun c => set_functions
                         (functions c
                          ++ [llvm.mkFunction (ast.fn_name_ node) type parameters
                                (if ast.fn_isPublic_ node then llvm.ExternalLinkage
                                 else llvm.InternalLinkage) [] []]) c) ;;;
      match ast.fn_body_ node with
      | Some body => generateFunctionBody node function parameters body
      | None => ret tt
      end ;;;
      ret function
  end.

(** The two loops of [main] over the classes and the functions parsed. *)
Fixpoint codeGenClasses (cs : list ast.ClassNode) : CG unit :=
  match cs with
  | [] => ret tt
  | structure :: r => ClassNode_codeGen fuel structure ;;; codeGenClasses r
  end.

Fixpoint codeGenFunctions (fs : list ast.FunctionNode) : CG unit :=
  match fs with
  | [] => ret tt
  | func :: r => FunctionNode_codeGen func ;;; codeGenFunctions r
  end.

End Statements.

(** The module the driver builds from what the parser holds. *)
Definition codeGenModule (fuel : nat) (p : parser.Parser) : Res CodegenContext :=
  match (codeGenClasses fuel (parser.classes_ p) ;;;
         codeGenFunctions fuel (parser.functions_ p))
          (new (parser.classes_ p)) with
  | Ok (_, c) => Ok c
  | Abort e => Abort e
  end.

End codegen.

(** ** The compiler on one source text *)

(** Parsing of a text that is not a file of the disk (no root path). *)
Definition parseSource (fuel : nat) (source : string) : Res parser.Parser :=
  match parser.parseFile fuel
          (parser.set_lexer (lexer.new source) (parser.new source "")) with
  | Ok (_, p) => Ok p
  | Abort e => Abort e
  end.

Definition compileSource (fuel : nat) (source : string) : Res codegen.CodegenContext :=
  match parseSource fuel source with
  | Ok p => codegen.codeGenModule fuel p
  | Abort e => Abort e
  end.

(** [Parser::parseType] on the type written at the start of a text. *)
Definition parseTypeOf (fuel : nat) (source : string) : Res (option ast.TypeNode) :=
  match parser.parseType fuel
          (parser.set_lexer (lexer.new source) (parser.new source "")) with
  | Ok (ty, _) => Ok ty
  | Abort e => Abort e
  end.

(** The type and the text of each token. *)
Definition lexemes (ts : list lexer.Token) : list (lexer.TokenType * string) :=
  map (fun t => (lexer.type t, lexer.src t)) ts.

(** The type a name resolves to once a text is parsed. *)
Definition typeAfter (fuel : nat) (source name : string) : Res (option ast.TypeNode) :=
  match parseSource fuel source with
  | Ok p => Ok (smap.find name (parser.types_ p))
  | Abort e => Abort e
  end.

(** The context after the builder was asked for one more instruction [i]
    whose result takes the next identifier. *)
Definition afterRequest (i : llvm.Instr) (c : codegen.CodegenContext)
  : codegen.CodegenContext :=
  codegen.insertAt i (codegen.set_nextId (S (codegen.nextId c)) c).

(** The parameter [parseFunction] puts before the declared ones inside
    class [C], given the type registry. *)
Definition thisParameter (C : string) (types : smap.t ast.TypeNode)
  : list (string * option ast.TypeNode) :=
  match smap.find C types with
  | Some ty => [("this", Some (ast.PointerTypeNode ty))]
  | None => []
  end.

(** What holds of the node recorded for a method of class [C]. *)
Definition isMethodOf (C : string) (types : smap.t ast.TypeNode)
           (f : ast.FunctionNode) : Prop :=
  (exists m, ast.fn_name_ f = (C ++ "_" ++ m)%string
             /\ contains_char "_"%char m = false)
  /\ ast.fn_isDetached_ f = false
  /\ exists declared, ast.fn_params_ f = thisParameter C types ++ declared.

(** The order of [std::less<std::string>]. *)
Definition slt (a b : string) : Prop := String.compare a b = Lt.

(** The keys of a map are in strictly ascending order. *)
Definition sorted {V} (m : smap.t V) : Prop := StronglySorted slt (smap.keys m).

(** The map a sequence of assignments [members[name] = type] builds. *)
Definition assignAll {V} (decls : list (string * V)) (m : smap.t V) : smap.t V :=
  fold_left (fun acc d => smap.assign (fst d) (snd d) acc) decls m.

(** The number of keys of a map that are smaller than [k]. *)
Definition rank {V} (k : string) (m : smap.t V) : nat :=
  length (filter (fun k' => String.ltb k' k) (smap.keys m)).

(** The members of a class are held in ascending order of name. *)
Definition sortedClass (c : ast.ClassNode) : Prop := sorted (ast.members_ c).

(** [t] is what a member lowers to: the member has a type, and the type
    lowers to [t] in some context. *)
Definition lowersTo (fuel : nat) (member : string * option ast.TypeNode)
           (t : llvm.Type_) : Prop :=
  exists ty c c', snd member = Some ty /\ codegen.typeCodeGen fuel ty c = Ok (t, c').

(** A parser about to parse a text that is not a file of the disk. *)
Definition parserOn (source : string) : parser.Parser :=
  parser.set_lexer (lexer.new source) (parser.new source "").

(** For each class parsed from a text: the names of its members in the
    order of the map, and the field index of each of the names given. *)
Definition layoutAfter (fuel : nat) (source : string) (names : list string)
  : list (list string * list (Res nat)) :=
  match parseSource fuel source with
  | Ok p => map (fun c => (smap.keys (ast.members_ c),
                           map (ast.lookupMemberIndex c) names))
                (parser.classes_ p)
  | Abort _ => []
  end.

(** The struct bodies set when a text is compiled. *)
Definition bodiesAfter (fuel : nat) (source : string) : smap.t (list llvm.Type_) :=
  match compileSource fuel source with
  | Ok c => codegen.bodies c
  | Abort _ => []
  end.

(** The blocks of the function the builder inserts into. *)
Definition blocksOf (c : codegen.CodegenContext) : list llvm.BasicBlock :=
  match codegen.currentFunction c with
  | Some f => llvm.blocks f
  | None => []
  end.

Definition nonTerminators (l : list llvm.Instr) : Prop :=
  Forall (fun i => llvm.isTerminator i = false) l.

Definition extendBlock (added : list llvm.Instr) (b : llvm.BasicBlock)
  : llvm.BasicBlock :=
  llvm.mkBasicBlock (llvm.bb_name b) (llvm.instructions b ++ added).

(** The number of terminator instructions of a block. *)
Definition terminators (b : llvm.BasicBlock) : nat :=
  length (filter llvm.isTerminator (llvm.instructions b)).

(** What the builder looks at and inserts into. *)
Definition builderView (c : codegen.CodegenContext)
  : list llvm.Function * nat * option nat :=
  (codegen.functions c, codegen.insertFunction c, codegen.insertBlock c).

(** From [c] to [c'] the insertion point stayed, and instructions that are
    not terminators were appended to the insertion block; no other block
    of the function changed. *)
Definition appends (c c' : codegen.CodegenContext) : Prop :=
  codegen.insertFunction c' = codegen.insertFunction c
  /\ codegen.insertBlock c' = codegen.insertBlock c
  /\ exists added,
       nonTerminators added
       /\ blocksOf c' = match codegen.insertBlock c with
                        | Some b => codegen.updateNth b (extendBlock added) (blocksOf c)
                        | None => blocksOf c
                        end.

(** Every run of [m] that returns only appends. *)
Definition quiet {A} (m : codegen.CG A) : Prop :=
  forall c a c', m c = Ok (a, c') -> appends c c'.

(** The insertion point is a block of the function. *)
Definition wellPlaced (c : codegen.CodegenContext) : Prop :=
  exists b, codegen.insertBlock c = Some b /\ b < length (blocksOf c).

(** With respect to a function of [L0] blocks [B0] that was being filled at
    block [b0]: in [c'] the blocks below [L0] other than [b0] are as they
    were, and the insertion point is [b0] or a block created since. *)
Definition evolved (L0 b0 : nat) (B0 : list llvm.BasicBlock)
           (c' : codegen.CodegenContext) : Prop :=
  L0 <= length (blocksOf c')
  /\ (forall i, i < L0 -> i <> b0 -> nth_error (blocksOf c') i = nth_error B0 i)
  /\ exists b', codegen.insertBlock c' = Some b'
               /\ b' < length (blocksOf c') /\ (b' = b0 \/ L0 <= b').

Definition advances (c c' : codegen.CodegenContext) : Prop :=
  codegen.insertFunction c' = codegen.insertFunction c
  /\ exists b0, codegen.insertBlock c = Some b0
               /\ evolved (length (blocksOf c)) b0 (blocksOf c) c'.

(** The insertion block holds no terminator. *)
Definition openBlock (c : codegen.CodegenContext) : Prop :=
  exists blk, codegen.currentBlock c = Some blk
              /\ nonTerminators (llvm.instructions blk).

(** The insertion block ends in a return, its only terminator. *)
Definition closedBlock (c : codegen.CodegenContext) : Prop :=
  exists blk pre v,
    codegen.currentBlock c = Some blk
    /\ llvm.instructions blk = pre ++ [llvm.Ret v]
    /\ nonTerminators pre.

(** What one statement does to the insertion block: it extends it, with
    instructions that are not terminators or with such instructions and a
    final return, or it leaves the builder at a new, empty block. *)
Definition stepped (c c' : codegen.CodegenContext) : Prop :=
  advances c c'
  /\ ((exists blk added,
         codegen.currentBlock c = Some blk
         /\ codegen.currentBlock c' = Some (extendBlock added blk)
         /\ (nonTerminators added
             \/ exists pre v, added = pre ++ [llvm.Ret v] /\ nonTerminators pre))
      \/ (exists blk', codegen.currentBlock c' = Some blk'
                       /\ llvm.instructions blk' = [])).

(** Block [m] is empty and is not the insertion block. *)
Definition reserved (m : nat) (c : codegen.CodegenContext) : Prop :=
  codegen.insertBlock c <> Some m
  /\ exists blk, nth_error (blocksOf c) m = Some blk /\ llvm.instructions blk = [].

(** The state of the builder while an [if] or a [while] is lowered: with
    respect to the function as it was when the statement was met, the
    builder has evolved, inside the same function, and the block [m] where
    it will be left is still empty. *)
Definition lowering (F0 L0 b0 : nat) (B0 : list llvm.BasicBlock) (m : nat)
           (c : codegen.CodegenContext) : Prop :=
  codegen.insertFunction c = F0 /\ evolved L0 b0 B0 c /\ reserved m c.

(** What a statement is shown to do by induction. *)
Definition steps (fuel : nat) (s : ast.StatementNode) : Prop :=
  forall c c', wellPlaced c ->
    codegen.StatementNode_codeGen fuel s c = Ok (tt, c') -> stepped c c'.

(** The statements of an [else] arm, none when there is no arm. *)
Definition bodyOf (falseBody : option (list ast.StatementNode)) :=
  match falseBody with
  | Some l => l
  | None => []
  end.

(** What [Function::Create] is given for a function, and the names set on
    its arguments. *)
Definition header (f : llvm.Function)
  : string * llvm.Type_ * list llvm.Type_ * llvm.Linkage * list string :=
  (llvm.f_name f, llvm.returnType f, llvm.paramTypes f, llvm.linkage f,
   llvm.argNames f).

Definition headers (c : codegen.CodegenContext) := map header (codegen.functions c).

Definition named (names : list string)
           (h : string * llvm.Type_ * list llvm.Type_ * llvm.Linkage * list string) :=
  let '(n, r, p, l, _) := h in (n, r, p, l, names).

(** The IR function emitted for a node bears the name of the node, takes
    what the parameters of the node lower to, and, when the node has a
    body, has its arguments named after the parameters. *)
Definition emittedAs (fuel : nat) (node : ast.FunctionNode) (f : llvm.Function) : Prop :=
  llvm.f_name f = ast.fn_name_ node
  /\ Forall2 (lowersTo fuel) (ast.fn_params_ node) (llvm.paramTypes f)
  /\ (ast.fn_body_ node <> None ->
      llvm.argNames f = map fst (ast.fn_params_ node)).

(** What holds of a method of class [C]: of the node recorded for it, and
    of the IR function emitted for the node, whose first parameter is a
    pointer when [C] names a registered type. *)
Definition methodOf (C : string) (types : smap.t ast.TypeNode)
           (node : ast.FunctionNode) : Prop :=
  isMethodOf C types node
  /\ forall fuel c function c',
       codegen.FunctionNode_codeGen fuel node c = Ok (function, c') ->
       exists f, nth_error (codegen.functions c') function = Some f
                 /\ emittedAs fuel node f
                 /\ (smap.find C types <> None ->
                     hd_error (llvm.paramTypes f) = Some llvm.PointerTy).

(** A parser inside the body of class [C], at the start of [body]. *)
Definition insideClass (C body : string) : parser.Parser :=
  parser.set_currentClassName C (parserOn body).

(** [void f() { while (1) { return; } }] *)
Definition whileReturn : ast.FunctionNode :=
  ast.mkFunctionNode "f" (Some (ast.PrimitiveTypeNode ast.Void false)) true []
    (Some [ast.While (ast.IntLiteral 1) [ast.Return None]]) true.

(** [void g() { while (1) { if (1) { } return; } }] *)
Definition ifThenReturn : ast.FunctionNode :=
  ast.mkFunctionNode "g" (Some (ast.PrimitiveTypeNode ast.Void false)) true []
    (Some [ast.While (ast.IntLiteral 1)
             [ast.If (ast.IntLiteral 1) [] None; ast.Return None]]) true.

(** ** Induction over the syntax *)

Section ExpressionInduction.

Variable P : ast.ExpressionNode -> Prop.

Hypothesis P_VariableReference : forall n s, P (ast.VariableReference n s).
Hypothesis P_StructAccess :
  forall e m sn s t, P e -> P (ast.StructAccess e m sn s t).
Hypothesis P_ArrayAccess :
  forall a i s t, P a -> P i -> P (ast.ArrayAccess a i s t).
Hypothesis P_PtrIndexAccess :
  forall p i s t, P p -> P i -> P (ast.PtrIndexAccess p i s t).
Hypothesis P_Dref : forall e t s, P e -> P (ast.Dref e t s).
Hypothesis P_AddressOf : forall e s, P e -> P (ast.AddressOf e s).
Hypothesis P_IntLiteral : forall v, P (ast.IntLiteral v).
Hypothesis P_FloatLiteral : forall v, P (ast.FloatLiteral v).
Hypothesis P_StringLiteral : forall v, P (ast.StringLiteral v).
Hypothesis P_FunctionCall :
  forall n args s, Forall P args -> P (ast.FunctionCall n args s).
Hypothesis P_BinaryOperation :
  forall k l r s, P l -> P r -> P (ast.BinaryOperation k l r s).

(** Induction over expressions, the arguments of a call included. *)
Fixpoint ExpressionNode_induction (e : ast.ExpressionNode) : P e :=
  match e with
  | ast.VariableReference n s => P_VariableReference n s
  | ast.StructAccess e m sn s t =>
      P_StructAccess m sn s t (ExpressionNode_induction e)
  | ast.ArrayAccess a i s t =>
      P_ArrayAccess s t (ExpressionNode_induction a) (ExpressionNode_induction i)
  | ast.PtrIndexAccess p i s t =>
      P_PtrIndexAccess s t (ExpressionNode_induction p) (ExpressionNode_induction i)
  | ast.Dref e t s => P_Dref t s (ExpressionNode_induction e)
  | ast.AddressOf e s => P_AddressOf s (ExpressionNode_induction e)
  | ast.IntLiteral v => P_IntLiteral v
  | ast.FloatLiteral v => P_FloatLiteral v
  | ast.StringLiteral v => P_StringLiteral v
  | ast.FunctionCall n args s =>
      P_FunctionCall n s
        ((fix all (l : list ast.ExpressionNode) : Forall P l :=
            match l with
            | [] => Forall_nil P
            | a :: r => Forall_cons a (ExpressionNode_induction a) (all r)
            end) args)
  | ast.BinaryOperation k l r s =>
      P_BinaryOperation k s (ExpressionNode_induction l) (ExpressionNode_induction r)
  end.

End ExpressionInduction.

Section StatementInduction.

Variable P : ast.StatementNode -> Prop.

Hypothesis P_VariableDeclaration : forall t n i, P (ast.VariableDeclaration t n i).
Hypothesis P_AssignmentStatement : forall t v, P (ast.AssignmentStatement t v).
Hypothesis P_Return : forall v, P (ast.Return v).
Hypothesis P_If : forall cnd tb fb,
  Forall P tb -> Forall P (bodyOf fb) -> P (ast.If cnd tb fb).
Hypothesis P_While : forall cnd body, Forall P body -> P (ast.While cnd body).
Hypothesis P_ExpressionStatement : forall e, P (ast.ExpressionStatement e).

(** Induction over statements, the bodies of [if] and [while] included. *)
Fixpoint StatementNode_induction (s : ast.StatementNode) : P s :=
  let all :=
    fix all (l : list ast.StatementNode) : Forall P l :=
      match l with
      | [] => Forall_nil P
      | a :: r => Forall_cons a (StatementNode_induction a) (all r)
      end in
  match s with
  | ast.VariableDeclaration t n i => P_VariableDeclaration t n i
  | ast.AssignmentStatement t v => P_AssignmentStatement t v
  | ast.Return v => P_Return v
  | ast.If cnd tb fb =>
      @P_If cnd tb fb (all tb)
           (match fb as o return Forall P (bodyOf o) with
            | Some l => all l
            | None => Forall_nil P
            end)
  | ast.While cnd body => P_While cnd (all body)
  | ast.ExpressionStatement e => P_ExpressionStatement e
  end.

End StatementInduction.

(** ** Notions the properties are stated with *)

(** A use of the lexer's public interface. *)
Inductive LexerOp :=
| OpPeek (offset : nat)
| OpConsume.

Definition perform (op : LexerOp) : lexer.LM lexer.Token :=
  match op with
  | OpPeek offset => lexer.peek offset
  | OpConsume => lexer.consume
  end.

(** The outcomes of a sequence of uses, in order; the sequence ends with the
    use that ended the process, if one did. *)
Fixpoint observe (ops : list LexerOp) (L : lexer.Lexer) : list (Res lexer.Token) :=
  match ops with
  | [] => []
  | op :: r =>
      match perform op L with
      | Ok (t, L') => Ok t :: observe r L'
      | Abort e => [Abort e]
      end
  end.

(** The lexer a sequence of uses leaves, when each of them returned. *)
Fixpoint after (ops : list LexerOp) (L : lexer.Lexer) : Res lexer.Lexer :=
  match ops with
  | [] => Ok L
  | op :: r =>
      match perform op L with
      | Ok (_, L') => after r L'
      | Abort e => Abort e
      end
  end.

(** A computation preserves an observation [f] of the state when no run of
    it that returns changes [f]. *)
Definition preserves {S A X} (f : S -> X) (m : M S A) : Prop :=
  forall s a s', m s = Ok (a, s') -> f s' = f s.

(** From the cursor to the end of the source there are only digits, and at
    least one. *)
Definition digitsToEnd (L : lexer.Lexer) : Prop :=
  lexer.srcCursor_ L < lexer.size L /\
  forall i, lexer.srcCursor_ L <= i < lexer.size L ->
            exists c, String.get i (lexer.src_ L) = Some c /\ isdigit c = true.

(** [all_chars q s]: every character of [s] satisfies [q]. *)
Fixpoint all_chars (q : ascii -> bool) (s : string) : bool :=
  match s with
  | EmptyString => true
  | String c r => q c && all_chars q r
  end.

Definition notX (c : ascii) : bool :=
  negb (Ascii.eqb c "x"%char) && negb (Ascii.eqb c "X"%char).

(** A parser whose look-ahead already holds the given tokens. *)
Definition parserOnTokens (ts : list lexer.Token) : parser.Parser :=
  parser.set_lexer (lexer.mkLexer "" 0 ts 0 1 1) (parser.new "" "").

(** The tokens read ahead that are not [EndOfFile]. *)
Definition pending (L : lexer.Lexer) : nat :=
  length (filter (fun t => negb (lexer.TokenType_beq (lexer.type t) lexer.EndOfFile))
                 (lexer.lookAhead_ L)).

(** What is left to a lexer: the characters not yet read, counted twice,
    and the tokens read ahead. *)
Definition remaining (L : lexer.Lexer) : nat :=
  2 * (lexer.size L - lexer.srcCursor_ L) + pending L.

(** The lexer went forward in its text, the tokens read ahead untouched. *)
Definition forward (L L' : lexer.Lexer) : Prop :=
  lexer.src_ L' = lexer.src_ L
  /\ lexer.lookAhead_ L' = lexer.lookAhead_ L
  /\ lexer.srcCursor_ L <= lexer.srcCursor_ L'.

Definition goesForward {A} (m : lexer.LM A) : Prop :=
  forall L a L', m L = Ok (a, L') -> forward L L'.

(** The lexer read at least one character, and there was one to read. *)
Definition advanced (L L' : lexer.Lexer) : Prop :=
  forward L L'
  /\ lexer.srcCursor_ L < lexer.srcCursor_ L'
  /\ lexer.srcCursor_ L < lexer.size L.

(** From [p] to [p'] only the lexer changed, and what is left to it
    decreased by [k] at least. *)
Definition reads (k : nat) (p p' : parser.Parser) : Prop :=
  exists L', p' = parser.set_lexer L' p
             /\ remaining L' + k <= remaining (parser.lexer_ p).

(** What a token read ahead counts for. *)
Definition weighs (t : lexer.Token) : nat :=
  if lexer.TokenType_beq (lexer.type t) lexer.EndOfFile then 0 else 1.

(** The files of the disk that were not imported yet. *)
Definition unvisited (fs : parser.FileSystem) (imported : sset.t) : nat :=
  length (filter (fun k => negb (sset.mem k imported)) (map fst (parser.disk fs))).

(** Twice the length of the longest text of the disk. *)
Definition longest (fs : parser.FileSystem) : nat :=
  list_max (map (fun kv => 2 * String.length (snd kv)) (parser.disk fs)).

(** Fuel that is enough for [processImports]: each file not yet imported
    may be entered once, and a file is left after as many iterations as it
    has tokens. *)
Definition enough (fs : parser.FileSystem) (p : parser.Parser) : nat :=
  unvisited fs (parser.importedFiles_ p) * S (longest fs)
  + remaining (parser.lexer_ p) + 1.

(** The set of imported files only grew. *)
Definition grows (p p' : parser.Parser) : Prop :=
  forall k, sset.mem k (parser.importedFiles_ p) = true ->
            sset.mem k (parser.importedFiles_ p') = true.

(** The run of [m] from [s] was given enough fuel. *)
Definition fueled {S A} (m : M S A) (s : S) : Prop := m s <> Abort OutOfFuel.

(** The run was given enough fuel: it ended the process, for a reason that
    satisfies [E], or returned, in a state that satisfies [Q]. *)
Definition returns {A} (E : Err -> Prop) (o : option (Res (A * parser.Parser)))
           (Q : parser.Parser -> Prop) : Prop :=
  match o with
  | None => False
  | Some (Abort e) => E e
  | Some (Ok (_, p')) => Q p'
  end.

(** The parser is at an import statement that names an existing file:
    [p3] is the parser after the statement, [file] the text of its
    literal. *)
Definition atImport (fs : parser.FileSystem) (p : parser.Parser) (file : string)
           (p3 : parser.Parser) : Prop :=
  exists p1 p2,
    parser.peekT lexer.EndOfFile 0 p = Ok (false, p1)
    /\ parser.peekT lexer.Import 0 p1 = Ok (true, p2)
    /\ parser.importStatement p2 = Ok (file, p3)
    /\ parser.fileExists fs (parser.resolve fs (parser.currentFileName_ p) file) = true.

(** The canonical path of the file an import statement of [p] names. *)
Definition importedPath (fs : parser.FileSystem) (p : parser.Parser) (file : string)
  : string :=
  parser.canonical fs (parser.resolve fs (parser.currentFileName_ p) file).

(** The parser when the imports of a file imported for the first time are
    about to be processed. *)
Definition entered (fs : parser.FileSystem) (p : parser.Parser) (file : string)
           (p3 : parser.Parser) : parser.Parser :=
  parser.enterFile
    (parser.fileText fs (parser.resolve fs (parser.currentFileName_ p) file))
    (importedPath fs p file)
    (parser.set_importedFiles
       (sset.insert (importedPath fs p file) (parser.importedFiles_ p3)) p3).

(** What [processImports] does of a file imported for the first time: its
    imports, then the file itself, then the rest of the imports of the
    importing file. *)
Definition importFile (fs : parser.FileSystem) (parseFile_ : parser.PM unit)
           (fuel : nat) (p p3 : parser.Parser) : parser.IM unit :=
  parser.andThen (parser.processImports fs parseFile_ fuel) (fun _ =>
  parser.andThen (parser.now_ parseFile_) (fun _ =>
  parser.andThen
    (parser.now_ (modify (parser.leaveFile (parser.lexer_ p3)
                                           (parser.currentFileName_ p))))
    (fun _ => parser.processImports fs parseFile_ fuel))).

(** The parser when [parse] has set up the root file. *)
Definition rooted (p : parser.Parser) : parser.Parser :=
  parser.enterFile (parser.sourceCode_ p) (parser.rootFilePath_ p) p.

(** A text between double quotes. *)
Definition quoted (s : string) : string :=
  String DQUOTE (s ++ String DQUOTE EmptyString)%string.

(** The text [import "file"; ]. *)
Definition importLine (file : string) : string :=
  ("import " ++ quoted file ++ "; ")%string.

(** A disk whose files import each other: [main.ax] imports [a.ax], which
    imports [b.ax], which imports [a.ax] and itself. *)
Definition cyclicDisk : parser.FileSystem :=
  parser.mkFileSystem (fun _ file => file) (fun path => path)
    [("main.ax", importLine "a.ax");
     ("a.ax", importLine "b.ax");
     ("b.ax", (importLine "a.ax" ++ importLine "b.ax")%string)].

(** The parser given [main.ax]. *)
Definition mainParser : parser.Parser :=
  parser.new (importLine "a.ax") "main.ax".

(** The parser at the start of [b.ax], all three files imported. *)
Definition insideB : parser.Parser :=
  parser.enterFile (importLine "a.ax" ++ importLine "b.ax")%string "b.ax"
    (parser.set_importedFiles ["b.ax"; "a.ax"; "main.ax"] mainParser).

(** The lexer with other tokens read ahead. *)
Definition withLookAhead (la : list lexer.Token) (L : lexer.Lexer) : lexer.Lexer :=
  lexer.mkLexer (lexer.src_ L) (lexer.srcCursor_ L) la (lexer.tokensCursor_ L)
                (lexer.row_ L) (lexer.col_ L).

(** An outcome, with [g] applied to the lexer that is left. *)
Definition onLexer {A} (g : lexer.Lexer -> lexer.Lexer) (r : Res (A * lexer.Lexer))
  : Res (A * lexer.Lexer) :=
  match r with
  | Ok (a, L) => Ok (a, g L)
  | Abort e => Abort e
  end.

(** [m] neither looks at the tokens read ahead nor touches them. *)
Definition blind {A} (m : lexer.LM A) : Prop :=
  forall la L, m (withLookAhead la L) = onLexer (withLookAhead la) (m L).

(** [readAhead L L1]: [L1] is [L] after some more tokens were lexed and
    appended to the tokens read ahead. *)
Inductive readAhead (L : lexer.Lexer) : lexer.Lexer -> Prop :=
| readAhead_none : readAhead L L
| readAhead_more L1 t L2 :
    readAhead L L1 -> lexer.nextToken L1 = Ok (t, L2) ->
    readAhead L (withLookAhead (lexer.lookAhead_ L2 ++ [t]) L2).

(** [n] uses of [consume] in a row. *)
Definition consumes (n : nat) : list LexerOp := repeat OpConsume n.

(** A character of a word: a letter, a digit or an underscore. *)
Definition isword (a : ascii) : bool := isalnum a || Ascii.eqb a "_"%char.

(** What the text of a token is, by its type: a number is digits, with a
    point after them or between them; an identifier is a word that does not
    start with a digit and is no keyword; a keyword or a symbol is the entry
    of the lexer's table for the type; an end of file has no text and no
    position. *)
Definition wellFormed (t : lexer.Token) : Prop :=
  match lexer.type t with
  | lexer.IntLit =>
      exists c ds, isdigit c = true /\ all_chars isdigit ds = true
                   /\ (lexer.src t = String c ds \/ lexer.src t = (String c ds ++ ".")%string)
  | lexer.FloatLit =>
      exists c ds d fs, isdigit c = true /\ all_chars isdigit ds = true
                        /\ isdigit d = true /\ all_chars isdigit fs = true
                        /\ lexer.src t = (String c ds ++ "." ++ String d fs)%string
  | lexer.StringLit => True
  | lexer.Identifier =>
      exists c r, lexer.src t = String c r
                  /\ (isalpha c || Ascii.eqb c "_"%char) = true
                  /\ all_chars isword r = true
                  /\ lexer.find_keyword (lexer.src t) lexer.keywordMap = None
  | lexer.EndOfFile => t = lexer.mkToken lexer.EndOfFile "" 0 0
  | ty =>
      lexer.find_keyword (lexer.src t) lexer.keywordMap = Some ty
      \/ exists c, lexer.src t = str1 c
                   /\ lexer.find_symbol c lexer.symbolMap = Some ty
  end.

(** The value of a run of decimal digits that follows digits of value [a]. *)
Fixpoint decimalFrom (a : Z) (ds : string) : Z :=
  match ds with
  | EmptyString => a
  | String c r => decimalFrom (a * 10 + (Z.of_nat (code c) - 48))%Z r
  end.

(** The decimal value of a run of digits. *)
Definition decimal (ds : string) : Z := decimalFrom 0 ds.

(** How a character of the content of a string literal is written. *)
Definition escapeChar (c : ascii) : string :=
  if Ascii.eqb c NL then String BACKSLASH "n"
  else if Ascii.eqb c TAB then String BACKSLASH "t"
  else if Ascii.eqb c DQUOTE then String BACKSLASH (str1 DQUOTE)
  else if Ascii.eqb c BACKSLASH then String BACKSLASH (str1 BACKSLASH)
  else str1 c.

(** The content of a string literal, as it is written between the quotes. *)
Fixpoint escape (s : string) : string :=
  match s with
  | EmptyString => EmptyString
  | String c r => (escapeChar c ++ escape r)%string
  end.

(** The character an escape sequence stands for ([switch (escaped)]). *)
Definition unescaped (escaped : ascii) : ascii :=
  if Ascii.eqb escaped "n"%char then NL
  else if Ascii.eqb escaped "t"%char then TAB
  else if Ascii.eqb escaped DQUOTE then DQUOTE
  else if Ascii.eqb escaped BACKSLASH then BACKSLASH
  else escaped.

(** What a parser holds of the declarations it has parsed: the type
    registry, the classes and the functions. *)
Definition holdings (p : parser.Parser) :=
  (parser.types_ p, parser.classes_ p, parser.functions_ p).

(** Every run of [m] that returns takes a state to one related to it by
    [R]. *)
Definition keeps {S A} (R : S -> S -> Prop) (m : M S A) : Prop :=
  forall s a s', m s = Ok (a, s') -> R s s'.

(** Every run of [m] that returns returns a value that satisfies [Q]. *)
Definition yields {S A} (Q : A -> Prop) (m : M S A) : Prop :=
  forall s a s', m s = Ok (a, s') -> Q a.

(** Every class reference of the type registry refers to a class the parser
    holds, registered under the name of the class. *)
Definition anchored (p : parser.Parser) : Prop :=
  forall name d,
    smap.find name (parser.types_ p) = Some (ast.ClassReferenceNode d) ->
    exists c, nth_error (parser.classes_ p) d = Some c /\ ast.name_ c = name.

(** Class [c'] is class [c] with, possibly, more members. *)
Definition extendsClass (c c' : ast.ClassNode) : Prop :=
  ast.name_ c' = ast.name_ c
  /\ forall m ty, smap.find m (ast.members_ c) = Some ty ->
                  smap.find m (ast.members_ c') = Some ty.

(** The classes of [p] are classes of [p'], under the same handles. *)
Definition classesKept (p p' : parser.Parser) : Prop :=
  forall d c, nth_error (parser.classes_ p) d = Some c ->
              exists c', nth_error (parser.classes_ p') d = Some c'
                         /\ extendsClass c c'.

(** Every binary operation of an expression has operands of the same
    signedness, and bears the signedness of its left operand. *)
Fixpoint balanced (e : ast.ExpressionNode) : bool :=
  match e with
  | ast.BinaryOperation _ l r s =>
      Bool.eqb (ast.exprIsSigned l) (ast.exprIsSigned r)
      && Bool.eqb s (ast.exprIsSigned l) && balanced l && balanced r
  | ast.FunctionCall _ args _ => forallb balanced args
  | ast.StructAccess e _ _ _ _ => balanced e
  | ast.ArrayAccess a i _ _ => balanced a && balanced i
  | ast.PtrIndexAccess p i _ _ => balanced p && balanced i
  | ast.Dref e _ _ => balanced e
  | ast.AddressOf e _ => balanced e
  | _ => true
  end.

(** The same, of every expression of a statement. *)
Fixpoint balancedStatement (s : ast.StatementNode) : bool :=
  match s with
  | ast.VariableDeclaration _ _ (Some e) => balanced e
  | ast.VariableDeclaration _ _ None => true
  | ast.AssignmentStatement t v => balanced t && balanced v
  | ast.Return (Some e) => balanced e
  | ast.Return None => true
  | ast.If c tb fb =>
      balanced c && forallb balancedStatement tb
      && match fb with
         | Some l => forallb balancedStatement l
         | None => true
         end
  | ast.While c body => balanced c && forallb balancedStatement body
  | ast.ExpressionStatement e => balanced e
  end.

(** The same, of the body of a function. *)
Definition balancedFunction (f : ast.FunctionNode) : bool :=
  match ast.fn_body_ f with
  | Some body => forallb balancedStatement body
  | None => true
  end.

(** The parser with the tokens [ts] read ahead, and nothing else changed. *)
Definition ahead (ts : list lexer.Token) (p : parser.Parser) : parser.Parser :=
  parser.set_lexer (withLookAhead ts (parser.lexer_ p)) p.

(** [n] pointer levels around a type. *)
Definition pointerTo (n : nat) (ty : ast.TypeNode) : ast.TypeNode :=
  Nat.iter n ast.PointerTypeNode ty.

(** From [p] to [p'] the scopes below the innermost one stayed as they
    were. *)
Definition sameOuterScopes (p p' : parser.Parser) : Prop :=
  forall top rest, parser.scopes p = top :: rest ->
                   exists top', parser.scopes p' = top' :: rest.

(** The builder at the empty entry block of a function [f] of the return
    type given, inside the scope of its body. *)
Definition atEntry (returnType : llvm.Type_) : codegen.CodegenContext :=
  codegen.mkContext []
    [llvm.mkFunction "f" returnType [] llvm.ExternalLinkage []
       [llvm.mkBasicBlock "entry" []]]
    0 (Some 0) [smap.empty] smap.empty smap.empty [] 0.

(** Block [m] holds [blk] and is not the insertion block. *)
Definition settled (m : nat) (blk : llvm.BasicBlock) (c : codegen.CodegenContext)
  : Prop :=
  codegen.insertBlock c <> Some m /\ nth_error (blocksOf c) m = Some blk.

(** The scopes below the innermost one. *)
Definition outerScopes (c : codegen.CodegenContext) := tl (codegen.scopes c).

(** [int f(int a) { int b = a; return b; }] *)
Definition declaresAndReturns : ast.FunctionNode :=
  ast.mkFunctionNode "f" (Some (ast.PrimitiveTypeNode ast.Int true)) true
    [("a", Some (ast.PrimitiveTypeNode ast.Int true))]
    (Some [ast.VariableDeclaration (ast.PrimitiveTypeNode ast.Int true) "b"
             (Some (ast.VariableReference "a" true));
           ast.Return (Some (ast.VariableReference "b" true))]) false.

(** The name and the linkage [Function::Create] is given for a node. *)
Definition createdAs (node : ast.FunctionNode) : string * llvm.Linkage :=
  (ast.fn_name_ node,
   if ast.fn_isPublic_ node then llvm.ExternalLinkage else llvm.InternalLinkage).

Definition nameAndLinkage (f : llvm.Function) : string * llvm.Linkage :=
  (llvm.f_name f, llvm.linkage f).

(** From [c] to [c'] the table of declared structs stayed ordered and kept
    every entry it had. *)
Definition declaredKept (c c' : codegen.CodegenContext) : Prop :=
  sorted (codegen.namedStructs c')
  /\ forall name d, smap.find name (codegen.namedStructs c) = Some d ->
                    smap.find name (codegen.namedStructs c') = Some d.

(** [class Node { ptr Node next; int v; }] *)
Definition listNode : ast.ClassNode :=
  ast.mkClassNode "Node"
    [("next", Some (ast.PointerTypeNode (ast.ClassReferenceNode 0)));
     ("v", Some (ast.PrimitiveTypeNode ast.Int true))].

(** The loop of [main] over [argv[1]], ..., [argv[argc - 1]], held in
    [args]; it returns [srcFile] and [outputFile].  The value of an option is
    read at [argv[i + 1]] without a test: after the last argument that is
    [argv[argc]], the null pointer, which is assigned to a [std::string]. *)
Fixpoint readArguments (args : list string) (srcFile outputFile : string)
  : Res (string * string) :=
  match args with
  | [] => Ok (srcFile, outputFile)
  | a :: r =>
      if String.eqb a "-f" then
        match r with
        | v :: r' => readArguments r' v outputFile
        | [] => Abort NullDeref
        end
      else if String.eqb a "-o" then
        match r with
        | v :: r' => readArguments r' srcFile v
        | [] => Abort NullDeref
        end
      else Abort (Fatal error.Syntax ("Invalid argument: '" ++ a ++ "'"))
  end.

(** [main], up to the test that a source file was named. *)
Definition mainArguments (args : list string) : Res (string * string) :=
  match readArguments args "" "" with
  | Ok (srcFile, outputFile) =>
      if String.eqb srcFile "" then
        Abort (Fatal error.Syntax "Missing required argument: -f <source file>")
      else Ok (srcFile, outputFile)
  | Abort e => Abort e
  end.

(** An option of the command line: [-f] (for [true]) or [-o], and its
    value. *)
Definition flag (isSource : bool) : string := if isSource then "-f" else "-o".

Fixpoint commandLine (options : list (bool * string)) : list string :=
  match options with
  | [] => []
  | (isSource, value) :: r => flag isSource :: value :: commandLine r
  end.

(** The value of the last option of a kind, [default] when there is none. *)
Fixpoint lastValue (isSource : bool) (options : list (bool * string))
         (default : string) : string :=
  match options with
  | [] => default
  | (isSource', value) :: r =>
      lastValue isSource r (if Bool.eqb isSource isSource' then value else default)
  end.

(** The position after a character read at [pos], as [consumeChar] counts:
    a new line starts after a newline, at column 1. *)
Definition advancePos (c : ascii) (pos : Z * Z) : Z * Z :=
  if Ascii.eqb c NL then (fst pos + 1, 1)%Z else (fst pos, snd pos + 1)%Z.

Fixpoint positionAfter (s : string) (pos : Z * Z) : Z * Z :=
  match s with
  | EmptyString => pos
  | String c r => positionAfter r (advancePos c pos)
  end.

(** The line and the column of the character at index [k] of a text, both
    counted from 1. *)
Definition positionOf (k : nat) (source : string) : Z * Z :=
  positionAfter (String.substring 0 k source) (1, 1)%Z.

(** The lexer's line and column are those of the character at its
    cursor. *)
Definition positioned (L : lexer.Lexer) : Prop :=
  (lexer.row_ L, lexer.col_ L) = positionOf (lexer.srcCursor_ L) (lexer.src_ L).

(** Every run of [m] that returns from a positioned lexer leaves a
    positioned lexer. *)
Definition staysPositioned {A} (m : lexer.LM A) : Prop :=
  forall L a L', m L = Ok (a, L') -> positioned L -> positioned L'.

(** The first character of the text a token was lexed from: the opening
    quote for a string literal, the first character of its text
    otherwise. *)
Definition startsWith (c : ascii) (t : lexer.Token) : Prop :=
  match lexer.type t with
  | lexer.StringLit => c = DQUOTE
  | _ => exists rest, lexer.src t = String c rest
  end.

(** A comment line, then [x = 1;] on the second line. *)
Definition secondLine : string := "// one" ++ String NL "  x = 1;".

(** The operation of a binary operator that is one token. *)
Definition binaryOp (ty : lexer.TokenType) : option ast.BinaryOperationType :=
  match ty with
  | lexer.Plus => Some ast.Add
  | lexer.Minus => Some ast.Subtract
  | lexer.Asterisk => Some ast.Multiply
  | lexer.Slash => Some ast.Divide
  | lexer.Less => Some ast.Less
  | lexer.Greater => Some ast.More
  | _ => None
  end.

(** An integer literal token that reads as [v]. *)
Definition literal (t : lexer.Token) (v : Z) : Prop :=
  lexer.type t = lexer.IntLit
  /\ parser.stoi (lexer.src t) (parser.literalBase (lexer.src t)) = Ok v.

(** The value an integer literal token reads as, and the operation of an
    operator token. *)
Definition valueOf (t : lexer.Token) : Z :=
  match parser.stoi (lexer.src t) (parser.literalBase (lexer.src t)) with
  | Ok v => v
  | Abort _ => 0%Z
  end.

Definition operationOf (o : lexer.Token) : ast.BinaryOperationType :=
  match binaryOp (lexer.type o) with
  | Some op => op
  | None => ast.Add
  end.

Definition isLiteral (t : lexer.Token) : Prop :=
  lexer.type t = lexer.IntLit
  /\ exists v, parser.stoi (lexer.src t) (parser.literalBase (lexer.src t)) = Ok v.

Definition multiplicative (o : lexer.Token) : Prop :=
  lexer.type o = lexer.Asterisk \/ lexer.type o = lexer.Slash.

Definition additive (o : lexer.Token) : Prop :=
  lexer.type o = lexer.Plus \/ lexer.type o = lexer.Minus.

(** A product: a literal, and the literals it is multiplied or divided by
    in turn, each with its operator. *)
Definition Product : Type := lexer.Token * list (lexer.Token * lexer.Token).

Definition isProduct (t : Product) : Prop :=
  isLiteral (fst t)
  /\ Forall (fun m => multiplicative (fst m) /\ isLiteral (snd m)) (snd t).

Definition factorTokens (ms : list (lexer.Token * lexer.Token)) : list lexer.Token :=
  flat_map (fun m => [fst m; snd m]) ms.

Definition productTokens (t : Product) : list lexer.Token :=
  fst t :: factorTokens (snd t).

(** The operations on the factors, nested to the left. *)
Definition timesAll (lhs : ast.ExpressionNode) (ms : list (lexer.Token * lexer.Token))
  : ast.ExpressionNode :=
  fold_left (fun lhs m =>
               ast.BinaryOperation (operationOf (fst m)) lhs
                                   (ast.IntLiteral (valueOf (snd m))) true)
            ms lhs.

Definition productTree (t : Product) : ast.ExpressionNode :=
  timesAll (ast.IntLiteral (valueOf (fst t))) (snd t).

(** The products added to or subtracted from a first one, each with its
    operator: their tokens, and the operations nested to the left. *)
Definition summandTokens (ts : list (lexer.Token * Product)) : list lexer.Token :=
  flat_map (fun s => fst s :: productTokens (snd s)) ts.

Definition plusAll (lhs : ast.ExpressionNode) (ts : list (lexer.Token * Product))
  : ast.ExpressionNode :=
  fold_left (fun lhs s =>
               ast.BinaryOperation (operationOf (fst s)) lhs (productTree (snd s)) true)
            ts lhs.

(** Whether the loop of [parseBinaryOpRHS] stops at a token. *)
Definition stopsAt (terminator : lexer.TokenType) (t : lexer.Token) : bool :=
  lexer.TokenType_beq (lexer.type t) terminator
  || (lexer.TokenType_beq terminator lexer.Comma
      && lexer.TokenType_beq (lexer.type t) lexer.RParen).

(** What may follow a product: the terminator, or an operator that adds or
    subtracts and a further token. *)
Definition endsProduct (terminator : lexer.TokenType) (ts : list lexer.Token) : Prop :=
  match ts with
  | n :: r => stopsAt terminator n = true \/ (additive n /\ r <> [])
  | [] => False
  end.

(** A token of the type and the text given, at no particular position. *)
Definition tokenOf (ty : lexer.TokenType) (text : string) : lexer.Token :=
  lexer.mkToken ty text 1 1.

(** [2 * 3] and [4 / 5], for [1 + 2 * 3 - 4 / 5;]. *)
Definition twoTimesThree : Product :=
  (tokenOf lexer.IntLit "2", [(tokenOf lexer.Asterisk "*", tokenOf lexer.IntLit "3")]).

Definition fourByFive : Product :=
  (tokenOf lexer.IntLit "4", [(tokenOf lexer.Slash "/", tokenOf lexer.IntLit "5")]).

(** Every call of an expression names a function of [names]. *)
Fixpoint resolved (names : list string) (e : ast.ExpressionNode) : bool :=
  match e with
  | ast.FunctionCall name args _ =>
      existsb (String.eqb name) names && forallb (resolved names) args
  | ast.BinaryOperation _ l r _ => resolved names l && resolved names r
  | ast.StructAccess e _ _ _ _ => resolved names e
  | ast.ArrayAccess a i _ _ => resolved names a && resolved names i
  | ast.PtrIndexAccess p i _ _ => resolved names p && resolved names i
  | ast.Dref e _ _ => resolved names e
  | ast.AddressOf e _ => resolved names e
  | _ => true
  end.

(** The same, of every expression of a statement. *)
Fixpoint resolvedStatement (names : list string) (s : ast.StatementNode) : bool :=
  match s with
  | ast.VariableDeclaration _ _ (Some e) => resolved names e
  | ast.VariableDeclaration _ _ None => true
  | ast.AssignmentStatement t v => resolved names t && resolved names v
  | ast.Return (Some e) => resolved names e
  | ast.Return None => true
  | ast.If c tb fb =>
      resolved names c && forallb (resolvedStatement names) tb
      && match fb with
         | Some l => forallb (resolvedStatement names) l
         | None => true
         end
  | ast.While c body => resolved names c && forallb (resolvedStatement names) body
  | ast.ExpressionStatement e => resolved names e
  end.

(** The same, of the body of a function. *)
Definition resolvedFunction (names : list string) (f : ast.FunctionNode) : bool :=
  match ast.fn_body_ f with
  | Some body => forallb (resolvedStatement names) body
  | None => true
  end.

(** Every function of a list calls only functions that precede it in the
    list, or are among [seen]. *)
Fixpoint callsBackward (seen : list string) (fs : list ast.FunctionNode) : bool :=
  match fs with
  | [] => true
  | f :: r => resolvedFunction seen f && callsBackward (seen ++ [ast.fn_name_ f]) r
  end.

(** With the function list [F], every run of [m] that returns leaves the
    function list as it is and returns a value that satisfies [Q]. *)
Definition within {A} (F : list ast.FunctionNode) (Q : A -> Prop) (m : parser.PM A)
  : Prop :=
  forall p a p', parser.functions_ p = F -> m p = Ok (a, p') ->
                 Q a /\ parser.functions_ p' = F.

(** The error of [FunctionCall::codeGen] for a name the module does not have. *)
Definition unknownFunction (name : string) : Err :=
  Fatal error.Codegen ("Unknown function '" ++ name ++ "'").

(** The names the functions of the module were created with. *)
Definition fnames (c : codegen.CodegenContext) : list string :=
  map llvm.f_name (codegen.functions c).

(** The module has a function of every name of [names]. *)
Definition declares (names : list string) (c : codegen.CodegenContext) : Prop :=
  incl names (fnames c).

(** From a context that satisfies [P], [m] does not end with the error of an
    unknown function, and a context it returns satisfies [Q]. *)
Definition resolving {A} (P Q : codegen.CodegenContext -> Prop) (m : codegen.CG A)
  : Prop :=
  forall c, P c ->
    (forall name, m c <> Abort (unknownFunction name))
    /\ (forall a c', m c = Ok (a, c') -> Q c').

(** Errors other than that of an unknown function. *)
Definition otherError (e : Err) : Prop := forall name, e <> unknownFunction name.

(** * Properties *)

(** ** The monad *)

Lemma bind_Ok {S A B} (m : M S A) (k : A -> M S B) s b s' :
  bind m k s = Ok (b, s') ->
  exists a s1, m s = Ok (a, s1) /\ k a s1 = Ok (b, s').
Proof.
  unfold bind. destruct (m s) as [[a s1]|e]; [eauto | discriminate].
Qed.

Lemma preserves_ret {S A X} (f : S -> X) (a : A) : preserves f (ret a).
Proof. intros s b s' H. inversion H. reflexivity. Qed.

Lemma preserves_abort {S A X} (f : S -> X) e : preserves f (@abort S A e).
Proof. intros s b s' H. discriminate. Qed.

Lemma preserves_get {S X} (f : S -> X) : preserves f get.
Proof. intros s b s' H. inversion H. reflexivity. Qed.

Lemma preserves_gets {S A X} (f : S -> X) (g : S -> A) : preserves f (gets g).
Proof. intros s b s' H. inversion H. reflexivity. Qed.

Lemma preserves_liftRes {S A X} (f : S -> X) (r : Res A) : preserves f (liftRes r).
Proof. intros s b s' H. unfold liftRes in H. destruct r; inversion H. reflexivity. Qed.

Lemma preserves_fromOption {S A X} (f : S -> X) (o : option A) e :
  preserves f (fromOption o e).
Proof. destruct o; [apply preserves_ret | apply preserves_abort]. Qed.

Lemma preserves_modify {S X} (f : S -> X) (g : S -> S) :
  (forall s, f (g s) = f s) -> preserves f (modify g).
Proof. intros Hg s b s' H. inversion H. apply Hg. Qed.

Lemma preserves_bind {S A B X} (f : S -> X) (m : M S A) (k : A -> M S B) :
  preserves f m -> (forall a, preserves f (k a)) -> preserves f (bind m k).
Proof.
  intros Hm Hk s b s' H.
  apply bind_Ok in H. destruct H as (a & s1 & H1 & H2).
  rewrite (Hk a _ _ _ H2). eapply Hm; eassumption.
Qed.

Create HintDb frame.

#[export] Hint Resolve preserves_ret preserves_abort preserves_get preserves_gets
  preserves_liftRes preserves_fromOption : frame.

(** One step of a frame proof: split the computation at its outermost
    combinator, or case on what it branches on. *)
Ltac frame_step :=
  match goal with
  | |- preserves _ (bind _ _) => apply preserves_bind; [| intros]
  | |- preserves _ (modify _) =>
      apply preserves_modify; intros; try reflexivity
  | |- preserves _ _ => solve [eauto with frame]
  | |- preserves _ (if ?b then _ else _) => destruct b
  | |- preserves _ (match ?x with _ => _ end) => destruct x
  | |- preserves _ (let '(_, _) := ?x in _) => destruct x
  end.

Ltac frame := repeat frame_step.

(** ** The lexer keeps its source text *)

Section LexerFrame.

Import lexer.

Lemma peekChar_src k : preserves src_ (peekChar k).
Proof. unfold peekChar. frame. Qed.

Lemma advancePosition_src c L : src_ (advancePosition c L) = src_ L.
Proof. unfold advancePosition. destruct (Ascii.eqb c NL); reflexivity. Qed.

Lemma consumeChar_src : preserves src_ consumeChar.
Proof.
  pose proof peekChar_src. unfold consumeChar. frame.
  apply advancePosition_src.
Qed.

Lemma inRange_src k : preserves src_ (inRange k).
Proof. unfold inRange. frame. Qed.

#[local] Hint Resolve peekChar_src consumeChar_src inRange_src : frame.

Lemma skipLineComment_src fuel : preserves src_ (skipLineComment fuel).
Proof. induction fuel; simpl; frame. Qed.

Lemma skipBlockComment_src fuel : preserves src_ (skipBlockComment fuel).
Proof. induction fuel; simpl; frame. Qed.

Lemma scanWhile_src p fuel : forall acc, preserves src_ (scanWhile p fuel acc).
Proof. induction fuel; intros; simpl; frame. Qed.

Lemma scanFraction_src fuel : forall acc ran, preserves src_ (scanFraction fuel acc ran).
Proof. induction fuel; intros; simpl; frame. Qed.

Lemma scanString_src fuel : forall acc, preserves src_ (scanString fuel acc).
Proof. induction fuel; intros; simpl; frame. Qed.

#[local] Hint Resolve skipLineComment_src skipBlockComment_src scanWhile_src
  scanFraction_src scanString_src : frame.

Lemma lexToken_src fuel : preserves src_ (lexToken fuel).
Proof. unfold lexToken. frame. Qed.

#[local] Hint Resolve lexToken_src : frame.

Lemma nextTokenLoop_src fuel : preserves src_ (nextTokenLoop fuel).
Proof. induction fuel; simpl; frame. Qed.

#[local] Hint Resolve nextTokenLoop_src : frame.

Lemma nextToken_src : preserves src_ nextToken.
Proof. unfold nextToken. frame. Qed.

Lemma push_back_src t : preserves src_ (push_back t).
Proof. unfold push_back. frame. Qed.

#[local] Hint Resolve nextToken_src push_back_src : frame.

Lemma fillLookAhead_src fuel offset : preserves src_ (fillLookAhead fuel offset).
Proof. induction fuel; simpl; frame. Qed.

#[local] Hint Resolve fillLookAhead_src : frame.

Lemma peek_src offset : preserves src_ (peek offset).
Proof. unfold peek. frame. Qed.

Lemma consume_src : preserves src_ consume.
Proof. unfold consume. frame. Qed.

End LexerFrame.

Lemma perform_src op : preserves lexer.src_ (perform op).
Proof. destruct op; [apply peek_src | apply consume_src]. Qed.

Lemma after_src ops : forall L L1, after ops L = Ok L1 -> lexer.src_ L1 = lexer.src_ L.
Proof.
  induction ops as [|op r IH]; simpl; intros L L1 H.
  - inversion H. reflexivity.
  - destruct (perform op L) as [[t L']|e] eqn:E; [|discriminate].
    rewrite (IH _ _ H). eapply perform_src; eassumption.
Qed.

Lemma restore_save L L1 :
  lexer.src_ L1 = lexer.src_ L ->
  lexer.restoreState (lexer.saveState L) L1 = L.
Proof.
  intros H. destruct L. unfold lexer.restoreState, lexer.saveState. simpl in *.
  rewrite H. reflexivity.
Qed.

(** C7.  For a lexer state [s] returned by [saveState()], whatever uses of
    [peek] and [consume] follow and return, after [restoreState(s)] every
    sequence of uses observes the same outcomes, token for token (type,
    text, row and column), as the same sequence would have observed
    immediately after [saveState()] returned [s]. *)
Theorem save_restore_same_tokens :
  forall (L L1 : lexer.Lexer) (between_ ops : list LexerOp),
    after between_ L = Ok L1 ->
    observe ops (lexer.restoreState (lexer.saveState L) L1) = observe ops L.
Proof.
  intros L L1 between_ ops H.
  rewrite restore_save by (eapply after_src; eassumption). reflexivity.
Qed.

Lemma save_restore_same_tokens_witness :
  exists L1,
    after [OpConsume; OpPeek 1] (lexer.new "int a; int b;") = Ok L1 /\
    observe [OpConsume; OpConsume; OpPeek 0]
            (lexer.restoreState (lexer.saveState (lexer.new "int a; int b;")) L1)
    = observe [OpConsume; OpConsume; OpPeek 0] (lexer.new "int a; int b;").
Proof.
  eexists. split.
  - vm_compute. reflexivity.
  - apply (@save_restore_same_tokens _ _ [OpConsume; OpPeek 1]).
    vm_compute. reflexivity.
Defined.

(** ** An integer literal at the end of the source *)

Lemma get_none s : forall n, String.length s <= n -> String.get n s = None.
Proof.
  induction s as [|c s IH]; intros n H; simpl in *.
  - reflexivity.
  - destruct n as [|n]; [lia|]. apply IH. lia.
Qed.

Lemma digit_is_no_symbol c :
  isdigit c = true ->
  lexer.find_symbol c lexer.symbolMap = None
  /\ (Ascii.eqb c NL || isspace c = false)
  /\ Ascii.eqb c "/"%char = false
  /\ Ascii.eqb c "."%char = false.
Proof.
  destruct c as [[] [] [] [] [] [] [] []]; vm_compute; intros H;
    try discriminate H; repeat split.
Qed.

Lemma peekChar_some L c :
  String.get (lexer.srcCursor_ L) (lexer.src_ L) = Some c ->
  lexer.peekChar 0 L = Ok (c, L).
Proof.
  intros H. unfold lexer.peekChar, bind, get. rewrite Nat.add_0_r, H. reflexivity.
Qed.

Lemma consumeChar_some L c :
  String.get (lexer.srcCursor_ L) (lexer.src_ L) = Some c ->
  lexer.consumeChar L
  = Ok (c, lexer.advanceCursor (lexer.advancePosition c L)).
Proof.
  intros H. unfold lexer.consumeChar.
  unfold bind at 1. rewrite (peekChar_some _ H).
  unfold bind at 1. unfold modify at 1.
  unfold bind at 1.
  rewrite (@peekChar_some (lexer.advancePosition c L) c).
  - reflexivity.
  - unfold lexer.advancePosition. destruct (Ascii.eqb c NL); exact H.
Qed.

Lemma advance_cursor c L :
  lexer.srcCursor_ (lexer.advanceCursor (lexer.advancePosition c L))
  = S (lexer.srcCursor_ L)
  /\ lexer.src_ (lexer.advanceCursor (lexer.advancePosition c L)) = lexer.src_ L.
Proof. unfold lexer.advancePosition. destruct (Ascii.eqb c NL); split; reflexivity. Qed.

Lemma scanWhile_digits_to_end :
  forall n fuel acc L,
    lexer.size L - lexer.srcCursor_ L = n -> n < fuel ->
    (forall i, lexer.srcCursor_ L <= i < lexer.size L ->
               exists c, String.get i (lexer.src_ L) = Some c /\ isdigit c = true) ->
    exists acc' L',
      lexer.scanWhile isdigit fuel acc L = Ok (acc', L')
      /\ lexer.size L <= lexer.srcCursor_ L' /\ lexer.src_ L' = lexer.src_ L.
Proof.
  induction n as [|n IH]; intros fuel acc L Hn Hf Hd;
    (destruct fuel as [|fuel]; [lia|]); simpl;
    unfold bind at 1; unfold lexer.inRange, gets.
  - assert (E : (lexer.srcCursor_ L + 0 <? lexer.size L) = false)
      by (apply Nat.ltb_ge; lia).
    rewrite E. exists acc, L. repeat split. lia.
  - assert (E : (lexer.srcCursor_ L + 0 <? lexer.size L) = true)
      by (apply Nat.ltb_lt; lia).
    rewrite E.
    destruct (Hd (lexer.srcCursor_ L)) as (c & Hc & Hdig); [lia|].
    unfold bind at 1. rewrite (peekChar_some _ Hc), Hdig.
    unfold bind at 1. rewrite (consumeChar_some _ Hc).
    destruct (advance_cursor c L) as [Hcur Hsrc].
    destruct (IH fuel (push_char acc c)
                 (lexer.advanceCursor (lexer.advancePosition c L)))
      as (acc' & L' & Hrun & Hend & Hsame).
    + unfold lexer.size. rewrite Hcur, Hsrc. unfold lexer.size in Hn. lia.
    + lia.
    + intros i Hi. unfold lexer.size in *. rewrite Hsrc. apply Hd.
      rewrite Hcur, Hsrc in Hi. lia.
    + exists acc', L'. unfold lexer.size in *. rewrite Hsrc in *.
      repeat split; assumption.
Qed.

(** When only digits remain from the cursor to the end of the source, the
    look-ahead for a ['.'] after the digits reads one character past the
    end: [nextToken] ends in [std::out_of_range]. *)
Lemma nextToken_digits_to_end L :
  digitsToEnd L -> lexer.nextToken L = Abort OutOfRange.
Proof.
  intros [Hlt Hd].
  destruct (Hd (lexer.srcCursor_ L)) as (c & Hc & Hdig); [lia|].
  destruct (digit_is_no_symbol c Hdig) as (Hsym & Hsp & Hslash & Hdot).
  unfold lexer.nextToken. unfold bind at 1. unfold gets at 1.
  cbn [lexer.nextTokenLoop].
  unfold bind at 1. unfold lexer.inRange at 1, gets.
  assert (E : (lexer.srcCursor_ L + 0 <? lexer.size L) = true)
    by (apply Nat.ltb_lt; lia).
  rewrite E.
  unfold bind at 1. rewrite (peekChar_some _ Hc), Hsp.
  unfold bind at 1. unfold lexer.inRange at 1, gets.
  rewrite Hslash. cbn [andb].
  unfold lexer.lexToken. unfold bind at 1. unfold gets at 1.
  unfold bind at 1. rewrite (peekChar_some _ Hc), Hsym, Hdig.
  destruct (@scanWhile_digits_to_end (lexer.size L - lexer.srcCursor_ L)
              (S (lexer.size L)) "" L eq_refl) as (lit & L' & Hrun & Hend & Hsame);
    [lia | exact Hd |].
  unfold bind at 1. rewrite Hrun.
  unfold bind at 1. unfold lexer.peekChar. unfold bind at 1, get.
  rewrite Nat.add_0_r, get_none; [reflexivity|].
  rewrite Hsame. exact Hend.
Qed.

(** C9.  Tokenization is not total: on a source text that ends in an
    integer literal, the scan of the literal looks for a ['.'] one character
    past the end of the text and [std::string::at] throws; the literal is
    never returned.  Here on the texts [1] and [x = 1]. *)
Theorem integer_literal_at_end_of_source :
  lexer.nextToken (lexer.new "1") = Abort OutOfRange
  /\ lexer.tokenize "x = 1" = Abort OutOfRange
  /\ (forall L, digitsToEnd L -> lexer.nextToken L = Abort OutOfRange).
Proof.
  split; [|split].
  - vm_compute. reflexivity.
  - vm_compute. reflexivity.
  - exact nextToken_digits_to_end.
Qed.

(** With a character after the literal, the same text is tokenized. *)
Example integer_literal_before_newline :
  match lexer.tokenize ("x = 1" ++ str1 NL) with
  | Ok ts => lexemes ts
  | Abort _ => []
  end
  = [(lexer.Identifier, "x"); (lexer.Equals, "="); (lexer.IntLit, "1");
     (lexer.EndOfFile, "")].
Proof. vm_compute. reflexivity. Qed.

(** ** The length of an array type *)

Lemma all_chars_push q acc c :
  all_chars q (push_char acc c) = all_chars q acc && q c.
Proof.
  unfold push_char, str1. induction acc as [|d acc IH]; simpl.
  - rewrite andb_true_r. reflexivity.
  - rewrite IH, andb_assoc. reflexivity.
Qed.

Lemma peekChar_Ok k L c L' :
  lexer.peekChar k L = Ok (c, L') ->
  L' = L /\ String.get (lexer.srcCursor_ L + k) (lexer.src_ L) = Some c.
Proof.
  unfold lexer.peekChar, bind, get, fromOption.
  destruct (String.get _ _); intros H; inversion H. auto.
Qed.

Lemma consumeChar_Ok L c L' :
  lexer.consumeChar L = Ok (c, L') ->
  String.get (lexer.srcCursor_ L) (lexer.src_ L) = Some c
  /\ L' = lexer.advanceCursor (lexer.advancePosition c L).
Proof.
  intros H. assert (H' := H). unfold lexer.consumeChar in H'.
  apply bind_Ok in H'. destruct H' as (c0 & L0 & H0 & _).
  apply peekChar_Ok in H0. destruct H0 as [-> H0]. rewrite Nat.add_0_r in H0.
  rewrite (consumeChar_some _ H0) in H. inversion H; subst. auto.
Qed.

(** What the scanning loop returns extends what it was given by characters
    that satisfy the loop's test. *)
Lemma scanWhile_all (p q : ascii -> bool) :
  (forall c, p c = true -> q c = true) ->
  forall fuel acc L lit L',
    lexer.scanWhile p fuel acc L = Ok (lit, L') ->
    all_chars q acc = true -> all_chars q lit = true.
Proof.
  intros Hpq. induction fuel as [|fuel IH]; intros acc L lit L' H Hacc; simpl in H.
  - discriminate.
  - apply bind_Ok in H. destruct H as (more & L0 & _ & H).
    destruct more; [|inversion H; subst; assumption].
    apply bind_Ok in H. destruct H as (c & L1 & Hc & H).
    destruct (p c) eqn:Ep; [|inversion H; subst; assumption].
    apply bind_Ok in H. destruct H as (c' & L2 & Hc' & H).
    apply peekChar_Ok in Hc. destruct Hc as [-> Hc]. rewrite Nat.add_0_r in Hc.
    apply consumeChar_Ok in Hc'. destruct Hc' as [Hc' _].
    assert (c' = c) by congruence. subst c'.
    eapply IH; [exact H|].
    rewrite all_chars_push, Hacc, (Hpq _ Ep). reflexivity.
Qed.

Lemma digit_notX c : isdigit c = true -> notX c = true.
Proof.
  destruct c as [[] [] [] [] [] [] [] []]; vm_compute; intros H;
    try discriminate H; reflexivity.
Qed.

Lemma literalBase_decimal s : all_chars notX s = true -> parser.literalBase s = 10%Z.
Proof.
  destruct s as [|c0 [|c1 r]]; try reflexivity.
  cbn [all_chars]. intros H.
  apply andb_prop in H. destruct H as [_ H].
  apply andb_prop in H. destruct H as [H _].
  unfold notX in H. apply andb_prop in H. destruct H as [Hx HX].
  apply negb_true_iff in Hx, HX.
  unfold parser.literalBase. rewrite Hx, HX.
  rewrite andb_false_r. reflexivity.
Qed.

Lemma scanFraction_not_ran fuel :
  forall acc ran L lit isFloat L',
    lexer.scanFraction fuel acc ran L = Ok (lit, isFloat, L') ->
    isFloat = false -> lit = acc.
Proof.
  induction fuel as [|fuel IH]; intros acc ran L lit isFloat L' H Hf; simpl in H.
  - discriminate.
  - apply bind_Ok in H. destruct H as (more & L0 & _ & H).
    destruct more; [|inversion H; subst; reflexivity].
    apply bind_Ok in H. destruct H as (c & L1 & _ & H).
    destruct (isdigit c); [|inversion H; subst; reflexivity].
    apply bind_Ok in H. destruct H as (c' & L2 & _ & H).
    exfalso. clear IH.
    revert H Hf. generalize (push_char acc c'). generalize L2. clear.
    induction fuel as [|fuel IH]; intros L acc H Hf; simpl in H; [discriminate|].
    apply bind_Ok in H. destruct H as (more & L0 & _ & H).
    destruct more; [|inversion H; subst; discriminate].
    apply bind_Ok in H. destruct H as (c & L1 & _ & H).
    destruct (isdigit c); [|inversion H; subst; discriminate].
    apply bind_Ok in H. destruct H as (c' & L3 & _ & H).
    eapply IH; eassumption.
Qed.

Lemma find_symbol_not_IntLit c ty :
  lexer.find_symbol c lexer.symbolMap = Some ty -> ty <> lexer.IntLit.
Proof.
  destruct c as [[] [] [] [] [] [] [] []]; vm_compute; intros H; inversion H;
    discriminate.
Qed.

Lemma find_keyword_not_IntLit s ty :
  lexer.find_keyword s lexer.keywordMap = Some ty -> ty <> lexer.IntLit.
Proof.
  unfold lexer.keywordMap. cbn [lexer.find_keyword].
  repeat match goal with
         | |- context [String.eqb s ?k] => destruct (String.eqb s k)
         end; intros H; inversion H; discriminate.
Qed.

(** The text of an integer literal the lexer returns has no [x] in it. *)
Lemma lexToken_IntLit fuel L t L' :
  lexer.lexToken fuel L = Ok (t, L') ->
  lexer.type t = lexer.IntLit -> all_chars notX (lexer.src t) = true.
Proof.
  intros H Ht. unfold lexer.lexToken in H.
  apply bind_Ok in H. destruct H as (newToken & L0 & _ & H).
  apply bind_Ok in H. destruct H as (c & L1 & _ & H).
  destruct (lexer.find_symbol c lexer.symbolMap) as [ty|] eqn:Esym.
  { apply bind_Ok in H. destruct H as (? & ? & _ & H). inversion H; subst.
    exfalso. exact (find_symbol_not_IntLit _ Esym Ht). }
  destruct (isdigit c) eqn:Edig.
  { apply bind_Ok in H. destruct H as (lit & L2 & Hscan & H).
    assert (Hlit : all_chars notX lit = true)
      by (eapply (scanWhile_all isdigit notX digit_notX); [exact Hscan | reflexivity]).
    apply bind_Ok in H. destruct H as (d & L3 & Hd & H).
    destruct (Ascii.eqb d "."%char) eqn:Edot.
    - apply bind_Ok in H. destruct H as (dot & L4 & Hdot & H).
      apply bind_Ok in H. destruct H as ([lit' isFloat] & L5 & Hfrac & H).
      inversion H; subst. simpl in *.
      destruct isFloat; [discriminate|].
      rewrite (scanFraction_not_ran _ _ _ _ Hfrac eq_refl).
      rewrite all_chars_push, Hlit.
      apply peekChar_Ok in Hd. destruct Hd as [-> Hd]. rewrite Nat.add_0_r in Hd.
      apply consumeChar_Ok in Hdot. destruct Hdot as [Hdot _].
      assert (dot = d) by congruence. subst dot.
      apply Ascii.eqb_eq in Edot. subst d. reflexivity.
    - inversion H; subst. exact Hlit. }
  destruct (Ascii.eqb c DQUOTE).
  { apply bind_Ok in H. destruct H as (? & ? & _ & H).
    apply bind_Ok in H. destruct H as (? & ? & _ & H).
    apply bind_Ok in H. destruct H as (more & ? & _ & H).
    destruct more; simpl in H; [|discriminate].
    apply bind_Ok in H. destruct H as (? & ? & _ & H).
    inversion H; subst. discriminate. }
  destruct (isalpha c || Ascii.eqb c "_"%char); [|discriminate].
  apply bind_Ok in H. destruct H as (kw & ? & _ & H).
  destruct (lexer.find_keyword kw lexer.keywordMap) as [ty|] eqn:Ekw;
    inversion H; subst; simpl in Ht.
  - exfalso. exact (find_keyword_not_IntLit _ Ekw Ht).
  - discriminate.
Qed.

Lemma nextTokenLoop_IntLit fuel :
  forall L t L',
    lexer.nextTokenLoop fuel L = Ok (t, L') ->
    lexer.type t = lexer.IntLit -> all_chars notX (lexer.src t) = true.
Proof.
  induction fuel as [|fuel IH]; intros L t L' H Ht; simpl in H; [discriminate|].
  apply bind_Ok in H. destruct H as (more & L0 & _ & H).
  destruct more; [|inversion H; subst; discriminate].
  apply bind_Ok in H. destruct H as (c & L1 & _ & H).
  destruct (Ascii.eqb c NL || isspace c).
  { apply bind_Ok in H. destruct H as (? & ? & _ & H). eapply IH; eassumption. }
  apply bind_Ok in H. destruct H as (more1 & L2 & _ & H).
  destruct (Ascii.eqb c "/"%char && more1);
    [|eapply lexToken_IntLit; eassumption].
  apply bind_Ok in H. destruct H as (c1 & L3 & _ & H).
  destruct (Ascii.eqb c1 "/"%char); [|destruct (Ascii.eqb c1 "*"%char)].
  - apply bind_Ok in H. destruct H as (? & ? & _ & H).
    apply bind_Ok in H. destruct H as (? & ? & _ & H).
    apply bind_Ok in H. destruct H as (? & ? & _ & H).
    eapply IH; eassumption.
  - apply bind_Ok in H. destruct H as (? & ? & _ & H).
    apply bind_Ok in H. destruct H as (? & ? & _ & H).
    apply bind_Ok in H. destruct H as (? & ? & _ & H).
    eapply IH; eassumption.
  - eapply lexToken_IntLit; eassumption.
Qed.

(** No integer literal returned by [nextToken] makes a parser take base 16:
    the scan of a literal stops at the [x] of a [0x] prefix. *)
Lemma lexed_literal_is_decimal L t L' :
  lexer.nextToken L = Ok (t, L') ->
  lexer.type t = lexer.IntLit -> parser.literalBase (lexer.src t) = 10%Z.
Proof.
  intros H Ht. apply literalBase_decimal.
  unfold lexer.nextToken in H. apply bind_Ok in H. destruct H as (n & L0 & _ & H).
  eapply nextTokenLoop_IntLit; eassumption.
Qed.

(** C4.  The array length [0x10] does not yield an array of length 16: the
    lexer ends the integer literal at the [x], so [parseType] reads the
    length [0] in base 10 and then finds the identifier [x10] where it
    expects [']'], which is fatal.  ([parseType] would read a token
    [0x10] in base 16, and it reads an unprefixed length in base 10.) *)
Theorem array_length_0x10 :
  (match lexer.tokenize "int[0x10] a;" with
   | Ok ts => lexemes ts
   | Abort _ => []
   end
   = [(lexer.Identifier, "int"); (lexer.LBracket, "["); (lexer.IntLit, "0");
      (lexer.Identifier, "x10"); (lexer.RBracket, "]"); (lexer.Identifier, "a");
      (lexer.Semi, ";"); (lexer.EndOfFile, "")])
  /\ parseTypeOf 10 "int[0x10] a;"
     = Abort (Fatal error.Syntax "Expected token: ']'")
  /\ parseTypeOf 10 "int[16] a;"
     = Ok (Some (ast.ArrayTypeNode (ast.PrimitiveTypeNode ast.Int true) 16))
  /\ (match parser.parseType 10
              (parserOnTokens [lexer.mkToken lexer.Identifier "int" 1 1;
                               lexer.mkToken lexer.LBracket "[" 1 4;
                               lexer.mkToken lexer.IntLit "0x10" 1 5;
                               lexer.mkToken lexer.RBracket "]" 1 9]) with
      | Ok (ty, _) => ty
      | Abort _ => None
      end
      = Some (ast.ArrayTypeNode (ast.PrimitiveTypeNode ast.Int true) 16)).
Proof. repeat split; vm_compute; reflexivity. Qed.

(** ** typedef *)

Lemma find_insert_fresh {V} k (v : V) :
  forall m, smap.find k m = None -> smap.find k (smap.insert k v m) = Some v.
Proof.
  induction m as [|[k' v'] m IH]; simpl; intros H.
  - rewrite String.eqb_refl. reflexivity.
  - destruct (String.eqb k k') eqn:E; [discriminate|].
    destruct (String.compare k k') eqn:C; simpl.
    + apply String.compare_eq_iff in C. apply String.eqb_neq in E. contradiction.
    + rewrite String.eqb_refl. reflexivity.
    + rewrite E. apply IH. exact H.
Qed.

(** A typedef of a primitive type under a name not yet registered binds the
    name to the descriptor of the target. *)
Lemma typedef_of_primitive alias target k sg p :
  smap.find target (parser.types_ p) = Some (ast.PrimitiveTypeNode k sg) ->
  smap.find alias (parser.types_ p) = None ->
  exists p',
    parser.insertTypeDef alias target p = Ok (tt, p')
    /\ smap.find alias (parser.types_ p') = Some (ast.PrimitiveTypeNode k sg).
Proof.
  intros Ht Ha. unfold parser.insertTypeDef, parser.getTypeNode, bind, gets.
  rewrite Ht. simpl. unfold parser.registerPrimitiveType, modify.
  eexists. split; [reflexivity|]. simpl. apply find_insert_fresh. exact Ha.
Qed.

(** A typedef of a class type never returns: the cast to [ClassNode] fails
    for the class reference found, and the statement is reported as having
    an invalid target. *)
Lemma typedef_of_class alias target decl p :
  smap.find target (parser.types_ p) = Some (ast.ClassReferenceNode decl) ->
  forall r, parser.insertTypeDef alias target p <> Ok r.
Proof.
  intros Ht r. unfold parser.insertTypeDef, parser.getTypeNode.
  unfold bind at 1. unfold gets. rewrite Ht. simpl.
  unfold parser.emitSyntaxError, bind.
  destruct (parser.peek 0 p) as [[? ?]|]; discriminate.
Qed.

(** C5.  A typedef whose target is a class type does not bind the alias:
    on [class C { int a; } typedef D C;] the parser stops with the
    diagnostic for an invalid typedef target.  (For a primitive target and a
    new alias the binding is made.) *)
Theorem typedef_of_class_type_is_fatal :
  typeAfter 10 "class C { int a; } typedef D C;" "D"
  = Abort (Fatal error.Syntax "Invalid target type in typedef")
  /\ typeAfter 10 "class C { int a; }" "C" = Ok (Some (ast.ClassReferenceNode 0))
  /\ typeAfter 10 "typedef word int;" "word"
     = Ok (Some (ast.PrimitiveTypeNode ast.Int true)).
Proof. repeat split; vm_compute; reflexivity. Qed.

(** An alias that is already the name of a type keeps its binding. *)
Example typedef_of_registered_name :
  typeAfter 10 "typedef int char;" "int"
  = Ok (Some (ast.PrimitiveTypeNode ast.Int true)).
Proof. vm_compute. reflexivity. Qed.

(** ** Underscores *)

(** C6.  An identifier with an underscore is accepted as a typedef alias:
    [typedef my_int int;] registers [my_int], and the alias then names the
    type of a function and of its parameter.  (The name of a class, of a
    function, of a member or of a variable with an underscore is fatal.) *)
Theorem typedef_alias_with_underscore :
  typeAfter 10 "typedef my_int int;" "my_int"
  = Ok (Some (ast.PrimitiveTypeNode ast.Int true))
  /\ (match parseSource 10 "typedef my_int int; my_int f(my_int a);" with
      | Ok p => map (fun f => (ast.fn_name_ f, ast.fn_type_ f, ast.fn_params_ f))
                    (parser.functions_ p)
      | Abort _ => []
      end
      = [("f", Some (ast.PrimitiveTypeNode ast.Int true),
          [("a", Some (ast.PrimitiveTypeNode ast.Int true))])])
  /\ typeAfter 10 "class my_class { int a; }" "x"
     = Abort (Fatal error.Syntax
                "Invalid identifier 'my_class': underscores are not allowed in identifiers")
  /\ typeAfter 10 "int my_f();" "x"
     = Abort (Fatal error.Syntax
                "Invalid identifier 'my_f': underscores are not allowed in identifiers")
  /\ typeAfter 10 "class C { int my_a; }" "x"
     = Abort (Fatal error.Syntax
                "Invalid identifier 'my_a': underscores are not allowed in identifiers")
  /\ typeAfter 10 "int f() { int my_v; }" "x"
     = Abort (Fatal error.Syntax
                "Invalid identifier 'my_v': underscores are not allowed in identifiers").
Proof. repeat split; vm_compute; reflexivity. Qed.

(** [validateIdentifier] returns exactly on the identifiers without an
    underscore. *)
Lemma validateIdentifier_Ok id p r :
  parser.validateIdentifier id p = Ok r -> contains_char "_"%char id = false.
Proof.
  unfold parser.validateIdentifier. destruct (contains_char "_"%char id); [|reflexivity].
  unfold parser.emitSyntaxError, bind.
  destruct (parser.peek 0 p) as [[? ?]|]; discriminate.
Qed.

(** ** Division and comparison *)

Lemma bind_eq {S A B} (m : M S A) (k : A -> M S B) s a s1 :
  m s = Ok (a, s1) -> bind m k s = k a s1.
Proof. intros H. unfold bind. rewrite H. reflexivity. Qed.

(** On an integer value and an integer target type, [convertIfNeeded]
    returns, and returns an integer value. *)
Lemma convertIfNeeded_integer value targetType isSigned c :
  llvm.isIntegerTy (llvm.getType value) = true ->
  llvm.isIntegerTy targetType = true ->
  exists value' c',
    codegen.convertIfNeeded value targetType isSigned c = Ok (value', c')
    /\ llvm.isIntegerTy (llvm.getType value') = true.
Proof.
  intros Hv Ht. unfold codegen.convertIfNeeded.
  destruct (llvm.Type_beq (llvm.getType value) targetType).
  { exists value, c. split; [reflexivity | exact Hv]. }
  destruct (llvm.getType value) as [|vb| | | | | | |] eqn:Ev; try discriminate.
  destruct targetType as [|tb| | | | | | |]; try discriminate.
  destruct (vb <? tb); [destruct isSigned|destruct (tb <? vb)];
    cbv [codegen.CreateCast codegen.fresh codegen.emit bind gets modify ret].
  - eexists; eexists; split; reflexivity.
  - eexists; eexists; split; reflexivity.
  - eexists; eexists; split; reflexivity.
  - exists value, c. split; [reflexivity | rewrite Ev; reflexivity].
Qed.



(** ** What the parser leaves unchanged *)

Section ParserFrame.

Import parser.

Variable X : Type.
Variable f : Parser -> X.

Hypothesis f_lexer : forall x p, f (set_lexer x p) = f p.
Hypothesis f_scopes : forall x p, f (set_scopes x p) = f p.
Hypothesis f_functions : forall x p, f (set_functions x p) = f p.
Hypothesis f_types : forall x p, f (set_types x p) = f p.
Hypothesis f_intDefs : forall x p, f (set_intDefs x p) = f p.
Hypothesis f_className : forall x p, f (set_currentClassName x p) = f p.
Hypothesis f_classes : forall x p, f (set_classes x p) = f p.

Lemma liftL_frame {A} (m : lexer.LM A) : preserves f (liftL m).
Proof.
  intros p a p' H. unfold liftL in H.
  destruct (m (lexer_ p)) as [[a0 L]|]; inversion H. apply f_lexer.
Qed.

#[local] Hint Resolve liftL_frame : frame.

Ltac pframe :=
  repeat (frame_step;
          cbv beta;
          rewrite ?f_lexer, ?f_scopes, ?f_functions, ?f_types, ?f_intDefs,
                  ?f_className, ?f_classes;
          try reflexivity).

Lemma peek_frame k : preserves f (peek k).
Proof. unfold peek. pframe. Qed.
Lemma peekT_frame t k : preserves f (peekT t k).
Proof. unfold peekT. pframe. Qed.
Lemma consume_frame : preserves f consume.
Proof. unfold consume. pframe. Qed.

#[local] Hint Resolve peek_frame peekT_frame consume_frame : frame.

Lemma peekType_frame : preserves f peekType.
Proof. unfold peekType. pframe. Qed.
Lemma emitSyntaxError_frame {A} msg : preserves f (@emitSyntaxError A msg).
Proof. unfold emitSyntaxError. pframe. Qed.
Lemma emitSemanticError_frame {A} msg : preserves f (@emitSemanticError A msg).
Proof. unfold emitSemanticError. pframe. Qed.
Lemma expect_frame t : preserves f (expect t).
Proof. unfold expect. pframe. Qed.

#[local] Hint Resolve peekType_frame emitSyntaxError_frame emitSemanticError_frame
  expect_frame : frame.

Lemma validateIdentifier_frame id : preserves f (validateIdentifier id).
Proof. unfold validateIdentifier. pframe. Qed.
Lemma getTypeNode_frame name : preserves f (getTypeNode name).
Proof. unfold getTypeNode. pframe. Qed.
Lemma lookupVariableType_frame name : preserves f (lookupVariableType name).
Proof. unfold lookupVariableType. pframe. Qed.
Lemma lookupFunctionReturnType_frame name : preserves f (lookupFunctionReturnType name).
Proof. unfold lookupFunctionReturnType. pframe. Qed.
Lemma getDecl_frame d : preserves f (getDecl d).
Proof. unfold getDecl. pframe. Qed.
Lemma pushScope_frame : preserves f pushScope.
Proof. unfold pushScope. pframe. Qed.
Lemma popScope_frame : preserves f popScope.
Proof. unfold popScope. pframe. Qed.
Lemma indexVariableType_frame name ty : preserves f (indexVariableType name ty).
Proof. unfold indexVariableType. pframe. Qed.
Lemma registerPrimitiveType_frame name ty : preserves f (registerPrimitiveType name ty).
Proof. unfold registerPrimitiveType. pframe. Qed.
Lemma registerStructType_frame name d : preserves f (registerStructType name d).
Proof. unfold registerStructType. pframe. Qed.

#[local] Hint Resolve validateIdentifier_frame getTypeNode_frame
  lookupVariableType_frame lookupFunctionReturnType_frame getDecl_frame
  pushScope_frame popScope_frame indexVariableType_frame
  registerPrimitiveType_frame registerStructType_frame : frame.

Lemma insertTypeDef_frame alias target : preserves f (insertTypeDef alias target).
Proof. unfold insertTypeDef. pframe. Qed.

Lemma countTokens_frame t fuel : forall n, preserves f (countTokens t fuel n).
Proof. induction fuel; intros; simpl; pframe. Qed.

#[local] Hint Resolve insertTypeDef_frame countTokens_frame : frame.

Lemma parseType_frame fuel : preserves f (parseType fuel).
Proof. unfold parseType. pframe. Qed.

Lemma countPtrAhead_frame fuel : forall i, preserves f (countPtrAhead fuel i).
Proof. induction fuel; intros; simpl; pframe. Qed.

#[local] Hint Resolve parseType_frame countPtrAhead_frame : frame.

Lemma getNextTypeLength_frame fuel : preserves f (getNextTypeLength fuel).
Proof. unfold getNextTypeLength. pframe. Qed.

Lemma applyDrefs_frame n : forall target ty, preserves f (applyDrefs n target ty).
Proof. induction n; intros; simpl; pframe. Qed.

Lemma tokenToBinaryOp_frame t : preserves f (tokenToBinaryOp t).
Proof. unfold tokenToBinaryOp. pframe. Qed.

Lemma isTerminator_frame t : preserves f (isTerminator t).
Proof. unfold isTerminator. pframe. Qed.

Lemma checkInstanceCall_frame name : preserves f (checkInstanceCall name).
Proof. unfold checkInstanceCall. pframe. Qed.

#[local] Hint Resolve getNextTypeLength_frame applyDrefs_frame tokenToBinaryOp_frame
  isTerminator_frame checkInstanceCall_frame : frame.

Lemma expressions_frame fuel :
  preserves f (parseValue fuel)
  /\ (forall a t ty, preserves f (parsePostfix fuel a t ty))
  /\ (forall args, preserves f (parseArgs fuel args))
  /\ (forall t, preserves f (parsePrimaryExpression fuel t))
  /\ (forall prec lhs t, preserves f (parseBinaryOpRHS fuel prec lhs t))
  /\ (forall t, preserves f (parseExpression fuel t)).
Proof.
  induction fuel as [|fuel (IHv & IHp & IHa & IHpr & IHb & IHe)].
  - repeat split; intros; simpl; pframe.
  - repeat split; intros; simpl.
    + pframe.
    + pframe.
    + pframe.
    + pframe.
    + pframe.
    + pframe.
Qed.

Lemma parseExpression_frame fuel t : preserves f (parseExpression fuel t).
Proof. apply expressions_frame. Qed.
Lemma parseValue_frame fuel : preserves f (parseValue fuel).
Proof. apply expressions_frame. Qed.
Lemma parseArgs_frame fuel args : preserves f (parseArgs fuel args).
Proof. apply expressions_frame. Qed.

#[local] Hint Resolve parseExpression_frame parseValue_frame parseArgs_frame : frame.

Lemma statements_frame fuel :
  preserves f (parseStatement fuel)
  /\ (forall b body, preserves f (parseBlock fuel b body)).
Proof.
  induction fuel as [|fuel (IHs & IHb)].
  - repeat split; intros; simpl; pframe.
  - repeat split; intros; simpl.
    + pframe.
    + pframe.
Qed.

Lemma parseBlock_frame fuel b body : preserves f (parseBlock fuel b body).
Proof. apply statements_frame. Qed.

#[local] Hint Resolve parseBlock_frame : frame.

Lemma parseParams_frame fuel : forall params, preserves f (parseParams fuel params).
Proof. induction fuel; intros; simpl; pframe. Qed.

Lemma indexParams_frame params : preserves f (indexParams params).
Proof. induction params as [|[name ty] r IH]; simpl; pframe. Qed.

#[local] Hint Resolve parseParams_frame indexParams_frame : frame.

Lemma parseFunction_frame fuel : preserves f (parseFunction fuel).
Proof. unfold parseFunction. pframe. Qed.

Lemma skipParams_frame fuel : preserves f (skipParams fuel).
Proof. induction fuel; simpl; pframe. Qed.

Lemma skipBody_frame fuel : forall depth, preserves f (skipBody fuel depth).
Proof. induction fuel; intros; simpl; pframe. Qed.

#[local] Hint Resolve parseFunction_frame skipParams_frame skipBody_frame : frame.

Lemma parseMembers_frame fuel : forall members, preserves f (parseMembers fuel members).
Proof. induction fuel; intros; simpl; pframe. Qed.

Lemma parseFunctions_frame fuel : preserves f (parseFunctions fuel).
Proof. induction fuel; simpl; pframe. Qed.

Lemma closeClass_frame members : preserves f (closeClass members).
Proof. unfold closeClass. pframe. Qed.

Lemma insertIntDef_frame alias v : preserves f (insertIntDef alias v).
Proof. unfold insertIntDef. pframe. Qed.

#[local] Hint Resolve parseMembers_frame parseFunctions_frame closeClass_frame
  insertIntDef_frame : frame.

Lemma parseClass_frame fuel : preserves f (parseClass fuel).
Proof. unfold parseClass. pframe. Qed.

#[local] Hint Resolve parseClass_frame : frame.

Lemma parseFile_frame fuel : preserves f (parseFile fuel).
Proof. induction fuel; simpl; pframe. Qed.

End ParserFrame.

(** ** Methods *)

Ltac inv_bind H a s' H1 :=
  apply bind_Ok in H; destruct H as (a & s' & H1 & H).

(** Use of a frame lemma on a run at hand. *)
Ltac framed lem := eapply lem; first [eassumption | intros; reflexivity].

Lemma parseParams_extends fuel :
  forall params p r p',
    parser.parseParams fuel params p = Ok (r, p') ->
    exists declared, r = params ++ declared.
Proof.
  induction fuel as [|fuel IH]; intros params p r p' H; simpl in H; [discriminate|].
  inv_bind H ty p1 H1.
  destruct (negb (lexer.TokenType_beq ty lexer.RParen)).
  - inv_bind H paramType p2 H2. inv_bind H token p3 H3.
    inv_bind H u p4 H4. inv_bind H isComma p5 H5. inv_bind H u' p6 H6.
    apply IH in H. destruct H as (declared & ->).
    rewrite <- app_assoc. eauto.
  - inversion H; subst. exists []. rewrite app_nil_r. reflexivity.
Qed.

Lemma gets_Ok {S A} (g : S -> A) s a s' :
  gets g s = Ok (a, s') -> a = g s /\ s' = s.
Proof. intros H. inversion H. auto. Qed.

(** Inside class [C], the node [parseFunction] returns is the node of a
    method of [C]. *)
Lemma parseFunction_method fuel p f p' C :
  parser.currentClassName_ p = C -> C <> "" ->
  parser.parseFunction fuel p = Ok (f, p') ->
  isMethodOf C (parser.types_ p) f.
Proof.
  intros HC Hne H. unfold parser.parseFunction in H.
  inv_bind H className p0 H0. apply gets_Ok in H0. destruct H0 as [-> ->].
  rewrite HC in H.
  assert (E : String.eqb C "" = false) by (apply String.eqb_neq; exact Hne).
  rewrite E in H. cbn [negb andb] in H.
  inv_bind H type p1 H1. inv_bind H nameToken p2 H2.
  inv_bind H u p3 H3. inv_bind H u' p4 H4.
  inv_bind H params p5 H5. inv_bind H params' p6 H6.
  inv_bind H u'' p7 H7. inv_bind H next p8 H8. inv_bind H body p9 H9.
  inversion H; subst f p9. clear H.
  assert (Ht : parser.types_ p4 = parser.types_ p).
  { rewrite (expect_frame parser.types_ (fun _ _ => eq_refl) _ _ H4).
    rewrite (validateIdentifier_frame parser.types_ (fun _ _ => eq_refl) _ _ H3).
    rewrite (expect_frame parser.types_ (fun _ _ => eq_refl) _ _ H2).
    exact (parseType_frame parser.types_ (fun _ _ => eq_refl) _ _ H1). }
  unfold isMethodOf. cbn [ast.fn_name_ ast.fn_isDetached_ ast.fn_params_].
  split; [|split].
  - exists (lexer.src nameToken). split; [reflexivity|].
    eapply validateIdentifier_Ok. exact H3.
  - reflexivity.
  - apply parseParams_extends in H6. destruct H6 as (declared & ->).
    exists declared. f_equal.
    unfold thisParameter. rewrite <- Ht.
    inv_bind H5 thisType p4' H5'. apply gets_Ok in H5'. destruct H5' as [-> ->].
    destruct (smap.find C (parser.types_ p4)); inversion H5; reflexivity.
Qed.

(** The second pass over the body of class [C] appends the nodes of
    methods of [C] to the function list, and changes neither the type
    registry nor the class being parsed. *)
Lemma parseFunctions_methods C :
  C <> "" ->
  forall fuel p u p',
    parser.currentClassName_ p = C ->
    parser.parseFunctions fuel p = Ok (u, p') ->
    parser.types_ p' = parser.types_ p
    /\ exists methods,
         parser.functions_ p' = parser.functions_ p ++ methods
         /\ Forall (isMethodOf C (parser.types_ p)) methods.
Proof.
  intros Hne. induction fuel as [|fuel IH]; intros p u p' HC H; simpl in H;
    [discriminate|].
  inv_bind H ty p1 H1.
  assert (F1 : forall X (g : parser.Parser -> X),
             (forall x q, g (parser.set_lexer x q) = g q) -> g p1 = g p)
    by (intros X g Hg; exact (peekType_frame g Hg _ H1)).
  destruct (negb (lexer.TokenType_beq ty lexer.EndOfFile)
            && negb (lexer.TokenType_beq ty lexer.RBrace)).
  2:{ inversion H; subst. split; [apply F1; reflexivity|].
      exists []. rewrite app_nil_r. split; [apply F1; reflexivity | constructor]. }
  inv_bind H u1 p2 H2.
  assert (F2 : forall X (g : parser.Parser -> X),
             (forall x q, g (parser.set_lexer x q) = g q) -> g p2 = g p1).
  { intros X g Hg. destruct (lexer.TokenType_beq ty lexer.Typedef).
    - inv_bind H2 t0 p2' H2'. inversion H2; subst.
      exact (consume_frame g Hg _ H2').
    - inversion H2; subst. reflexivity. }
  inv_bind H len p3 H3.
  assert (F3 := fun X g Hg => @getNextTypeLength_frame X g Hg _ _ _ _ H3).
  inv_bind H isFunction p4 H4.
  assert (F4 := fun X g Hg => @peekT_frame X g Hg _ _ _ _ _ H4).
  assert (F : forall X (g : parser.Parser -> X),
             (forall x q, g (parser.set_lexer x q) = g q) -> g p4 = g p).
  { intros X g Hg. rewrite (F4 X g Hg), (F3 X g Hg), (F2 X g Hg). apply F1, Hg. }
  destruct isFunction.
  - inv_bind H f p5 H5. inv_bind H u2 p6 H6. inversion H6; subst p6 u2. clear H6.
    assert (Hm : isMethodOf C (parser.types_ p) f).
    { rewrite <- (F _ parser.types_ (fun _ _ => eq_refl)).
      eapply parseFunction_method; [|exact Hne|exact H5].
      rewrite (F _ parser.currentClassName_ (fun _ _ => eq_refl)). exact HC. }
    assert (G : forall X (g : parser.Parser -> X),
               (forall x q, g (parser.set_lexer x q) = g q) ->
               (forall x q, g (parser.set_scopes x q) = g q) -> g p5 = g p).
    { intros X g Hg Hs. rewrite (parseFunction_frame g Hg Hs _ _ H5). apply F, Hg. }
    apply IH in H.
    + destruct H as (Ht & methods & Hf & Hall). cbn in Ht, Hf, Hall.
      rewrite (G _ parser.types_ (fun _ _ => eq_refl) (fun _ _ => eq_refl)) in Ht, Hall.
      rewrite (G _ parser.functions_ (fun _ _ => eq_refl) (fun _ _ => eq_refl)) in Hf.
      split; [exact Ht|]. exists (f :: methods).
      split; [rewrite Hf, <- app_assoc; reflexivity | constructor; assumption].
    + cbn. rewrite (G _ parser.currentClassName_ (fun _ _ => eq_refl) (fun _ _ => eq_refl)).
      exact HC.
  - inv_bind H ty5 p5 H5. inv_bind H t6 p6 H6. inv_bind H t7 p7 H7.
    assert (G : forall X (g : parser.Parser -> X),
               (forall x q, g (parser.set_lexer x q) = g q) -> g p7 = g p).
    { intros X g Hg. rewrite (expect_frame g Hg _ _ H7), (expect_frame g Hg _ _ H6),
        (parseType_frame g Hg _ _ H5). apply F, Hg. }
    apply IH in H.
    + rewrite (G _ parser.types_ (fun _ _ => eq_refl)),
        (G _ parser.functions_ (fun _ _ => eq_refl)) in H. exact H.
    + rewrite (G _ parser.currentClassName_ (fun _ _ => eq_refl)). exact HC.
Qed.

Lemma set_lexer_same p : parser.set_lexer (parser.lexer_ p) p = p.
Proof. destruct p; reflexivity. Qed.

(** Closing a class that has members leaves a type registered under its
    name. *)
Lemma closeClass_registers C members p u p' :
  parser.currentClassName_ p = C -> C <> "" -> members <> [] ->
  parser.closeClass members p = Ok (u, p') ->
  smap.find C (parser.types_ p') <> None.
Proof.
  intros HC Hne Hm H. unfold parser.closeClass in H.
  inv_bind H className p0 H0. apply gets_Ok in H0. destruct H0 as [-> ->].
  rewrite HC in H.
  assert (E : String.eqb C "" = false) by (apply String.eqb_neq; exact Hne).
  rewrite E in H. destruct members as [|m ms]; [contradiction|].
  cbn [negb andb length Nat.eqb] in H.
  inv_bind H existingType p1 H1. apply gets_Ok in H1. destruct H1 as [-> ->].
  destruct (smap.find C (parser.types_ p)) as [existing|] eqn:Ef.
  - assert (Ht : parser.types_ p' = parser.types_ p).
    { destruct (parser.asClassReferenceNode (Some existing));
        inversion H; reflexivity. }
    rewrite Ht, Ef. discriminate.
  - inv_bind H decl p2 H2. apply gets_Ok in H2. destruct H2 as [-> ->].
    inv_bind H u2 p3 H3. inversion H3; subst. inversion H; subst. cbn.
    rewrite (find_insert_fresh _ _ _ Ef). discriminate.
Qed.

Lemma closeClass_empty p u p' :
  parser.closeClass [] p = Ok (u, p') -> p' = p.
Proof.
  intros H. unfold parser.closeClass in H.
  inv_bind H className p0 H0. apply gets_Ok in H0. destruct H0 as [-> ->].
  cbn [length Nat.eqb negb] in H. rewrite andb_false_r in H.
  inversion H. reflexivity.
Qed.

(** Parsing the body of class [C]: the nodes appended to the function list
    are nodes of methods of [C], with the [this] parameter that the type
    registry at the end of the first pass calls for. *)
Lemma parseClass_methods fuel p u p' C :
  parser.currentClassName_ p = C -> C <> "" ->
  parser.parseClass fuel p = Ok (u, p') ->
  exists members p1 methods,
    parser.parseMembers fuel smap.empty p = Ok (members, p1)
    /\ parser.functions_ p' = parser.functions_ p ++ methods
    /\ Forall (isMethodOf C (parser.types_ p')) methods
    /\ (members <> [] -> smap.find C (parser.types_ p') <> None)
    /\ (members = [] -> parser.types_ p' = parser.types_ p).
Proof.
  intros HC Hne H. unfold parser.parseClass in H.
  inv_bind H savedState p0 H0.
  assert (p0 = p).
  { unfold parser.liftL, gets in H0. inversion H0. apply set_lexer_same. }
  subst p0. clear H0.
  inv_bind H members p1 H1. inv_bind H u2 p2 H2. inv_bind H u3 p3 H3.
  assert (F1 : forall X (g : parser.Parser -> X),
             (forall x q, g (parser.set_lexer x q) = g q) -> g p1 = g p)
    by (intros X g Hg; framed parseMembers_frame).
  assert (F3 : forall X (g : parser.Parser -> X),
             (forall x q, g (parser.set_lexer x q) = g q) -> g p3 = g p2)
    by (intros X g Hg; framed liftL_frame).
  assert (HC1 : parser.currentClassName_ p1 = C)
    by (rewrite (F1 _ parser.currentClassName_ (fun _ _ => eq_refl)); exact HC).
  assert (HC2 : parser.currentClassName_ p2 = C).
  { rewrite <- HC1. framed closeClass_frame. }
  assert (Hf2 : parser.functions_ p2 = parser.functions_ p).
  { rewrite <- (F1 _ parser.functions_ (fun _ _ => eq_refl)). framed closeClass_frame. }
  destruct (@parseFunctions_methods C Hne fuel p3 u p') as (Ht & methods & Hfs & Hall).
  { rewrite (F3 _ parser.currentClassName_ (fun _ _ => eq_refl)). exact HC2. }
  { exact H. }
  rewrite (F3 _ parser.types_ (fun _ _ => eq_refl)) in Ht.
  rewrite (F3 _ parser.functions_ (fun _ _ => eq_refl)), Hf2 in Hfs.
  rewrite (F3 _ parser.types_ (fun _ _ => eq_refl)), <- Ht in Hall.
  exists members, p1, methods. repeat split; try assumption.
  - intros Hm. rewrite Ht.
    eapply closeClass_registers; [exact HC1 | exact Hne | exact Hm | exact H2].
  - intros ->. rewrite Ht. apply closeClass_empty in H2. subst p2.
    apply F1. reflexivity.
Qed.

(** ** std::map *)

Lemma ascii_compare_refl a : Ascii.compare a a = Eq.
Proof. unfold Ascii.compare. apply N.compare_refl. Qed.

Lemma ascii_lt_trans a b c :
  Ascii.compare a b = Lt -> Ascii.compare b c = Lt -> Ascii.compare a c = Lt.
Proof.
  unfold Ascii.compare. rewrite !N.compare_lt_iff. apply N.lt_trans.
Qed.

Lemma compare_refl s : String.compare s s = Eq.
Proof. induction s as [|c s IH]; simpl; [|rewrite ascii_compare_refl]; auto. Qed.

Lemma slt_trans a b c : slt a b -> slt b c -> slt a c.
Proof.
  unfold slt. revert b c.
  induction a as [|x a IH]; intros [|y b] [|z c]; simpl; try discriminate; auto.
  destruct (Ascii.compare x y) eqn:Exy; try discriminate;
    destruct (Ascii.compare y z) eqn:Eyz; try discriminate; intros H1 H2.
  - apply Ascii.compare_eq_iff in Exy, Eyz. subst.
    rewrite ascii_compare_refl. eapply IH; eassumption.
  - apply Ascii.compare_eq_iff in Exy. subst. rewrite Eyz. reflexivity.
  - apply Ascii.compare_eq_iff in Eyz. subst. rewrite Exy. reflexivity.
  - rewrite (ascii_lt_trans _ _ _ Exy Eyz). reflexivity.
Qed.

Lemma slt_irrefl a : ~ slt a a.
Proof. unfold slt. rewrite compare_refl. discriminate. Qed.

Lemma slt_asym a b : slt a b -> ~ slt b a.
Proof. intros H1 H2. exact (slt_irrefl (slt_trans H1 H2)). Qed.

Lemma compare_Gt_slt a b : String.compare a b = Gt -> slt b a.
Proof.
  unfold slt. intros H. rewrite String.compare_antisym, H. reflexivity.
Qed.

Lemma ltb_slt a b : String.ltb a b = true <-> slt a b.
Proof.
  unfold String.ltb, slt. destruct (String.compare a b); split; auto; discriminate.
Qed.

Lemma eqb_compare a b : String.eqb a b = true <-> String.compare a b = Eq.
Proof.
  split; intros H.
  - apply String.eqb_eq in H. subst. apply compare_refl.
  - apply String.compare_eq_iff in H. subst. apply String.eqb_refl.
Qed.

Section MapOrder.

Variable V : Type.

Lemma assign_keys k (v : V) k' :
  forall m, In k' (smap.keys (smap.assign k v m)) <-> k' = k \/ In k' (smap.keys m).
Proof.
  induction m as [|[k0 v0] m IH]; simpl.
  - intuition.
  - destruct (String.compare k k0) eqn:C; simpl.
    + apply String.compare_eq_iff in C. subst. intuition.
    + intuition.
    + rewrite IH. intuition.
Qed.

Lemma insert_keys k (v : V) k' :
  forall m, In k' (smap.keys (smap.insert k v m)) <-> k' = k \/ In k' (smap.keys m).
Proof.
  induction m as [|[k0 v0] m IH]; simpl.
  - intuition.
  - destruct (String.compare k k0) eqn:C; simpl.
    + apply String.compare_eq_iff in C. subst. intuition.
    + intuition.
    + rewrite IH. intuition.
Qed.

Lemma assign_sorted k (v : V) : forall m, sorted m -> sorted (smap.assign k v m).
Proof.
  unfold sorted.
  induction m as [|[k0 v0] m IH]; simpl; intros H.
  - repeat constructor.
  - inversion H as [|? ? Hs Hall]; subst.
    destruct (String.compare k k0) eqn:C; simpl.
    + apply String.compare_eq_iff in C. subst. constructor; assumption.
    + constructor; [exact H|]. constructor; [exact C|].
      eapply Forall_impl; [|exact Hall]. intros a Ha. exact (slt_trans C Ha).
    + constructor; [apply IH; exact Hs|].
      apply Forall_forall. intros k' Hin. apply assign_keys in Hin.
      destruct Hin as [->|Hin]; [exact (compare_Gt_slt _ _ C)|].
      rewrite Forall_forall in Hall. apply Hall. exact Hin.
Qed.

Lemma insert_sorted k (v : V) : forall m, sorted m -> sorted (smap.insert k v m).
Proof.
  unfold sorted.
  induction m as [|[k0 v0] m IH]; simpl; intros H.
  - repeat constructor.
  - inversion H as [|? ? Hs Hall]; subst.
    destruct (String.compare k k0) eqn:C; simpl.
    + exact H.
    + constructor; [exact H|]. constructor; [exact C|].
      eapply Forall_impl; [|exact Hall]. intros a Ha. exact (slt_trans C Ha).
    + constructor; [apply IH; exact Hs|].
      apply Forall_forall. intros k' Hin. apply insert_keys in Hin.
      destruct Hin as [->|Hin]; [exact (compare_Gt_slt _ _ C)|].
      rewrite Forall_forall in Hall. apply Hall. exact Hin.
Qed.

Lemma insert_range_sorted (new : smap.t V) :
  forall m, sorted m -> sorted (smap.insert_range new m).
Proof.
  unfold smap.insert_range.
  induction new as [|[k v] new IH]; simpl; intros m H; [exact H|].
  apply IH. apply insert_sorted. exact H.
Qed.

Lemma assignAll_sorted (decls : list (string * V)) :
  forall m, sorted m -> sorted (assignAll decls m).
Proof.
  unfold assignAll.
  induction decls as [|[k v] decls IH]; simpl; intros m H; [exact H|].
  apply IH. apply assign_sorted. exact H.
Qed.

Lemma assignAll_keys (decls : list (string * V)) k :
  forall m, In k (smap.keys (assignAll decls m))
            <-> In k (map fst decls) \/ In k (smap.keys m).
Proof.
  unfold assignAll.
  induction decls as [|[k0 v0] decls IH]; simpl; intros m.
  - intuition.
  - rewrite IH, assign_keys. intuition.
Qed.

(** The position [std::distance(begin(), find(k))] of a key is the number
    of keys smaller than it, and it is the position of [k] in the order of
    iteration. *)
Lemma index_of_rank k :
  forall (m : smap.t V) i,
    sorted m -> smap.index_of k m = Some i ->
    nth_error (smap.keys m) i = Some k /\ i = rank k m.
Proof.
  unfold sorted, rank.
  induction m as [|[k0 v0] m IH]; simpl; intros i Hs H; [discriminate|].
  inversion Hs as [|? ? Hs' Hall]; subst.
  destruct (String.eqb k k0) eqn:E.
  - apply String.eqb_eq in E. subst k0. inversion H; subst i. split; [reflexivity|].
    assert (L : String.ltb k k = false).
    { destruct (String.ltb k k) eqn:L; [|reflexivity].
      apply ltb_slt in L. destruct (slt_irrefl L). }
    rewrite L.
    (* no later key is smaller than k *)
    clear - Hall. induction Hall as [|a l Ha _ IHl]; simpl; [reflexivity|].
    assert (L : String.ltb a k = false).
    { destruct (String.ltb a k) eqn:L; [|reflexivity].
      apply ltb_slt in L. destruct (slt_asym Ha L). }
    rewrite L. exact IHl.
  - destruct (smap.index_of k m) as [j|] eqn:Ej; [|discriminate].
    inversion H; subst i.
    destruct (IH j Hs' eq_refl) as [Hn Hr]. split; [exact Hn|].
    assert (Hin : In k (smap.keys m)) by (eapply nth_error_In; exact Hn).
    rewrite Forall_forall in Hall.
    assert (L : String.ltb k0 k = true) by (apply ltb_slt, Hall, Hin).
    rewrite L. simpl. rewrite <- Hr. reflexivity.
Qed.

Lemma assign_last k (v : V) :
  forall m, Forall (fun a => slt a k) (smap.keys m) -> smap.assign k v m = m ++ [(k, v)].
Proof.
  induction m as [|[k0 v0] m IH]; simpl; intros H; [reflexivity|].
  inversion H as [|? ? H0 H1]; subst.
  assert (C : String.compare k k0 = Gt).
  { unfold slt in H0. rewrite String.compare_antisym, H0. reflexivity. }
  rewrite C, IH by assumption. reflexivity.
Qed.

(** Members declared in ascending order of name are held in the order of
    their declaration. *)
Lemma assignAll_ascending (decls : list (string * V)) :
  forall m,
    StronglySorted slt (map fst decls) ->
    Forall (fun a => Forall (slt a) (map fst decls)) (smap.keys m) ->
    assignAll decls m = m ++ decls.
Proof.
  unfold assignAll.
  induction decls as [|[k v] decls IH]; simpl; intros m Hs Hm.
  - rewrite app_nil_r. reflexivity.
  - inversion Hs as [|? ? Hs' Hall]; subst.
    rewrite assign_last.
    + rewrite IH.
      * rewrite <- app_assoc. reflexivity.
      * exact Hs'.
      * unfold smap.keys. rewrite map_app. apply Forall_app. split.
        -- eapply Forall_impl; [|exact Hm]. intros a Ha. inversion Ha; assumption.
        -- repeat constructor. exact Hall.
    + eapply Forall_impl; [|exact Hm]. intros a Ha. inversion Ha; assumption.
Qed.

End MapOrder.

(** ** The members of a class *)

#[export] Hint Resolve liftL_frame peek_frame peekT_frame consume_frame peekType_frame
  emitSyntaxError_frame emitSemanticError_frame expect_frame
  validateIdentifier_frame getTypeNode_frame insertTypeDef_frame countTokens_frame
  parseType_frame getNextTypeLength_frame parseFunction_frame skipParams_frame
  skipBody_frame parseMembers_frame parseFunctions_frame insertIntDef_frame
  parseFile_frame : frame.

(** The first pass over a class body builds its map by assignments
    [members[name] = type], one for each member declared. *)
Lemma parseMembers_assigns fuel :
  forall m0 p m p',
    parser.parseMembers fuel m0 p = Ok (m, p') ->
    exists decls, m = assignAll decls m0.
Proof.
  induction fuel as [|fuel IH]; intros m0 p m p' H; simpl in H; [discriminate|].
  inv_bind H ty p1 H1.
  destruct (negb (lexer.TokenType_beq ty lexer.EndOfFile)
            && negb (lexer.TokenType_beq ty lexer.RBrace)).
  2:{ inversion H; subst. exists []. reflexivity. }
  inv_bind H type p2 H2. inv_bind H token p3 H3. inv_bind H u4 p4 H4.
  inv_bind H isFunction p5 H5.
  destruct isFunction; cbn [negb] in H.
  - inv_bind H t6 p6 H6. inv_bind H u7 p7 H7. inv_bind H t8 p8 H8.
    inv_bind H hasBody p9 H9. inv_bind H u10 p10 H10.
    eapply IH. exact H.
  - inv_bind H t6 p6 H6. apply IH in H. destruct H as (decls & ->).
    exists ((lexer.src token, type) :: decls). reflexivity.
Qed.

Lemma parseMembers_sorted fuel p m p' :
  parser.parseMembers fuel smap.empty p = Ok (m, p') -> sorted m.
Proof.
  intros H. apply parseMembers_assigns in H. destruct H as (decls & ->).
  apply assignAll_sorted. constructor.
Qed.

Lemma updateClass_Forall (P : ast.ClassNode -> Prop) f :
  (forall c, P c -> P (f c)) ->
  forall n cs, Forall P cs -> Forall P (parser.updateClass n f cs).
Proof.
  intros Hf n cs H. revert n.
  induction H as [|c cs Hc Hcs IH]; intros [|n]; simpl; constructor; auto.
Qed.

Lemma closeClass_sorted members p u p' :
  sorted members ->
  Forall sortedClass (parser.classes_ p) ->
  parser.closeClass members p = Ok (u, p') ->
  Forall sortedClass (parser.classes_ p').
Proof.
  intros Hm Hp H. unfold parser.closeClass in H.
  inv_bind H className p0 H0. apply gets_Ok in H0. destruct H0 as [-> ->].
  destruct (negb (String.eqb (parser.currentClassName_ p) "")
            && negb (Nat.eqb (length members) 0)).
  2:{ inversion H; subst. exact Hp. }
  inv_bind H existingType p1 H1. apply gets_Ok in H1. destruct H1 as [-> ->].
  destruct (smap.find _ _) as [existing|].
  - destruct (parser.asClassReferenceNode (Some existing)) as [decl|];
      inversion H; subst; [|exact Hp].
    cbn. apply updateClass_Forall; [|exact Hp].
    intros c Hc. unfold sortedClass, ast.addMembers. cbn.
    apply insert_range_sorted. exact Hc.
  - inv_bind H decl p2 H2. apply gets_Ok in H2. destruct H2 as [-> ->].
    inv_bind H u2 p3 H3. inversion H3; subst. inversion H; subst. cbn.
    apply Forall_app. split; [exact Hp|]. repeat constructor. exact Hm.
Qed.

Lemma parseClass_sorted fuel p u p' :
  Forall sortedClass (parser.classes_ p) ->
  parser.parseClass fuel p = Ok (u, p') ->
  Forall sortedClass (parser.classes_ p').
Proof.
  intros Hp H. unfold parser.parseClass in H.
  inv_bind H savedState p0 H0. inv_bind H members p1 H1.
  inv_bind H u2 p2 H2. inv_bind H u3 p3 H3.
  assert (E3 : parser.classes_ p' = parser.classes_ p3) by framed parseFunctions_frame.
  assert (E2 : parser.classes_ p3 = parser.classes_ p2) by framed liftL_frame.
  assert (E1 : parser.classes_ p1 = parser.classes_ p0) by framed parseMembers_frame.
  assert (E0 : parser.classes_ p0 = parser.classes_ p) by framed liftL_frame.
  rewrite E3, E2. eapply closeClass_sorted; [| |exact H2].
  - eapply parseMembers_sorted. exact H1.
  - rewrite E1, E0. exact Hp.
Qed.

(** Every class the parser holds has its members in ascending order of
    name, whatever the order of their declaration. *)
Lemma parseFile_sorted fuel :
  forall p u p',
    Forall sortedClass (parser.classes_ p) ->
    parser.parseFile fuel p = Ok (u, p') ->
    Forall sortedClass (parser.classes_ p').
Proof.
  induction fuel as [|fuel IH]; intros p u p' Hp H; simpl in H; [discriminate|].
  inv_bind H ty p1 H1.
  assert (E1 : parser.classes_ p1 = parser.classes_ p) by framed peekType_frame.
  destruct (negb (lexer.TokenType_beq ty lexer.EndOfFile)).
  2:{ inversion H; subst. rewrite E1. exact Hp. }
  inv_bind H u2 p2 H2.
  eapply IH; [|exact H]. clear H IH.
  destruct ty;
    try (match type of H2 with
         | ?m _ = _ =>
             let Hm := fresh in
             assert (Hm : preserves parser.classes_ m) by frame;
             rewrite (Hm _ _ _ H2), E1; exact Hp
         end).
  (* class *)
  inv_bind H2 t3 p3 H3. inv_bind H2 name p4 H4. inv_bind H2 u5 p5 H5.
  inv_bind H2 u6 p6 H6. inv_bind H2 t7 p7 H7. inv_bind H2 u8 p8 H8.
  inv_bind H2 t9 p9 H9.
  inversion H6; subst p6. inversion H2; subst p2. cbn.
  assert (E9 : parser.classes_ p9 = parser.classes_ p8) by framed expect_frame.
  rewrite E9. eapply parseClass_sorted; [|exact H8].
  assert (E7 : parser.classes_ p7
               = parser.classes_ (parser.set_currentClassName (lexer.src name) p5))
    by framed expect_frame.
  assert (E5 : parser.classes_ p5 = parser.classes_ p4) by framed validateIdentifier_frame.
  assert (E4 : parser.classes_ p4 = parser.classes_ p3) by framed expect_frame.
  assert (E3 : parser.classes_ p3 = parser.classes_ p1) by framed consume_frame.
  rewrite E7. cbn. rewrite E5, E4, E3, E1. exact Hp.
Qed.

(** ** What the IR builder leaves unchanged *)

Section CodegenFrame.

Import codegen.

Variable X : Type.
Variable f : CodegenContext -> X.

Hypothesis f_scopes : forall x c, f (set_scopes x c) = f c.
Hypothesis f_namedStructs : forall x c, f (set_namedStructs x c) = f c.
Hypothesis f_bodies : forall x c, f (set_bodies x c) = f c.
Hypothesis f_globals : forall x c, f (set_globals x c) = f c.
Hypothesis f_nextId : forall x c, f (set_nextId x c) = f c.

Ltac cframe :=
  repeat (frame_step;
          cbv beta;
          rewrite ?f_scopes, ?f_namedStructs, ?f_bodies, ?f_globals, ?f_nextId;
          try reflexivity).

Lemma reportError_frame {A} k msg : preserves f (@reportError A k msg).
Proof. unfold reportError. cframe. Qed.
Lemma fresh_frame : preserves f fresh.
Proof. unfold fresh. cframe. Qed.
Lemma GetInsertBlock_frame : preserves f GetInsertBlock.
Proof. unfold GetInsertBlock. cframe. Qed.

#[local] Hint Resolve reportError_frame fresh_frame GetInsertBlock_frame : frame.

Lemma hasTerminator_frame : preserves f hasTerminator.
Proof. unfold hasTerminator. cframe. Qed.
Lemma getCurrentFunctionReturnType_frame : preserves f getCurrentFunctionReturnType.
Proof. unfold getCurrentFunctionReturnType. cframe. Qed.
Lemma pushScope_cframe : preserves f pushScope.
Proof. unfold pushScope. cframe. Qed.
Lemma popScope_cframe : preserves f popScope.
Proof. unfold popScope. cframe. Qed.
Lemma declareVariable_frame name a : preserves f (declareVariable name a).
Proof. unfold declareVariable. cframe. Qed.
Lemma lookupVariable_frame name : preserves f (lookupVariable name).
Proof. unfold lookupVariable. cframe. Qed.
Lemma getDecl_cframe d : preserves f (getDecl d).
Proof. unfold getDecl. cframe. Qed.
Lemma structElementType_frame name i : preserves f (structElementType name i).
Proof. unfold structElementType. cframe. Qed.
Lemma findFunction_frame name : preserves f (findFunction name).
Proof. unfold findFunction. cframe. Qed.

#[local] Hint Resolve hasTerminator_frame getCurrentFunctionReturnType_frame
  pushScope_cframe popScope_cframe declareVariable_frame lookupVariable_frame
  getDecl_cframe structElementType_frame findFunction_frame : frame.

Lemma membersCodeGen_frame g :
  (forall t, preserves f (g t)) ->
  forall members, preserves f (membersCodeGen g members).
Proof.
  intros Hg. induction members as [|[name [ty|]] r IH]; simpl; cframe.
Qed.

#[local] Hint Resolve membersCodeGen_frame : frame.

Lemma classCodeGen_frame g cls :
  (forall t, preserves f (g t)) -> preserves f (classCodeGen g cls).
Proof. intros Hg. unfold classCodeGen. cframe. Qed.

#[local] Hint Resolve classCodeGen_frame : frame.

Lemma typeCodeGen_frame fuel : forall t, preserves f (typeCodeGen fuel t).
Proof.
  induction fuel as [|fuel IH]; intros t; simpl.
  - cframe.
  - induction t; cframe.
Qed.

#[local] Hint Resolve typeCodeGen_frame : frame.

Lemma ClassNode_codeGen_frame fuel cls : preserves f (ClassNode_codeGen fuel cls).
Proof. unfold ClassNode_codeGen. cframe. Qed.

End CodegenFrame.

#[export] Hint Resolve reportError_frame fresh_frame GetInsertBlock_frame
  hasTerminator_frame getCurrentFunctionReturnType_frame pushScope_cframe
  popScope_cframe declareVariable_frame lookupVariable_frame getDecl_cframe
  structElementType_frame findFunction_frame typeCodeGen_frame
  ClassNode_codeGen_frame membersCodeGen_frame classCodeGen_frame : frame.

(** ** The layout of a struct *)

Lemma find_assign_same {V} k (v : V) :
  forall m, smap.find k (smap.assign k v m) = Some v.
Proof.
  induction m as [|[k' v'] m IH]; simpl.
  - rewrite String.eqb_refl. reflexivity.
  - destruct (String.compare k k') eqn:C; simpl.
    + rewrite String.eqb_refl. reflexivity.
    + rewrite String.eqb_refl. reflexivity.
    + destruct (String.eqb k k') eqn:E.
      * apply eqb_compare in E. congruence.
      * exact IH.
Qed.

Lemma membersCodeGen_pointwise g :
  forall members c body c',
    codegen.membersCodeGen g members c = Ok (body, c') ->
    Forall2 (fun member t => exists ty ca cb,
                 snd member = Some ty /\ g ty ca = Ok (t, cb))
            members body.
Proof.
  induction members as [|[name [ty|]] r IH]; simpl; intros c body c' H.
  - inversion H. constructor.
  - inv_bind H t c1 H1. inv_bind H ts c2 H2. inversion H; subst.
    constructor; [|eapply IH; exact H2].
    exists ty, c, c1. split; [reflexivity | exact H1].
  - discriminate.
Qed.

(** The body set on the struct of a class holds, position by position, the
    lowering of the types of the members in the order of the map. *)
Lemma ClassNode_codeGen_body fuel cls c ty c' :
  smap.find (ast.name_ cls) (codegen.namedStructs c) = None ->
  codegen.ClassNode_codeGen fuel cls c = Ok (ty, c') ->
  exists body,
    smap.find (ast.name_ cls) (codegen.bodies c') = Some body
    /\ Forall2 (lowersTo fuel) (ast.members_ cls) body.
Proof.
  intros Hnew H. unfold codegen.ClassNode_codeGen, codegen.classCodeGen in H.
  inv_bind H found c0 H0. apply gets_Ok in H0. destruct H0 as [-> ->].
  rewrite Hnew in H.
  inv_bind H u1 c1 H1. inv_bind H body c2 H2. inv_bind H u3 c3 H3.
  inversion H3; subst c3. inversion H; subst c' ty. cbn.
  exists body. split; [apply find_assign_same|].
  eapply membersCodeGen_pointwise. exact H2.
Qed.

Lemma Forall2_nth {A B} (R : A -> B -> Prop) :
  forall l1 l2 i a,
    Forall2 R l1 l2 -> nth_error l1 i = Some a ->
    exists b, nth_error l2 i = Some b /\ R a b.
Proof.
  intros l1 l2 i a H. revert i.
  induction H as [|x y l1 l2 Hxy _ IH]; intros [|i] Hi; simpl in *; try discriminate.
  - inversion Hi; subst. eauto.
  - apply IH. exact Hi.
Qed.

Lemma lookupMemberIndex_Ok cls name i :
  ast.lookupMemberIndex cls name = Ok i ->
  smap.index_of name (ast.members_ cls) = Some i.
Proof.
  unfold ast.lookupMemberIndex.
  destruct (smap.index_of name (ast.members_ cls)); intros H; inversion H; reflexivity.
Qed.

(** The GEP that [StructAccess::codeGenLValue] asks for takes as its field
    index the index [lookupMemberIndex] gives for the member. *)
Lemma StructAccess_index fuel lv memberName type_ c v c' :
  codegen.StructAccess_codeGenLValue fuel lv memberName type_ c = Ok (v, c') ->
  exists cls i structPtr ty c0,
    nth_error (codegen.classes c') type_ = Some cls
    /\ ast.lookupMemberIndex cls memberName = Ok i
    /\ c' = afterRequest
              (llvm.GEP v ty structPtr [codegen.i32 0; codegen.i32 (Z.of_nat i)] "") c0.
Proof.
  intros H. unfold codegen.StructAccess_codeGenLValue in H.
  inv_bind H structPtr c1 H1. inv_bind H ty c2 H2.
  destruct ty; try discriminate.
  inv_bind H decl c3 H3. inv_bind H i c4 H4. inv_bind H elem c5 H5.
  unfold codegen.getDecl in H3. inv_bind H3 cs c3' H3'.
  apply gets_Ok in H3'. destruct H3' as [-> ->].
  destruct (nth_error (codegen.classes c2) type_) as [cls|] eqn:Ecls;
    inversion H3; subst decl c3. clear H3.
  unfold liftRes in H4.
  destruct (ast.lookupMemberIndex cls memberName) as [i'|] eqn:Ei;
    inversion H4; subst i' c4. clear H4.
  assert (c5 = c2).
  { pose proof (@structElementType_frame _ (fun c => c)) as E.
    exact (E _ _ _ _ _ H5). }
  subst c5.
  exists cls, i, structPtr, (llvm.StructTy name), c2.
  cbv [codegen.CreateGEP codegen.fresh codegen.emit bind gets modify ret] in H.
  inversion H; subst. repeat split; try assumption.
  unfold afterRequest, codegen.insertAt. cbn.
  destruct (codegen.insertBlock c2); exact Ecls.
Qed.

(** C1 (amended).  The struct of a class lays its members out in the order
    in which the map of members holds them, which is the ascending order of
    their names: for every class the parser holds and every member, the
    field index (the one the struct-member GEPs take) is the position of the
    member's name among the names in ascending order, that is the number of
    members with a smaller name, and the struct body has the lowering of the
    member's type at that position.  The map is built by one assignment per
    member declared; the order of the declarations is the layout exactly
    when the members are declared in ascending order of name. *)
Theorem struct_layout_is_name_order :
  (forall fuel p u p' cls name i,
      Forall sortedClass (parser.classes_ p) ->
      parser.parseFile fuel p = Ok (u, p') ->
      In cls (parser.classes_ p') ->
      ast.lookupMemberIndex cls name = Ok i ->
      sorted (ast.members_ cls)
      /\ nth_error (smap.keys (ast.members_ cls)) i = Some name
      /\ i = rank name (ast.members_ cls)
      /\ forall cfuel c ty c',
           smap.find (ast.name_ cls) (codegen.namedStructs c) = None ->
           codegen.ClassNode_codeGen cfuel cls c = Ok (ty, c') ->
           exists body member t,
             smap.find (ast.name_ cls) (codegen.bodies c') = Some body
             /\ nth_error (ast.members_ cls) i = Some member
             /\ fst member = name
             /\ nth_error body i = Some t
             /\ lowersTo cfuel member t)
  /\ (forall fuel lv memberName type_ c v c',
        codegen.StructAccess_codeGenLValue fuel lv memberName type_ c = Ok (v, c') ->
        exists cls i structPtr ty c0,
          nth_error (codegen.classes c') type_ = Some cls
          /\ ast.lookupMemberIndex cls memberName = Ok i
          /\ c' = afterRequest
                    (llvm.GEP v ty structPtr
                              [codegen.i32 0; codegen.i32 (Z.of_nat i)] "") c0)
  /\ (forall fuel p members p',
        parser.parseMembers fuel smap.empty p = Ok (members, p') ->
        exists decls, members = assignAll decls smap.empty)
  /\ (forall decls : list (string * option ast.TypeNode),
        StronglySorted slt (map fst decls) -> assignAll decls smap.empty = decls).
Proof.
  split; [|split; [|split]].
  - intros fuel p u p' cls name i Hp H Hin Hi.
    assert (Hs : sortedClass cls).
    { pose proof (parseFile_sorted _ _ Hp H) as Hall.
      rewrite Forall_forall in Hall. apply Hall. exact Hin. }
    destruct (index_of_rank _ Hs (lookupMemberIndex_Ok _ _ Hi)) as [Hn Hr].
    repeat split; try assumption.
    intros cfuel c ty c' Hnew Hgen.
    destruct (ClassNode_codeGen_body _ _ _ Hnew Hgen) as (body & Hb & Hall).
    unfold smap.keys in Hn. rewrite nth_error_map in Hn.
    destruct (nth_error (ast.members_ cls) i) as [member|] eqn:Em; [|discriminate].
    inversion Hn; subst name.
    destruct (Forall2_nth _ Hall Em) as (t & Ht & Hl).
    exists body, member, t. repeat split; assumption.
  - intros. eapply StructAccess_index. eassumption.
  - intros. eapply parseMembers_assigns. eassumption.
  - intros decls Hs. pose proof (@assignAll_ascending _ decls []) as E.
    apply E; [exact Hs | constructor].
Qed.

Lemma struct_layout_is_name_order_witness :
  exists p' cls,
    parser.parseFile 10 (parserOn "class P { int y; char x; }") = Ok (tt, p')
    /\ In cls (parser.classes_ p')
    /\ ast.lookupMemberIndex cls "y" = Ok 1
    /\ sorted (ast.members_ cls)
    /\ nth_error (smap.keys (ast.members_ cls)) 1 = Some "y"
    /\ 1 = rank "y" (ast.members_ cls).
Proof.
  eexists. eexists.
  split; [vm_compute; reflexivity|].
  split; [left; reflexivity|].
  split; [vm_compute; reflexivity|].
  edestruct (proj1 struct_layout_is_name_order 10
               (parserOn "class P { int y; char x; }") tt)
    with (name := "y") (i := 1) as (A & B & C & _);
    [constructor | vm_compute; reflexivity | left; reflexivity
     | vm_compute; reflexivity |].
  exact (conj A (conj B C)).
Defined.

(** The claim as the spec states it fails on [class P { int y; char x; }]:
    [y] is declared first and has field index 1, [x] is declared second and
    has field index 0; the struct body is [{ i8, i32 }]. *)
Lemma layout_is_not_declaration_order :
  layoutAfter 10 "class P { int y; char x; }" ["y"; "x"]
  = [(["x"; "y"], [Ok 1; Ok 0])]
  /\ bodiesAfter 10 "class P { int y; char x; }"
     = [("P", [llvm.IntegerTy 8; llvm.IntegerTy 32])].
Proof. split; vm_compute; reflexivity. Qed.

(** ** Blocks and terminators *)

Section UpdateNth.

Variable A : Type.

Lemma updateNth_length (f : A -> A) : forall n l,
  length (codegen.updateNth n f l) = length l.
Proof. intros n l. revert n. induction l; intros [|n]; simpl; auto. Qed.

Lemma updateNth_same (f : A -> A) : forall n l,
  nth_error (codegen.updateNth n f l) n = option_map f (nth_error l n).
Proof. intros n l. revert n. induction l; intros [|n]; simpl; auto. Qed.

Lemma updateNth_other (f : A -> A) : forall n m l,
  n <> m -> nth_error (codegen.updateNth n f l) m = nth_error l m.
Proof.
  intros n m l. revert n m.
  induction l; intros [|n] [|m] H; simpl; auto; try congruence.
Qed.

Lemma updateNth_twice (f g : A -> A) : forall n l,
  codegen.updateNth n g (codegen.updateNth n f l)
  = codegen.updateNth n (fun x => g (f x)) l.
Proof. intros n l. revert n. induction l; intros [|n]; simpl; f_equal; auto. Qed.

Lemma updateNth_ext (f g : A -> A) : (forall x, f x = g x) ->
  forall n l, codegen.updateNth n f l = codegen.updateNth n g l.
Proof.
  intros H n l. revert n. induction l; intros [|n]; simpl; f_equal; auto.
Qed.

Lemma updateNth_id (f : A -> A) : (forall x, f x = x) ->
  forall n l, codegen.updateNth n f l = l.
Proof.
  intros H n l. revert n. induction l; intros [|n]; simpl; f_equal; auto.
Qed.

End UpdateNth.

Lemma extendBlock_nil b : extendBlock [] b = b.
Proof. destruct b. unfold extendBlock. simpl. rewrite app_nil_r. reflexivity. Qed.

Lemma extendBlock_app a1 a2 b :
  extendBlock a2 (extendBlock a1 b) = extendBlock (a1 ++ a2) b.
Proof. unfold extendBlock. simpl. rewrite app_assoc. reflexivity. Qed.

Lemma appendInstr_extend i b : codegen.appendInstr i b = extendBlock [i] b.
Proof. reflexivity. Qed.

Lemma blocksOf_view c c' : builderView c' = builderView c -> blocksOf c' = blocksOf c.
Proof.
  unfold builderView, blocksOf, codegen.currentFunction. intros H.
  inversion H as [[H1 H2 H3]]. rewrite H1, H2. reflexivity.
Qed.

(** What insertion does to the blocks of the function being filled. *)
Lemma blocksOf_insertAt i c :
  blocksOf (codegen.insertAt i c)
  = match codegen.insertBlock c with
    | Some b => codegen.updateNth b (extendBlock [i]) (blocksOf c)
    | None => blocksOf c
    end.
Proof.
  unfold codegen.insertAt, blocksOf, codegen.currentFunction.
  destruct (codegen.insertBlock c) as [b|]; [|reflexivity]. cbn.
  rewrite updateNth_same.
  destruct (nth_error (codegen.functions c) (codegen.insertFunction c));
    [reflexivity | destruct b; reflexivity].
Qed.

Lemma insertAt_point i c :
  codegen.insertFunction (codegen.insertAt i c) = codegen.insertFunction c
  /\ codegen.insertBlock (codegen.insertAt i c) = codegen.insertBlock c.
Proof.
  unfold codegen.insertAt. destruct (codegen.insertBlock c) eqn:E; cbn; auto.
Qed.

Lemma blocksOf_addBlock name c f :
  codegen.currentFunction c = Some f ->
  blocksOf (codegen.addBlock name c) = blocksOf c ++ [llvm.mkBasicBlock name []].
Proof.
  unfold codegen.addBlock, blocksOf, codegen.currentFunction. cbn. intros H.
  rewrite updateNth_same, H. reflexivity.
Qed.

Lemma appends_refl c : appends c c.
Proof.
  repeat split. exists []. split; [constructor|].
  destruct (codegen.insertBlock c); [|reflexivity].
  symmetry. apply updateNth_id. apply extendBlock_nil.
Qed.

Lemma appends_trans c1 c2 c3 : appends c1 c2 -> appends c2 c3 -> appends c1 c3.
Proof.
  intros (F1 & B1 & a1 & N1 & E1) (F2 & B2 & a2 & N2 & E2).
  split; [congruence|]. split; [congruence|].
  exists (a1 ++ a2). split; [apply Forall_app; split; assumption|].
  rewrite E2, B1, E1. destruct (codegen.insertBlock c1); [|reflexivity].
  rewrite updateNth_twice. apply updateNth_ext. intros x. apply extendBlock_app.
Qed.

Lemma appends_view c c' : builderView c' = builderView c -> appends c c'.
Proof.
  intros H. pose proof (blocksOf_view H) as Hb.
  unfold builderView in H. inversion H as [[H1 H2 H3]].
  split; [exact H2|]. split; [exact H3|].
  exists []. split; [constructor|]. rewrite Hb.
  destruct (codegen.insertBlock c); [|reflexivity].
  symmetry. apply updateNth_id. apply extendBlock_nil.
Qed.

Lemma quiet_ret {A} (a : A) : quiet (ret a).
Proof. intros c b c' H. inversion H. apply appends_refl. Qed.

Lemma quiet_abort {A} e : quiet (@abort _ A e).
Proof. intros c b c' H. discriminate. Qed.

Lemma quiet_bind {A B} (m : codegen.CG A) (k : A -> codegen.CG B) :
  quiet m -> (forall a, quiet (k a)) -> quiet (bind m k).
Proof.
  intros Hm Hk c b c' H. inv_bind H a c1 H1.
  eapply appends_trans; [eapply Hm | eapply Hk]; eassumption.
Qed.

Lemma quiet_frame {A} (m : codegen.CG A) : preserves builderView m -> quiet m.
Proof. intros Hm c a c' H. apply appends_view. eapply Hm. exact H. Qed.

Lemma quiet_emit i : llvm.isTerminator i = false -> quiet (codegen.emit i).
Proof.
  intros Hi c a c' H. unfold codegen.emit, modify in H. inversion H; subst.
  destruct (insertAt_point i c) as [F B].
  split; [exact F|]. split; [exact B|].
  exists [i]. split; [repeat constructor; exact Hi | apply blocksOf_insertAt].
Qed.

Create HintDb quiet.

#[export] Hint Resolve quiet_ret quiet_abort : quiet.

(** One step of a proof that a computation only appends: split it at its
    outermost combinator, use what is known of its parts, or show that it
    does not touch what the builder looks at. *)
Ltac quiet_step :=
  match goal with
  | |- quiet (bind _ _) => apply quiet_bind; [| intros]
  | |- quiet (codegen.emit _) => apply quiet_emit; reflexivity
  | |- quiet _ => solve [eauto with quiet]
  | |- quiet _ => solve [apply quiet_frame; frame]
  | |- quiet (if ?b then _ else _) => destruct b
  | |- quiet (match ?x with _ => _ end) => destruct x
  end.

Ltac quietly := repeat quiet_step.

Section Quiet.

Import codegen.

Lemma CreateAlloca_quiet ty name : quiet (CreateAlloca ty name).
Proof. unfold CreateAlloca. quietly. Qed.
Lemma CreateStore_quiet v ptr : quiet (CreateStore v ptr).
Proof. unfold CreateStore. quietly. Qed.
Lemma CreateLoad_quiet ty ptr name : quiet (CreateLoad ty ptr name).
Proof. unfold CreateLoad. quietly. Qed.
Lemma CreateGEP_quiet ty e ptr idx name : quiet (CreateGEP ty e ptr idx name).
Proof. unfold CreateGEP. quietly. Qed.
Lemma CreateCast_quiet op v ty : quiet (CreateCast op v ty).
Proof. unfold CreateCast. quietly. Qed.
Lemma CreateNeg_quiet v : quiet (CreateNeg v).
Proof. unfold CreateNeg. quietly. Qed.
Lemma CreateBinary_quiet op l r : quiet (CreateBinary op l r).
Proof. unfold CreateBinary. quietly. Qed.
Lemma CreateICmp_quiet p l r : quiet (CreateICmp p l r).
Proof. unfold CreateICmp. quietly. Qed.
Lemma CreateCall_quiet callee args : quiet (CreateCall callee args).
Proof. unfold CreateCall. quietly. Qed.

#[local] Hint Resolve CreateAlloca_quiet CreateStore_quiet CreateLoad_quiet
  CreateGEP_quiet CreateCast_quiet CreateNeg_quiet CreateBinary_quiet
  CreateICmp_quiet CreateCall_quiet : quiet.

Lemma convertIfNeeded_quiet v ty sg : quiet (convertIfNeeded v ty sg).
Proof. unfold convertIfNeeded. quietly. Qed.

#[local] Hint Resolve convertIfNeeded_quiet : quiet.

Lemma StructAccess_quiet fuel lv m ty :
  quiet lv -> quiet (StructAccess_codeGenLValue fuel lv m ty).
Proof. intros H. unfold StructAccess_codeGenLValue. quietly. Qed.

Lemma ArrayAccess_quiet fuel lv iv ty :
  quiet lv -> quiet iv -> quiet (ArrayAccess_codeGenLValue fuel lv iv ty).
Proof. intros H1 H2. unfold ArrayAccess_codeGenLValue. quietly. Qed.

Lemma PtrIndexAccess_quiet fuel pv iv ty :
  quiet pv -> quiet iv -> quiet (PtrIndexAccess_codeGenLValue fuel pv iv ty).
Proof. intros H1 H2. unfold PtrIndexAccess_codeGenLValue. quietly. Qed.

Lemma BinaryOperation_emit_quiet op sg L R : quiet (BinaryOperation_emit op sg L R).
Proof. unfold BinaryOperation_emit. quietly. Qed.

End Quiet.

Section QuietExpressions.

Import codegen.

#[local] Hint Resolve CreateAlloca_quiet CreateStore_quiet CreateLoad_quiet
  CreateGEP_quiet CreateCast_quiet CreateNeg_quiet CreateBinary_quiet
  CreateICmp_quiet CreateCall_quiet convertIfNeeded_quiet StructAccess_quiet
  ArrayAccess_quiet PtrIndexAccess_quiet BinaryOperation_emit_quiet : quiet.

Variable fuel : nat.

(** Lowering an expression, to its value or to its address, only appends
    to the insertion block, and never a terminator. *)
Lemma codeGen_quiet : forall e,
  quiet (codeGen fuel e) /\ quiet (codeGenLValue fuel e).
Proof.
  induction e using ExpressionNode_induction; simpl;
    repeat match goal with H : _ /\ _ |- _ => destruct H end;
    try (split; quietly; fail).
  split; [|quietly].
  apply quiet_bind; [quietly|]. intros [callee|]; [|quietly].
  destruct (negb _); [quietly|].
  apply quiet_bind; [|intros; quietly].
  induction H as [|a r [Ha _] _ IH]; quietly.
Qed.

End QuietExpressions.

(** ** The insertion block through a statement *)

Lemma currentBlock_blocksOf c :
  codegen.currentBlock c
  = match codegen.insertBlock c with
    | Some b => nth_error (blocksOf c) b
    | None => None
    end.
Proof.
  unfold codegen.currentBlock, blocksOf.
  destruct (codegen.insertBlock c) as [b|]; [|reflexivity].
  destruct (codegen.currentFunction c); [reflexivity | destruct b; reflexivity].
Qed.

Lemma currentBlock_placed c blk :
  codegen.currentBlock c = Some blk -> wellPlaced c.
Proof.
  rewrite currentBlock_blocksOf. destruct (codegen.insertBlock c) as [b|] eqn:E;
    [|discriminate].
  intros H. exists b. split; [exact E|].
  apply nth_error_Some. congruence.
Qed.

Lemma placed_currentBlock c :
  wellPlaced c -> exists blk, codegen.currentBlock c = Some blk.
Proof.
  intros (b & E & Hb). rewrite currentBlock_blocksOf, E.
  destruct (nth_error (blocksOf c) b) eqn:N; [eexists; reflexivity|].
  apply nth_error_None in N. lia.
Qed.

(** A change of the insertion block alone advances the builder. *)
Lemma update_advances c c' b g :
  codegen.insertFunction c' = codegen.insertFunction c ->
  codegen.insertBlock c = Some b ->
  codegen.insertBlock c' = Some b ->
  b < length (blocksOf c) ->
  blocksOf c' = codegen.updateNth b g (blocksOf c) ->
  advances c c'.
Proof.
  intros F B B' Hb E. split; [exact F|]. exists b. split; [exact B|].
  unfold evolved. rewrite E, updateNth_length.
  split; [lia|]. split.
  - intros i _ Hi. apply updateNth_other. congruence.
  - exists b. auto.
Qed.

Lemma appends_advances c c' : appends c c' -> wellPlaced c -> advances c c'.
Proof.
  intros (F & B & added & _ & E) (b & Eb & Hb). rewrite Eb in E.
  eapply update_advances; eauto. congruence.
Qed.

Lemma appends_current c c' blk :
  appends c c' -> codegen.currentBlock c = Some blk ->
  exists added, nonTerminators added
                /\ codegen.currentBlock c' = Some (extendBlock added blk).
Proof.
  intros (F & B & added & N & E). rewrite !currentBlock_blocksOf, B.
  destruct (codegen.insertBlock c) as [b|]; [|discriminate].
  intros H. exists added. split; [exact N|].
  rewrite E, updateNth_same, H. reflexivity.
Qed.

Lemma insertAt_advances i c : wellPlaced c -> advances c (codegen.insertAt i c).
Proof.
  intros (b & Eb & Hb). destruct (insertAt_point i c) as [F B].
  eapply update_advances; eauto; [congruence|].
  rewrite blocksOf_insertAt, Eb. reflexivity.
Qed.

Lemma insertAt_current i c blk :
  codegen.currentBlock c = Some blk ->
  codegen.currentBlock (codegen.insertAt i c) = Some (extendBlock [i] blk).
Proof.
  destruct (insertAt_point i c) as [F B].
  rewrite !currentBlock_blocksOf, B, blocksOf_insertAt.
  destruct (codegen.insertBlock c) as [b|]; [|discriminate].
  intros H. rewrite updateNth_same, H. reflexivity.
Qed.

Lemma evolved_start c b :
  codegen.insertBlock c = Some b -> b < length (blocksOf c) ->
  evolved (length (blocksOf c)) b (blocksOf c) c.
Proof.
  intros E Hb. split; [lia|]. split; [reflexivity|]. exists b. auto.
Qed.

Lemma evolved_advances L b0 B0 c1 c2 :
  evolved L b0 B0 c1 -> advances c1 c2 -> evolved L b0 B0 c2.
Proof.
  intros (HL & Hsame & b1 & E1 & Hb1 & Hor) (F & b1' & E1' & HL2 & Hsame2 & b2 & E2 & Hb2 & Hor2).
  assert (b1' = b1) by congruence. subst b1'.
  split; [lia|]. split.
  - intros i Hi Hne. rewrite Hsame2; [apply Hsame; assumption | lia | lia].
  - exists b2. split; [exact E2|]. split; [exact Hb2|]. lia.
Qed.

Lemma advances_trans c1 c2 c3 : advances c1 c2 -> advances c2 c3 -> advances c1 c3.
Proof.
  intros H12 H23. pose proof H12 as (F & b & E & H). pose proof H23 as (F' & _).
  split; [congruence|]. exists b. split; [exact E|].
  eapply evolved_advances; eassumption.
Qed.

Lemma advances_refl c : wellPlaced c -> advances c c.
Proof.
  intros (b & E & Hb). split; [reflexivity|]. exists b. split; [exact E|].
  apply evolved_start; assumption.
Qed.

Lemma evolved_placed L b0 B0 c : evolved L b0 B0 c -> wellPlaced c.
Proof. intros (_ & _ & b & E & Hb & _). exists b. auto. Qed.

Lemma advances_placed c c' : advances c c' -> wellPlaced c'.
Proof. intros (_ & b & _ & H). eapply evolved_placed; exact H. Qed.

Lemma reserved_advances m c c' : reserved m c -> advances c c' -> reserved m c'.
Proof.
  intros (Hne & blk & Hm & Hnil) (_ & b0 & E0 & _ & Hsame & b' & E' & _ & Hor).
  assert (m < length (blocksOf c)) by (apply nth_error_Some; congruence).
  split.
  - rewrite E'. intros X. inversion X. subst b'.
    destruct Hor as [-> | Hge]; [congruence | lia].
  - exists blk. split; [|exact Hnil].
    rewrite Hsame; [exact Hm | lia | congruence].
Qed.

Lemma lowering_advances F0 L0 b0 B0 m c c' :
  lowering F0 L0 b0 B0 m c -> advances c c' -> lowering F0 L0 b0 B0 m c'.
Proof.
  intros (F & E & R) A. split; [destruct A; congruence|].
  split; [eapply evolved_advances | eapply reserved_advances]; eassumption.
Qed.

Lemma lowering_placed F0 L0 b0 B0 m c : lowering F0 L0 b0 B0 m c -> wellPlaced c.
Proof. intros (_ & E & _). eapply evolved_placed; exact E. Qed.

Lemma createBlock_Ok name c b c' :
  codegen.createBlock name c = Ok (b, c') ->
  b = length (blocksOf c)
  /\ blocksOf c' = blocksOf c ++ [llvm.mkBasicBlock name []]
  /\ codegen.insertBlock c' = codegen.insertBlock c
  /\ codegen.insertFunction c' = codegen.insertFunction c.
Proof.
  unfold codegen.createBlock, bind, get, fromOption, modify, ret.
  destruct (codegen.currentFunction c) as [f|] eqn:E; [|discriminate].
  intros H. inversion H; subst. rewrite (blocksOf_addBlock name c E).
  unfold blocksOf. rewrite E. auto.
Qed.

Lemma SetInsertPoint_Ok b c u c' :
  codegen.SetInsertPoint b c = Ok (u, c') ->
  blocksOf c' = blocksOf c
  /\ codegen.insertBlock c' = Some b
  /\ codegen.insertFunction c' = codegen.insertFunction c.
Proof. intros H. inversion H; subst. auto. Qed.

Lemma emit_Ok i c u c' : codegen.emit i c = Ok (u, c') -> c' = codegen.insertAt i c.
Proof. intros H. inversion H. reflexivity. Qed.

Lemma GetInsertBlock_Ok c blk c' :
  codegen.GetInsertBlock c = Ok (blk, c') -> c' = c /\ codegen.currentBlock c = Some blk.
Proof.
  unfold codegen.GetInsertBlock, bind, get, fromOption.
  destruct (codegen.currentBlock c); [|discriminate].
  intros H. inversion H. auto.
Qed.

Lemma hasTerminator_Ok c closed c' :
  codegen.hasTerminator c = Ok (closed, c') ->
  c' = c
  /\ exists blk, codegen.currentBlock c = Some blk
                 /\ closed = match llvm.getTerminator blk with
                             | Some _ => true
                             | None => false
                             end.
Proof.
  unfold codegen.hasTerminator. intros H. inv_bind H blk c1 H1.
  apply GetInsertBlock_Ok in H1. destruct H1 as [-> Hb]. inversion H; subst.
  split; [reflexivity|]. exists blk. auto.
Qed.

Lemma branchIfOpen_advances m c u c' :
  wellPlaced c -> codegen.branchIfOpen m c = Ok (u, c') -> advances c c'.
Proof.
  intros W H. unfold codegen.branchIfOpen in H. inv_bind H closed c1 H1.
  apply hasTerminator_Ok in H1. destruct H1 as [-> _].
  destruct closed.
  - inversion H; subst. apply advances_refl. exact W.
  - apply emit_Ok in H. subst. apply insertAt_advances. exact W.
Qed.

Lemma lowering_init c c1 b0 pre x :
  codegen.insertBlock c = Some b0 -> b0 < length (blocksOf c) ->
  blocksOf c1 = blocksOf c ++ pre ++ [x] ->
  llvm.instructions x = [] ->
  codegen.insertBlock c1 = codegen.insertBlock c ->
  codegen.insertFunction c1 = codegen.insertFunction c ->
  lowering (codegen.insertFunction c) (length (blocksOf c)) b0 (blocksOf c)
           (length (blocksOf c) + length pre) c1.
Proof.
  intros E Hb HB Hx EB EF. split; [exact EF|]. split.
  - unfold evolved. rewrite HB, !length_app. split; [lia|]. split.
    + intros i Hi _. apply nth_error_app1. exact Hi.
    + exists b0. split; [congruence|]. split; [lia | auto].
  - split.
    + rewrite EB, E. intros X. inversion X. lia.
    + exists x. split; [|exact Hx]. rewrite HB.
      rewrite nth_error_app2 by lia.
      replace (length (blocksOf c) + length pre - length (blocksOf c))
        with (length pre) by lia.
      rewrite nth_error_app2 by lia. rewrite Nat.sub_diag. reflexivity.
Qed.

Lemma lowering_move F0 L0 b0 B0 m c b u c' :
  lowering F0 L0 b0 B0 m c -> codegen.SetInsertPoint b c = Ok (u, c') ->
  L0 <= b -> b < m -> lowering F0 L0 b0 B0 m c'.
Proof.
  intros (F & (HL & Hsame & _) & Hne & blk & Hm & Hnil) H Hge Hlt.
  apply SetInsertPoint_Ok in H. destruct H as (HB & EB & EF).
  assert (m < length (blocksOf c)) by (apply nth_error_Some; congruence).
  split; [congruence|]. split.
  - unfold evolved. rewrite HB. split; [exact HL|]. split; [exact Hsame|].
    exists b. split; [exact EB|]. split; [lia | auto].
  - split.
    + rewrite EB. intros X. inversion X. lia.
    + exists blk. rewrite HB. auto.
Qed.

Lemma lowering_emit F0 L0 b0 B0 m c i u c' :
  lowering F0 L0 b0 B0 m c -> codegen.emit i c = Ok (u, c') ->
  lowering F0 L0 b0 B0 m c'.
Proof.
  intros J H. apply emit_Ok in H. subst.
  eapply lowering_advances; [exact J|].
  apply insertAt_advances. eapply lowering_placed; exact J.
Qed.

Lemma lowering_quiet {A} (g : codegen.CG A) F0 L0 b0 B0 m c a c' :
  quiet g -> lowering F0 L0 b0 B0 m c -> g c = Ok (a, c') ->
  lowering F0 L0 b0 B0 m c'.
Proof.
  intros Q J H. eapply lowering_advances; [exact J|].
  apply appends_advances; [eapply Q; exact H | eapply lowering_placed; exact J].
Qed.

Lemma lowering_branchIfOpen F0 L0 b0 B0 m c t u c' :
  lowering F0 L0 b0 B0 m c -> codegen.branchIfOpen t c = Ok (u, c') ->
  lowering F0 L0 b0 B0 m c'.
Proof.
  intros J H. eapply lowering_advances; [exact J|].
  eapply branchIfOpen_advances; [eapply lowering_placed; exact J | exact H].
Qed.

(** Where the lowering of an [if] or a [while] leaves the builder. *)
Lemma lowering_finish c L0 b0 m c1 u c' :
  codegen.insertBlock c = Some b0 -> L0 = length (blocksOf c) ->
  lowering (codegen.insertFunction c) L0 b0 (blocksOf c) m c1 ->
  codegen.SetInsertPoint m c1 = Ok (u, c') -> L0 <= m ->
  stepped c c'.
Proof.
  intros E -> (F & (HL & Hsame & _) & Hne & blk & Hm & Hnil) H Hge.
  apply SetInsertPoint_Ok in H. destruct H as (HB & EB & EF).
  assert (m < length (blocksOf c1)) by (apply nth_error_Some; congruence).
  split.
  - split; [congruence|]. exists b0. split; [exact E|].
    unfold evolved. rewrite HB. split; [exact HL|]. split; [exact Hsame|].
    exists m. split; [exact EB|]. split; [lia | auto].
  - right. exists blk. rewrite currentBlock_blocksOf, EB, HB. auto.
Qed.

Section Statements.

Variable fuel : nat.

(** The statements of a body, lowered one after the other as [If] and
    [While] do. *)
Lemma each_advances l : Forall (steps fuel) l ->
  forall c c', wellPlaced c ->
    (fix each (l : list ast.StatementNode) : codegen.CG unit :=
       match l with
       | [] => ret tt
       | stmt :: r => codegen.StatementNode_codeGen fuel stmt ;;; each r
       end) l c = Ok (tt, c') ->
    advances c c'.
Proof.
  induction 1 as [|s r Hs _ IH]; intros c c' W H.
  - inversion H; subst. apply advances_refl. exact W.
  - inv_bind H u c1 H1. destruct u.
    apply Hs in H1; [|exact W]. destruct H1 as [A1 _].
    eapply advances_trans; [exact A1|].
    apply IH; [eapply advances_placed; exact A1 | exact H].
Qed.

Lemma codeGen_value_quiet e : quiet (codegen.codeGen fuel e).
Proof. apply codeGen_quiet. Qed.

Lemma codeGen_address_quiet e : quiet (codegen.codeGenLValue fuel e).
Proof. apply codeGen_quiet. Qed.

#[local] Hint Resolve codeGen_value_quiet codeGen_address_quiet
  CreateAlloca_quiet CreateStore_quiet convertIfNeeded_quiet : quiet.

Lemma VariableDeclaration_quiet t n i :
  quiet (codegen.VariableDeclaration_codeGen fuel t n i).
Proof. unfold codegen.VariableDeclaration_codeGen. quietly. Qed.

Lemma AssignmentStatement_quiet t v :
  quiet (codegen.AssignmentStatement_codeGen fuel t v).
Proof. unfold codegen.AssignmentStatement_codeGen. quietly. Qed.

Lemma quiet_stepped {A} (g : codegen.CG A) c a c' :
  quiet g -> wellPlaced c -> g c = Ok (a, c') -> stepped c c'.
Proof.
  intros Q W H. apply Q in H. split; [apply appends_advances; assumption|].
  left. destruct (placed_currentBlock W) as [blk Hb].
  destruct (appends_current H Hb) as (added & N & Hc).
  exists blk, added. auto.
Qed.

(** A return statement closes the insertion block with a return. *)
Lemma Return_stepped v c u c' :
  wellPlaced c -> codegen.Return_codeGen fuel v c = Ok (u, c') -> stepped c c'.
Proof.
  intros W H. destruct (placed_currentBlock W) as [blk Hb].
  assert (exists c1 r, appends c c1 /\ c' = codegen.insertAt (llvm.Ret r) c1)
    as (c1 & r & A & ->).
  { unfold codegen.Return_codeGen in H. destruct v as [e|].
    - inv_bind H val c1 H1. inv_bind H returnType c2 H2.
      inv_bind H converted c3 H3.
      destruct (negb _); [discriminate|]. apply emit_Ok in H.
      exists c3, (Some converted). split; [|exact H].
      apply codeGen_value_quiet in H1.
      apply (quiet_frame (@getCurrentFunctionReturnType_frame _ builderView)) in H2.
      apply convertIfNeeded_quiet in H3.
      eauto using appends_trans.
    - inv_bind H returnType c2 H2.
      destruct (negb _); [discriminate|]. apply emit_Ok in H.
      exists c2, None. split; [|exact H].
      apply (quiet_frame (@getCurrentFunctionReturnType_frame _ builderView)) in H2.
      exact H2. }
  pose proof (appends_advances A W) as Adv.
  destruct (appends_current A Hb) as (added & N & Hc).
  split.
  - eapply advances_trans; [exact Adv|].
    apply insertAt_advances. eapply advances_placed; exact Adv.
  - left. exists blk, (added ++ [llvm.Ret r]). split; [exact Hb|]. split.
    + rewrite (insertAt_current _ _ Hc), extendBlock_app. reflexivity.
    + right. exists added, r. auto.
Qed.

Lemma If_stepped cnd tb fb :
  Forall (steps fuel) tb -> Forall (steps fuel) (bodyOf fb) ->
  steps fuel (ast.If cnd tb fb).
Proof.
  intros Ht Hf c c' W H. cbn [codegen.StatementNode_codeGen] in H.
  destruct W as (b0 & E0 & Hb0).
  inv_bind H blk c0 H0. apply GetInsertBlock_Ok in H0. destruct H0 as [-> _].
  inv_bind H thenBB c1 H1. apply createBlock_Ok in H1.
  destruct H1 as (-> & B1 & I1 & F1).
  inv_bind H elseBB c2 H2.
  inv_bind H mergeBB c3 H3. apply createBlock_Ok in H3.
  destruct H3 as (-> & B3 & I3 & F3).
  inv_bind H condValue c4 H4.
  destruct (negb _); [discriminate|].
  inv_bind H u5 c5 H5. inv_bind H u6 c6 H6. inv_bind H u7 c7 H7.
  inv_bind H u8 c8 H8. inv_bind H u9 c9 H9.
  destruct u7.
  assert (exists pre,
             blocksOf c2 = blocksOf c ++ pre /\ 0 < length pre
             /\ codegen.insertBlock c2 = codegen.insertBlock c
             /\ codegen.insertFunction c2 = codegen.insertFunction c
             /\ forall e, elseBB = Some e ->
                          length (blocksOf c) <= e < length (blocksOf c2))
    as (pre & B2 & Hpre & I2 & F2 & He).
  { destruct fb as [falseBody|].
    - inv_bind H2 e c2' H2'. apply createBlock_Ok in H2'.
      destruct H2' as (-> & B2 & I2 & F2). inversion H2; subst. clear H2.
      exists [llvm.mkBasicBlock "then" []; llvm.mkBasicBlock "else" []].
      rewrite B2, B1, <- app_assoc. simpl.
      split; [reflexivity|]. split; [lia|]. split; [congruence|].
      split; [congruence|].
      intros e' X. inversion X. rewrite !length_app. simpl. lia.
    - inversion H2; subst. clear H2.
      exists [llvm.mkBasicBlock "then" []]. rewrite B1. simpl.
      split; [reflexivity|]. split; [lia|]. split; [congruence|].
      split; [congruence|]. intros e X. discriminate. }
  assert (Hm : length (blocksOf c2) = length (blocksOf c) + length pre)
    by (rewrite B2, length_app; reflexivity).
  rewrite Hm in *.
  assert (J : lowering (codegen.insertFunction c) (length (blocksOf c)) b0
                       (blocksOf c) (length (blocksOf c) + length pre) c3).
  { eapply lowering_init with (x := llvm.mkBasicBlock "ifcont" []);
      try eassumption; [| reflexivity | congruence | congruence].
    rewrite B3, B2, <- app_assoc. reflexivity. }
  eapply lowering_quiet in H4; [| apply codeGen_value_quiet | exact J].
  clear J. rename H4 into J.
  assert (J5 : lowering (codegen.insertFunction c) (length (blocksOf c)) b0
                        (blocksOf c) (length (blocksOf c) + length pre) c5).
  { destruct elseBB; eapply lowering_emit; eassumption. }
  clear J. pose proof (lowering_move J5 H6 (le_n _)) as J. clear J5.
  specialize (J ltac:(lia)).
  pose proof (each_advances Ht (lowering_placed J) H7) as A7.
  assert (J8 : lowering (codegen.insertFunction c) (length (blocksOf c)) b0
                        (blocksOf c) (length (blocksOf c) + length pre) c8)
    by (eapply lowering_branchIfOpen;
        [eapply lowering_advances; eassumption | exact H8]).
  clear J A7.
  assert (J9 : lowering (codegen.insertFunction c) (length (blocksOf c)) b0
                        (blocksOf c) (length (blocksOf c) + length pre) c9).
  { destruct fb as [falseBody|]; [destruct elseBB as [e|]|];
      try (inversion H9; subst; exact J8).
    inv_bind H9 u10 c10 H10. inv_bind H9 u11 c11 H11. destruct u11.
    destruct (He e eq_refl) as [He1 He2].
    pose proof (lowering_move J8 H10 He1 He2) as J10.
    pose proof (each_advances Hf (lowering_placed J10) H11) as A11.
    eapply lowering_branchIfOpen;
      [eapply lowering_advances; eassumption | exact H9]. }
  eapply lowering_finish; try eassumption; [reflexivity | lia].
Qed.

Lemma While_stepped cnd body :
  Forall (steps fuel) body -> steps fuel (ast.While cnd body).
Proof.
  intros Hbody c c' W H. cbn [codegen.StatementNode_codeGen] in H.
  destruct W as (b0 & E0 & Hb0).
  inv_bind H blk c0 H0. apply GetInsertBlock_Ok in H0. destruct H0 as [-> _].
  inv_bind H condBB c1 H1. apply createBlock_Ok in H1.
  destruct H1 as (-> & B1 & I1 & F1).
  inv_bind H bodyBB c2 H2. apply createBlock_Ok in H2.
  destruct H2 as (-> & B2 & I2 & F2).
  inv_bind H exitBB c3 H3. apply createBlock_Ok in H3.
  destruct H3 as (-> & B3 & I3 & F3).
  inv_bind H u4 c4 H4. inv_bind H u5 c5 H5. inv_bind H condValue c6 H6.
  destruct (negb _); [discriminate|].
  inv_bind H u7 c7 H7. inv_bind H u8 c8 H8. inv_bind H u9 c9 H9.
  inv_bind H u10 c10 H10. destruct u9.
  rewrite B2, B1, !length_app in *. simpl length in *.
  assert (J : lowering (codegen.insertFunction c) (length (blocksOf c)) b0
                       (blocksOf c)
                       (length (blocksOf c)
                        + length [llvm.mkBasicBlock "cond" [];
                                  llvm.mkBasicBlock "body" []]) c3).
  { eapply lowering_init with (x := llvm.mkBasicBlock "exit" []);
      try eassumption; [| reflexivity | congruence | congruence].
    rewrite B3, <- !app_assoc. reflexivity. }
  simpl length in J.
  replace (length (blocksOf c) + 1 + 1) with (length (blocksOf c) + 2) in * by lia.
  pose proof (lowering_emit J H4) as J4. clear J.
  pose proof (lowering_move J4 H5 (le_n _)) as J5. specialize (J5 ltac:(lia)).
  pose proof (lowering_quiet (codeGen_value_quiet cnd) J5 H6) as J6.
  pose proof (lowering_emit J6 H7) as J7.
  pose proof (lowering_move J7 H8) as J8.
  specialize (J8 ltac:(lia) ltac:(lia)).
  pose proof (each_advances Hbody (lowering_placed J8) H9) as A9.
  pose proof (lowering_emit (lowering_advances J8 A9) H10) as J10.
  clear J4 J5 J6 J7 J8.
  eapply lowering_finish; try eassumption; [reflexivity | lia].
Qed.

(** Every statement extends the insertion block, closes it with a return,
    or leaves the builder at a new, empty block. *)
Lemma StatementNode_codeGen_stepped : forall s, steps fuel s.
Proof.
  induction s using StatementNode_induction.
  - intros c c' W H. eapply quiet_stepped; [apply VariableDeclaration_quiet | exact W | exact H].
  - intros c c' W H. eapply quiet_stepped; [apply AssignmentStatement_quiet | exact W | exact H].
  - intros c c' W H. eapply Return_stepped; [exact W | exact H].
  - apply If_stepped; assumption.
  - apply While_stepped; assumption.
  - intros c c' W H. cbn [codegen.StatementNode_codeGen] in H.
    eapply quiet_stepped; [| exact W | exact H]. quietly.
Qed.

End Statements.

(** ** The block a function body ends at *)

Lemma filter_nonTerminators l :
  nonTerminators l -> filter llvm.isTerminator l = [].
Proof.
  induction 1 as [|i l Hi _ IH]; simpl; [reflexivity|].
  rewrite Hi. exact IH.
Qed.

Lemma last_Some {A} (l : list A) :
  match last (map Some l) None with
  | Some i => exists pre, l = pre ++ [i]
  | None => l = []
  end.
Proof.
  induction l as [|a [|b r] IH]; [reflexivity | exists []; reflexivity |].
  change (last (map Some (a :: b :: r)) None) with (last (map Some (b :: r)) None).
  destruct (last (map Some (b :: r)) None) as [i|].
  - destruct IH as [pre E]. exists (a :: pre). rewrite E. reflexivity.
  - discriminate.
Qed.

Lemma open_getTerminator blk :
  nonTerminators (llvm.instructions blk) -> llvm.getTerminator blk = None.
Proof.
  intros N. unfold llvm.getTerminator.
  pose proof (last_Some (llvm.instructions blk)) as L.
  destruct (last (map Some (llvm.instructions blk)) None) as [i|]; [|reflexivity].
  destruct L as [pre E]. rewrite E in N. apply Forall_app in N.
  destruct N as [_ N]. inversion N as [|? ? Hi]; subst. rewrite Hi. reflexivity.
Qed.

Lemma closed_getTerminator blk pre v :
  llvm.instructions blk = pre ++ [llvm.Ret v] ->
  llvm.getTerminator blk = Some (llvm.Ret v).
Proof.
  intros E. unfold llvm.getTerminator. rewrite E, map_app. simpl.
  rewrite last_last. reflexivity.
Qed.

Lemma closed_terminators blk pre v :
  llvm.instructions blk = pre ++ [llvm.Ret v] -> nonTerminators pre ->
  terminators blk = 1.
Proof.
  intros E N. unfold terminators.
  rewrite E, filter_app, (filter_nonTerminators N). reflexivity.
Qed.

Lemma currentBlock_view c c' :
  builderView c' = builderView c -> codegen.currentBlock c' = codegen.currentBlock c.
Proof.
  intros H. rewrite !currentBlock_blocksOf, (blocksOf_view H).
  inversion H as [[H1 H2 H3]]. rewrite H3. reflexivity.
Qed.

Lemma appends_open c c' : appends c c' -> openBlock c -> openBlock c'.
Proof.
  intros A (blk & Hb & N). destruct (appends_current A Hb) as (added & Na & Hc).
  exists (extendBlock added blk). split; [exact Hc|].
  apply Forall_app. split; assumption.
Qed.

Lemma stepped_final c c' :
  stepped c c' -> openBlock c -> openBlock c' \/ closedBlock c'.
Proof.
  intros (_ & [(blk & added & Hb & Hc & Hadd) | (blk' & Hc & Hnil)]) (blk0 & Hb0 & N).
  - assert (blk0 = blk) by congruence. subst blk0.
    destruct Hadd as [Na | (pre & v & -> & Np)].
    + left. exists (extendBlock added blk). split; [exact Hc|].
      apply Forall_app. split; assumption.
    + right. exists (extendBlock (pre ++ [llvm.Ret v]) blk), (llvm.instructions blk ++ pre), v.
      split; [exact Hc|]. split; [apply app_assoc|].
      apply Forall_app. split; assumption.
  - left. exists blk'. split; [exact Hc|]. rewrite Hnil. constructor.
Qed.

Lemma open_placed c : openBlock c -> wellPlaced c.
Proof. intros (blk & Hb & _). eapply currentBlock_placed; exact Hb. Qed.

Section FunctionBody.

Variable fuel : nat.

(** The loop over the statements of a body leaves the insertion block
    without a terminator or closed by a return. *)
Lemma generateStatements_final : forall body c u c',
  openBlock c ->
  codegen.generateStatements fuel body c = Ok (u, c') ->
  codegen.insertFunction c' = codegen.insertFunction c
  /\ (openBlock c' \/ closedBlock c').
Proof.
  induction body as [|s r IH]; intros c u c' O H; simpl in H.
  - inversion H; subst. auto.
  - inv_bind H u1 c1 H1. destruct u1.
    apply StatementNode_codeGen_stepped in H1; [|apply open_placed; exact O].
    pose proof (stepped_final H1 O) as Fin. destruct H1 as [(F1 & _) _].
    inv_bind H closed c2 H2. apply hasTerminator_Ok in H2.
    destruct H2 as (-> & blk & Hb & ->).
    destruct (llvm.getTerminator blk) eqn:T.
    + inversion H; subst. auto.
    + destruct Fin as [O1 | (blk1 & pre & v & Hb1 & E & _)].
      * apply IH in H; [|exact O1]. destruct H as [F Fin]. split; [congruence | exact Fin].
      * assert (blk1 = blk) by congruence. subst blk1.
        apply closed_getTerminator in E. congruence.
Qed.

Lemma copyParams_quiet : forall params i, quiet (codegen.copyParams i params).
Proof.
  induction params as [|[name ty] r IH]; intros i; simpl.
  - apply quiet_ret.
  - pose proof CreateAlloca_quiet. pose proof CreateStore_quiet. quietly.
Qed.

Lemma setArgNames_current names n c :
  codegen.currentBlock
    (codegen.set_functions
       (codegen.updateNth n (codegen.setArgNames names) (codegen.functions c)) c)
  = codegen.currentBlock c.
Proof.
  unfold codegen.currentBlock, codegen.currentFunction. cbn.
  destruct (codegen.insertBlock c) as [b|]; [|reflexivity].
  destruct (Nat.eq_dec n (codegen.insertFunction c)) as [->|Hne].
  - rewrite updateNth_same.
    destruct (nth_error (codegen.functions c) (codegen.insertFunction c));
      reflexivity.
  - rewrite updateNth_other by exact Hne. reflexivity.
Qed.

(** [generateFunctionBody] leaves the builder, in the function it was given,
    at a block closed by a return. *)
Lemma generateFunctionBody_final node function paramTypes body c u c' :
  codegen.generateFunctionBody fuel node function paramTypes body c = Ok (u, c') ->
  codegen.insertFunction c' = function /\ closedBlock c'.
Proof.
  unfold codegen.generateFunctionBody. intros H.
  inv_bind H u1 c1 H1. inversion H1; subst u1 c1. clear H1.
  inv_bind H entry c2 H2. apply createBlock_Ok in H2.
  destruct H2 as (-> & B2 & I2 & F2). cbn in F2.
  inv_bind H u3 c3 H3. apply SetInsertPoint_Ok in H3.
  destruct H3 as (B3 & I3 & F3).
  assert (O3 : openBlock c3).
  { exists (llvm.mkBasicBlock "entry" []).
    rewrite currentBlock_blocksOf, I3, B3, B2.
    rewrite nth_error_app2 by apply le_n. rewrite Nat.sub_diag.
    split; [reflexivity | constructor]. }
  inv_bind H u4 c4 H4.
  pose proof (@pushScope_cframe _ builderView (fun _ _ => eq_refl) _ _ _ H4) as V4.
  assert (O4 : openBlock c4).
  { destruct O3 as (blk & Hb & N). exists blk.
    rewrite (currentBlock_view V4). auto. }
  assert (F4 : codegen.insertFunction c4 = function).
  { inversion V4. congruence. }
  inv_bind H u5 c5 H5. inversion H5; subst u5 c5. clear H5.
  inv_bind H u6 c6 H6. apply copyParams_quiet in H6.
  assert (O6 : openBlock c6).
  { eapply appends_open; [exact H6|]. destruct O4 as (blk & Hb & N). exists blk.
    rewrite setArgNames_current. auto. }
  assert (F6 : codegen.insertFunction c6 = function).
  { destruct H6 as (F & _). rewrite F. exact F4. }
  inv_bind H u7 c7 H7. apply generateStatements_final in H7; [|exact O6].
  destruct H7 as [F7 Fin].
  inv_bind H closed c8 H8. apply hasTerminator_Ok in H8.
  destruct H8 as (-> & blk & Hb & ->).
  inv_bind H u9 c9 H9.
  pose proof (@popScope_cframe _ builderView (fun _ _ => eq_refl) _ _ _ H) as V.
  assert (codegen.insertFunction c9 = function /\ closedBlock c9) as [F9 (blk9 & pre & v & Hb9 & E & N)].
  { destruct Fin as [(blk7 & Hb7 & N) | C].
    - assert (blk7 = blk) by congruence. subst blk7.
      rewrite open_getTerminator in H9 by exact N. apply emit_Ok in H9. subst c9.
      destruct (insertAt_point (llvm.Ret None) c7) as [F _].
      split; [congruence|].
      exists (extendBlock [llvm.Ret None] blk), (llvm.instructions blk), None.
      split; [apply insertAt_current; exact Hb|]. auto.
    - pose proof C as (blk7 & pre & v & Hb7 & E & N).
      assert (blk7 = blk) by congruence. subst blk7.
      apply closed_getTerminator in E. rewrite E in H9.
      inversion H9; subst. split; [congruence | exact C]. }
  split; [inversion V; congruence|].
  exists blk9, pre, v. rewrite (currentBlock_view V). auto.
Qed.

End FunctionBody.

(** C3.  For every function with a body that [FunctionNode::codeGen] lowers,
    the block the builder is left at, which is the block
    [generateFunctionBody] tests for a terminator and appends the void
    return to, is a block of the function created and holds exactly one
    terminator instruction: a return, which is its last instruction.  The
    bodies are arbitrary, so the arms of an [if] and the body of a [while]
    may end in a return statement. *)
Theorem final_block_has_one_terminator fuel node body c function c' :
  ast.fn_body_ node = Some body ->
  codegen.FunctionNode_codeGen fuel node c = Ok (function, c') ->
  exists f b blk v,
    nth_error (codegen.functions c') function = Some f
    /\ codegen.insertFunction c' = function
    /\ codegen.insertBlock c' = Some b
    /\ nth_error (llvm.blocks f) b = Some blk
    /\ terminators blk = 1
    /\ llvm.getTerminator blk = Some (llvm.Ret v).
Proof.
  intros Hbody H. unfold codegen.FunctionNode_codeGen in H. rewrite Hbody in H.
  destruct (ast.fn_type_ node) as [type_|]; [|discriminate].
  inv_bind H type c1 H1. inv_bind H parameters c2 H2.
  inv_bind H fn c3 H3. inversion H3; subst fn c3. clear H3.
  inv_bind H u4 c4 H4. inversion H4; subst u4 c4. clear H4.
  inv_bind H u5 c5 H5. inversion H; subst. clear H.
  apply generateFunctionBody_final in H5.
  destruct H5 as (F & blk & pre & v & Hb & E & N).
  unfold codegen.currentBlock, codegen.currentFunction in Hb. rewrite F in Hb.
  destruct (codegen.insertBlock c') as [b|]; [|discriminate].
  destruct (nth_error (codegen.functions c') (length (codegen.functions c2)))
    as [f|]; [|discriminate].
  exists f, b, blk, v. repeat split; try assumption.
  - eapply closed_terminators; eassumption.
  - eapply closed_getTerminator; eassumption.
Qed.

Lemma final_block_has_one_terminator_witness :
  exists function c' f b blk v,
    codegen.FunctionNode_codeGen 5 whileReturn (codegen.new []) = Ok (function, c')
    /\ nth_error (codegen.functions c') function = Some f
    /\ codegen.insertFunction c' = function
    /\ codegen.insertBlock c' = Some b
    /\ nth_error (llvm.blocks f) b = Some blk
    /\ terminators blk = 1
    /\ llvm.getTerminator blk = Some (llvm.Ret v).
Proof.
  edestruct final_block_has_one_terminator
    with (fuel := 5) (node := whileReturn) (c := codegen.new [])
    as (f & b & blk & v & H);
    [reflexivity | vm_compute; reflexivity |].
  do 6 eexists. split; [vm_compute; reflexivity | exact H].
Defined.

(** The claim is about the block the builder ends at, not about every
    block: the body block of [while (1) { return; }] holds the return and,
    after it, the branch back to the condition that [While::codeGen] emits
    unconditionally. *)
Lemma while_body_block_holds_two_terminators :
  exists function c' f blk,
    codegen.FunctionNode_codeGen 5 whileReturn (codegen.new []) = Ok (function, c')
    /\ nth_error (codegen.functions c') function = Some f
    /\ nth_error (llvm.blocks f) 2 = Some blk
    /\ llvm.bb_name blk = "body"
    /\ llvm.instructions blk = [llvm.Ret None; llvm.Br 1]
    /\ terminators blk = 2.
Proof.
  do 4 eexists. split; [vm_compute; reflexivity|].
  split; [reflexivity|]. split; [reflexivity|]. repeat split.
Qed.

(** Nor is it about the block created last: in
    [while (1) { if (1) { } return; }] that block is the [ifcont] of the
    [if], which receives the return and the branch of the loop, while the
    builder ends at the [exit] block of the loop. *)
Lemma last_created_block_holds_two_terminators :
  exists function c' f blk,
    codegen.FunctionNode_codeGen 5 ifThenReturn (codegen.new []) = Ok (function, c')
    /\ nth_error (codegen.functions c') function = Some f
    /\ codegen.insertBlock c' = Some 3
    /\ length (llvm.blocks f) = 6
    /\ nth_error (llvm.blocks f) 5 = Some blk
    /\ llvm.bb_name blk = "ifcont"
    /\ terminators blk = 2.
Proof.
  do 4 eexists. split; [vm_compute; reflexivity|].
  split; [reflexivity|]. split; [reflexivity|]. split; [reflexivity|].
  split; [reflexivity|]. split; reflexivity.
Qed.

(** ** What lowering a body leaves unchanged *)

Section BuilderFrame.

Import codegen.

Variable X : Type.
Variable f : CodegenContext -> X.

Hypothesis f_scopes : forall x c, f (set_scopes x c) = f c.
Hypothesis f_namedStructs : forall x c, f (set_namedStructs x c) = f c.
Hypothesis f_bodies : forall x c, f (set_bodies x c) = f c.
Hypothesis f_globals : forall x c, f (set_globals x c) = f c.
Hypothesis f_nextId : forall x c, f (set_nextId x c) = f c.
Hypothesis f_insertPoint : forall a b c, f (set_insertPoint a b c) = f c.
Hypothesis f_insertAt : forall i c, f (insertAt i c) = f c.
Hypothesis f_addBlock : forall name c, f (addBlock name c) = f c.

Ltac bframe :=
  repeat (frame_step;
          cbv beta;
          rewrite ?f_scopes, ?f_namedStructs, ?f_bodies, ?f_globals, ?f_nextId,
            ?f_insertPoint, ?f_insertAt, ?f_addBlock;
          try reflexivity).

Lemma emit_frame i : preserves f (emit i).
Proof. unfold emit. bframe. Qed.
Lemma createBlock_frame name : preserves f (createBlock name).
Proof. unfold createBlock. bframe. Qed.
Lemma SetInsertPoint_frame b : preserves f (SetInsertPoint b).
Proof. unfold SetInsertPoint. bframe. Qed.

#[local] Hint Resolve emit_frame createBlock_frame SetInsertPoint_frame : frame.

Lemma CreateAlloca_frame ty name : preserves f (CreateAlloca ty name).
Proof. unfold CreateAlloca. bframe. Qed.
Lemma CreateStore_frame v ptr : preserves f (CreateStore v ptr).
Proof. unfold CreateStore. bframe. Qed.
Lemma CreateLoad_frame ty ptr name : preserves f (CreateLoad ty ptr name).
Proof. unfold CreateLoad. bframe. Qed.
Lemma CreateGEP_frame ty e ptr idx name : preserves f (CreateGEP ty e ptr idx name).
Proof. unfold CreateGEP. bframe. Qed.
Lemma CreateCast_frame op v ty : preserves f (CreateCast op v ty).
Proof. unfold CreateCast. bframe. Qed.
Lemma CreateNeg_frame v : preserves f (CreateNeg v).
Proof. unfold CreateNeg. bframe. Qed.
Lemma CreateBinary_frame op l r : preserves f (CreateBinary op l r).
Proof. unfold CreateBinary. bframe. Qed.
Lemma CreateICmp_frame p l r : preserves f (CreateICmp p l r).
Proof. unfold CreateICmp. bframe. Qed.
Lemma CreateCall_frame callee args : preserves f (CreateCall callee args).
Proof. unfold CreateCall. bframe. Qed.
Lemma CreateRet_frame v : preserves f (CreateRet v).
Proof. unfold CreateRet. bframe. Qed.
Lemma CreateRetVoid_frame : preserves f CreateRetVoid.
Proof. unfold CreateRetVoid. bframe. Qed.
Lemma CreateBr_frame d : preserves f (CreateBr d).
Proof. unfold CreateBr. bframe. Qed.
Lemma CreateCondBr_frame v t e : preserves f (CreateCondBr v t e).
Proof. unfold CreateCondBr. bframe. Qed.

#[local] Hint Resolve CreateAlloca_frame CreateStore_frame CreateLoad_frame
  CreateGEP_frame CreateCast_frame CreateNeg_frame CreateBinary_frame
  CreateICmp_frame CreateCall_frame CreateRet_frame CreateRetVoid_frame
  CreateBr_frame CreateCondBr_frame : frame.

Lemma convertIfNeeded_frame v ty sg : preserves f (convertIfNeeded v ty sg).
Proof. unfold convertIfNeeded. bframe. Qed.

#[local] Hint Resolve convertIfNeeded_frame : frame.

Variable fuel : nat.

Lemma StructAccess_frame lv m ty :
  preserves f lv -> preserves f (StructAccess_codeGenLValue fuel lv m ty).
Proof. intros H. unfold StructAccess_codeGenLValue. bframe. Qed.

Lemma ArrayAccess_frame lv iv ty :
  preserves f lv -> preserves f iv ->
  preserves f (ArrayAccess_codeGenLValue fuel lv iv ty).
Proof. intros H1 H2. unfold ArrayAccess_codeGenLValue. bframe. Qed.

Lemma PtrIndexAccess_frame pv iv ty :
  preserves f pv -> preserves f iv ->
  preserves f (PtrIndexAccess_codeGenLValue fuel pv iv ty).
Proof. intros H1 H2. unfold PtrIndexAccess_codeGenLValue. bframe. Qed.

Lemma BinaryOperation_emit_frame op sg L R :
  preserves f (BinaryOperation_emit op sg L R).
Proof. unfold BinaryOperation_emit. bframe. Qed.

#[local] Hint Resolve StructAccess_frame ArrayAccess_frame PtrIndexAccess_frame
  BinaryOperation_emit_frame : frame.

Lemma codeGen_frame : forall e,
  preserves f (codeGen fuel e) /\ preserves f (codeGenLValue fuel e).
Proof.
  induction e using ExpressionNode_induction; simpl;
    repeat match goal with H : _ /\ _ |- _ => destruct H end;
    try (split; bframe; fail).
  split; [|bframe].
  apply preserves_bind; [bframe|]. intros [callee|]; [|bframe].
  destruct (negb _); [bframe|].
  apply preserves_bind; [|intros; bframe].
  induction H as [|a r [Ha _] _ IH]; bframe.
Qed.

Lemma codeGen_value_frame e : preserves f (codeGen fuel e).
Proof. apply codeGen_frame. Qed.

Lemma codeGen_address_frame e : preserves f (codeGenLValue fuel e).
Proof. apply codeGen_frame. Qed.

#[local] Hint Resolve codeGen_value_frame codeGen_address_frame : frame.

Lemma VariableDeclaration_frame t n i :
  preserves f (VariableDeclaration_codeGen fuel t n i).
Proof. unfold VariableDeclaration_codeGen. bframe. Qed.

Lemma AssignmentStatement_frame t v :
  preserves f (AssignmentStatement_codeGen fuel t v).
Proof. unfold AssignmentStatement_codeGen. bframe. Qed.

Lemma Return_frame v : preserves f (Return_codeGen fuel v).
Proof. unfold Return_codeGen. bframe. Qed.

Lemma branchIfOpen_frame m : preserves f (branchIfOpen m).
Proof. unfold branchIfOpen. bframe. Qed.

#[local] Hint Resolve VariableDeclaration_frame AssignmentStatement_frame
  Return_frame branchIfOpen_frame : frame.

Lemma each_frame l :
  Forall (fun s => preserves f (StatementNode_codeGen fuel s)) l ->
  preserves f
    ((fix each (l : list ast.StatementNode) : CG unit :=
        match l with
        | [] => ret tt
        | stmt :: r => StatementNode_codeGen fuel stmt ;;; each r
        end) l).
Proof. induction 1; bframe. Qed.

Lemma StatementNode_codeGen_frame : forall s,
  preserves f (StatementNode_codeGen fuel s).
Proof.
  induction s using StatementNode_induction; cbn [StatementNode_codeGen];
    try (bframe; fail).
  - pose proof (each_frame H) as Ht.
    destruct fb as [falseBody|]; [pose proof (each_frame H0) as Hf|]; bframe.
  - pose proof (each_frame H) as Hb. bframe.
Qed.

#[local] Hint Resolve StatementNode_codeGen_frame : frame.

Lemma copyParams_frame : forall params i, preserves f (copyParams i params).
Proof. induction params as [|[name ty] r IH]; intros i; simpl; bframe. Qed.

Lemma generateStatements_frame : forall body,
  preserves f (generateStatements fuel body).
Proof. induction body as [|s r IH]; simpl; bframe. Qed.

Lemma paramsCodeGen_frame : forall params, preserves f (paramsCodeGen fuel params).
Proof. induction params as [|[name [ty|]] r IH]; simpl; bframe. Qed.

End BuilderFrame.

(** ** The function emitted for a node *)

Lemma map_updateNth {A B} (h : A -> B) (g : A -> A) (g' : B -> B) :
  (forall x, h (g x) = g' (h x)) ->
  forall n l, map h (codegen.updateNth n g l) = codegen.updateNth n g' (map h l).
Proof.
  intros H n l. revert n. induction l as [|a l IH]; intros [|n]; simpl;
    rewrite ?H, ?IH; reflexivity.
Qed.

Lemma map_updateNth_same {A B} (h : A -> B) (g : A -> A) :
  (forall x, h (g x) = h x) ->
  forall n l, map h (codegen.updateNth n g l) = map h l.
Proof.
  intros H n l. rewrite (map_updateNth h g (fun x => x)) by exact H.
  apply updateNth_id. reflexivity.
Qed.

Lemma headers_insertAt i c : headers (codegen.insertAt i c) = headers c.
Proof.
  unfold codegen.insertAt. destruct (codegen.insertBlock c); [|reflexivity].
  apply map_updateNth_same. reflexivity.
Qed.

Lemma headers_addBlock name c : headers (codegen.addBlock name c) = headers c.
Proof. apply map_updateNth_same. reflexivity. Qed.

(** The headers are kept by a computation that a frame lemma covers. *)
Ltac keeps_headers H lem :=
  match type of H with
  | ?m ?c = Ok (_, _) =>
      let E := fresh in
      assert (E : preserves headers m)
        by (apply lem; intros; try reflexivity;
            first [apply headers_insertAt | apply headers_addBlock]);
      apply E in H; clear E
  end.

Lemma generateFunctionBody_headers fuel node function paramTypes body c u c' :
  codegen.generateFunctionBody fuel node function paramTypes body c = Ok (u, c') ->
  headers c'
  = codegen.updateNth function (named (map fst (ast.fn_params_ node))) (headers c).
Proof.
  unfold codegen.generateFunctionBody. intros H.
  inv_bind H u1 c1 H1. inversion H1; subst u1 c1. clear H1.
  inv_bind H entry c2 H2. keeps_headers H2 createBlock_frame.
  inv_bind H u3 c3 H3. keeps_headers H3 SetInsertPoint_frame.
  inv_bind H u4 c4 H4. keeps_headers H4 pushScope_cframe.
  inv_bind H u5 c5 H5. inversion H5; subst u5 c5. clear H5.
  inv_bind H u6 c6 H6. keeps_headers H6 copyParams_frame.
  inv_bind H u7 c7 H7. keeps_headers H7 generateStatements_frame.
  inv_bind H closed c8 H8. keeps_headers H8 hasTerminator_frame.
  inv_bind H u9 c9 H9. keeps_headers H popScope_cframe.
  assert (H9' : headers c9 = headers c8).
  { destruct closed; [inversion H9; reflexivity|].
    apply emit_Ok in H9. subst. apply headers_insertAt. }
  rewrite H, H9', H8, H7, H6.
  unfold headers at 1. cbn [codegen.functions codegen.set_functions].
  rewrite (map_updateNth header _ (named (map fst (ast.fn_params_ node))))
    by reflexivity.
  fold (headers c4). rewrite H4, H3, H2. reflexivity.
Qed.

Lemma paramsCodeGen_pointwise fuel :
  forall params c ts c',
    codegen.paramsCodeGen fuel params c = Ok (ts, c') ->
    Forall2 (lowersTo fuel) params ts.
Proof.
  induction params as [|[name [ty|]] r IH]; simpl; intros c ts c' H.
  - inversion H. constructor.
  - inv_bind H t c1 H1. inv_bind H ts' c2 H2. inversion H; subst.
    constructor; [|eapply IH; exact H2].
    exists ty, c, c1. split; [reflexivity | exact H1].
  - discriminate.
Qed.

(** The lowering of a pointer type is the pointer type of LLVM. *)
Lemma lowersTo_pointer fuel name target t :
  lowersTo fuel (name, Some (ast.PointerTypeNode target)) t -> t = llvm.PointerTy.
Proof.
  intros (ty & c & c' & E & H). simpl in E. inversion E; subst ty. clear E.
  destruct fuel as [|fuel]; [discriminate|]. simpl in H.
  inv_bind H t0 c1 H1. inversion H. reflexivity.
Qed.

Lemma FunctionNode_codeGen_emitted fuel node c function c' :
  codegen.FunctionNode_codeGen fuel node c = Ok (function, c') ->
  exists f, nth_error (codegen.functions c') function = Some f
            /\ emittedAs fuel node f.
Proof.
  intros H. unfold codegen.FunctionNode_codeGen in H.
  destruct (ast.fn_type_ node) as [type_|]; [|discriminate].
  inv_bind H type c1 H1. inv_bind H parameters c2 H2.
  inv_bind H fn c3 H3. inversion H3; subst fn c3. clear H3.
  inv_bind H u4 c4 H4. inversion H4; subst u4 c4. clear H4.
  inv_bind H u5 c5 H5. inversion H; subst. clear H.
  apply paramsCodeGen_pointwise in H2.
  assert (Hh : nth_error (headers c') (length (codegen.functions c2))
               = Some (ast.fn_name_ node, type, parameters,
                       (if ast.fn_isPublic_ node then llvm.ExternalLinkage
                        else llvm.InternalLinkage),
                       match ast.fn_body_ node with
                       | Some _ => map fst (ast.fn_params_ node)
                       | None => []
                       end)).
  { destruct (ast.fn_body_ node) as [body|].
    - apply generateFunctionBody_headers in H5. rewrite H5, updateNth_same.
      unfold headers. cbn [codegen.functions codegen.set_functions].
      rewrite map_app, nth_error_app2 by (rewrite length_map; apply le_n).
      rewrite length_map, Nat.sub_diag. reflexivity.
    - inversion H5; subst. unfold headers.
      cbn [codegen.functions codegen.set_functions].
      rewrite map_app, nth_error_app2 by (rewrite length_map; apply le_n).
      rewrite length_map, Nat.sub_diag. reflexivity. }
  unfold headers in Hh. rewrite nth_error_map in Hh.
  destruct (nth_error (codegen.functions c') (length (codegen.functions c2)))
    as [f|]; [|discriminate].
  exists f. split; [reflexivity|]. inversion Hh as [[E1 E2 E3 E4 E5]].
  unfold emittedAs. rewrite E1, E3, E5. split; [reflexivity|]. split; [exact H2|].
  intros Hb. destruct (ast.fn_body_ node); [reflexivity | contradiction].
Qed.

(** The first parameter of the function emitted for a method that takes
    [this] is a pointer. *)
Lemma method_takes_pointer C types node fuel f :
  isMethodOf C types node -> emittedAs fuel node f ->
  smap.find C types <> None ->
  hd_error (llvm.paramTypes f) = Some llvm.PointerTy.
Proof.
  intros (_ & _ & declared & Hp) (_ & Hl & _) Hfind.
  unfold thisParameter in Hp.
  destruct (smap.find C types) as [ty|]; [|contradiction].
  rewrite Hp in Hl. inversion Hl as [|param t params ts Ht Hts]; subst.
  apply lowersTo_pointer in Ht. subst. reflexivity.
Qed.




(** ** The lexer goes forward *)

Lemma forward_refl L : forward L L.
Proof. repeat split. apply le_n. Qed.

Lemma forward_trans L1 L2 L3 : forward L1 L2 -> forward L2 L3 -> forward L1 L3.
Proof.
  intros (S1 & A1 & C1) (S2 & A2 & C2). repeat split; try congruence. lia.
Qed.

Lemma goesForward_ret {A} (a : A) : goesForward (ret a).
Proof. intros L b L' H. inversion H. apply forward_refl. Qed.

Lemma goesForward_abort {A} e : goesForward (@abort _ A e).
Proof. intros L b L' H. discriminate. Qed.

Lemma goesForward_bind {A B} (m : lexer.LM A) (k : A -> lexer.LM B) :
  goesForward m -> (forall a, goesForward (k a)) -> goesForward (bind m k).
Proof.
  intros Hm Hk L b L' H. inv_bind H a L1 H1.
  eapply forward_trans; [eapply Hm | eapply Hk]; eassumption.
Qed.

Lemma goesForward_frame {A} (m : lexer.LM A) :
  preserves (fun L => L) m -> goesForward m.
Proof. intros Hm L a L' H. apply Hm in H. subst. apply forward_refl. Qed.

Lemma goesForward_gets {A} (g : lexer.Lexer -> A) : goesForward (gets g).
Proof. apply goesForward_frame. apply preserves_gets. Qed.

Lemma peekChar_forward k : goesForward (lexer.peekChar k).
Proof. apply goesForward_frame. unfold lexer.peekChar. frame. Qed.

Lemma inRange_forward k : goesForward (lexer.inRange k).
Proof. apply goesForward_gets. Qed.

Lemma get_Some_lt s : forall n c, String.get n s = Some c -> n < String.length s.
Proof.
  induction s as [|a s IH]; intros n c H; simpl in *; [discriminate|].
  destruct n as [|n]; [lia|]. apply IH in H. lia.
Qed.

Lemma consumeChar_advanced L c L' :
  lexer.consumeChar L = Ok (c, L') -> advanced L L'.
Proof.
  intros H. apply consumeChar_Ok in H. destruct H as [Hget ->].
  apply get_Some_lt in Hget.
  unfold advanced, forward, lexer.advancePosition, lexer.size.
  destruct (Ascii.eqb c NL); cbn; repeat split; lia.
Qed.

Lemma consumeChar_forward : goesForward lexer.consumeChar.
Proof. intros L c L' H. apply consumeChar_advanced in H. apply H. Qed.

Create HintDb forward.

#[export] Hint Resolve goesForward_ret goesForward_abort goesForward_gets
  peekChar_forward inRange_forward consumeChar_forward : forward.

Ltac forward_step :=
  match goal with
  | |- goesForward (bind _ _) => apply goesForward_bind; [| intros]
  | |- goesForward _ => solve [eauto with forward]
  | |- goesForward (if ?b then _ else _) => destruct b
  | |- goesForward (match ?x with _ => _ end) => destruct x
  | |- goesForward (let '(_, _) := ?x in _) => destruct x
  end.

Ltac forwards := repeat forward_step.

Section LexerForward.

Import lexer.

Lemma skipLineComment_forward fuel : goesForward (skipLineComment fuel).
Proof. induction fuel; simpl; forwards. Qed.

Lemma skipBlockComment_forward fuel : goesForward (skipBlockComment fuel).
Proof. induction fuel; simpl; forwards. Qed.

Lemma scanWhile_forward p fuel : forall acc, goesForward (scanWhile p fuel acc).
Proof. induction fuel; intros; simpl; forwards. Qed.

Lemma scanFraction_forward fuel : forall acc ran, goesForward (scanFraction fuel acc ran).
Proof. induction fuel; intros; simpl; forwards. Qed.

Lemma scanString_forward fuel : forall acc, goesForward (scanString fuel acc).
Proof. induction fuel; intros; simpl; forwards. Qed.

#[local] Hint Resolve skipLineComment_forward skipBlockComment_forward
  scanWhile_forward scanFraction_forward scanString_forward : forward.

Lemma advanced_forward L1 L2 L3 : advanced L1 L2 -> forward L2 L3 -> advanced L1 L3.
Proof.
  intros (F & C & S) F'. split; [eapply forward_trans; eassumption|].
  destruct F' as (_ & _ & C'). lia.
Qed.

Lemma forward_advanced L1 L2 L3 : forward L1 L2 -> advanced L2 L3 -> advanced L1 L3.
Proof.
  intros F (F' & C & S). split; [eapply forward_trans; eassumption|].
  destruct F as (E & _ & C'). unfold size in *. rewrite E in S. lia.
Qed.

(** A scanning loop entered on a character that passes its test reads it. *)
Lemma scanWhile_advanced p fuel acc L c r L' :
  String.get (srcCursor_ L) (src_ L) = Some c -> p c = true ->
  scanWhile p fuel acc L = Ok (r, L') -> advanced L L'.
Proof.
  intros Hget Hp H. destruct fuel as [|fuel]; simpl in H; [discriminate|].
  inv_bind H more L1 H1. inversion H1; subst more L1. clear H1.
  pose proof (get_Some_lt _ _ Hget) as Hlt.
  replace (srcCursor_ L + 0 <? size L) with true in H
    by (symmetry; apply Nat.ltb_lt; unfold size; lia).
  inv_bind H c0 L1 H1. rewrite (peekChar_some _ Hget) in H1.
  inversion H1; subst c0 L1. clear H1. rewrite Hp in H.
  inv_bind H c' L1 H1. apply consumeChar_advanced in H1.
  apply scanWhile_forward in H. eapply advanced_forward; eassumption.
Qed.

(** Lexing a token reads at least one character. *)
Lemma lexToken_advanced fuel L t L' : lexToken fuel L = Ok (t, L') -> advanced L L'.
Proof.
  intros H. unfold lexToken in H.
  inv_bind H newToken L0 H0. inversion H0; subst newToken L0. clear H0.
  inv_bind H c L1 H1. apply peekChar_Ok in H1. destruct H1 as [-> Hget].
  rewrite Nat.add_0_r in Hget.
  destruct (find_symbol c symbolMap) as [ty|].
  { inv_bind H c' L1 H1. inversion H; subst. eapply consumeChar_advanced; eassumption. }
  destruct (isdigit c) eqn:Hd.
  { inv_bind H lit L1 H1.
    eapply scanWhile_advanced in H1; [| exact Hget | exact Hd].
    eapply advanced_forward; [exact H1|].
    inv_bind H d L2 H2. apply peekChar_forward in H2.
    eapply forward_trans; [exact H2|].
    destruct (Ascii.eqb d "."%char); [|inversion H; apply forward_refl].
    inv_bind H dot L3 H3. apply consumeChar_forward in H3.
    inv_bind H fr L4 H4. apply scanFraction_forward in H4.
    destruct fr as [lit0 isFloat]. inversion H; subst.
    eapply forward_trans; eassumption. }
  destruct (Ascii.eqb c DQUOTE).
  { inv_bind H c' L1 H1. apply consumeChar_advanced in H1.
    eapply advanced_forward; [exact H1|].
    inv_bind H content L2 H2. apply scanString_forward in H2.
    inv_bind H more L3 H3. inversion H3; subst more L3. clear H3.
    destruct (negb _); [discriminate|].
    inv_bind H c'' L3 H3. apply consumeChar_forward in H3. inversion H; subst.
    eapply forward_trans; eassumption. }
  destruct (isalpha c || Ascii.eqb c "_"%char) eqn:Ha; [|discriminate].
  inv_bind H kw L1 H1.
  assert (A : advanced L L1).
  { eapply scanWhile_advanced; [exact Hget | | exact H1]. cbv beta.
    apply orb_true_iff in Ha. destruct Ha as [Ha | Ha]; [|rewrite Ha; apply orb_true_r].
    unfold isalnum. rewrite Ha. reflexivity. }
  destruct (find_keyword kw keywordMap); inversion H; subst; exact A.
Qed.

#[local] Hint Resolve lexToken_advanced : forward.

(** [nextToken] returns [EndOfFile] or has read at least one character. *)
Lemma nextTokenLoop_progress fuel : forall L t L',
  nextTokenLoop fuel L = Ok (t, L') ->
  forward L L' /\ (type t = EndOfFile \/ advanced L L').
Proof.
  assert (K : forall L L1 t L', forward L L1 ->
                forward L1 L' /\ (type t = EndOfFile \/ advanced L1 L') ->
                forward L L' /\ (type t = EndOfFile \/ advanced L L')).
  { intros L L1 t L' F [F' [E | A]].
    - split; [eapply forward_trans; eassumption | left; exact E].
    - split; [eapply forward_trans; eassumption|].
      right. eapply forward_advanced; eassumption. }
  assert (T : forall fuel' L t L', lexToken fuel' L = Ok (t, L') ->
                forward L L' /\ (type t = EndOfFile \/ advanced L L')).
  { intros fuel' L t L' H. apply lexToken_advanced in H.
    split; [apply H | right; exact H]. }
  induction fuel as [|fuel IH]; intros L t L' H; cbn [nextTokenLoop] in H;
    [discriminate|].
  inv_bind H more L0 H0. inversion H0; subst more L0. clear H0.
  destruct (srcCursor_ L + 0 <? size L).
  2:{ inversion H; subst. split; [apply forward_refl | left; reflexivity]. }
  inv_bind H c L1 H1. apply peekChar_Ok in H1. destruct H1 as [-> _].
  destruct (Ascii.eqb c NL || isspace c).
  { inv_bind H c' L1 H1. apply consumeChar_forward in H1.
    eapply K; [exact H1 | apply IH; exact H]. }
  inv_bind H more1 L0 H0. inversion H0; subst more1 L0. clear H0.
  destruct (Ascii.eqb c "/"%char && (srcCursor_ L + 1 <? size L)); [|eapply T; exact H].
  inv_bind H c1 L1 H1. apply peekChar_Ok in H1. destruct H1 as [-> _].
  destruct (Ascii.eqb c1 "/"%char).
  { inv_bind H a1 L1 H1. apply consumeChar_forward in H1.
    inv_bind H a2 L2 H2. apply consumeChar_forward in H2.
    inv_bind H a3 L3 H3. apply skipLineComment_forward in H3.
    eapply K; [|apply IH; exact H].
    eapply forward_trans; [exact H1|]. eapply forward_trans; eassumption. }
  destruct (Ascii.eqb c1 "*"%char); [|eapply T; exact H].
  inv_bind H a1 L1 H1. apply consumeChar_forward in H1.
  inv_bind H a2 L2 H2. apply consumeChar_forward in H2.
  inv_bind H a3 L3 H3. apply skipBlockComment_forward in H3.
  eapply K; [|apply IH; exact H].
  eapply forward_trans; [exact H1|]. eapply forward_trans; eassumption.
Qed.

Lemma nextToken_progress L t L' :
  nextToken L = Ok (t, L') ->
  forward L L' /\ (type t = EndOfFile \/ advanced L L').
Proof.
  unfold nextToken. intros H. inv_bind H n L0 H0. inversion H0; subst n L0.
  eapply nextTokenLoop_progress; exact H.
Qed.

End LexerForward.

(** ** What is left to the lexer *)

Section Remaining.

Import lexer.

Lemma remaining_forward L L' : forward L L' -> remaining L' <= remaining L.
Proof.
  intros (S & A & C). unfold remaining, pending, size. rewrite S, A. lia.
Qed.

Lemma remaining_advanced L L' : advanced L L' -> remaining L' + 2 <= remaining L.
Proof.
  intros ((S & A & _) & C & Z). unfold remaining, pending, size in *.
  rewrite S, A. lia.
Qed.

Lemma remaining_push_back t L u L' :
  push_back t L = Ok (u, L') ->
  src_ L' = src_ L /\ lookAhead_ L' = lookAhead_ L ++ [t]
  /\ remaining L' = remaining L + weighs t.
Proof.
  intros H. inversion H; subst. split; [reflexivity|]. split; [reflexivity|].
  unfold remaining, pending, size, weighs. cbn.
  rewrite filter_app, length_app. cbn.
  destruct (TokenType_beq (type t) EndOfFile); cbn; lia.
Qed.

Lemma TokenType_beq_EndOfFile t :
  type t = EndOfFile -> TokenType_beq (type t) EndOfFile = true.
Proof. intros ->. reflexivity. Qed.

(** Reading one more token ahead leaves no more to the lexer. *)
Lemma readAhead_remaining L t L1 u L2 :
  nextToken L = Ok (t, L1) -> push_back t L1 = Ok (u, L2) ->
  src_ L2 = src_ L /\ lookAhead_ L2 = lookAhead_ L ++ [t]
  /\ remaining L2 <= remaining L.
Proof.
  intros H1 H2. apply nextToken_progress in H1. destruct H1 as [F P].
  apply remaining_push_back in H2. destruct H2 as (S2 & A2 & R2).
  pose proof F as (S1 & A1 & _).
  split; [congruence|]. split; [congruence|]. rewrite R2.
  destruct P as [E | A].
  - apply remaining_forward in F. unfold weighs.
    rewrite (TokenType_beq_EndOfFile _ E). lia.
  - apply remaining_advanced in A. unfold weighs.
    destruct (TokenType_beq (type t) EndOfFile); lia.
Qed.

Lemma fillLookAhead_remaining fuel offset : forall L u L',
  fillLookAhead fuel offset L = Ok (u, L') ->
  src_ L' = src_ L /\ remaining L' <= remaining L.
Proof.
  induction fuel as [|fuel IH]; intros L u L' H; simpl in H; [discriminate|].
  inv_bind H missing L0 H0. inversion H0; subst missing L0. clear H0.
  destruct (length (lookAhead_ L) <=? offset).
  - inv_bind H t L1 H1. inv_bind H u2 L2 H2.
    destruct (readAhead_remaining _ H1 H2) as (S & _ & R).
    apply IH in H. destruct H as [S' R']. split; [congruence | lia].
  - inversion H; subst. auto.
Qed.

Lemma peek_remaining offset L tok L' :
  peek offset L = Ok (tok, L') ->
  src_ L' = src_ L /\ remaining L' <= remaining L
  /\ nth_error (lookAhead_ L') offset = Some tok.
Proof.
  unfold peek. intros H. inv_bind H u L1 H1.
  apply fillLookAhead_remaining in H1. destruct H1 as [S R].
  inv_bind H L2 L3 H2. inversion H2; subst L2 L3. clear H2.
  unfold fromOption in H.
  destruct (nth_error (lookAhead_ L1) offset) eqn:N; inversion H; subst. auto.
Qed.

Lemma peekT_remaining t offset L b L' :
  peekT t offset L = Ok (b, L') ->
  src_ L' = src_ L /\ remaining L' <= remaining L.
Proof.
  unfold peekT. intros H. inv_bind H tok L1 H1. inversion H; subst.
  apply peek_remaining in H1. destruct H1 as (S & R & _). auto.
Qed.

(** [consume] on a lexer that has read ahead takes the first token. *)
Lemma consume_ahead L t r :
  lookAhead_ L = t :: r -> consume L = Ok (t, pop_front L).
Proof.
  intros E. unfold consume, bind, gets, get, fromOption, modify, ret.
  rewrite E. cbn. rewrite E. reflexivity.
Qed.

Lemma remaining_pop_front L t r :
  lookAhead_ L = t :: r -> remaining (pop_front L) + weighs t = remaining L.
Proof.
  intros E. unfold remaining, pending, size, weighs. cbn. rewrite E. cbn.
  destruct (TokenType_beq (type t) EndOfFile); cbn; lia.
Qed.

Lemma consume_remaining L tok L' :
  consume L = Ok (tok, L') ->
  src_ L' = src_ L /\ remaining L' + weighs tok <= remaining L.
Proof.
  destruct (lookAhead_ L) as [|t r] eqn:E.
  - intros H. unfold consume in H.
    inv_bind H empty L0 H0. inversion H0; subst empty L0. clear H0.
    rewrite E in H. inv_bind H u L2 H2. inv_bind H2 t L1 H1.
    destruct (readAhead_remaining _ H1 H2) as (S & A & R).
    rewrite E in A. cbn in A.
    unfold bind, get, fromOption, modify, ret in H. rewrite A in H. cbn in H.
    inversion H; subst. pose proof (remaining_pop_front _ A) as P.
    split; [exact S | lia].
  - intros H. rewrite (consume_ahead _ E) in H. inversion H; subst.
    pose proof (remaining_pop_front _ E) as P. split; [reflexivity | lia].
Qed.

Lemma weighs_token tok t :
  TokenType_beq (type tok) t = true -> t <> EndOfFile -> weighs tok = 1.
Proof.
  intros E Hne. unfold weighs.
  destruct (TokenType_beq (type tok) EndOfFile) eqn:E'; [|reflexivity].
  apply internal_TokenType_dec_bl in E, E'. congruence.
Qed.

End Remaining.

(** ** What is left of the file being parsed *)

Section ParserReads.

Import parser.

Lemma liftL_Ok {A} (m : lexer.LM A) p a p' :
  liftL m p = Ok (a, p') ->
  exists L', m (lexer_ p) = Ok (a, L') /\ p' = set_lexer L' p.
Proof.
  unfold liftL. destruct (m (lexer_ p)) as [[a0 L]|e]; intros H; inversion H.
  eauto.
Qed.

Lemma reads_trans p p1 p2 k :
  reads 0 p p1 -> reads k p1 p2 -> reads k p p2.
Proof.
  intros (L1 & -> & R1) (L2 & -> & R2). exists L2. split; [reflexivity|].
  change (lexer_ (set_lexer L1 p)) with L1 in R2. lia.
Qed.

Lemma reads_trans' p p1 p2 k :
  reads k p p1 -> reads 0 p1 p2 -> reads k p p2.
Proof.
  intros (L1 & -> & R1) (L2 & -> & R2). exists L2. split; [reflexivity|].
  change (lexer_ (set_lexer L1 p)) with L1 in R2. lia.
Qed.

Lemma peek_reads offset p tok p' :
  peek offset p = Ok (tok, p') ->
  reads 0 p p' /\ nth_error (lexer.lookAhead_ (lexer_ p')) offset = Some tok.
Proof.
  intros H. apply liftL_Ok in H. destruct H as (L' & H & ->).
  apply peek_remaining in H. destruct H as (_ & R & N).
  split; [|exact N]. exists L'. split; [reflexivity | lia].
Qed.

Lemma peekT_reads t offset p b p' : peekT t offset p = Ok (b, p') -> reads 0 p p'.
Proof.
  intros H. apply liftL_Ok in H. destruct H as (L' & H & ->).
  apply peekT_remaining in H. exists L'. split; [reflexivity | lia].
Qed.

Lemma consume_reads p tok p' : consume p = Ok (tok, p') -> reads 0 p p'.
Proof.
  intros H. apply liftL_Ok in H. destruct H as (L' & H & ->).
  apply consume_remaining in H. exists L'. split; [reflexivity | lia].
Qed.

(** A token that was expected and found is taken from the input. *)
Lemma expect_reads t p tok p' :
  t <> lexer.EndOfFile -> expect t p = Ok (tok, p') -> reads 1 p p'.
Proof.
  intros Hne H. unfold expect in H. inv_bind H tok0 p1 H1.
  apply peek_reads in H1. destruct H1 as [R1 N].
  destruct (lexer.TokenType_beq (lexer.type tok0) t) eqn:E; [|discriminate].
  cbn [negb] in H. eapply reads_trans; [exact R1|].
  apply liftL_Ok in H. destruct H as (L' & H & ->).
  destruct (lexer.lookAhead_ (lexer_ p1)) as [|t0 r] eqn:A; [discriminate|].
  cbn in N. inversion N; subst t0. rewrite (consume_ahead _ A) in H.
  inversion H; subst. exists (lexer.pop_front (lexer_ p1)).
  split; [reflexivity|].
  pose proof (remaining_pop_front _ A) as P.
  rewrite (weighs_token _ E Hne) in P. lia.
Qed.

Lemma importStatement_reads p file p' :
  importStatement p = Ok (file, p') -> reads 1 p p'.
Proof.
  unfold importStatement. intros H.
  inv_bind H t0 p1 H1. apply consume_reads in H1.
  inv_bind H tok p2 H2. apply expect_reads in H2; [|discriminate].
  inv_bind H t3 p3 H3. apply expect_reads in H3; [|discriminate].
  inversion H; subst.
  eapply reads_trans; [exact H1|]. eapply reads_trans'; [exact H2|].
  destruct H3 as (L3 & -> & R3). exists L3. split; [reflexivity | lia].
Qed.

End ParserReads.

(** ** The loops of the lexer are given enough fuel *)

Lemma fueled_bind {S A B} (m : M S A) (k : A -> M S B) s :
  fueled m s -> (forall a s1, m s = Ok (a, s1) -> fueled (k a) s1) ->
  fueled (bind m k) s.
Proof.
  unfold fueled, bind. intros Hm Hk.
  destruct (m s) as [[a s1]|e]; [apply Hk; reflexivity|].
  intros X. apply Hm. inversion X. reflexivity.
Qed.

Lemma fueled_fromOption {S A} (o : option A) e (s : S) :
  e <> OutOfFuel -> fueled (fromOption o e) s.
Proof.
  intros He. unfold fueled, fromOption. destruct o; [discriminate|].
  intros X. inversion X. contradiction.
Qed.

Ltac fueled_step :=
  match goal with
  | |- fueled (bind _ _) _ => apply fueled_bind; [| intros]
  | |- fueled (ret _) _ => discriminate
  | |- fueled get _ => discriminate
  | |- fueled (gets _) _ => discriminate
  | |- fueled (modify _) _ => discriminate
  | |- fueled (abort _) _ => discriminate
  | |- fueled (fromOption _ _) _ => apply fueled_fromOption; discriminate
  | |- fueled _ _ => solve [eauto with fueled]
  | |- fueled (if ?b then _ else _) _ => destruct b
  | |- fueled (match ?x with _ => _ end) _ => destruct x
  end.

Create HintDb fueled.

Section LexerFuel.

Import lexer.

Lemma peekChar_fueled k L : fueled (peekChar k) L.
Proof. unfold peekChar. repeat fueled_step. Qed.

Lemma inRange_fueled k L : fueled (inRange k) L.
Proof. unfold inRange. fueled_step. Qed.

#[local] Hint Resolve peekChar_fueled inRange_fueled : fueled.

Lemma consumeChar_fueled L : fueled consumeChar L.
Proof. unfold consumeChar. repeat fueled_step. Qed.

#[local] Hint Resolve consumeChar_fueled : fueled.

(** What is left to read after a character was read. *)
Lemma advanced_left L L' fuel :
  advanced L L' -> size L - srcCursor_ L < S fuel -> size L' - srcCursor_ L' < fuel.
Proof.
  intros ((E & _ & _) & C & Z) H. unfold size in *. rewrite E. lia.
Qed.

Lemma forward_left L L' fuel :
  forward L L' -> size L - srcCursor_ L < fuel -> size L' - srcCursor_ L' < fuel.
Proof. intros (E & _ & C) H. unfold size in *. rewrite E. lia. Qed.

(** The equations of a run through a loop body, turned into facts about
    the cursor. *)
Ltac cursor_facts :=
  repeat match goal with
    | E : peekChar _ _ = Ok _ |- _ => apply peekChar_Ok in E; destruct E as [-> _]
    | E : inRange _ _ = Ok _ |- _ => inversion E; subst; clear E
    | E : gets _ _ = Ok _ |- _ => inversion E; subst; clear E
    | E : ret _ _ = Ok _ |- _ => inversion E; subst; clear E
    | E : consumeChar _ = Ok _ |- _ => apply consumeChar_advanced in E
    end.

Ltac left_to_read :=
  repeat match goal with
    | A : advanced _ _ |- _ => destruct A as ((? & _ & _) & ? & ?)
    | F : forward _ _ |- _ => destruct F as (? & _ & ?)
    end;
  unfold size in *;
  repeat match goal with
    | E : src_ _ = src_ _ |- _ => rewrite E in *; clear E
    end;
  lia.

Lemma skipLineComment_fueled : forall fuel L,
  size L - srcCursor_ L < fuel -> fueled (skipLineComment fuel) L.
Proof.
  induction fuel as [|fuel IH]; intros L H; [lia|]. cbn [skipLineComment].
  repeat fueled_step; cursor_facts. apply IH. left_to_read.
Qed.

Lemma skipBlockComment_fueled : forall fuel L,
  size L - srcCursor_ L < fuel -> fueled (skipBlockComment fuel) L.
Proof.
  induction fuel as [|fuel IH]; intros L H; [lia|]. cbn [skipBlockComment].
  repeat fueled_step; cursor_facts.
  match goal with
  | E : (if ?b then _ else _) _ = Ok _ |- _ =>
      destruct b;
      [ inv_bind E c1 Lx Ex; apply peekChar_Ok in Ex; destruct Ex as [-> _];
        inversion E; subst
      | inversion E; subst ]
  end; apply IH; left_to_read.
Qed.

Lemma scanWhile_fueled p : forall fuel acc L,
  size L - srcCursor_ L < fuel -> fueled (scanWhile p fuel acc) L.
Proof.
  induction fuel as [|fuel IH]; intros acc L H; [lia|]. cbn [scanWhile].
  repeat fueled_step; cursor_facts. apply IH. left_to_read.
Qed.

Lemma scanFraction_fueled : forall fuel acc ran L,
  size L - srcCursor_ L < fuel -> fueled (scanFraction fuel acc ran) L.
Proof.
  induction fuel as [|fuel IH]; intros acc ran L H; [lia|]. cbn [scanFraction].
  repeat fueled_step; cursor_facts. apply IH. left_to_read.
Qed.

Lemma scanString_fueled : forall fuel acc L,
  size L - srcCursor_ L < fuel -> fueled (scanString fuel acc) L.
Proof.
  induction fuel as [|fuel IH]; intros acc L H; [lia|]. cbn [scanString].
  repeat fueled_step; cursor_facts; apply IH; left_to_read.
Qed.

Lemma lexToken_fueled fuel L :
  size L - srcCursor_ L < fuel -> fueled (lexToken fuel) L.
Proof.
  intros H. unfold lexToken.
  repeat fueled_step; cursor_facts;
    repeat match goal with
      | E : scanWhile _ _ _ _ = Ok _ |- _ => apply scanWhile_forward in E
      | E : scanString _ _ _ = Ok _ |- _ => apply scanString_forward in E
      end;
    first [apply scanWhile_fueled | apply scanFraction_fueled | apply scanString_fueled];
    left_to_read.
Qed.

Lemma nextTokenLoop_fueled : forall fuel L,
  size L - srcCursor_ L < fuel -> fueled (nextTokenLoop fuel) L.
Proof.
  induction fuel as [|fuel IH]; intros L H; [lia|]. cbn [nextTokenLoop].
  apply fueled_bind; [fueled_step|]. intros more L0 E0. cursor_facts.
  destruct (srcCursor_ _ + 0 <? size _) eqn:In; [|fueled_step].
  apply Nat.ltb_lt in In.
  repeat fueled_step; cursor_facts;
    repeat match goal with
      | E : skipLineComment _ _ = Ok _ |- _ => apply skipLineComment_forward in E
      | E : skipBlockComment _ _ = Ok _ |- _ => apply skipBlockComment_forward in E
      end;
    first [apply IH | apply lexToken_fueled | apply skipLineComment_fueled
           | apply skipBlockComment_fueled];
    left_to_read.
Qed.

Lemma nextToken_fueled L : fueled nextToken L.
Proof.
  unfold nextToken. apply fueled_bind; [fueled_step|]. intros n L0 E.
  inversion E; subst. apply nextTokenLoop_fueled. lia.
Qed.

Lemma push_back_fueled t L : fueled (push_back t) L.
Proof. unfold push_back. fueled_step. Qed.

#[local] Hint Resolve nextToken_fueled push_back_fueled : fueled.

Lemma fillLookAhead_fueled offset : forall fuel L,
  S offset - length (lookAhead_ L) < fuel -> fueled (fillLookAhead fuel offset) L.
Proof.
  induction fuel as [|fuel IH]; intros L H; [lia|]. cbn [fillLookAhead].
  apply fueled_bind; [fueled_step|]. intros missing L0 E. inversion E; subst. clear E.
  destruct (length (lookAhead_ L0) <=? offset) eqn:Le; [|fueled_step].
  apply Nat.leb_le in Le.
  apply fueled_bind; [fueled_step|]. intros t L1 E1.
  apply fueled_bind; [fueled_step|]. intros u L2 E2.
  destruct (readAhead_remaining _ E1 E2) as (_ & A & _).
  apply IH. rewrite A, length_app. cbn [length]. lia.
Qed.

Lemma peek_fueled offset L : fueled (peek offset) L.
Proof.
  unfold peek. apply fueled_bind; [|intros; repeat fueled_step].
  apply fillLookAhead_fueled. lia.
Qed.

#[local] Hint Resolve peek_fueled : fueled.

Lemma peekT_fueled t offset L : fueled (peekT t offset) L.
Proof. unfold peekT. repeat fueled_step. Qed.

Lemma consume_fueled L : fueled consume L.
Proof. unfold consume. repeat fueled_step. Qed.

End LexerFuel.

(** ** Tokenization has the fuel it needs *)

Section TokenizeFuel.

Import lexer.

(** [consume] on a lexer that has read nothing ahead reads one token. *)
Lemma consume_empty L t L' :
  lookAhead_ L = [] -> consume L = Ok (t, L') ->
  lookAhead_ L' = []
  /\ src_ L' = src_ L
  /\ (type t = EndOfFile
      \/ (srcCursor_ L < srcCursor_ L' /\ srcCursor_ L < size L)).
Proof.
  intros E H. unfold consume in H.
  inv_bind H empty L0 H0. inversion H0; subst empty L0. clear H0.
  rewrite E in H. inv_bind H u L2 H2. inv_bind H2 t0 L1 H1.
  pose proof (nextToken_progress _ H1) as [F P].
  destruct (readAhead_remaining _ H1 H2) as (S2 & A2 & _).
  rewrite E in A2. cbn in A2.
  unfold bind, get, fromOption, modify, ret in H. rewrite A2 in H. cbn in H.
  inversion H; subst. cbn. rewrite A2.
  split; [reflexivity|]. split; [exact S2|].
  destruct P as [P | ((_ & _ & _) & C & Z)]; [left; exact P|].
  right. inversion H2; subst. cbn. split; assumption.
Qed.

Lemma tokens_fueled : forall fuel L,
  lookAhead_ L = [] -> size L - srcCursor_ L < fuel -> fueled (tokens fuel) L.
Proof.
  induction fuel as [|fuel IH]; intros L E H; [lia|]. cbn [tokens].
  apply fueled_bind; [apply consume_fueled|]. intros t L1 H1.
  destruct (@consume_empty L t L1 E H1) as (E1 & S1 & P).
  destruct (TokenType_beq (type t) EndOfFile) eqn:T; [discriminate|].
  apply fueled_bind; [|intros; discriminate].
  apply IH; [exact E1|].
  destruct P as [P | [C Z]].
  - rewrite P in T. discriminate.
  - unfold size in *. rewrite S1. lia.
Qed.

(** Tokenizing a text never stops for lack of fuel: it returns the tokens
    or ends the process. *)
Lemma tokenize_fueled source : tokenize source <> Abort OutOfFuel.
Proof.
  unfold tokenize.
  pose proof (@tokens_fueled (S (String.length source)) (new source) eq_refl) as F.
  unfold fueled in F.
  destruct (tokens (S (String.length source)) (new source)) as [[ts L]|e];
    [discriminate|].
  intros X. apply F; [cbn; lia|]. inversion X. reflexivity.
Qed.

End TokenizeFuel.

(** ** The parser's use of the lexer has the fuel it needs *)

Section ParserFuel.

Import parser.

Lemma liftL_fueled {A} (m : lexer.LM A) p :
  fueled m (lexer_ p) -> fueled (liftL m) p.
Proof.
  unfold fueled, liftL. intros H.
  destruct (m (lexer_ p)) as [[a L]|e]; [discriminate|].
  intros X. apply H. inversion X. reflexivity.
Qed.

Lemma peek_has_fuel offset p : fueled (peek offset) p.
Proof. apply liftL_fueled, peek_fueled. Qed.

Lemma peekT_has_fuel t offset p : fueled (peekT t offset) p.
Proof. apply liftL_fueled, peekT_fueled. Qed.

Lemma consume_has_fuel p : fueled consume p.
Proof. apply liftL_fueled, consume_fueled. Qed.

#[local] Hint Resolve peek_has_fuel peekT_has_fuel consume_has_fuel : fueled.

Lemma expect_has_fuel t p : fueled (expect t) p.
Proof. unfold expect. repeat fueled_step. Qed.

#[local] Hint Resolve expect_has_fuel : fueled.

Lemma importStatement_has_fuel p : fueled importStatement p.
Proof. unfold importStatement. repeat fueled_step. Qed.

Lemma insertRoot_has_fuel fs p : fueled (insertRoot fs) p.
Proof. unfold insertRoot. repeat fueled_step. Qed.

End ParserFuel.

(** ** Import processing terminates *)

Lemma mem_insert k k' s :
  sset.mem k (sset.insert k' s) = String.eqb k k' || sset.mem k s.
Proof.
  unfold sset.insert. destruct (sset.mem k' s) eqn:E; [|reflexivity].
  destruct (String.eqb k k') eqn:E'; [|reflexivity].
  apply String.eqb_eq in E'. subst. rewrite E. reflexivity.
Qed.

Lemma filter_length_mono {A} (f g : A -> bool) l :
  (forall x, f x = true -> g x = true) ->
  length (filter f l) <= length (filter g l).
Proof.
  intros H. induction l as [|a l IH]; simpl; [lia|].
  destruct (f a) eqn:F; [rewrite (H _ F); simpl; lia|].
  destruct (g a); simpl; lia.
Qed.

Lemma filter_length_strict {A} (f g : A -> bool) l k :
  (forall x, f x = true -> g x = true) ->
  In k l -> f k = false -> g k = true ->
  length (filter f l) < length (filter g l).
Proof.
  intros H. induction l as [|a l IH]; simpl; [contradiction|].
  intros [-> | Hin] Fk Gk.
  - rewrite Fk, Gk. simpl. pose proof (filter_length_mono f g l H). lia.
  - specialize (IH Hin Fk Gk).
    destruct (f a) eqn:F; [rewrite (H _ F); simpl; lia|].
    destruct (g a); simpl; lia.
Qed.

Lemma readDisk_In path d text :
  parser.readDisk path d = Some text -> In (path, text) d.
Proof.
  induction d as [|[k t] r IH]; simpl; [discriminate|].
  destruct (String.eqb path k) eqn:E.
  - apply String.eqb_eq in E. intros H. inversion H; subst. left. reflexivity.
  - intros H. right. apply IH. exact H.
Qed.

Section Termination.

Variable fs : parser.FileSystem.
Variable parseFile_ : parser.PM unit.

Variable reason : Err -> Prop.

Hypothesis parseFile_imported : preserves parser.importedFiles_ parseFile_.
Hypothesis parseFile_ends : forall p e, parseFile_ p = Abort e -> reason e.
Hypothesis reason_others : forall e, e <> OutOfFuel -> reason e.

(** A step that has the fuel it needs ends the process for another reason
    than fuel. *)
Lemma fueled_ends {A} (m : parser.PM A) p :
  fueled m p -> forall e, m p = Abort e -> reason e.
Proof.
  intros F e H. apply reason_others. intros ->. apply F. exact H.
Qed.

Lemma grows_refl p : grows p p.
Proof. intros k H. exact H. Qed.

Lemma grows_trans p1 p2 p3 : grows p1 p2 -> grows p2 p3 -> grows p1 p3.
Proof. intros H1 H2 k H. apply H2, H1, H. Qed.

Lemma unvisited_grows p p' :
  grows p p' ->
  unvisited fs (parser.importedFiles_ p') <= unvisited fs (parser.importedFiles_ p).
Proof.
  intros G. apply filter_length_mono. intros k H.
  destruct (sset.mem k (parser.importedFiles_ p)) eqn:E; [|reflexivity].
  rewrite (G _ E) in H. discriminate.
Qed.

(** Importing a file of the disk for the first time leaves one file less
    to visit. *)
Lemma unvisited_insert path imported :
  parser.fileExists fs path = true ->
  sset.mem (parser.canonical fs path) imported = false ->
  unvisited fs (sset.insert (parser.canonical fs path) imported)
  < unvisited fs imported.
Proof.
  intros Hex Hmem. unfold parser.fileExists in Hex.
  destruct (parser.readDisk (parser.canonical fs path) (parser.disk fs))
    as [text|] eqn:E; [|discriminate].
  apply readDisk_In in E.
  apply filter_length_strict with (k := parser.canonical fs path).
  - intros k. rewrite mem_insert. destruct (sset.mem k imported);
      [rewrite orb_true_r; discriminate | reflexivity].
  - apply (in_map fst) in E. exact E.
  - rewrite mem_insert, String.eqb_refl. reflexivity.
  - rewrite Hmem. reflexivity.
Qed.

Lemma fileText_longest path :
  2 * String.length (parser.fileText fs path) <= longest fs.
Proof.
  unfold parser.fileText, longest.
  destruct (parser.readDisk (parser.canonical fs path) (parser.disk fs))
    as [text|] eqn:E; [|simpl; lia].
  apply readDisk_In in E.
  pose proof (list_max_le (map (fun kv => 2 * String.length (snd kv)) (parser.disk fs))
                          (list_max (map (fun kv => 2 * String.length (snd kv))
                                         (parser.disk fs)))) as [K _].
  specialize (K (le_n _)). rewrite Forall_forall in K.
  apply (K (2 * String.length text)).
  apply (in_map (fun kv => 2 * String.length (snd kv))) in E. exact E.
Qed.

Lemma returns_now {A B} (m : parser.PM A) (k : A -> parser.IM B) p Q :
  (forall e, m p = Abort e -> reason e) ->
  (forall a p1, m p = Ok (a, p1) -> returns reason (k a p1) Q) ->
  returns reason (parser.andThen (parser.now_ m) k p) Q.
Proof.
  intros He H. unfold parser.andThen, parser.now_.
  destruct (m p) as [[a p1]|e]; [apply H; reflexivity | apply He; reflexivity].
Qed.

Lemma returns_andThen {A B} (m : parser.IM A) (k : A -> parser.IM B) p R Q :
  returns reason (m p) R -> (forall a p1, R p1 -> returns reason (k a p1) Q) ->
  returns reason (parser.andThen m k p) Q.
Proof.
  intros Hm Hk. unfold parser.andThen.
  destruct (m p) as [[[a p1]|e]|]; simpl in *; auto.
Qed.

Lemma returns_impl {A} (o : option (Res (A * parser.Parser))) (R Q : parser.Parser -> Prop) :
  returns reason o R -> (forall p', R p' -> Q p') -> returns reason o Q.
Proof. destruct o as [[[a p1]|e]|]; simpl; auto. Qed.

Lemma reads_facts k p p' :
  reads k p p' ->
  parser.importedFiles_ p' = parser.importedFiles_ p
  /\ remaining (parser.lexer_ p') + k <= remaining (parser.lexer_ p).
Proof. intros (L' & -> & R). split; [reflexivity | exact R]. Qed.

Lemma remaining_new text : remaining (lexer.new text) = 2 * String.length text.
Proof. unfold remaining, pending, lexer.size. cbn. lia. Qed.

Lemma emitSemanticError_aborts {A} msg p :
  exists e, @parser.emitSemanticError A msg p = Abort e /\ e <> OutOfFuel.
Proof.
  unfold parser.emitSemanticError, bind.
  destruct (parser.peek 0 p) as [[t p1]|e] eqn:P.
  - eexists. split; [reflexivity | discriminate].
  - exists e. split; [reflexivity|]. intros ->.
    exact (peek_has_fuel 0 p P).
Qed.

(** With enough fuel, [processImports] ends the process or returns, and
    the set of imported files has only grown. *)
Lemma processImports_returns : forall fuel p,
  enough fs p <= fuel ->
  returns reason (parser.processImports fs parseFile_ fuel p) (grows p).
Proof.
  induction fuel as [|fuel IH]; intros p Hf; [unfold enough in Hf; lia|].
  cbn [parser.processImports]. unfold parser.andThen at 1. unfold parser.now_ at 1.
  cbn [gets]. unfold enough in Hf.
  apply returns_now; [apply fueled_ends, peekT_has_fuel|]. intros isEnd p1 E1.
  apply peekT_reads, reads_facts in E1. destruct E1 as [I1 R1].
  assert (G1 : grows p p1) by (intros k; rewrite I1; auto).
  destruct isEnd; [exact G1|].
  apply returns_now; [apply fueled_ends, peekT_has_fuel|]. intros isImport p2 E2.
  apply peekT_reads, reads_facts in E2. destruct E2 as [I2 R2].
  assert (G2 : grows p p2) by (intros k; rewrite I2, I1; auto).
  destruct (negb isImport); [exact G2|].
  apply returns_now; [apply fueled_ends, importStatement_has_fuel|].
  intros importFile p3 E3.
  apply importStatement_reads, reads_facts in E3. destruct E3 as [I3 R3].
  set (importPath := parser.resolve fs (parser.currentFileName_ p) importFile).
  destruct (parser.fileExists fs importPath) eqn:Ex; cbn [negb].
  2:{ unfold parser.now_.
      destruct (@emitSemanticError_aborts unit
                  ("Cannot import nonexistent file: '" ++ importFile ++ "'") p3)
        as (e & -> & He).
      apply reason_others. exact He. }
  apply returns_now; [discriminate|]. intros imported p4 E4. inversion E4; subst imported p4. clear E4.
  assert (U3 : parser.importedFiles_ p3 = parser.importedFiles_ p) by congruence.
  destruct (sset.mem (parser.canonical fs importPath) (parser.importedFiles_ p3)) eqn:Em.
  { eapply returns_impl.
    - apply IH. unfold enough. rewrite U3. lia.
    - intros p' G k Hk. apply G. rewrite U3. exact Hk. }
  apply returns_now; [discriminate|]. intros u5 p5 E5. inversion E5; subst u5 p5. clear E5.
  apply returns_now; [discriminate|]. intros savedLexer p6 E6. inversion E6; subst savedLexer p6. clear E6.
  apply returns_now; [discriminate|]. intros u7 p7 E7. inversion E7; subst u7 p7. clear E7.
  pose proof (unvisited_insert _ _ Ex Em) as Hlt. rewrite U3 in Hlt.
  pose proof (fileText_longest importPath) as Hlen.
  cbn [parser.lexer_ parser.set_importedFiles] in *.
  eapply returns_andThen.
  { apply IH. unfold enough, parser.enterFile.
    cbn [parser.lexer_ parser.importedFiles_ parser.set_currentFileName
         parser.set_lexer parser.set_importedFiles].
    rewrite remaining_new, U3. nia. }
  intros u8 p8 G8.
  apply returns_now; [apply parseFile_ends|]. intros u9 p9 E9. apply parseFile_imported in E9.
  apply returns_now; [discriminate|]. intros u10 p10 E10. inversion E10; subst u10 p10. clear E10.
  assert (G9 : grows p p9).
  { intros k Hk. rewrite E9. apply G8. cbn. rewrite mem_insert, U3, Hk.
    apply orb_true_r. }
  eapply returns_impl.
  - apply IH. unfold enough, parser.leaveFile.
    cbn [parser.lexer_ parser.importedFiles_ parser.set_currentFileName
         parser.set_lexer parser.set_importedFiles].
    assert (unvisited fs (parser.importedFiles_ p9)
            <= unvisited fs (sset.insert (parser.canonical fs importPath)
                                         (parser.importedFiles_ p))).
    { rewrite E9. rewrite <- U3.
      apply (unvisited_grows
               (p := parser.enterFile (parser.fileText fs importPath)
                       (parser.canonical fs importPath)
                       (parser.set_importedFiles
                          (sset.insert (parser.canonical fs importPath)
                                       (parser.importedFiles_ p3)) p3))).
      exact G8. }
    nia.
  - intros p' G. eapply grows_trans; [exact G9|]. exact G.
Qed.

(** [Parser::parse] with enough fuel ends the process or returns. *)
Lemma parse_returns p :
  exists N, forall fuel, N <= fuel ->
    returns reason (parser.parse fs parseFile_ fuel p) (fun _ => True).
Proof.
  exists (length (parser.disk fs) * S (longest fs)
          + 2 * String.length (parser.sourceCode_ p) + 1).
  intros fuel Hf. unfold parser.parse.
  apply returns_now; [discriminate|].
  intros u1 p1 E1. inversion E1; subst u1 p1. clear E1.
  apply returns_now; [apply fueled_ends, insertRoot_has_fuel|]. intros u2 p2 E2.
  assert (L2 : parser.lexer_ p2 = lexer.new (parser.sourceCode_ p)).
  { unfold parser.insertRoot in E2. inv_bind E2 root p0 E0.
    inversion E0; subst root p0. clear E0.
    destruct (negb _); [|inversion E2; reflexivity].
    destruct (parser.fileExists fs _); [|discriminate].
    inversion E2; reflexivity. }
  eapply returns_andThen.
  { apply processImports_returns. unfold enough.
    rewrite L2, remaining_new.
    assert (unvisited fs (parser.importedFiles_ p2) <= length (parser.disk fs)).
    { unfold unvisited. rewrite <- (length_map fst (parser.disk fs)).
      apply List.filter_length_le. }
    nia. }
  intros u3 p3 _. unfold parser.now_.
  destruct (parseFile_ p3) as [[u4 p4]|e] eqn:P; [exact I|].
  eapply parseFile_ends. exact P.
Qed.

End Termination.

Section ImportSteps.

Variable fs : parser.FileSystem.
Variable parseFile_ : parser.PM unit.

Lemma processImports_import fuel p file p3 :
  atImport fs p file p3 ->
  parser.processImports fs parseFile_ (S fuel) p
  = if sset.mem (importedPath fs p file) (parser.importedFiles_ p3)
    then parser.processImports fs parseFile_ fuel p3
    else importFile fs parseFile_ fuel p p3 (entered fs p file p3).
Proof.
  intros (p1 & p2 & E1 & E2 & E3 & Ex).
  cbn [parser.processImports]. unfold parser.andThen at 1, parser.now_ at 1.
  cbn [gets].
  unfold parser.andThen at 1, parser.now_ at 1. rewrite E1.
  unfold parser.andThen at 1, parser.now_ at 1. rewrite E2. cbn [negb].
  unfold parser.andThen at 1, parser.now_ at 1. rewrite E3. rewrite Ex. cbn [negb].
  unfold parser.andThen at 1, parser.now_ at 1. cbn [gets].
  fold (importedPath fs p file).
  destruct (sset.mem (importedPath fs p file) (parser.importedFiles_ p3));
    reflexivity.
Qed.

Lemma entered_imported p file p3 :
  sset.mem (importedPath fs p file) (parser.importedFiles_ (entered fs p file p3))
  = true.
Proof.
  unfold entered. cbn. rewrite mem_insert, String.eqb_refl. reflexivity.
Qed.

Lemma parse_root fuel p u p2 :
  parser.insertRoot fs (rooted p) = Ok (u, p2) ->
  parser.parse fs parseFile_ fuel p
  = parser.andThen (parser.processImports fs parseFile_ fuel)
                   (fun _ => parser.now_ parseFile_) p2
  /\ (parser.rootFilePath_ p <> "" ->
      sset.mem (parser.canonical fs (parser.rootFilePath_ p))
               (parser.importedFiles_ p2) = true).
Proof.
  intros H. split.
  - unfold parser.parse. unfold parser.andThen at 1, parser.now_ at 1.
    cbn [modify]. fold (rooted p).
    unfold parser.andThen at 1, parser.now_ at 1. rewrite H. reflexivity.
  - intros Hne. unfold parser.insertRoot in H. inv_bind H root p0 H0.
    inversion H0; subst root p0. clear H0.
    change (parser.rootFilePath_ (rooted p)) with (parser.rootFilePath_ p) in H.
    apply String.eqb_neq in Hne. rewrite Hne in H. cbn [negb] in H.
    destruct (parser.fileExists fs (parser.rootFilePath_ p)); [|discriminate].
    inversion H; subst. cbn. rewrite mem_insert, String.eqb_refl. reflexivity.
Qed.

End ImportSteps.

(** C10.  Whatever the files of the disk import, [Parser::parse] does not
    run forever: a run that is given enough fuel ends the process or
    returns; and no loop of the lexer or of the traversal of the imports is
    then short of fuel, so that with a parser of one file that has the fuel
    it needs, the run ends for another reason than fuel.  The reason is what
    [processImports] does at an import statement that names an existing
    file: when the canonical path of the file is in the set of imported
    files, it goes on with the next statement and the file is not entered;
    when it is not, the path is in the set when the imports of the file
    start to be processed.  The canonical path of a root file is in the set
    when the imports of the root start to be processed. *)
Theorem import_processing_terminates fs n :
  (forall p, exists N, forall fuel, N <= fuel ->
      parser.parse fs (parser.parseFile n) fuel p <> None)
  /\ (forall parseFile_,
         preserves parser.importedFiles_ parseFile_ ->
         (forall q, fueled parseFile_ q) ->
         forall p, exists N, forall fuel, N <= fuel ->
           parser.parse fs parseFile_ fuel p <> None
           /\ parser.parse fs parseFile_ fuel p <> Some (Abort OutOfFuel))
  /\ (forall fuel p file p3,
         atImport fs p file p3 ->
         sset.mem (importedPath fs p file) (parser.importedFiles_ p3) = true ->
         parser.processImports fs (parser.parseFile n) (S fuel) p
         = parser.processImports fs (parser.parseFile n) fuel p3)
  /\ (forall fuel p file p3,
         atImport fs p file p3 ->
         sset.mem (importedPath fs p file) (parser.importedFiles_ p3) = false ->
         parser.processImports fs (parser.parseFile n) (S fuel) p
         = importFile fs (parser.parseFile n) fuel p p3 (entered fs p file p3)
         /\ sset.mem (importedPath fs p file)
                     (parser.importedFiles_ (entered fs p file p3)) = true)
  /\ (forall fuel p u p2,
         parser.insertRoot fs (rooted p) = Ok (u, p2) ->
         parser.parse fs (parser.parseFile n) fuel p
         = parser.andThen (parser.processImports fs (parser.parseFile n) fuel)
                          (fun _ => parser.now_ (parser.parseFile n)) p2
         /\ (parser.rootFilePath_ p <> "" ->
             sset.mem (parser.canonical fs (parser.rootFilePath_ p))
                      (parser.importedFiles_ p2) = true)).
Proof.
  split; [|split; [|split; [|split]]].
  - intros p.
    destruct (@parse_returns fs (parser.parseFile n) (fun _ => True)) with (p := p)
      as [N HN]; try (intros; exact I).
    { apply parseFile_frame; intros; reflexivity. }
    exists N. intros fuel Hf E. specialize (HN fuel Hf). rewrite E in HN. exact HN.
  - intros parseFile_ Hi Hf p.
    destruct (@parse_returns fs parseFile_ (fun e => e <> OutOfFuel)) with (p := p)
      as [N HN]; try assumption.
    { intros q e H ->. exact (Hf q H). }
    { intros e He. exact He. }
    exists N. intros fuel Hfuel. specialize (HN fuel Hfuel). split; intros E.
    + rewrite E in HN. exact HN.
    + rewrite E in HN. apply HN. reflexivity.
  - intros fuel p file p3 At Hmem.
    rewrite (@processImports_import fs (parser.parseFile n) fuel p file p3 At), Hmem.
    reflexivity.
  - intros fuel p file p3 At Hmem.
    rewrite (@processImports_import fs (parser.parseFile n) fuel p file p3 At), Hmem.
    split; [reflexivity | apply entered_imported].
  - intros fuel p u p2 H. eapply parse_root; exact H.
Qed.

Lemma import_processing_terminates_witness :
  (exists N, forall fuel, N <= fuel ->
      parser.parse cyclicDisk (parser.parseFile 20) fuel mainParser <> None)
  /\ (exists p', parser.parse cyclicDisk (parser.parseFile 20) 10 mainParser
                 = Some (Ok (tt, p'))
                 /\ parser.importedFiles_ p' = ["b.ax"; "a.ax"; "main.ax"])
  /\ (exists N, forall fuel, N <= fuel ->
        parser.parse cyclicDisk (ret tt) fuel mainParser <> None
        /\ parser.parse cyclicDisk (ret tt) fuel mainParser <> Some (Abort OutOfFuel))
  /\ (exists p3, parser.processImports cyclicDisk (parser.parseFile 20) 3 insideB
                 = parser.processImports cyclicDisk (parser.parseFile 20) 2 p3).
Proof.
  destruct (import_processing_terminates cyclicDisk 20) as (T & F & Skip & _ & _).
  split; [apply T|]. split; [|split].
  - eexists. split; [vm_compute; reflexivity | reflexivity].
  - apply F; [apply preserves_ret | discriminate].
  - eexists. apply Skip with (file := "a.ax").
    + unfold atImport. do 2 eexists.
      split; [vm_compute; reflexivity|]. split; [vm_compute; reflexivity|].
      split; [vm_compute; reflexivity | reflexivity].
    + reflexivity.
Defined.

(** ** Reading ahead *)

Lemma blind_ret {A} (a : A) : blind (ret a).
Proof. intros la L. reflexivity. Qed.

Lemma blind_abort {A} e : blind (@abort _ A e).
Proof. intros la L. reflexivity. Qed.

Lemma blind_bind {A B} (m : lexer.LM A) (k : A -> lexer.LM B) :
  blind m -> (forall a, blind (k a)) -> blind (bind m k).
Proof.
  intros Hm Hk la L. unfold bind. rewrite Hm.
  destruct (m L) as [[a L']|e]; cbn; [apply Hk | reflexivity].
Qed.

Lemma blind_gets {A} (g : lexer.Lexer -> A) :
  (forall la L, g (withLookAhead la L) = g L) -> blind (gets g).
Proof. intros Hg la L. unfold gets. cbn. rewrite Hg. reflexivity. Qed.

Lemma blind_modify (g : lexer.Lexer -> lexer.Lexer) :
  (forall la L, g (withLookAhead la L) = withLookAhead la (g L)) -> blind (modify g).
Proof. intros Hg la L. unfold modify. cbn. rewrite Hg. reflexivity. Qed.

Lemma peekChar_blind k : blind (lexer.peekChar k).
Proof.
  intros la L. unfold lexer.peekChar, bind, get, fromOption. cbn.
  destruct (String.get _ _); reflexivity.
Qed.

Lemma inRange_blind k : blind (lexer.inRange k).
Proof. apply blind_gets. reflexivity. Qed.

Lemma advancePosition_blind c : blind (modify (lexer.advancePosition c)).
Proof.
  apply blind_modify. intros la L. unfold lexer.advancePosition.
  destruct (Ascii.eqb _ _); reflexivity.
Qed.

Lemma advanceCursor_blind : blind (modify lexer.advanceCursor).
Proof. apply blind_modify. reflexivity. Qed.

Lemma consumeChar_blind : blind lexer.consumeChar.
Proof.
  unfold lexer.consumeChar.
  apply blind_bind; [apply peekChar_blind | intros c].
  apply blind_bind; [apply advancePosition_blind | intros _].
  apply blind_bind; [apply peekChar_blind | intros c'].
  apply blind_bind; [apply advanceCursor_blind | intros _]. apply blind_ret.
Qed.

Create HintDb blind.

#[export] Hint Resolve blind_ret blind_abort peekChar_blind inRange_blind
  consumeChar_blind : blind.

Ltac blind_step :=
  match goal with
  | |- blind (bind _ _) => apply blind_bind; [| intros]
  | |- blind _ => solve [eauto with blind]
  | |- blind (if ?b then _ else _) => destruct b
  | |- blind (match ?x with _ => _ end) => destruct x
  | |- blind (let '(_, _) := ?x in _) => destruct x
  end.

Ltac blindly := repeat blind_step.

Section LexerBlind.

Import lexer.

Lemma skipLineComment_blind fuel : blind (skipLineComment fuel).
Proof. induction fuel; simpl; blindly. Qed.

Lemma skipBlockComment_blind fuel : blind (skipBlockComment fuel).
Proof. induction fuel; simpl; blindly. Qed.

Lemma scanWhile_blind p fuel : forall acc, blind (scanWhile p fuel acc).
Proof. induction fuel; intros; simpl; blindly. Qed.

Lemma scanFraction_blind fuel : forall acc ran, blind (scanFraction fuel acc ran).
Proof. induction fuel; intros; simpl; blindly. Qed.

Lemma scanString_blind fuel : forall acc, blind (scanString fuel acc).
Proof. induction fuel; intros; simpl; blindly. Qed.

#[local] Hint Resolve skipLineComment_blind skipBlockComment_blind scanWhile_blind
  scanFraction_blind scanString_blind : blind.

Lemma lexToken_blind fuel : blind (lexToken fuel).
Proof.
  unfold lexToken. apply blind_bind; [apply blind_gets; reflexivity | intros].
  blindly.
Qed.

#[local] Hint Resolve lexToken_blind : blind.

Lemma nextTokenLoop_blind fuel : blind (nextTokenLoop fuel).
Proof.
  induction fuel; simpl; blindly. apply blind_gets. reflexivity.
Qed.

Lemma nextToken_blind : blind nextToken.
Proof.
  unfold nextToken. apply blind_bind; [apply blind_gets; reflexivity | intros].
  apply nextTokenLoop_blind.
Qed.

End LexerBlind.

Section ReadAhead.

Import lexer.

Lemma readAhead_trans L L1 L2 : readAhead L L1 -> readAhead L1 L2 -> readAhead L L2.
Proof.
  intros H1 H2. induction H2 as [|La t Lb _ IH N]; [exact H1|].
  eapply readAhead_more; eassumption.
Qed.

Lemma push_back_Ok t L u L' :
  push_back t L = Ok (u, L') -> L' = withLookAhead (lookAhead_ L ++ [t]) L.
Proof. intros H. inversion H. reflexivity. Qed.

Lemma fillLookAhead_readAhead fuel offset : forall L u L',
  fillLookAhead fuel offset L = Ok (u, L') -> readAhead L L'.
Proof.
  induction fuel as [|fuel IH]; intros L u L' H; simpl in H; [discriminate|].
  inv_bind H missing L0 H0. inversion H0; subst missing L0. clear H0.
  destruct (length (lookAhead_ L) <=? offset); [|inversion H; apply readAhead_none].
  inv_bind H t L1 H1. inv_bind H u2 L2 H2. apply push_back_Ok in H2. subst L2.
  eapply readAhead_trans; [|eapply IH; exact H].
  eapply readAhead_more; [apply readAhead_none | exact H1].
Qed.

Lemma peek_readAhead offset L tok L1 :
  peek offset L = Ok (tok, L1) ->
  readAhead L L1 /\ nth_error (lookAhead_ L1) offset = Some tok.
Proof.
  intros H. split; [|apply peek_remaining in H; apply H].
  unfold peek in H. inv_bind H u L2 H2. apply fillLookAhead_readAhead in H2.
  inv_bind H L3 L4 H3. inversion H3; subst L3 L4.
  unfold fromOption in H. destruct (nth_error _ _); inversion H; subst. exact H2.
Qed.

(** [consume] when no token was read ahead lexes one. *)
Lemma consume_none L :
  lookAhead_ L = [] ->
  consume L = onLexer (withLookAhead []) (nextToken L).
Proof.
  intros E. unfold consume, bind at 1, gets. rewrite E. unfold bind at 1.
  unfold bind at 1.
  destruct (nextToken L) as [[t L1]|e] eqn:N; [|reflexivity].
  pose proof (nextToken_progress _ N) as [(_ & A & _) _]. rewrite E in A.
  unfold push_back, modify, bind, get, fromOption, ret. cbn. rewrite A. reflexivity.
Qed.

Lemma withLookAhead_same L : withLookAhead (lookAhead_ L) L = L.
Proof. destruct L. reflexivity. Qed.

(** Tokens read ahead are consumed as they would have been lexed. *)
Lemma consume_readAhead L L1 :
  readAhead L L1 ->
  match consume L with
  | Ok (t, L') => exists L1', consume L1 = Ok (t, L1') /\ readAhead L' L1'
  | Abort e => consume L1 = Abort e
  end.
Proof.
  intros H. induction H as [|L1 t L2 _ IH N].
  { destruct (consume L) as [[t L']|e]; [|reflexivity].
    exists L'. split; [reflexivity | apply readAhead_none]. }
  pose proof (nextToken_progress _ N) as [(_ & A & _) _].
  destruct (lookAhead_ L1) as [|h r] eqn:E.
  - (* the token appended is the one [consume] would have lexed *)
    rewrite A. cbn [app].
    assert (C1 : consume L1 = Ok (t, withLookAhead [] L2)).
    { rewrite (consume_none _ E), N. reflexivity. }
    assert (C2 : consume (withLookAhead [t] L2) = Ok (t, withLookAhead [] L2)).
    { erewrite consume_ahead by reflexivity. reflexivity. }
    rewrite C1 in IH. rewrite C2. exact IH.
  - rewrite A. rewrite (consume_ahead _ E) in IH.
    assert (C2 : consume (withLookAhead ((h :: r) ++ [t]) L2)
                 = Ok (h, withLookAhead (r ++ [t]) L2)).
    { erewrite consume_ahead by reflexivity. reflexivity. }
    rewrite C2.
    assert (N' : nextToken (withLookAhead r L1) = Ok (t, withLookAhead r L2)).
    { rewrite nextToken_blind, N. reflexivity. }
    assert (P : pop_front L1 = withLookAhead r L1).
    { unfold pop_front, withLookAhead. rewrite E. reflexivity. }
    destruct (consume L) as [[t0 L']|e]; [|discriminate].
    destruct IH as (L1' & Eq & R). inversion Eq; subst t0 L1'. clear Eq.
    exists (withLookAhead (r ++ [t]) L2). split; [reflexivity|].
    rewrite P in R. pose proof (readAhead_more R N') as R'. exact R'.
Qed.

Lemma observe_consume n L :
  observe (consumes (S n)) L
  = match consume L with
    | Ok (t, L') => Ok t :: observe (consumes n) L'
    | Abort e => [Abort e]
    end.
Proof. reflexivity. Qed.

Lemma observe_readAhead n : forall L L1,
  readAhead L L1 -> observe (consumes n) L1 = observe (consumes n) L.
Proof.
  induction n as [|n IH]; intros L L1 R; [reflexivity|].
  rewrite !observe_consume. pose proof (consume_readAhead R) as C.
  destruct (lexer.consume L) as [[t L']|e].
  - destruct C as (L1' & -> & R'). f_equal. apply IH. exact R'.
  - rewrite C. reflexivity.
Qed.

(** The tokens read ahead are the next ones consumed. *)
Lemma observe_lookAhead : forall la L n,
  lookAhead_ L = la -> n <= length la ->
  observe (consumes n) L = map (@Ok _) (firstn n la).
Proof.
  induction la as [|h r IH]; intros L n E Hn.
  - destruct n; [reflexivity | cbn in Hn; lia].
  - destruct n as [|n]; [reflexivity|].
    rewrite observe_consume, (consume_ahead _ E). cbn [firstn map].
    f_equal. apply IH; [unfold pop_front; cbn; rewrite E; reflexivity | cbn in Hn; lia].
Qed.

End ReadAhead.

(** X1.  Peeking does not disturb what is consumed: after [peek(offset)]
    returned a token, any number of calls of [consume] return what the same
    calls would have returned (or end the process as they would have) had
    [peek] not been called, and the token [peek] returned is the one the
    call of [consume] number [offset + 1] returns. *)
Theorem peek_does_not_disturb_consume :
  forall offset L tok L1,
    lexer.peek offset L = Ok (tok, L1) ->
    (forall n, observe (consumes n) L1 = observe (consumes n) L)
    /\ nth_error (observe (consumes (S offset)) L) offset = Some (Ok tok).
Proof.
  intros offset L tok L1 H. apply peek_readAhead in H. destruct H as [R N].
  split; [intros n; apply observe_readAhead; exact R|].
  rewrite <- (observe_readAhead (S offset) R).
  assert (Hlen : S offset <= length (lexer.lookAhead_ L1)).
  { apply Nat.le_succ_l. apply nth_error_Some. congruence. }
  rewrite (@observe_lookAhead _ L1 (S offset) eq_refl Hlen).
  rewrite nth_error_map, nth_error_firstn.
  replace (offset <? S offset) with true by (symmetry; apply Nat.ltb_lt; lia).
  rewrite N. reflexivity.
Qed.

Lemma peek_does_not_disturb_consume_witness :
  exists tok L1,
    lexer.peek 2 (lexer.new "a = b + 1;") = Ok (tok, L1)
    /\ (forall n, observe (consumes n) L1
                  = observe (consumes n) (lexer.new "a = b + 1;"))
    /\ nth_error (observe (consumes 3) (lexer.new "a = b + 1;")) 2 = Some (Ok tok).
Proof.
  eexists. eexists. split.
  - vm_compute. reflexivity.
  - apply (@peek_does_not_disturb_consume 2). vm_compute. reflexivity.
Defined.

(** ** The end of the text *)

Section EndOfText.

Import lexer.

Lemma find_symbol_not_EndOfFile c ty :
  find_symbol c symbolMap = Some ty -> ty <> EndOfFile.
Proof.
  unfold symbolMap. cbn.
  repeat (destruct (Ascii.eqb c _); [intros H; inversion H; discriminate|]).
  discriminate.
Qed.

Lemma find_keyword_not_EndOfFile s ty :
  find_keyword s keywordMap = Some ty -> ty <> EndOfFile.
Proof.
  unfold keywordMap. cbn.
  repeat (destruct (String.eqb s _); [intros H; inversion H; discriminate|]).
  discriminate.
Qed.

(** A token lexed from a character is never [EndOfFile]. *)
Lemma lexToken_not_EndOfFile fuel L t L' :
  lexToken fuel L = Ok (t, L') -> type t <> EndOfFile.
Proof.
  intros H. unfold lexToken in H.
  inv_bind H newToken L0 H0. inversion H0; subst newToken L0. clear H0.
  inv_bind H c L1 H1.
  destruct (find_symbol c symbolMap) as [ty|] eqn:Hs.
  { inv_bind H c' L2 H2. inversion H; subst. cbn.
    eapply find_symbol_not_EndOfFile; exact Hs. }
  destruct (isdigit c).
  { inv_bind H lit L2 H2. inv_bind H d L3 H3.
    destruct (Ascii.eqb d "."%char).
    - inv_bind H dot L4 H4. inv_bind H fr L5 H5. destruct fr as [lit0 isFloat].
      inversion H; subst. cbn. destruct isFloat; discriminate.
    - inversion H; subst. discriminate. }
  destruct (Ascii.eqb c DQUOTE).
  { inv_bind H c' L2 H2. inv_bind H content L3 H3. inv_bind H more L4 H4.
    destruct (negb more); [discriminate|].
    inv_bind H c'' L5 H5. inversion H; subst. discriminate. }
  destruct (isalpha c || Ascii.eqb c "_"%char); [|discriminate].
  inv_bind H kw L2 H2.
  destruct (find_keyword kw keywordMap) as [ty|] eqn:Hk; inversion H; subst; cbn.
  - eapply find_keyword_not_EndOfFile; exact Hk.
  - discriminate.
Qed.

Lemma substring_none n : forall s, String.substring n 0 s = "".
Proof.
  induction n as [|n IH]; intros [|c s]; cbn; try reflexivity. apply IH.
Qed.

(** [EndOfFile] is returned at the end of the text only, with no text
    and no position. *)
Lemma nextTokenLoop_EndOfFile fuel : forall L t L',
  nextTokenLoop fuel L = Ok (t, L') -> type t = EndOfFile ->
  size L' <= srcCursor_ L' /\ t = mkToken EndOfFile "" 0 0.
Proof.
  induction fuel as [|fuel IH]; intros L t L' H E; cbn [nextTokenLoop] in H;
    [discriminate|].
  inv_bind H more L0 H0. inversion H0; subst more L0. clear H0.
  destruct (srcCursor_ L + 0 <? size L) eqn:R.
  2:{ inversion H; subst. apply Nat.ltb_ge in R. split; [lia|].
      replace (size L' - srcCursor_ L') with 0 by lia.
      rewrite substring_none. reflexivity. }
  inv_bind H c L1 H1. apply peekChar_Ok in H1. destruct H1 as [-> _].
  destruct (Ascii.eqb c NL || isspace c).
  { inv_bind H c' L1 H1. eapply IH; eassumption. }
  inv_bind H more1 L0 H0. inversion H0; subst more1 L0. clear H0.
  destruct (Ascii.eqb c "/"%char && (srcCursor_ L + 1 <? size L));
    [|apply lexToken_not_EndOfFile in H; contradiction].
  inv_bind H c1 L1 H1. apply peekChar_Ok in H1. destruct H1 as [-> _].
  destruct (Ascii.eqb c1 "/"%char).
  { inv_bind H a1 L1 H1. inv_bind H a2 L2 H2. inv_bind H a3 L3 H3.
    eapply IH; eassumption. }
  destruct (Ascii.eqb c1 "*"%char);
    [|apply lexToken_not_EndOfFile in H; contradiction].
  inv_bind H a1 L1 H1. inv_bind H a2 L2 H2. inv_bind H a3 L3 H3.
  eapply IH; eassumption.
Qed.

(** At the end of the text [nextToken] returns [EndOfFile] and leaves the
    lexer as it is. *)
Lemma nextToken_at_end L :
  size L <= srcCursor_ L -> nextToken L = Ok (mkToken EndOfFile "" 0 0, L).
Proof.
  intros H. unfold nextToken, bind, gets. cbn [nextTokenLoop].
  unfold bind, inRange, gets.
  replace (srcCursor_ L + 0 <? size L) with false
    by (symmetry; apply Nat.ltb_ge; lia).
  replace (size L - srcCursor_ L) with 0 by lia.
  rewrite substring_none. reflexivity.
Qed.

Lemma consume_at_end L :
  lookAhead_ L = [] -> size L <= srcCursor_ L ->
  consume L = Ok (mkToken EndOfFile "" 0 0, L).
Proof.
  intros E H. rewrite (consume_none _ E), (nextToken_at_end _ H). cbn.
  rewrite <- E, withLookAhead_same. reflexivity.
Qed.

Lemma observe_at_end n L :
  lookAhead_ L = [] -> size L <= srcCursor_ L ->
  observe (consumes n) L = repeat (Ok (mkToken EndOfFile "" 0 0)) n.
Proof.
  intros E H. induction n as [|n IH]; [reflexivity|].
  rewrite observe_consume, (consume_at_end _ E H), IH. reflexivity.
Qed.

Lemma consume_to_end L t L' :
  lookAhead_ L = [] -> consume L = Ok (t, L') ->
  lookAhead_ L' = []
  /\ (type t = EndOfFile -> size L' <= srcCursor_ L' /\ t = mkToken EndOfFile "" 0 0).
Proof.
  intros E H. rewrite (consume_none _ E) in H.
  destruct (nextToken L) as [[t0 L0]|e] eqn:N; [|discriminate].
  cbn in H. inversion H; subst t0 L'. clear H. split; [reflexivity|].
  intros Et. unfold nextToken in N. inv_bind N n L1 H1. inversion H1; subst n L1.
  apply (nextTokenLoop_EndOfFile _ _ N Et).
Qed.

End EndOfText.

Lemma final_token n : forall L i t,
  lexer.lookAhead_ L = [] ->
  nth_error (observe (consumes n) L) i = Some (Ok t) ->
  lexer.type t = lexer.EndOfFile ->
  t = lexer.mkToken lexer.EndOfFile "" 0 0
  /\ forall j, i <= j -> j < n -> nth_error (observe (consumes n) L) j = Some (Ok t).
Proof.
  induction n as [|n IH]; intros L i t E H Et.
  { destruct i; discriminate. }
  rewrite observe_consume in *.
  destruct (lexer.consume L) as [[t0 L']|e] eqn:C.
  2:{ destruct i as [|[|i]]; discriminate. }
  destruct (consume_to_end _ E C) as [E' End].
  destruct i as [|i].
  - cbn in H. inversion H; subst t0. destruct (End Et) as [Hend ->].
    split; [reflexivity|]. intros j _ Hj.
    rewrite (observe_at_end n _ E' Hend).
    change (Ok (lexer.mkToken lexer.EndOfFile "" 0 0)
            :: repeat (Ok (lexer.mkToken lexer.EndOfFile "" 0 0)) n)
      with (repeat (@Ok lexer.Token (lexer.mkToken lexer.EndOfFile "" 0 0)) (S n)).
    apply nth_error_repeat. lia.
  - cbn in H. destruct (IH _ _ _ E' H Et) as [-> K]. split; [reflexivity|].
    intros [|j] Hij Hj; [lia|]. cbn. apply K; lia.
Qed.

(** X2.  [EndOfFile] is final: in the tokens that calls of [consume] return
    one after the other from the start of a text, every token that follows
    an [EndOfFile] token is the [EndOfFile] token itself, which has no text
    and row and column 0. *)
Theorem end_of_file_is_final :
  forall source n i t,
    nth_error (observe (consumes n) (lexer.new source)) i = Some (Ok t) ->
    lexer.type t = lexer.EndOfFile ->
    t = lexer.mkToken lexer.EndOfFile "" 0 0
    /\ forall j, i <= j -> j < n ->
                 nth_error (observe (consumes n) (lexer.new source)) j = Some (Ok t).
Proof.
  intros source n i t H Et. eapply final_token; [reflexivity | exact H | exact Et].
Qed.

Lemma end_of_file_is_final_witness :
  exists t,
    nth_error (observe (consumes 5) (lexer.new "a b")) 2 = Some (Ok t)
    /\ t = lexer.mkToken lexer.EndOfFile "" 0 0
    /\ forall j, 2 <= j -> j < 5 ->
                 nth_error (observe (consumes 5) (lexer.new "a b")) j = Some (Ok t).
Proof.
  eexists. split.
  - vm_compute. reflexivity.
  - apply (@end_of_file_is_final "a b" 5 2); vm_compute; reflexivity.
Defined.

(** ** The text of a token *)

Lemma append_assoc (a b c : string) : ((a ++ b) ++ c = a ++ (b ++ c))%string.
Proof. induction a as [|x a IH]; cbn; [reflexivity | rewrite IH; reflexivity]. Qed.

Lemma append_nil_r (a : string) : (a ++ "" = a)%string.
Proof. induction a as [|x a IH]; cbn; [reflexivity | rewrite IH; reflexivity]. Qed.

Lemma all_chars_app q (a b : string) :
  all_chars q (a ++ b) = all_chars q a && all_chars q b.
Proof.
  induction a as [|x a IH]; cbn; [reflexivity|]. rewrite IH, andb_assoc. reflexivity.
Qed.

Lemma substring_get : forall n s c,
  String.get n s = Some c -> String.substring n 1 s = str1 c.
Proof.
  induction n as [|n IH]; intros [|x s] c H; cbn in *; try discriminate.
  - inversion H; subst. destruct s; reflexivity.
  - apply IH. exact H.
Qed.

Section TokenText.

Import lexer.

(** A scanning loop appends characters that pass its test. *)
Lemma scanWhile_extends p fuel : forall acc L lit L',
  scanWhile p fuel acc L = Ok (lit, L') ->
  exists s, lit = (acc ++ s)%string /\ all_chars p s = true.
Proof.
  induction fuel as [|fuel IH]; intros acc L lit L' H; simpl in H; [discriminate|].
  assert (Stop : forall L0, ret acc L0 = Ok (lit, L') ->
                   exists s, lit = (acc ++ s)%string /\ all_chars p s = true).
  { intros L0 E. inversion E; subst. exists "". rewrite append_nil_r. auto. }
  inv_bind H more L0 H0. inversion H0; subst more L0. clear H0.
  destruct (srcCursor_ L + 0 <? size L); [|eapply Stop; exact H].
  inv_bind H c L1 H1. destruct (p c) eqn:Ep; [|eapply Stop; exact H].
  inv_bind H c' L2 H2.
  apply peekChar_Ok in H1. destruct H1 as [-> H1]. rewrite Nat.add_0_r in H1.
  apply consumeChar_Ok in H2. destruct H2 as [H2 _].
  assert (c' = c) by congruence. subst c'.
  apply IH in H. destruct H as (s & -> & Hs). exists (String c s). split.
  - unfold push_char, str1. rewrite append_assoc. reflexivity.
  - cbn. rewrite Ep, Hs. reflexivity.
Qed.

(** Entered on a character that passes its test, the loop appends it. *)
Lemma scanWhile_first p fuel acc L lit L' c :
  String.get (srcCursor_ L) (src_ L) = Some c -> p c = true ->
  scanWhile p fuel acc L = Ok (lit, L') ->
  exists s, lit = (acc ++ String c s)%string /\ all_chars p s = true.
Proof.
  intros Hget Hp H. destruct fuel as [|fuel]; simpl in H; [discriminate|].
  inv_bind H more L1 H1. inversion H1; subst more L1. clear H1.
  pose proof (get_Some_lt _ _ Hget) as Hlt.
  replace (srcCursor_ L + 0 <? size L) with true in H
    by (symmetry; apply Nat.ltb_lt; unfold size; lia).
  inv_bind H c0 L1 H1. rewrite (peekChar_some _ Hget) in H1.
  inversion H1; subst c0 L1. clear H1. rewrite Hp in H.
  inv_bind H c' L1 H1. apply consumeChar_Ok in H1. destruct H1 as [H1 _].
  assert (c' = c) by congruence. subst c'.
  apply scanWhile_extends in H. destruct H as (s & -> & Hs). exists s.
  split; [|exact Hs]. unfold push_char, str1. rewrite append_assoc. reflexivity.
Qed.

(** The fraction loop appends digits, and reports whether it appended one. *)
Lemma scanFraction_extends fuel : forall acc ran L lit isFloat L',
  scanFraction fuel acc ran L = Ok (lit, isFloat, L') ->
  exists s, lit = (acc ++ s)%string /\ all_chars isdigit s = true
            /\ (isFloat = ran /\ s = "" \/ isFloat = true /\ s <> "").
Proof.
  induction fuel as [|fuel IH]; intros acc ran L lit isFloat L' H; simpl in H;
    [discriminate|].
  assert (Stop : forall L0, ret (acc, ran) L0 = Ok (lit, isFloat, L') ->
                   exists s, lit = (acc ++ s)%string /\ all_chars isdigit s = true
                             /\ (isFloat = ran /\ s = ""
                                 \/ isFloat = true /\ s <> "")).
  { intros L0 E. inversion E; subst. exists "". rewrite append_nil_r. auto. }
  inv_bind H more L0 H0. inversion H0; subst more L0. clear H0.
  destruct (srcCursor_ L + 0 <? size L); [|eapply Stop; exact H].
  inv_bind H c L1 H1. destruct (isdigit c) eqn:Ep; [|eapply Stop; exact H].
  inv_bind H c' L2 H2.
  apply peekChar_Ok in H1. destruct H1 as [-> H1]. rewrite Nat.add_0_r in H1.
  apply consumeChar_Ok in H2. destruct H2 as [H2 _].
  assert (c' = c) by congruence. subst c'.
  apply IH in H. destruct H as (s & -> & Hs & Hf). exists (String c s).
  split; [unfold push_char, str1; rewrite append_assoc; reflexivity|].
  split; [cbn; rewrite Ep, Hs; reflexivity|].
  right. split; [|discriminate]. destruct Hf as [[-> _] | [-> _]]; reflexivity.
Qed.

Lemma find_symbol_In c ty :
  find_symbol c symbolMap = Some ty -> In ty (map snd symbolMap).
Proof.
  unfold symbolMap. cbn.
  repeat (destruct (Ascii.eqb c _); [intros H; inversion H; tauto|]).
  discriminate.
Qed.

Lemma find_keyword_In s ty :
  find_keyword s keywordMap = Some ty -> In ty (map snd keywordMap).
Proof.
  unfold keywordMap. cbn.
  repeat (destruct (String.eqb s _); [intros H; inversion H; tauto|]).
  discriminate.
Qed.

(** A token whose type and text are an entry of a table of the lexer. *)
Lemma entry_wellFormed ty s r c :
  In ty (map snd symbolMap ++ map snd keywordMap) ->
  (find_keyword s keywordMap = Some ty
   \/ exists a, s = str1 a /\ find_symbol a symbolMap = Some ty) ->
  wellFormed (mkToken ty s r c).
Proof.
  intros Hin W. unfold wellFormed. cbn [type src].
  cbn in Hin. repeat (destruct Hin as [<- | Hin]; [exact W|]). contradiction.
Qed.

Lemma lexToken_wellFormed fuel L t L' :
  lexToken fuel L = Ok (t, L') -> wellFormed t.
Proof.
  intros H. unfold lexToken in H.
  inv_bind H newToken L0 H0. inversion H0; subst newToken L0. clear H0.
  inv_bind H c L1 H1. apply peekChar_Ok in H1. destruct H1 as [-> Hget].
  rewrite Nat.add_0_r in Hget.
  destruct (find_symbol c symbolMap) as [ty|] eqn:Hs.
  { inv_bind H c' L1 H1. inversion H; subst. clear H. cbn [src row col].
    rewrite (substring_get _ _ Hget). apply entry_wellFormed.
    - apply in_or_app. left. eapply find_symbol_In; exact Hs.
    - right. exists c. auto. }
  destruct (isdigit c) eqn:Hd.
  { inv_bind H lit L1 H1.
    eapply scanWhile_first in H1; [| exact Hget | exact Hd].
    destruct H1 as (ds & -> & Hds). cbn [append] in *.
    inv_bind H d L2 H2. apply peekChar_Ok in H2. destruct H2 as [-> Hd2].
    destruct (Ascii.eqb d "."%char) eqn:Edot.
    - apply Ascii.eqb_eq in Edot. subst d.
      inv_bind H dot L3 H3. apply consumeChar_Ok in H3. destruct H3 as [H3 _].
      rewrite Nat.add_0_r in Hd2. assert (dot = "."%char) by congruence. subst dot.
      inv_bind H fr L4 H4. destruct fr as [lit0 isFloat].
      apply scanFraction_extends in H4. destruct H4 as (fs & -> & Hfs & Hf).
      inversion H; subst. clear H. unfold wellFormed. cbn [type src].
      destruct Hf as [[-> ->] | [-> Hne]].
      + exists c, ds. split; [exact Hd|]. split; [exact Hds|]. right.
        unfold push_char, str1. cbn. rewrite append_nil_r. reflexivity.
      + destruct fs as [|d fs]; [contradiction|]. cbn in Hfs.
        apply andb_prop in Hfs. destruct Hfs as [Hd' Hfs].
        exists c, ds, d, fs. repeat (split; [assumption|]).
        unfold push_char, str1. cbn. rewrite append_assoc. reflexivity.
    - inversion H; subst. unfold wellFormed. cbn [type src].
      exists c, ds. auto. }
  destruct (Ascii.eqb c DQUOTE).
  { inv_bind H c' L1 H1. inv_bind H content L2 H2. inv_bind H more L3 H3.
    destruct (negb more); [discriminate|].
    inv_bind H c'' L4 H4. inversion H; subst. exact I. }
  destruct (isalpha c || Ascii.eqb c "_"%char) eqn:Ha; [|discriminate].
  inv_bind H kw L1 H1.
  assert (Hw : isword c = true).
  { unfold isword, isalnum. apply orb_true_iff in Ha.
    destruct Ha as [-> | ->]; [reflexivity | apply orb_true_r]. }
  eapply scanWhile_first in H1; [| exact Hget | exact Hw].
  destruct H1 as (r & -> & Hr). cbn [append] in *.
  destruct (find_keyword (String c r) keywordMap) as [ty|] eqn:Hk;
    inversion H; subst; clear H; cbn [src row col].
  - apply entry_wellFormed; [|left; exact Hk].
    apply in_or_app. right. eapply find_keyword_In; exact Hk.
  - unfold wellFormed. cbn [type src]. exists c, r. auto.
Qed.

End TokenText.

Lemma nextTokenLoop_wellFormed fuel : forall L t L',
  lexer.nextTokenLoop fuel L = Ok (t, L') -> wellFormed t.
Proof.
  induction fuel as [|fuel IH]; intros L t L' H; cbn [lexer.nextTokenLoop] in H;
    [discriminate|].
  inv_bind H more L0 H0. inversion H0; subst more L0. clear H0.
  destruct (lexer.srcCursor_ L + 0 <? lexer.size L) eqn:R.
  2:{ inversion H; subst. apply Nat.ltb_ge in R.
      replace (lexer.size L' - lexer.srcCursor_ L') with 0 by lia.
      rewrite substring_none. reflexivity. }
  inv_bind H c L1 H1.
  destruct (Ascii.eqb c NL || isspace c).
  { inv_bind H c' L2 H2. eapply IH; eassumption. }
  inv_bind H more1 L2 H2.
  destruct (Ascii.eqb c "/"%char && more1);
    [|eapply lexToken_wellFormed; exact H].
  inv_bind H c1 L3 H3.
  destruct (Ascii.eqb c1 "/"%char).
  { inv_bind H a1 L4 H4. inv_bind H a2 L5 H5. inv_bind H a3 L6 H6.
    eapply IH; eassumption. }
  destruct (Ascii.eqb c1 "*"%char); [|eapply lexToken_wellFormed; exact H].
  inv_bind H a1 L4 H4. inv_bind H a2 L5 H5. inv_bind H a3 L6 H6.
  eapply IH; eassumption.
Qed.

(** X3.  The text of every token [nextToken] returns is well formed for its
    type: digits, with a point after them or between them, for a number; a
    word that starts with a letter or an underscore and is no keyword for an
    identifier; the keyword or the symbol of the lexer's tables for their
    types; no text, and row and column 0, for the end of the file. *)
Theorem token_text_is_well_formed :
  forall L t L', lexer.nextToken L = Ok (t, L') -> wellFormed t.
Proof.
  intros L t L' H. unfold lexer.nextToken in H.
  inv_bind H n L0 H0. apply gets_Ok in H0. destruct H0 as [-> ->].
  eapply nextTokenLoop_wellFormed. exact H.
Qed.

Lemma token_text_is_well_formed_witness :
  exists L', lexer.nextToken (lexer.new "  12.5+x") = Ok (lexer.mkToken lexer.FloatLit "12.5" 1 3, L')
  /\ wellFormed (lexer.mkToken lexer.FloatLit "12.5" 1 3).
Proof.
  eexists. split.
  - vm_compute. reflexivity.
  - apply (@token_text_is_well_formed (lexer.new "  12.5+x")
             (lexer.mkToken lexer.FloatLit "12.5" 1 3)
             (lexer.mkLexer "  12.5+x" 6 [] 0 1 7)).
    vm_compute. reflexivity.
Defined.

(** ** The integer literals the parser reads *)

Section LiteralValue.

Import parser.

Lemma digitValue_digit c :
  isdigit c = true ->
  digitValue c = Some (Z.of_nat (code c) - 48)%Z
  /\ (0 <= Z.of_nat (code c) - 48 < 10)%Z.
Proof.
  intros H. unfold digitValue. rewrite H. split; [reflexivity|].
  unfold isdigit, between in H. apply andb_prop in H. destruct H as [A B].
  apply Nat.leb_le in A, B. lia.
Qed.

Lemma decimalFrom_nonneg ds : forall a,
  (0 <= a)%Z -> all_chars isdigit ds = true -> (0 <= decimalFrom a ds)%Z.
Proof.
  induction ds as [|c r IH]; intros a Ha H; cbn in *; [exact Ha|].
  apply andb_prop in H. destruct H as [Hc Hr].
  apply IH; [|exact Hr]. destruct (digitValue_digit _ Hc) as [_ B]. lia.
Qed.

(** [strtol] in base 10 reads all the digits, and stops at a point. *)
Lemma stoiDigits_decimal ds : forall a tail,
  all_chars isdigit ds = true -> (tail = "" \/ tail = ".") ->
  stoiDigits 10 (ds ++ tail) (Some a) = Some (decimalFrom a ds).
Proof.
  induction ds as [|c r IH]; intros a tail H T; cbn in *.
  - destruct T as [-> | ->]; reflexivity.
  - apply andb_prop in H. destruct H as [Hc Hr].
    destruct (digitValue_digit _ Hc) as [-> B].
    replace (Z.of_nat (code c) - 48 <? 10)%Z with true
      by (symmetry; apply Z.ltb_lt; lia).
    apply IH; assumption.
Qed.

Lemma digit_starts_number c :
  isdigit c = true ->
  isspace c = false /\ Ascii.eqb c "-"%char = false /\ Ascii.eqb c "+"%char = false.
Proof.
  destruct c as [[] [] [] [] [] [] [] []]; vm_compute; intros H;
    try discriminate H; repeat split.
Qed.

Lemma stoi_decimal c ds tail :
  isdigit c = true -> all_chars isdigit ds = true -> (tail = "" \/ tail = ".") ->
  stoi (String c ds ++ tail) 10
  = if (decimal (String c ds) <=? INT_MAX)%Z then Ok (decimal (String c ds))
    else Abort OutOfRange.
Proof.
  intros Hc Hds T. destruct (digit_starts_number _ Hc) as (Sp & Mi & Pl).
  unfold stoi. cbn [append skipSpaces]. rewrite Sp. unfold stripSign.
  rewrite Mi, Pl.
  assert (P : stripHexPrefix 10 (String c (ds ++ tail)) = String c (ds ++ tail)).
  { unfold stripHexPrefix. destruct (ds ++ tail)%string as [|x [|d r]]; reflexivity. }
  rewrite P. cbn [stoiDigits].
  destruct (digitValue_digit _ Hc) as [-> B].
  replace (Z.of_nat (code c) - 48 <? 10)%Z with true
    by (symmetry; apply Z.ltb_lt; lia).
  rewrite (stoiDigits_decimal _ _ Hds T).
  change (decimalFrom (0 * 10 + (Z.of_nat (code c) - 48)) ds)
    with (decimal (String c ds)).
  assert (N : (0 <= decimal (String c ds))%Z).
  { apply decimalFrom_nonneg; [lia|]. cbn. rewrite Hc, Hds. reflexivity. }
  replace (INT_MIN <=? decimal (String c ds))%Z with true
    by (symmetry; apply Z.leb_le; unfold INT_MIN; lia).
  reflexivity.
Qed.

End LiteralValue.

(** X4.  The parser reads every integer literal the lexer returns in base
    10, and [std::stoi] never rejects it: the value read is the decimal
    value of the digits (those before the point, if the text ends in a
    point), unless that value exceeds [INT_MAX], in which case the call
    throws [std::out_of_range]. *)
Theorem lexed_integer_literal_is_read :
  forall L t L',
    lexer.nextToken L = Ok (t, L') -> lexer.type t = lexer.IntLit ->
    exists ds,
      (lexer.src t = ds \/ lexer.src t = (ds ++ ".")%string)
      /\ all_chars isdigit ds = true /\ ds <> ""
      /\ parser.stoi (lexer.src t) (parser.literalBase (lexer.src t))
         = if (decimal ds <=? parser.INT_MAX)%Z then Ok (decimal ds)
           else Abort OutOfRange.
Proof.
  intros L t L' H Ht. rewrite (lexed_literal_is_decimal _ H Ht).
  unfold lexer.nextToken in H. inv_bind H n L0 H0.
  apply nextTokenLoop_wellFormed in H. unfold wellFormed in H. rewrite Ht in H.
  destruct H as (c & ds & Hc & Hds & Hs). exists (String c ds).
  split; [exact Hs|]. split; [cbn; rewrite Hc, Hds; reflexivity|].
  split; [discriminate|].
  destruct Hs as [-> | ->].
  - rewrite <- (append_nil_r (String c ds)) at 1. apply stoi_decimal; auto.
  - apply stoi_decimal; auto.
Qed.

Lemma lexed_integer_literal_is_read_witness :
  exists ds,
    (("4294967296." : string) = ds \/ ("4294967296." : string) = (ds ++ ".")%string)
    /\ all_chars isdigit ds = true /\ ds <> ""
    /\ parser.stoi "4294967296." (parser.literalBase "4294967296.")
       = if (decimal ds <=? parser.INT_MAX)%Z then Ok (decimal ds)
         else Abort OutOfRange.
Proof.
  apply (@lexed_integer_literal_is_read (lexer.new "4294967296. ")
           (lexer.mkToken lexer.IntLit "4294967296." 1 1)
           (lexer.mkLexer "4294967296. " 11 [] 0 1 12));
    vm_compute; reflexivity.
Defined.

(** ** String literals *)

Lemma get_append pre x : forall i,
  String.get (String.length pre + i) (pre ++ x) = String.get i x.
Proof. induction pre as [|a pre IH]; intros i; cbn; [reflexivity | apply IH]. Qed.

Lemma length_append (a b : string) :
  String.length (a ++ b) = String.length a + String.length b.
Proof. induction a as [|x a IH]; cbn; [reflexivity | rewrite IH; reflexivity]. Qed.

Section StringLiterals.

Import lexer.

Lemma inRange_get k L c :
  String.get (srcCursor_ L + k) (src_ L) = Some c -> inRange k L = Ok (true, L).
Proof.
  intros H. apply get_Some_lt in H. unfold inRange, gets, size.
  replace (srcCursor_ L + k <? String.length (src_ L)) with true
    by (symmetry; apply Nat.ltb_lt; exact H).
  reflexivity.
Qed.

(** The closing quote ends the loop over the content. *)
Lemma scanString_close fuel acc L :
  String.get (srcCursor_ L) (src_ L) = Some DQUOTE ->
  scanString (S fuel) acc L = Ok (acc, L).
Proof.
  intros H. cbn [scanString]. unfold bind at 1.
  rewrite (@inRange_get 0 L DQUOTE) by (rewrite Nat.add_0_r; exact H).
  unfold bind at 1. rewrite (peekChar_some _ H). reflexivity.
Qed.

(** A backslash that is not the last character takes the next one with it. *)
Lemma scanString_escaped fuel acc L e :
  String.get (srcCursor_ L) (src_ L) = Some BACKSLASH ->
  String.get (srcCursor_ L + 1) (src_ L) = Some e ->
  scanString (S fuel) acc L
  = scanString fuel (push_char acc (unescaped e))
      (advanceCursor (advancePosition e
         (advanceCursor (advancePosition BACKSLASH L)))).
Proof.
  intros H H1. cbn [scanString]. unfold bind at 1.
  rewrite (@inRange_get 0 L BACKSLASH) by (rewrite Nat.add_0_r; exact H).
  unfold bind at 1. rewrite (peekChar_some _ H).
  change (negb (Ascii.eqb BACKSLASH DQUOTE)) with true. cbv iota.
  unfold bind at 1. rewrite (inRange_get _ _ H1).
  change (Ascii.eqb BACKSLASH BACKSLASH && true) with true. cbv iota.
  unfold bind at 1. rewrite (consumeChar_some _ H).
  unfold bind at 1. rewrite (@consumeChar_some _ e).
  - reflexivity.
  - destruct (advance_cursor BACKSLASH L) as [-> ->].
    rewrite <- Nat.add_1_r. exact H1.
Qed.

(** Any other character is taken as it is. *)
Lemma scanString_plain fuel acc L c :
  String.get (srcCursor_ L) (src_ L) = Some c ->
  Ascii.eqb c DQUOTE = false -> Ascii.eqb c BACKSLASH = false ->
  scanString (S fuel) acc L
  = scanString fuel (push_char acc c) (advanceCursor (advancePosition c L)).
Proof.
  intros H Q B. cbn [scanString]. unfold bind at 1.
  rewrite (@inRange_get 0 L c) by (rewrite Nat.add_0_r; exact H).
  unfold bind at 1. rewrite (peekChar_some _ H). rewrite Q. cbn [negb].
  unfold bind at 1. unfold inRange at 1, gets at 1. rewrite B. cbn [andb].
  unfold bind at 1. rewrite (consumeChar_some _ H). reflexivity.
Qed.

(** The written form of a character is read back as the character. *)
Lemma scanString_escapeChar fuel acc L c pre tail :
  src_ L = (pre ++ escapeChar c ++ tail)%string ->
  srcCursor_ L = String.length pre ->
  exists L',
    scanString (S fuel) acc L = scanString fuel (push_char acc c) L'
    /\ src_ L' = src_ L /\ lookAhead_ L' = lookAhead_ L
    /\ srcCursor_ L' = String.length (pre ++ escapeChar c).
Proof.
  intros Hs C.
  assert (G : forall i, String.get (srcCursor_ L + i) (src_ L)
                        = String.get i (escapeChar c ++ tail)).
  { intros i. rewrite Hs, C. apply get_append. }
  assert (G0 := G 0). assert (G1 := G 1). rewrite Nat.add_0_r in G0.
  rewrite length_append.
  assert (A : forall a M, src_ (advanceCursor (advancePosition a M)) = src_ M
                          /\ lookAhead_ (advanceCursor (advancePosition a M))
                             = lookAhead_ M
                          /\ srcCursor_ (advanceCursor (advancePosition a M))
                             = S (srcCursor_ M)).
  { intros a M. unfold advancePosition. destruct (Ascii.eqb a NL); auto. }
  assert (Two : forall e, escapeChar c = String BACKSLASH (str1 e) ->
                          unescaped e = c ->
                exists L',
                  scanString (S fuel) acc L = scanString fuel (push_char acc c) L'
                  /\ src_ L' = src_ L /\ lookAhead_ L' = lookAhead_ L
                  /\ srcCursor_ L' = String.length pre + String.length (escapeChar c)).
  { intros e E U. rewrite E in *. cbn in G0, G1.
    eexists. split; [rewrite <- U; apply scanString_escaped; assumption|].
    destruct (A e (advanceCursor (advancePosition BACKSLASH L))) as (-> & -> & ->).
    destruct (A BACKSLASH L) as (-> & -> & ->). cbn. rewrite C.
    repeat split. lia. }
  unfold escapeChar in *.
  destruct (Ascii.eqb c NL) eqn:E1.
  { apply Ascii.eqb_eq in E1. subst c. apply (Two "n"%char); reflexivity. }
  destruct (Ascii.eqb c TAB) eqn:E2.
  { apply Ascii.eqb_eq in E2. subst c. apply (Two "t"%char); reflexivity. }
  destruct (Ascii.eqb c DQUOTE) eqn:E3.
  { apply Ascii.eqb_eq in E3. subst c. apply (Two DQUOTE); reflexivity. }
  destruct (Ascii.eqb c BACKSLASH) eqn:E4.
  { apply Ascii.eqb_eq in E4. subst c. apply (Two BACKSLASH); reflexivity. }
  cbn in G0. eexists. split; [apply scanString_plain; assumption|].
  destruct (A c L) as (-> & -> & ->). cbn. rewrite C. repeat split. lia.
Qed.

(** The written form of a content is read back as the content. *)
Lemma scanString_escape s : forall fuel acc L pre rest,
  src_ L = (pre ++ escape s ++ String DQUOTE rest)%string ->
  srcCursor_ L = String.length pre ->
  String.length s < fuel ->
  exists L',
    scanString fuel acc L = Ok ((acc ++ s)%string, L')
    /\ src_ L' = src_ L /\ lookAhead_ L' = lookAhead_ L
    /\ srcCursor_ L' = String.length (pre ++ escape s).
Proof.
  induction s as [|c s IH]; intros fuel acc L pre rest Hs C F;
    (destruct fuel as [|fuel]; [cbn in F; lia|]).
  - exists L. rewrite scanString_close.
    + rewrite !append_nil_r. auto.
    + rewrite Hs, C. rewrite <- (Nat.add_0_r (String.length pre)).
      rewrite get_append. reflexivity.
  - cbn [escape] in *. rewrite append_assoc in Hs.
    destruct (@scanString_escapeChar fuel acc L c pre _ Hs C)
      as (L1 & -> & S1 & A1 & C1).
    destruct (IH fuel (push_char acc c) L1 (pre ++ escapeChar c)%string rest)
      as (L' & -> & S' & A' & C').
    + rewrite S1, Hs, !append_assoc. reflexivity.
    + exact C1.
    + cbn in F. lia.
    + exists L'. unfold push_char, str1. rewrite !append_assoc in *. cbn.
      repeat split; congruence.
Qed.

Lemma length_escape s : String.length s <= String.length (escape s).
Proof.
  induction s as [|c s IH]; cbn; [lia|]. rewrite length_append.
  assert (1 <= String.length (escapeChar c)).
  { unfold escapeChar. repeat (destruct (Ascii.eqb c _); [cbn; lia|]). cbn. lia. }
  lia.
Qed.

End StringLiterals.

(** X5.  A string literal is read back: whatever the content, when it is
    written between double quotes with a backslash before each double quote
    and each backslash, and with [\n] and [\t] for a new line and a tab,
    [nextToken] returns a [StringLit] token whose text is the content, and
    leaves the cursor after the closing quote. *)
Theorem string_literal_round_trip :
  forall content rest,
    exists L',
      lexer.nextToken (lexer.new (quoted (escape content) ++ rest))
      = Ok (lexer.mkToken lexer.StringLit content 1 1, L')
      /\ lexer.srcCursor_ L' = String.length (quoted (escape content)).
Proof.
  intros content rest.
  remember (quoted (escape content) ++ rest)%string as text eqn:Et.
  assert (T : text = (str1 DQUOTE ++ escape content ++ String DQUOTE rest)%string).
  { subst text. unfold quoted, str1. cbn. rewrite append_assoc. reflexivity. }
  clear Et.
  assert (Len : String.length content < S (String.length text)).
  { rewrite T, !length_append. pose proof (length_escape content). lia. }
  set (L0 := lexer.new text).
  assert (G0 : String.get (lexer.srcCursor_ L0) (lexer.src_ L0) = Some DQUOTE).
  { change (String.get 0 text = Some DQUOTE). rewrite T. reflexivity. }
  set (L1 := lexer.advanceCursor (lexer.advancePosition DQUOTE L0)).
  destruct (@scanString_escape content (S (String.length text)) "" L1
              (str1 DQUOTE) rest T eq_refl Len) as (L2 & Scan & S2 & _ & C2).
  assert (G2 : String.get (lexer.srcCursor_ L2) (lexer.src_ L2) = Some DQUOTE).
  { rewrite S2, C2. change (lexer.src_ L1) with text. rewrite T.
    rewrite <- append_assoc, <- (Nat.add_0_r (String.length _)), get_append.
    reflexivity. }
  exists (lexer.advanceCursor (lexer.advancePosition DQUOTE L2)). split.
  - unfold lexer.nextToken, bind at 1, gets at 1.
    change (lexer.size L0) with (String.length text).
    cbn [lexer.nextTokenLoop]. unfold bind at 1.
    rewrite (@inRange_get 0 L0 DQUOTE) by (rewrite Nat.add_0_r; exact G0).
    unfold bind at 1. rewrite (peekChar_some _ G0).
    change (Ascii.eqb DQUOTE NL || isspace DQUOTE) with false. cbv iota.
    unfold bind at 1. unfold lexer.inRange at 1, gets at 1.
    change (Ascii.eqb DQUOTE "/"%char) with false. cbn [andb].
    unfold lexer.lexToken, bind at 1, gets at 1.
    unfold bind at 1. rewrite (peekChar_some _ G0).
    change (lexer.find_symbol DQUOTE lexer.symbolMap) with (@None lexer.TokenType).
    change (isdigit DQUOTE) with false. change (Ascii.eqb DQUOTE DQUOTE) with true.
    cbv iota. unfold bind at 1. rewrite (consumeChar_some _ G0). fold L1.
    unfold bind at 1. rewrite Scan.
    unfold bind at 1.
    rewrite (@inRange_get 0 L2 DQUOTE) by (rewrite Nat.add_0_r; exact G2).
    cbn [negb]. unfold bind at 1. rewrite (consumeChar_some _ G2). reflexivity.
  - destruct (advance_cursor DQUOTE L2) as [-> _]. rewrite C2.
    unfold quoted, str1. cbn. rewrite !length_append. cbn. lia.
Qed.

Section Unterminated.

Import lexer.

Lemma contains_char_get a s :
  contains_char a s = false ->
  forall i c, String.get i s = Some c -> Ascii.eqb c a = false.
Proof.
  induction s as [|d s IH]; intros H i c G; cbn in *; [discriminate|].
  apply orb_false_iff in H. destruct H as [Hd Hs].
  destruct i as [|i].
  - inversion G; subst. rewrite Ascii.eqb_sym. exact Hd.
  - eapply IH; eassumption.
Qed.

Lemma get_in_range s : forall n, n < String.length s -> exists c, String.get n s = Some c.
Proof.
  induction s as [|a s IH]; intros n H; cbn in *; [lia|].
  destruct n as [|n]; [eauto | apply IH; lia].
Qed.

Lemma inRange_Ok k L :
  inRange k L = Ok (srcCursor_ L + k <? size L, L).
Proof. reflexivity. Qed.

(** Without a closing quote the loop over the content runs to the end of
    the text. *)
Lemma scanString_to_end k : forall fuel acc L,
  size L - srcCursor_ L <= k -> k < fuel ->
  (forall i c, String.get i (src_ L) = Some c -> srcCursor_ L <= i ->
               Ascii.eqb c DQUOTE = false) ->
  exists lit L',
    scanString fuel acc L = Ok (lit, L')
    /\ src_ L' = src_ L /\ size L' <= srcCursor_ L'.
Proof.
  induction k as [k IH] using lt_wf_ind. intros fuel acc L Hk Hf Hq.
  destruct fuel as [|fuel]; [lia|]. cbn [scanString]. unfold bind at 1.
  rewrite inRange_Ok. rewrite Nat.add_0_r.
  destruct (srcCursor_ L <? size L) eqn:R.
  2:{ apply Nat.ltb_ge in R. exists acc, L. auto. }
  apply Nat.ltb_lt in R. destruct (get_in_range _ R) as [c G].
  pose proof (Hq _ _ G (le_n _)) as Q.
  unfold bind at 1. rewrite (peekChar_some _ G). rewrite Q. cbn [negb].
  unfold bind at 1. rewrite inRange_Ok.
  assert (A : forall a M, src_ (advanceCursor (advancePosition a M)) = src_ M
                          /\ srcCursor_ (advanceCursor (advancePosition a M))
                             = S (srcCursor_ M)).
  { intros a M. unfold advancePosition. destruct (Ascii.eqb a NL); auto. }
  destruct (Ascii.eqb c BACKSLASH && (srcCursor_ L + 1 <? size L)) eqn:B.
  - apply andb_prop in B. destruct B as [_ B]. apply Nat.ltb_lt in B.
    destruct (get_in_range _ B) as [e G1].
    unfold bind at 1. rewrite (consumeChar_some _ G).
    unfold bind at 1. rewrite (@consumeChar_some _ e).
    2:{ destruct (A c L) as [-> ->]. rewrite <- Nat.add_1_r. exact G1. }
    set (L2 := advanceCursor (advancePosition e (advanceCursor (advancePosition c L)))).
    assert (S2 : src_ L2 = src_ L /\ srcCursor_ L2 = S (S (srcCursor_ L))).
    { unfold L2. destruct (A e (advanceCursor (advancePosition c L))) as [-> ->].
      destruct (A c L) as [-> ->]. auto. }
    destruct S2 as [S2 C2].
    destruct (IH (k - 2) ltac:(unfold size in *; lia) fuel
                 (push_char acc (if Ascii.eqb e "n"%char then NL
                                 else if Ascii.eqb e "t"%char then TAB
                                 else if Ascii.eqb e DQUOTE then DQUOTE
                                 else if Ascii.eqb e BACKSLASH then BACKSLASH
                                 else e)) L2)
      as (lit & L' & -> & S' & E').
    + unfold size in *. rewrite S2, C2. lia.
    + unfold size in *. lia.
    + intros i d Gi Hi. rewrite S2 in Gi. eapply Hq; [exact Gi | lia].
    + exists lit, L'. split; [reflexivity|]. split; [congruence | exact E'].
  - unfold bind at 1. rewrite (consumeChar_some _ G).
    set (L1 := advanceCursor (advancePosition c L)).
    assert (S1 : src_ L1 = src_ L /\ srcCursor_ L1 = S (srcCursor_ L))
      by apply A.
    destruct S1 as [S1 C1].
    destruct (IH (k - 1) ltac:(unfold size in *; lia) fuel (push_char acc c) L1)
      as (lit & L' & -> & S' & E').
    + unfold size in *. rewrite S1, C1. lia.
    + unfold size in *. lia.
    + intros i d Gi Hi. rewrite S1 in Gi. eapply Hq; [exact Gi | lia].
    + exists lit, L'. split; [reflexivity|]. split; [congruence | exact E'].
Qed.

End Unterminated.

(** X6.  A string literal that is not closed ends the process: when no
    double quote follows the opening one, [nextToken] exits with the
    message "Unterminated string literal.", whatever the text holds,
    a backslash at its very end included. *)
Theorem unterminated_string_literal :
  forall s,
    contains_char DQUOTE s = false ->
    lexer.nextToken (lexer.new (String DQUOTE s))
    = Abort (ExitFailure "Unterminated string literal.").
Proof.
  intros s Hs.
  set (L0 := lexer.new (String DQUOTE s)).
  assert (G0 : String.get (lexer.srcCursor_ L0) (lexer.src_ L0) = Some DQUOTE)
    by reflexivity.
  set (L1 := lexer.advanceCursor (lexer.advancePosition DQUOTE L0)).
  destruct (@scanString_to_end (String.length s) (S (lexer.size L0)) "" L1)
    as (lit & L2 & Scan & S2 & E2).
  - cbn. lia.
  - cbn. lia.
  - intros i c G Hi. change (lexer.srcCursor_ L1) with 1 in Hi.
    destruct i as [|i]; [lia|]. cbn in G. eapply contains_char_get; eassumption.
  - unfold lexer.nextToken, bind at 1, gets at 1.
    cbn [lexer.nextTokenLoop]. unfold bind at 1.
    rewrite (@inRange_get 0 L0 DQUOTE) by (rewrite Nat.add_0_r; exact G0).
    unfold bind at 1. rewrite (peekChar_some _ G0).
    change (Ascii.eqb DQUOTE NL || isspace DQUOTE) with false. cbv iota.
    unfold bind at 1. unfold lexer.inRange at 1, gets at 1.
    change (Ascii.eqb DQUOTE "/"%char) with false. cbn [andb].
    unfold lexer.lexToken, bind at 1, gets at 1.
    unfold bind at 1. rewrite (peekChar_some _ G0).
    change (lexer.find_symbol DQUOTE lexer.symbolMap) with (@None lexer.TokenType).
    change (isdigit DQUOTE) with false. change (Ascii.eqb DQUOTE DQUOTE) with true.
    cbv iota. unfold bind at 1. rewrite (consumeChar_some _ G0). fold L1.
    unfold bind at 1. rewrite Scan.
    unfold bind at 1. rewrite inRange_Ok.
    replace (lexer.srcCursor_ L2 + 0 <? lexer.size L2) with false
      by (symmetry; apply Nat.ltb_ge; lia).
    reflexivity.
Qed.

Lemma unterminated_string_literal_witness :
  lexer.nextToken (lexer.new (String DQUOTE (String "a" (String BACKSLASH ""))))
  = Abort (ExitFailure "Unterminated string literal.").
Proof.
  apply (@unterminated_string_literal (String "a" (String BACKSLASH ""))).
  vm_compute. reflexivity.
Defined.

(** ** What parsing a file adds to what the parser holds *)

Section ParserKeeps.

Import parser.

Variable R : Parser -> Parser -> Prop.
Variable Good : list ast.FunctionNode -> ast.FunctionNode -> Prop.

Hypothesis parseFunction_good :
  forall fuel p f p', parseFunction fuel p = Ok (f, p') -> Good (functions_ p) f.

Hypothesis R_trans : forall p q r, R p q -> R q r -> R p r.
Hypothesis R_same : forall p q, holdings q = holdings p -> R p q.
Hypothesis R_function :
  forall f p, Good (functions_ p) f -> R p (set_functions (functions_ p ++ [f]) p).
Hypothesis R_typedef :
  forall alias k s p,
    R p (set_types (smap.insert alias (ast.PrimitiveTypeNode k s) (types_ p)) p).
Hypothesis R_reopen :
  forall name decl members p,
    sorted members ->
    smap.find name (types_ p) = Some (ast.ClassReferenceNode decl) ->
    R p (set_classes (updateClass decl (ast.addMembers members) (classes_ p)) p).
Hypothesis R_declare :
  forall name members p,
    sorted members ->
    smap.find name (types_ p) = None ->
    R p (set_types (smap.insert name (ast.ClassReferenceNode (length (classes_ p)))
                                (types_ p))
                   (set_classes (classes_ p ++ [ast.mkClassNode name members]) p)).

Lemma keeps_bind {A B} (m : PM A) (k : A -> PM B) :
  keeps R m -> (forall a, keeps R (k a)) -> keeps R (bind m k).
Proof.
  intros Hm Hk p b p' H. inv_bind H a p1 H1.
  eapply R_trans; [eapply Hm | eapply Hk]; eassumption.
Qed.

Lemma keeps_same {A} (m : PM A) : preserves holdings m -> keeps R m.
Proof. intros Hm p a p' H. apply R_same. eapply Hm. exact H. Qed.

(** A function parsed is put at the end of the function list. *)
Lemma parseFunction_keeps {B} fuel (k : unit -> PM B) :
  keeps R (k tt) ->
  keeps R (bind (parseFunction fuel)
                (fun f => bind (modify (fun p => set_functions (functions_ p ++ [f]) p))
                               k)).
Proof.
  intros Hk p b p' H. inv_bind H f p1 H1. inv_bind H u p2 H2.
  inversion H2; subst u p2. clear H2.
  pose proof (parseFunction_good _ _ H1) as G.
  assert (E : holdings p1 = holdings p) by framed parseFunction_frame.
  eapply R_trans; [apply R_same; exact E|].
  eapply R_trans; [apply R_function|eapply Hk; exact H].
  unfold holdings in E. inversion E as [[Et Ec Ef]]. rewrite Ef. exact G.
Qed.

Lemma parseFunction_appended fuel :
  keeps R (bind (parseFunction fuel)
                (fun f => modify (fun p => set_functions (functions_ p ++ [f]) p))).
Proof.
  intros p u p' H. inv_bind H f p1 H1. inversion H; subst u p'. clear H.
  pose proof (parseFunction_good _ _ H1) as G.
  assert (E : holdings p1 = holdings p) by framed parseFunction_frame.
  eapply R_trans; [apply R_same; exact E|]. apply R_function.
  unfold holdings in E. inversion E as [[Et Ec Ef]]. rewrite Ef. exact G.
Qed.

Ltac keeps_step :=
  match goal with
  | |- keeps _ (bind (parseFunction _) (fun f => bind (modify _) _)) =>
      apply parseFunction_keeps
  | |- keeps _ (bind (parseFunction _) _) => apply parseFunction_appended
  | |- keeps _ (bind _ _) => apply keeps_bind; [| intros]
  | |- keeps _ _ => solve [apply keeps_same; frame]
  | |- keeps _ _ => solve [eauto]
  | |- keeps _ (if ?b then _ else _) => destruct b
  | |- keeps _ (match ?x with _ => _ end) => destruct x
  end.

Lemma insertTypeDef_keeps alias target : keeps R (insertTypeDef alias target).
Proof.
  intros p u p' H. unfold insertTypeDef in H.
  inv_bind H targetType p0 H0. apply gets_Ok in H0. destruct H0 as [-> ->].
  destruct (smap.find target (types_ p)) as [[k s| | |]|]; cbn in H;
    try (unfold emitSyntaxError in H; inv_bind H t p1 H1; discriminate).
  inversion H; subst. apply R_typedef.
Qed.

Lemma closeClass_keeps members : sorted members -> keeps R (closeClass members).
Proof.
  intros Hm p u p' H. unfold closeClass in H.
  inv_bind H className p0 H0. apply gets_Ok in H0. destruct H0 as [-> ->].
  destruct (negb (String.eqb (currentClassName_ p) "")
            && negb (Nat.eqb (length members) 0));
    [|inversion H; subst; apply R_same; reflexivity].
  inv_bind H existingType p1 H1. apply gets_Ok in H1. destruct H1 as [-> ->].
  destruct (smap.find (currentClassName_ p) (types_ p)) as [existing|] eqn:Ef.
  - destruct existing as [k s|t|t n|decl]; cbn in H; inversion H; subst;
      try (apply R_same; reflexivity).
    eapply R_reopen; [exact Hm | exact Ef].
  - inv_bind H decl p2 H2. apply gets_Ok in H2. destruct H2 as [-> ->].
    inv_bind H u2 p3 H3. inversion H3; subst. inversion H; subst.
    apply (R_declare _ _ Hm Ef).
Qed.

Lemma parseFunctions_keeps fuel : keeps R (parseFunctions fuel).
Proof.
  induction fuel as [|fuel IH]; cbn [parseFunctions]; [intros p u p' H; discriminate|].
  repeat keeps_step.
Qed.

Lemma parseClass_keeps fuel : keeps R (parseClass fuel).
Proof.
  intros p u p' H. unfold parseClass in H.
  inv_bind H savedState p0 H0. inv_bind H members p1 H1.
  inv_bind H u2 p2 H2. inv_bind H u3 p3 H3.
  assert (K0 : R p p0) by (apply R_same; framed liftL_frame).
  assert (K1 : R p0 p1) by (apply R_same; framed parseMembers_frame).
  assert (K2 : R p1 p2).
  { eapply closeClass_keeps; [|exact H2].
    assert (E : parseMembers fuel smap.empty p0 = parseMembers fuel smap.empty p).
    { unfold liftL, gets in H0. inversion H0. rewrite set_lexer_same. reflexivity. }
    rewrite E in H1. eapply parseMembers_sorted. exact H1. }
  assert (K3 : R p2 p3) by (apply R_same; framed liftL_frame).
  apply parseFunctions_keeps in H. eauto.
Qed.

Lemma parseFile_keeps fuel : keeps R (parseFile fuel).
Proof.
  induction fuel as [|fuel IH]; cbn [parseFile]; [intros p u p' H; discriminate|].
  pose proof parseClass_keeps.
  pose proof insertTypeDef_keeps.
  repeat keeps_step.
Qed.

End ParserKeeps.

(** *** The maps the parser holds *)

Lemma find_In {V} k (v : V) : forall m, smap.find k m = Some v -> In k (smap.keys m).
Proof.
  induction m as [|[k0 v0] m IH]; cbn; intros H; [discriminate|].
  destruct (String.eqb k k0) eqn:E.
  - apply String.eqb_eq in E. left. symmetry. exact E.
  - right. apply IH. exact H.
Qed.

(** [insert] leaves the value of every key of a map as it is. *)
Lemma find_insert_kept {V} k (v : V) k' (v' : V) :
  forall m, sorted m -> smap.find k m = Some v ->
            smap.find k (smap.insert k' v' m) = Some v.
Proof.
  induction m as [|[k0 v0] m IH]; cbn; intros Hs H; [discriminate|].
  destruct (String.compare k' k0) eqn:C; cbn.
  - exact H.
  - destruct (String.eqb k k') eqn:E; [|exact H]. exfalso.
    apply String.eqb_eq in E. subst k'.
    unfold sorted in Hs. cbn in Hs. inversion Hs as [|? ? Hs' Hall]; subst.
    destruct (String.eqb k k0) eqn:E0.
    + apply String.eqb_eq in E0. subst k0. rewrite compare_refl in C. discriminate.
    + apply find_In in H. rewrite Forall_forall in Hall. apply Hall in H.
      exact (@slt_irrefl k (slt_trans C H)).
  - destruct (String.eqb k k0); [exact H|].
    apply IH; [|exact H]. unfold sorted in *. cbn in Hs. inversion Hs; assumption.
Qed.

(** A value found after an [insert] is the one inserted, under its key, or
    was there before. *)
Lemma find_insert_inv {V} k (v : V) k' (v' : V) :
  forall m, smap.find k (smap.insert k' v' m) = Some v ->
            (k = k' /\ v = v') \/ smap.find k m = Some v.
Proof.
  induction m as [|[k0 v0] m IH]; cbn.
  - destruct (String.eqb k k') eqn:E; [|discriminate].
    apply String.eqb_eq in E. intros H. inversion H. auto.
  - destruct (String.compare k' k0) eqn:C; cbn.
    + auto.
    + destruct (String.eqb k k') eqn:E; [|auto].
      apply String.eqb_eq in E. intros H. inversion H. auto.
    + destruct (String.eqb k k0); auto.
Qed.

Lemma find_insert_range_kept {V} k (v : V) (new : smap.t V) :
  forall m, sorted m -> smap.find k m = Some v ->
            smap.find k (smap.insert_range new m) = Some v.
Proof.
  unfold smap.insert_range.
  induction new as [|[k' v'] new IH]; cbn; intros m Hs H; [exact H|].
  apply IH; [apply insert_sorted; exact Hs | apply find_insert_kept; assumption].
Qed.

Lemma primitives_sorted source path : sorted (parser.types_ (parser.new source path)).
Proof.
  unfold parser.new, parser.types_, parser.primitives. cbn [fold_left fst snd].
  repeat apply insert_sorted. constructor.
Qed.

(** X7.  No declaration of a file changes what a registered type name
    means: after [parseFile] has returned, every name the type registry
    held still names the same type (a typedef or a class that reuses the
    name is not an error, and leaves the registry as it is). *)
Theorem registered_type_names_keep_their_meaning :
  forall fuel p u p',
    sorted (parser.types_ p) ->
    parser.parseFile fuel p = Ok (u, p') ->
    sorted (parser.types_ p')
    /\ forall name ty,
         smap.find name (parser.types_ p) = Some ty ->
         smap.find name (parser.types_ p') = Some ty.
Proof.
  intros fuel p u p' Hs H.
  refine (@parseFile_keeps
            (fun q q' => sorted (parser.types_ q) ->
                         sorted (parser.types_ q')
                         /\ forall name ty,
                              smap.find name (parser.types_ q) = Some ty ->
                              smap.find name (parser.types_ q') = Some ty)
            (fun _ _ => True) _ _ _ _ _ _ _ fuel p u p' H Hs).
  - intros fuel' q f q' _. exact I.
  - intros q1 q2 q3 A B S1. destruct (A S1) as [S2 F2].
    destruct (B S2) as [S3 F3]. split; [exact S3 | auto].
  - intros q q' E S1. unfold holdings in E. inversion E as [[Et Ec Ef]].
    rewrite Et. auto.
  - intros f q _ S1. cbn. auto.
  - intros alias k s q S1. cbn. split; [apply insert_sorted; exact S1|].
    intros name ty F. apply find_insert_kept; assumption.
  - intros name decl members q _ _ S1. cbn. auto.
  - intros name members q _ _ S1. cbn. split; [apply insert_sorted; exact S1|].
    intros name' ty F. apply find_insert_kept; assumption.
Qed.

Lemma registered_type_names_keep_their_meaning_witness :
  exists p',
    parser.parseFile 20 (parserOn "typedef char int; class int { char a; }")
    = Ok (tt, p')
    /\ smap.find "char" (parser.types_ p') = Some (ast.PrimitiveTypeNode ast.Char true)
    /\ smap.find "int" (parser.types_ p') = Some (ast.PrimitiveTypeNode ast.Int true).
Proof.
  eexists. split; [vm_compute; reflexivity|].
  edestruct (@registered_type_names_keep_their_meaning 20
               (parserOn "typedef char int; class int { char a; }") tt) as [_ K];
    [apply primitives_sorted | vm_compute; reflexivity |].
  split; apply K; reflexivity.
Defined.

Lemma findFunction_app name f fs : forall more,
  parser.findFunction name fs = Some f ->
  parser.findFunction name (fs ++ more) = Some f.
Proof.
  induction fs as [|g fs IH]; cbn; intros more H; [discriminate|].
  destruct (String.eqb (ast.fn_name_ g) name); [exact H | apply IH; exact H].
Qed.



Lemma nth_error_updateClass f : forall cs d i,
  nth_error (parser.updateClass d f cs) i
  = if Nat.eqb i d then option_map f (nth_error cs i) else nth_error cs i.
Proof.
  induction cs as [|c cs IH]; intros d i.
  - destruct d, i; cbn; try reflexivity. destruct (Nat.eqb i d); reflexivity.
  - destruct d as [|d], i as [|i]; cbn; try reflexivity. apply IH.
Qed.

Lemma extendsClass_refl c : extendsClass c c.
Proof. split; auto. Qed.

Lemma extendsClass_trans c1 c2 c3 :
  extendsClass c1 c2 -> extendsClass c2 c3 -> extendsClass c1 c3.
Proof. intros [N1 M1] [N2 M2]. split; [congruence | auto]. Qed.

Lemma addMembers_extends members c :
  sortedClass c -> extendsClass c (ast.addMembers members c).
Proof.
  intros Hc. split; [reflexivity|]. intros m ty F. cbn.
  apply find_insert_range_kept; assumption.
Qed.



(** ** The signedness of the operands of a binary operation *)

Lemma yields_ret {S A} (Q : A -> Prop) (a : A) : Q a -> yields Q (@ret S A a).
Proof. intros H s b s' E. inversion E; subst. exact H. Qed.

Lemma yields_abort {S A} (Q : A -> Prop) e : yields Q (@abort S A e).
Proof. intros s b s' E. discriminate. Qed.

Lemma yields_bind {S A B} (Q : B -> Prop) (m : M S A) (k : A -> M S B) :
  (forall a, yields Q (k a)) -> yields Q (bind m k).
Proof. intros Hk s b s' H. inv_bind H a s1 H1. eapply Hk. exact H. Qed.

Lemma yields_bind_with {S A B} (P : A -> Prop) (Q : B -> Prop)
      (m : M S A) (k : A -> M S B) :
  yields P m -> (forall a, P a -> yields Q (k a)) -> yields Q (bind m k).
Proof.
  intros Hm Hk s b s' H. inv_bind H a s1 H1.
  eapply Hk; [eapply Hm; exact H1 | exact H].
Qed.

Lemma yields_emitSemanticError {A} (Q : A -> Prop) msg :
  yields Q (@parser.emitSemanticError A msg).
Proof. unfold parser.emitSemanticError. apply yields_bind. intros. apply yields_abort. Qed.

Lemma yields_emitSyntaxError {A} (Q : A -> Prop) msg :
  yields Q (@parser.emitSyntaxError A msg).
Proof. unfold parser.emitSyntaxError. apply yields_bind. intros. apply yields_abort. Qed.

Create HintDb yields.

#[export] Hint Resolve yields_abort yields_emitSemanticError yields_emitSyntaxError
  : yields.

Lemma forallb_snoc {A} (q : A -> bool) l a :
  forallb q l = true -> q a = true -> forallb q (l ++ [a]) = true.
Proof. intros Hl Ha. rewrite forallb_app, Hl. cbn. rewrite Ha. reflexivity. Qed.

Lemma balanced_binary op l r :
  negb (Bool.eqb (ast.exprIsSigned l) (ast.exprIsSigned r)) = false ->
  balanced l = true -> balanced r = true ->
  balanced (ast.BinaryOperation op l r (ast.exprIsSigned l)) = true.
Proof.
  intros E Hl Hr. apply negb_false_iff in E. cbn.
  rewrite E, Bool.eqb_reflx, Hl, Hr. reflexivity.
Qed.

Lemma balanced_StructAccess e m sn s t :
  balanced e = true -> balanced (ast.StructAccess e m sn s t) = true.
Proof. intros H. exact H. Qed.

Lemma balanced_Dref e t s : balanced e = true -> balanced (ast.Dref e t s) = true.
Proof. intros H. exact H. Qed.

Lemma balanced_AddressOf e s : balanced e = true -> balanced (ast.AddressOf e s) = true.
Proof. intros H. exact H. Qed.

Lemma balanced_ArrayAccess a i s t :
  balanced a = true -> balanced i = true -> balanced (ast.ArrayAccess a i s t) = true.
Proof. intros Ha Hi. cbn. rewrite Ha, Hi. reflexivity. Qed.

Lemma balanced_PtrIndexAccess a i s t :
  balanced a = true -> balanced i = true ->
  balanced (ast.PtrIndexAccess a i s t) = true.
Proof. intros Ha Hi. cbn. rewrite Ha, Hi. reflexivity. Qed.

Lemma balanced_FunctionCall n args s :
  forallb balanced args = true -> balanced (ast.FunctionCall n args s) = true.
Proof. intros H. exact H. Qed.

Lemma balanced_this e s :
  balanced e = true -> forallb balanced [ast.AddressOf e s] = true.
Proof. intros H. cbn. rewrite H. reflexivity. Qed.

#[export] Hint Resolve forallb_snoc balanced_binary balanced_StructAccess
  balanced_Dref balanced_AddressOf balanced_ArrayAccess balanced_PtrIndexAccess
  balanced_FunctionCall balanced_this : yields.

Lemma yields_bind_ret {S A B} (Q : B -> Prop) (a : A) (k : A -> M S B) :
  yields Q (k a) -> yields Q (bind (ret a) k).
Proof. intros H s b s' E. eapply H. exact E. Qed.

Lemma yields_bind_assoc {S A B C} (Q : C -> Prop) (m : M S A) (k1 : A -> M S B)
      (k : B -> M S C) :
  yields Q (bind m (fun x => bind (k1 x) k)) -> yields Q (bind (bind m k1) k).
Proof.
  intros H s c s' E. apply (H s c s'). unfold bind in *.
  destruct (m s) as [[a s1]|e]; [exact E | discriminate].
Qed.

Lemma yields_bind_never {S A B} (Q : B -> Prop) (m : M S A) (k : A -> M S B) :
  (forall s r, m s <> Ok r) -> yields Q (bind m k).
Proof. intros Hm s b s' H. inv_bind H a s1 H1. exfalso. eapply Hm. exact H1. Qed.

Lemma emitSemanticError_never {A} msg p r :
  @parser.emitSemanticError A msg p <> Ok r.
Proof.
  unfold parser.emitSemanticError, bind.
  destruct (parser.peek 0 p) as [[t q]|e]; discriminate.
Qed.

Lemma emitSyntaxError_never {A} msg p r :
  @parser.emitSyntaxError A msg p <> Ok r.
Proof.
  unfold parser.emitSyntaxError, bind.
  destruct (parser.peek 0 p) as [[t q]|e]; discriminate.
Qed.

Ltac yields_step :=
  match goal with
  | |- yields _ (ret _) => apply yields_ret; cbn [fst snd]
  | |- yields _ (bind (ret _) _) => apply yields_bind_ret; cbv beta iota
  | |- yields _ (bind (bind _ _) _) => apply yields_bind_assoc
  | |- yields _ (bind (parser.emitSemanticError _) _) =>
      apply yields_bind_never; intros; apply emitSemanticError_never
  | |- yields _ (bind (parser.emitSyntaxError _) _) =>
      apply yields_bind_never; intros; apply emitSyntaxError_never
  | |- yields _ (bind (if ?b then _ else _) _) => destruct b eqn:?
  | |- yields _ (bind (let '(_, _) := ?x in _) _) =>
      is_var x; destruct x; cbn [fst snd] in *
  | |- yields _ (bind (match ?x with _ => _ end) _) => destruct x eqn:?
  | |- yields _ (bind _ _) =>
      first [ eapply yields_bind_with; [solve [eauto with yields] | cbv beta; intros]
            | apply yields_bind; intros ]
  | |- yields _ _ => solve [eauto with yields]
  | |- yields _ (if ?b then _ else _) => destruct b eqn:?
  | |- yields _ (let '(_, _) := ?x in _) => is_var x; destruct x; cbn [fst snd] in *
  | |- yields _ (match ?x with _ => _ end) => destruct x eqn:?
  end.

Ltac yielding := repeat yields_step; auto with yields.

Section BalancedExpressions.

Import parser.

Lemma applyDrefs_balanced n : forall target ty,
  balanced target = true ->
  yields (fun r => balanced (fst r) = true) (applyDrefs n target ty).
Proof.
  induction n as [|n IH]; intros target ty H; cbn [applyDrefs].
  - apply yields_ret. exact H.
  - destruct (asPointerTypeNode (Some ty)); [|apply yields_emitSemanticError].
    apply IH. exact H.
Qed.

#[local] Hint Resolve applyDrefs_balanced : yields.

Lemma expressions_balanced fuel :
  yields (fun r => balanced (fst r) = true) (parseValue fuel)
  /\ (forall a target ty, balanced target = true ->
        yields (fun r => balanced (fst r) = true) (parsePostfix fuel a target ty))
  /\ (forall args, forallb balanced args = true ->
        yields (fun l => forallb balanced l = true) (parseArgs fuel args))
  /\ (forall t, yields (fun e => balanced e = true) (parsePrimaryExpression fuel t))
  /\ (forall prec lhs t, balanced lhs = true ->
        yields (fun e => balanced e = true) (parseBinaryOpRHS fuel prec lhs t))
  /\ (forall t, yields (fun e => balanced e = true) (parseExpression fuel t)).
Proof.
  induction fuel as [|fuel (IHv & IHp & IHa & IHpr & IHb & IHe)].
  - repeat split; intros; cbn; apply yields_abort.
  - split; [|split; [|split; [|split; [|split]]]]; intros.
    + cbn [parseValue]. yielding.
    + cbn [parsePostfix]. apply yields_bind. intros isPeriod.
      destruct isPeriod; [|yielding; destruct a; auto with yields].
      apply yields_bind. intros _.
      assert (T : balanced
                    (snd (fst
                       match ty with
                       | ast.ClassReferenceNode decl => (Some decl, target, ty)
                       | ast.PointerTypeNode (ast.ClassReferenceNode decl as pointee) =>
                           (Some decl, ast.Dref target pointee (ast.isSigned pointee),
                            pointee)
                       | _ => (None, target, ty)
                       end)) = true).
      { destruct ty as [k s|[k s|t|t n|d]|t n|d]; cbn [fst snd]; auto with yields. }
      destruct (match ty with
                | ast.ClassReferenceNode decl => (Some decl, target, ty)
                | ast.PointerTypeNode (ast.ClassReferenceNode decl as pointee) =>
                    (Some decl, ast.Dref target pointee (ast.isSigned pointee), pointee)
                | _ => (None, target, ty)
                end) as [[st tg] dt].
      cbn [fst snd] in T. yielding.
    + cbn [parseArgs]. yielding.
    + cbn [parsePrimaryExpression]. yielding.
    + cbn [parseBinaryOpRHS]. yielding.
    + cbn [parseExpression]. yielding.
Qed.

Lemma parseValue_balanced fuel :
  yields (fun r => balanced (fst r) = true) (parseValue fuel).
Proof. apply expressions_balanced. Qed.

Lemma parseArgs_balanced fuel args :
  forallb balanced args = true ->
  yields (fun l => forallb balanced l = true) (parseArgs fuel args).
Proof. apply expressions_balanced. Qed.

Lemma parseExpression_balanced fuel t :
  yields (fun e => balanced e = true) (parseExpression fuel t).
Proof. apply expressions_balanced. Qed.

#[local] Hint Resolve parseValue_balanced parseArgs_balanced parseExpression_balanced
  : yields.

Lemma balanced_Assignment t v :
  balanced t = true -> balanced v = true ->
  balancedStatement (ast.AssignmentStatement t v) = true.
Proof. intros Ht Hv. cbn. rewrite Ht, Hv. reflexivity. Qed.

Lemma balanced_If c tb fb :
  balanced c = true -> forallb balancedStatement tb = true ->
  forallb balancedStatement (bodyOf fb) = true ->
  balancedStatement (ast.If c tb fb) = true.
Proof.
  intros Hc Ht Hf. cbn. rewrite Hc, Ht. destruct fb; [exact Hf | reflexivity].
Qed.

Lemma balanced_While c body :
  balanced c = true -> forallb balancedStatement body = true ->
  balancedStatement (ast.While c body) = true.
Proof. intros Hc Hb. cbn. rewrite Hc, Hb. reflexivity. Qed.

#[local] Hint Resolve balanced_Assignment balanced_If balanced_While : yields.

Lemma statements_balanced fuel :
  yields (fun s => balancedStatement s = true) (parseStatement fuel)
  /\ (forall b body, forallb balancedStatement body = true ->
        yields (fun l => forallb balancedStatement l = true)
               (parseBlock fuel b body)).
Proof.
  induction fuel as [|fuel (IHs & IHb)].
  - split; intros; cbn; apply yields_abort.
  - split; intros.
    + cbn [parseStatement]. yielding.
    + cbn [parseBlock]. yielding.
Qed.

Lemma parseFunction_balanced fuel :
  yields (fun f => balancedFunction f = true) (parseFunction fuel).
Proof.
  pose proof (proj2 (statements_balanced fuel)) as Hb.
  unfold parseFunction. yielding.
Qed.

End BalancedExpressions.



(** ** Types, token by token *)

Section TokenByToken.

Import parser.

Lemma ahead_ahead ts ts' p : ahead ts (ahead ts' p) = ahead ts p.
Proof. reflexivity. Qed.

Lemma fillLookAhead_enough fuel offset L :
  offset < length (lexer.lookAhead_ L) ->
  lexer.fillLookAhead (S fuel) offset L = Ok (tt, L).
Proof.
  intros H. cbn [lexer.fillLookAhead]. unfold bind, gets.
  replace (length (lexer.lookAhead_ L) <=? offset) with false
    by (symmetry; apply Nat.leb_gt; exact H).
  reflexivity.
Qed.

(** A token that was read ahead is peeked without a change of state. *)
Lemma peek_ahead offset ts t p :
  nth_error ts offset = Some t ->
  peek offset (ahead ts p) = Ok (t, ahead ts p).
Proof.
  intros N. unfold peek, liftL, lexer.peek.
  change (lexer_ (ahead ts p)) with (withLookAhead ts (lexer_ p)).
  unfold bind at 1. rewrite fillLookAhead_enough.
  - unfold bind, get, fromOption. cbn [lexer.lookAhead_ withLookAhead].
    rewrite N. reflexivity.
  - cbn. apply nth_error_Some. congruence.
Qed.

Lemma peekT_ahead ty offset ts t p :
  nth_error ts offset = Some t ->
  peekT ty offset (ahead ts p)
  = Ok (lexer.TokenType_beq (lexer.type t) ty, ahead ts p).
Proof.
  intros N. pose proof (@peek_ahead offset ts t p N) as P.
  unfold peek, liftL in P. unfold peekT, liftL, lexer.peekT, bind.
  destruct (lexer.peek offset (lexer_ (ahead ts p))) as [[t0 L]|e];
    inversion P; subst. reflexivity.
Qed.

Lemma peekType_ahead t r p :
  peekType (ahead (t :: r) p) = Ok (lexer.type t, ahead (t :: r) p).
Proof.
  unfold peekType, bind. rewrite (@peek_ahead 0 (t :: r) t p eq_refl). reflexivity.
Qed.

(** A token that was read ahead is consumed without lexing. *)
Lemma consume_ahead_token t r p :
  consume (ahead (t :: r) p) = Ok (t, ahead r p).
Proof.
  unfold consume, liftL.
  change (lexer_ (ahead (t :: r) p)) with (withLookAhead (t :: r) (lexer_ p)).
  erewrite consume_ahead by reflexivity. reflexivity.
Qed.

Lemma expect_ahead ty t r p :
  lexer.type t = ty -> expect ty (ahead (t :: r) p) = Ok (t, ahead r p).
Proof.
  intros E. unfold expect, bind.
  rewrite (@peek_ahead 0 (t :: r) t p eq_refl).
  replace (lexer.TokenType_beq (lexer.type t) ty) with true
    by (symmetry; apply lexer.internal_TokenType_dec_lb; exact E).
  apply consume_ahead_token.
Qed.

Lemma wrapPointers_pointerTo n : forall ty,
  wrapPointers n ty = pointerTo n ty.
Proof.
  induction n as [|n IH]; intros ty; [reflexivity|].
  cbn [wrapPointers]. rewrite IH. unfold pointerTo.
  rewrite <- Nat.iter_succ_r. reflexivity.
Qed.

(** The loop of [parseType] over the [ptr] tokens takes them all. *)
Lemma countTokens_ahead ty : forall ptrs fuel k t r p,
  Forall (fun x => lexer.type x = ty) ptrs -> lexer.type t <> ty ->
  length ptrs < fuel ->
  countTokens ty fuel k (ahead (ptrs ++ t :: r) p)
  = Ok (k + length ptrs, ahead (t :: r) p).
Proof.
  induction ptrs as [|x ptrs IH]; intros fuel k t r p Hall Ht Hf;
    (destruct fuel as [|fuel]; [cbn in Hf; lia|]); cbn [countTokens app].
  - unfold bind. rewrite (@peekT_ahead ty 0 (t :: r) t p eq_refl).
    replace (lexer.TokenType_beq (lexer.type t) ty) with false.
    + cbn. rewrite Nat.add_0_r. reflexivity.
    + symmetry. destruct (lexer.TokenType_beq (lexer.type t) ty) eqn:E; [|reflexivity].
      apply lexer.internal_TokenType_dec_bl in E. contradiction.
  - inversion Hall as [|? ? Hx Hall']; subst.
    unfold bind at 1.
    rewrite (@peekT_ahead (lexer.type x) 0 (x :: ptrs ++ t :: r) x p eq_refl).
    replace (lexer.TokenType_beq (lexer.type x) (lexer.type x)) with true
      by (symmetry; apply lexer.internal_TokenType_dec_lb; reflexivity).
    unfold bind at 1. rewrite consume_ahead_token.
    rewrite IH; [|assumption|assumption|cbn in Hf; lia].
    cbn [length]. f_equal. f_equal. lia.
Qed.

End TokenByToken.

(** X11.  What [parseType] makes of the tokens of a type: the [ptr] tokens
    before the name are pointer levels around the type the name is
    registered for, and an array length in brackets after the name makes an
    array of what the [ptr] tokens and the name denote (so [ptr int[4]] is
    an array of four pointers), unless the length is 0, which gives the type
    without the array; the tokens of the type are consumed, and no other.
    When the name is not registered, the result is null and the [ptr] tokens
    that were consumed are not given back. *)
Theorem parseType_token_by_token :
  forall ptrs name fuel p,
    Forall (fun x => lexer.type x = lexer.Ptr) ptrs ->
    lexer.type name <> lexer.Ptr ->
    length ptrs < fuel ->
    (smap.find (lexer.src name) (parser.types_ p) = None ->
     forall rest,
       parser.parseType fuel (ahead (ptrs ++ name :: rest) p)
       = Ok (None, ahead (name :: rest) p))
    /\ forall ty,
         smap.find (lexer.src name) (parser.types_ p) = Some ty ->
         (forall next rest,
             lexer.type next <> lexer.LBracket ->
             parser.parseType fuel (ahead (ptrs ++ name :: next :: rest) p)
             = Ok (Some (pointerTo (length ptrs) ty), ahead (next :: rest) p))
         /\ (forall open len close rest v,
               lexer.type open = lexer.LBracket ->
               lexer.type len = lexer.IntLit ->
               lexer.type close = lexer.RBracket ->
               parser.stoi (lexer.src len) (parser.literalBase (lexer.src len)) = Ok v ->
               parser.parseType fuel
                 (ahead (ptrs ++ name :: open :: len :: close :: rest) p)
               = Ok (Some (if (v =? 0)%Z then pointerTo (length ptrs) ty
                           else ast.ArrayTypeNode (pointerTo (length ptrs) ty) v),
                     ahead rest p)).
Proof.
  intros ptrs name fuel p Hall Hn Hf.
  split; [|intros ty Hty; split].
  - intros Hnone rest. unfold parser.parseType. unfold bind at 1.
    rewrite (@countTokens_ahead lexer.Ptr ptrs fuel 0 name rest p Hall Hn Hf).
    unfold bind at 1. rewrite (@peek_ahead 0 (name :: rest) name p eq_refl).
    unfold bind at 1, parser.getTypeNode, gets.
    change (parser.types_ (ahead (name :: rest) p)) with (parser.types_ p).
    rewrite Hnone. reflexivity.
  - intros next rest Hnext. unfold parser.parseType. unfold bind at 1.
    rewrite (@countTokens_ahead lexer.Ptr ptrs fuel 0 name (next :: rest) p Hall Hn Hf).
    unfold bind at 1.
    rewrite (@peek_ahead 0 (name :: next :: rest) name p eq_refl).
    unfold bind at 1, parser.getTypeNode, gets.
    change (parser.types_ (ahead (name :: next :: rest) p)) with (parser.types_ p).
    rewrite Hty. unfold bind at 1. rewrite consume_ahead_token.
    unfold bind at 1. rewrite (@peekT_ahead lexer.LBracket 0 (next :: rest) next p eq_refl).
    replace (lexer.TokenType_beq (lexer.type next) lexer.LBracket) with false.
    + cbn. rewrite wrapPointers_pointerTo. reflexivity.
    + symmetry.
      destruct (lexer.TokenType_beq (lexer.type next) lexer.LBracket) eqn:E;
        [|reflexivity].
      apply lexer.internal_TokenType_dec_bl in E. contradiction.
  - intros open len close rest v Ho Hl Hc Hv. unfold parser.parseType.
    unfold bind at 1.
    rewrite (@countTokens_ahead lexer.Ptr ptrs fuel 0 name
               (open :: len :: close :: rest) p Hall Hn Hf).
    unfold bind at 1.
    rewrite (@peek_ahead 0 (name :: open :: len :: close :: rest) name p eq_refl).
    unfold bind at 1, parser.getTypeNode, gets.
    change (parser.types_ (ahead (name :: open :: len :: close :: rest) p))
      with (parser.types_ p).
    rewrite Hty. unfold bind at 1. rewrite consume_ahead_token.
    unfold bind at 1.
    rewrite (@peekT_ahead lexer.LBracket 0 (open :: len :: close :: rest) open p
               eq_refl).
    rewrite Ho. cbn [lexer.TokenType_beq].
    change (lexer.TokenType_beq lexer.LBracket lexer.LBracket) with true. cbv iota.
    unfold bind at 1. unfold bind at 1. rewrite consume_ahead_token.
    unfold bind at 1. rewrite (@expect_ahead lexer.IntLit len (close :: rest) p Hl).
    unfold bind at 1. rewrite Hv. unfold liftRes.
    unfold bind at 1. rewrite (@expect_ahead lexer.RBracket close rest p Hc).
    cbn. rewrite wrapPointers_pointerTo. reflexivity.
Qed.

Lemma parseType_token_by_token_witness :
  parser.parseType 5
    (ahead ([lexer.mkToken lexer.Ptr "ptr" 1 1]
            ++ lexer.mkToken lexer.Identifier "int" 1 5
               :: lexer.mkToken lexer.LBracket "[" 1 8
               :: lexer.mkToken lexer.IntLit "4" 1 9
               :: lexer.mkToken lexer.RBracket "]" 1 10 :: [])
           (parser.new "" ""))
  = Ok (Some (ast.ArrayTypeNode
                (ast.PointerTypeNode (ast.PrimitiveTypeNode ast.Int true)) 4),
        ahead [] (parser.new "" "")).
Proof.
  apply (proj2 (proj2 (@parseType_token_by_token
                         [lexer.mkToken lexer.Ptr "ptr" 1 1]
                         (lexer.mkToken lexer.Identifier "int" 1 5) 5
                         (parser.new "" "")
                         ltac:(repeat constructor) ltac:(discriminate)
                         ltac:(cbn; lia))
                      (ast.PrimitiveTypeNode ast.Int true) eq_refl)
           (lexer.mkToken lexer.LBracket "[" 1 8)
           (lexer.mkToken lexer.IntLit "4" 1 9)
           (lexer.mkToken lexer.RBracket "]" 1 10) [] 4%Z);
    reflexivity.
Defined.

Section TypeLength.

Import parser.

Lemma beq_false t ty :
  lexer.type t <> ty -> lexer.TokenType_beq (lexer.type t) ty = false.
Proof.
  intros H. destruct (lexer.TokenType_beq (lexer.type t) ty) eqn:E; [|reflexivity].
  apply lexer.internal_TokenType_dec_bl in E. contradiction.
Qed.

Lemma beq_true t ty :
  lexer.type t = ty -> lexer.TokenType_beq (lexer.type t) ty = true.
Proof. intros H. apply lexer.internal_TokenType_dec_lb. exact H. Qed.

(** The loop of [getNextTypeLength] stops at the first token that is not
    [ptr]. *)
Lemma countPtrAhead_ahead ts p : forall n fuel i t,
  (forall j, i <= j < i + n ->
             exists x, nth_error ts j = Some x /\ lexer.type x = lexer.Ptr) ->
  nth_error ts (i + n) = Some t -> lexer.type t <> lexer.Ptr ->
  n < fuel ->
  countPtrAhead fuel i (ahead ts p) = Ok (i + n, ahead ts p).
Proof.
  induction n as [|n IH]; intros fuel i t Hp Ht Hne Hf;
    (destruct fuel as [|fuel]; [lia|]); cbn [countPtrAhead]; unfold bind.
  - rewrite Nat.add_0_r in *. rewrite (@peekT_ahead lexer.Ptr i ts t p Ht).
    rewrite (@beq_false t lexer.Ptr Hne). reflexivity.
  - destruct (Hp i ltac:(lia)) as (x & Hx & Tx).
    rewrite (@peekT_ahead lexer.Ptr i ts x p Hx). rewrite (@beq_true x lexer.Ptr Tx).
    rewrite (IH fuel (S i) t).
    + f_equal. f_equal. lia.
    + intros j Hj. apply Hp. lia.
    + rewrite <- Ht. f_equal. lia.
    + exact Hne.
    + lia.
Qed.

Lemma nth_error_ptrs (ptrs : list lexer.Token) tail j :
  Forall (fun x => lexer.type x = lexer.Ptr) ptrs -> j < length ptrs ->
  exists x, nth_error (ptrs ++ tail) j = Some x /\ lexer.type x = lexer.Ptr.
Proof.
  intros Hall Hj. destruct (nth_error ptrs j) as [x|] eqn:N.
  - exists x. split; [rewrite nth_error_app1; assumption|].
    rewrite Forall_forall in Hall. apply Hall. eapply nth_error_In. exact N.
  - apply nth_error_None in N. lia.
Qed.

Lemma nth_error_after (ptrs tail : list lexer.Token) k :
  nth_error (ptrs ++ tail) (length ptrs + k) = nth_error tail k.
Proof.
  rewrite nth_error_app2 by lia. f_equal. lia.
Qed.

End TypeLength.

(** X12.  [getNextTypeLength] announces what [parseType] takes: on the
    tokens of a type whose name is an identifier it returns their number,
    the [ptr] tokens, the name and, if a length in brackets follows, the
    three tokens of the length, and it consumes none of them. *)
Theorem getNextTypeLength_counts_the_type :
  forall ptrs name fuel p,
    Forall (fun x => lexer.type x = lexer.Ptr) ptrs ->
    lexer.type name = lexer.Identifier ->
    length ptrs < fuel ->
    (forall next rest,
        lexer.type next <> lexer.LBracket ->
        parser.getNextTypeLength fuel (ahead (ptrs ++ name :: next :: rest) p)
        = Ok (length (ptrs ++ [name]), ahead (ptrs ++ name :: next :: rest) p))
    /\ (forall open len close next rest,
          lexer.type open = lexer.LBracket ->
          lexer.type len = lexer.IntLit ->
          lexer.type close = lexer.RBracket ->
          parser.getNextTypeLength fuel
            (ahead (ptrs ++ name :: open :: len :: close :: next :: rest) p)
          = Ok (length (ptrs ++ [name; open; len; close]),
                ahead (ptrs ++ name :: open :: len :: close :: next :: rest) p)).
Proof.
  intros ptrs name fuel p Hall Hn Hf.
  assert (Ptrs : forall tail,
             parser.countPtrAhead fuel 0 (ahead (ptrs ++ name :: tail) p)
             = Ok (length ptrs, ahead (ptrs ++ name :: tail) p)).
  { intros tail.
    apply (@countPtrAhead_ahead (ptrs ++ name :: tail) p (length ptrs) fuel 0 name).
    - intros j Hj. apply nth_error_ptrs; [exact Hall | lia].
    - cbn [Nat.add]. rewrite <- (Nat.add_0_r (length ptrs)), nth_error_after.
      reflexivity.
    - rewrite Hn. discriminate.
    - exact Hf. }
  assert (At : forall tail k t,
             nth_error (name :: tail) k = Some t ->
             forall ty,
               parser.peekT ty (length ptrs + k) (ahead (ptrs ++ name :: tail) p)
               = Ok (lexer.TokenType_beq (lexer.type t) ty,
                     ahead (ptrs ++ name :: tail) p)).
  { intros tail k t N ty. apply peekT_ahead. rewrite nth_error_after. exact N. }
  split.
  - intros next rest Hnext. unfold parser.getNextTypeLength.
    unfold bind at 1. rewrite Ptrs.
    unfold bind at 1. rewrite <- (Nat.add_0_r (length ptrs)) at 1.
    rewrite (At (next :: rest) 0 name eq_refl). rewrite (@beq_true name _ Hn).
    unfold bind at 1. rewrite <- Nat.add_1_r.
    rewrite (At (next :: rest) 1 next eq_refl). rewrite (@beq_false next _ Hnext).
    rewrite length_app. reflexivity.
  - intros open len close next rest Ho Hl Hc. unfold parser.getNextTypeLength.
    unfold bind at 1. rewrite Ptrs.
    unfold bind at 1. rewrite <- (Nat.add_0_r (length ptrs)) at 1.
    rewrite (At (open :: len :: close :: next :: rest) 0 name eq_refl). rewrite (@beq_true name _ Hn).
    unfold bind at 1. rewrite <- Nat.add_1_r.
    rewrite (At (open :: len :: close :: next :: rest) 1 open eq_refl). rewrite (@beq_true open _ Ho).
    unfold bind at 1.
    replace (S (length ptrs + 1)) with (length ptrs + 2) by lia.
    rewrite (At (open :: len :: close :: next :: rest) 2 len eq_refl). rewrite (@beq_true len _ Hl).
    unfold bind at 1.
    replace (S (length ptrs + 2)) with (length ptrs + 3) by lia.
    rewrite (At (open :: len :: close :: next :: rest) 3 close eq_refl). rewrite (@beq_true close _ Hc).
    rewrite length_app. cbn [length]. unfold ret. f_equal. f_equal. lia.
Qed.

Lemma getNextTypeLength_counts_the_type_witness :
  parser.getNextTypeLength 5
    (ahead ([lexer.mkToken lexer.Ptr "ptr" 1 1]
            ++ lexer.mkToken lexer.Identifier "int" 1 5
               :: lexer.mkToken lexer.Identifier "f" 1 9
               :: lexer.mkToken lexer.LParen "(" 1 10 :: [])
           (parser.new "" ""))
  = Ok (length ([lexer.mkToken lexer.Ptr "ptr" 1 1]
                ++ [lexer.mkToken lexer.Identifier "int" 1 5]),
        ahead ([lexer.mkToken lexer.Ptr "ptr" 1 1]
               ++ lexer.mkToken lexer.Identifier "int" 1 5
                  :: lexer.mkToken lexer.Identifier "f" 1 9
                  :: lexer.mkToken lexer.LParen "(" 1 10 :: [])
              (parser.new "" "")).
Proof.
  apply (proj1 (@getNextTypeLength_counts_the_type
                  [lexer.mkToken lexer.Ptr "ptr" 1 1]
                  (lexer.mkToken lexer.Identifier "int" 1 5) 5
                  (parser.new "" "")
                  ltac:(repeat constructor) eq_refl ltac:(cbn; lia))).
  discriminate.
Defined.

(** ** The scopes of variables *)

Lemma find_assign_other {V} k (v : V) k' :
  k' <> k -> forall m, smap.find k' (smap.assign k v m) = smap.find k' m.
Proof.
  intros Hne. assert (E : String.eqb k' k = false) by (apply String.eqb_neq; exact Hne).
  induction m as [|[k0 v0] m IH]; cbn.
  - rewrite E. reflexivity.
  - destruct (String.compare k k0) eqn:C; cbn.
    + apply String.compare_eq_iff in C. subst k0. rewrite E. reflexivity.
    + rewrite E. reflexivity.
    + rewrite IH. reflexivity.
Qed.

Lemma set_scopes_same p : parser.set_scopes (parser.scopes p) p = p.
Proof. destruct p; reflexivity. Qed.

(** X13.  A variable that is declared is found: after
    [indexVariableType(x, type)] in a parser that has a scope,
    [lookupVariableType(x)] returns [type], whatever an outer scope holds
    for [x], and the lookup of any other name returns what it returned
    before; a scope that is pushed, used for the declaration and popped
    leaves the parser as it was. *)
Theorem declared_variable_is_found :
  forall x type p top rest,
    parser.scopes p = top :: rest ->
    (exists p1,
        parser.indexVariableType x type p = Ok (tt, p1)
        /\ parser.lookupVariableType x p1 = Ok (type, p1)
        /\ forall y, y <> x ->
             parser.lookupVariableType y p1
             = Ok (parser.lookupIn y (parser.scopes p), p1))
    /\ (parser.pushScope ;;; parser.indexVariableType x type ;;; parser.popScope) p
       = Ok (tt, p).
Proof.
  intros x type p top rest E. split.
  - exists (parser.set_scopes (smap.assign x type top :: rest) p).
    unfold parser.indexVariableType, parser.lookupVariableType, bind, gets, modify.
    rewrite E. cbn. rewrite find_assign_same. split; [reflexivity|].
    split; [reflexivity|]. intros y Hy. rewrite (find_assign_other _ Hy).
    reflexivity.
  - unfold parser.pushScope, parser.indexVariableType, parser.popScope,
      bind, gets, modify. cbn. destruct p; reflexivity.
Qed.

Lemma declared_variable_is_found_witness :
  (exists p1,
      parser.indexVariableType "x" (Some (ast.PrimitiveTypeNode ast.Char true))
        (parser.set_scopes
           [[]; [("x", Some (ast.PrimitiveTypeNode ast.Int true))]]
           (parser.new "" ""))
      = Ok (tt, p1)
      /\ parser.lookupVariableType "x" p1
         = Ok (Some (ast.PrimitiveTypeNode ast.Char true), p1)
      /\ forall y, y <> "x" ->
           parser.lookupVariableType y p1
           = Ok (parser.lookupIn y
                   (parser.scopes
                      (parser.set_scopes
                         [[]; [("x", Some (ast.PrimitiveTypeNode ast.Int true))]]
                         (parser.new "" ""))), p1))
  /\ (parser.pushScope ;;;
      parser.indexVariableType "x" (Some (ast.PrimitiveTypeNode ast.Char true)) ;;;
      parser.popScope)
       (parser.set_scopes [[]; [("x", Some (ast.PrimitiveTypeNode ast.Int true))]]
                          (parser.new "" ""))
     = Ok (tt, parser.set_scopes
                 [[]; [("x", Some (ast.PrimitiveTypeNode ast.Int true))]]
                 (parser.new "" "")).
Proof.
  apply (@declared_variable_is_found "x"
           (Some (ast.PrimitiveTypeNode ast.Char true))
           (parser.set_scopes [[]; [("x", Some (ast.PrimitiveTypeNode ast.Int true))]]
                              (parser.new "" ""))
           [] [[("x", Some (ast.PrimitiveTypeNode ast.Int true))]]).
  reflexivity.
Defined.

Section FunctionScopes.

Import parser.

Lemma sameOuterScopes_trans p q r :
  sameOuterScopes p q -> sameOuterScopes q r -> sameOuterScopes p r.
Proof.
  intros A B top rest E. destruct (A _ _ E) as [top1 E1]. exact (B _ _ E1).
Qed.

Lemma sameOuterScopes_same {A} (m : PM A) :
  preserves scopes m -> keeps sameOuterScopes m.
Proof.
  intros Hm p a p' H top rest E. exists top. rewrite (Hm _ _ _ H). exact E.
Qed.

Lemma indexVariableType_outer x type : keeps sameOuterScopes (indexVariableType x type).
Proof.
  intros p u p' H top rest E. unfold indexVariableType, bind, gets in H.
  rewrite E in H. inversion H; subst. eexists. reflexivity.
Qed.

#[local] Hint Resolve parseExpression_frame parseValue_frame parseArgs_frame
  checkInstanceCall_frame lookupFunctionReturnType_frame : frame.

Ltac outer_step :=
  match goal with
  | |- keeps _ (bind _ _) => apply (keeps_bind sameOuterScopes_trans); [| intros]
  | |- keeps _ _ => solve [apply sameOuterScopes_same; frame]
  | |- keeps _ _ => solve [eauto]
  | |- keeps _ (if ?b then _ else _) => destruct b
  | |- keeps _ (match ?x with _ => _ end) => destruct x
  end.

Lemma statements_outer fuel :
  keeps sameOuterScopes (parseStatement fuel)
  /\ (forall b body, keeps sameOuterScopes (parseBlock fuel b body)).
Proof.
  pose proof indexVariableType_outer.
  induction fuel as [|fuel (IHs & IHb)].
  - split; intros; cbn; intros p a p' E; discriminate.
  - split; intros.
    + cbn [parseStatement]. repeat outer_step.
    + cbn [parseBlock]. repeat outer_step.
Qed.

Lemma indexParams_outer params : keeps sameOuterScopes (indexParams params).
Proof.
  pose proof indexVariableType_outer.
  induction params as [|[name type] r IH]; cbn [indexParams]; repeat outer_step.
Qed.

Lemma parseBlock_outer fuel b body : keeps sameOuterScopes (parseBlock fuel b body).
Proof. apply statements_outer. Qed.

(** The body of a function is parsed in a scope of its own. *)
Lemma parseFunction_scopes fuel : preserves scopes (parseFunction fuel).
Proof.
  intros p f p' H. unfold parseFunction in H.
  inv_bind H className p0 H0. apply gets_Ok in H0. destruct H0 as [-> ->].
  inv_bind H type p1 H1. inv_bind H nameToken p2 H2.
  inv_bind H u p3 H3. inv_bind H u' p4 H4.
  inv_bind H params p5 H5. inv_bind H params' p6 H6.
  inv_bind H u'' p7 H7. inv_bind H next p8 H8. inv_bind H body p9 H9.
  inversion H; subst f p9. clear H.
  assert (E8 : scopes p8 = scopes p).
  { assert (E5 : preserves scopes
                   (if negb (String.eqb (currentClassName_ p) "")
                       && negb (String.eqb (currentClassName_ p) "")
                    then
                      thisType <- getTypeNode (currentClassName_ p) ;;
                      match thisType with
                      | Some ty => ret [("this", Some (ast.PointerTypeNode ty))]
                      | None => ret []
                      end
                    else ret [])) by frame.
    apply E5 in H5.
    assert (S1 : scopes p1 = scopes p) by framed parseType_frame.
    assert (S2 : scopes p2 = scopes p1) by framed expect_frame.
    assert (S3 : scopes p3 = scopes p2) by framed validateIdentifier_frame.
    assert (S4 : scopes p4 = scopes p3) by framed expect_frame.
    assert (S6 : scopes p6 = scopes p5) by framed parseParams_frame.
    assert (S7 : scopes p7 = scopes p6) by framed expect_frame.
    assert (S8 : scopes p8 = scopes p7) by framed consume_frame.
    congruence. }
  rewrite <- E8. clear - H9.
  destruct (lexer.TokenType_beq (lexer.type next) lexer.LBrace);
    [|inversion H9; reflexivity].
  inv_bind H9 u1 q1 K1. inversion K1; subst u1 q1. clear K1.
  inv_bind H9 u2 q2 K2. inv_bind H9 stmts q3 K3. inv_bind H9 t4 q4 K4.
  inv_bind H9 u5 q5 K5. inversion K5; subst u5 q5. clear K5.
  inversion H9; subst. clear H9. cbn [scopes set_scopes].
  destruct (@indexParams_outer params' _ _ _ K2 smap.empty (scopes p8) eq_refl)
    as [top2 E2].
  destruct (@parseBlock_outer fuel false [] _ _ _ K3 _ _ E2) as [top3 E3].
  assert (S4 : scopes q4 = scopes q3) by framed expect_frame.
  rewrite S4, E3. reflexivity.
Qed.

End FunctionScopes.

(** X14.  The parameters and the variables of a function are not visible
    after it: [parseFunction] leaves the scopes of the parser as they were,
    so every lookup of a variable returns after the function what it
    returned before it. *)
Theorem function_scope_is_closed :
  forall fuel p f p',
    parser.parseFunction fuel p = Ok (f, p') ->
    parser.scopes p' = parser.scopes p
    /\ forall x, parser.lookupVariableType x p' = Ok (parser.lookupIn x (parser.scopes p), p').
Proof.
  intros fuel p f p' H. apply parseFunction_scopes in H. split; [exact H|].
  intros x. unfold parser.lookupVariableType, gets. rewrite H. reflexivity.
Qed.

Lemma function_scope_is_closed_witness :
  exists f p',
    parser.parseFunction 20 (parserOn "int f(int a) { int b = a; return b; }")
    = Ok (f, p')
    /\ parser.scopes p' = parser.scopes (parserOn "int f(int a) { int b = a; return b; }")
    /\ forall x,
         parser.lookupVariableType x p'
         = Ok (parser.lookupIn x
                 (parser.scopes (parserOn "int f(int a) { int b = a; return b; }")),
               p').
Proof.
  eexists. eexists. split; [vm_compute; reflexivity|].
  eapply (@function_scope_is_closed 20
            (parserOn "int f(int a) { int b = a; return b; }")).
  vm_compute. reflexivity.
Defined.

(** * Lowering of statements: what is put into the function *)

(** ** The value a return statement returns *)

Lemma Type_beq_eq : forall a b, llvm.Type_beq a b = true -> a = b.
Proof.
  induction a as [|n| | | | | |e IH n|n]; intros [|m| | | | | |e' n'|m] H;
    simpl in H; try discriminate; try reflexivity.
  - apply Nat.eqb_eq in H. congruence.
  - apply andb_prop in H. destruct H as [He Hn].
    apply IH in He. apply Z.eqb_eq in Hn. congruence.
  - apply String.eqb_eq in H. congruence.
Qed.

Lemma Type_beq_refl : forall a, llvm.Type_beq a a = true.
Proof.
  induction a as [|n| | | | | |e IH n|n]; simpl; try reflexivity.
  - apply Nat.eqb_refl.
  - rewrite IH, Z.eqb_refl. reflexivity.
  - apply String.eqb_refl.
Qed.

(** The function the builder inserts into keeps its header while an
    expression is lowered. *)
Lemma codeGen_currentFunction fuel e c v c' f :
  codegen.codeGen fuel e c = Ok (v, c') ->
  codegen.currentFunction c = Some f ->
  exists f', codegen.currentFunction c' = Some f' /\ header f' = header f.
Proof.
  intros H Hf.
  pose proof (codeGen_value_quiet fuel e _ H) as (F & _).
  assert (E : preserves headers (codegen.codeGen fuel e))
    by (apply codeGen_value_frame; intros; try reflexivity; apply headers_insertAt).
  apply E in H. unfold codegen.currentFunction in *. rewrite F.
  assert (N : nth_error (headers c') (codegen.insertFunction c)
              = nth_error (headers c) (codegen.insertFunction c)) by (rewrite H; reflexivity).
  unfold headers in N. rewrite !nth_error_map, Hf in N.
  destruct (nth_error (codegen.functions c') (codegen.insertFunction c)) as [f'|];
    [|discriminate].
  exists f'. split; [reflexivity|]. simpl in N. congruence.
Qed.

(** X15.  A return statement that is lowered closes the insertion block
    with one [ret], after the instructions of its value, none of which is a
    terminator.  The value returned has exactly the return type of the
    function being filled; [ret void] is only put into a function whose
    return type is [void], and only for a [return] without a value. *)
Theorem return_has_the_function_type fuel value_ c c' blk :
  codegen.currentBlock c = Some blk ->
  codegen.Return_codeGen fuel value_ c = Ok (tt, c') ->
  exists f added r,
    codegen.currentFunction c = Some f
    /\ codegen.currentBlock c' = Some (extendBlock (added ++ [llvm.Ret r]) blk)
    /\ nonTerminators added
    /\ match r with
       | Some v => value_ <> None /\ llvm.getType v = llvm.returnType f
       | None => value_ = None /\ llvm.returnType f = llvm.VoidTy
       end.
Proof.
  intros Hb H.
  assert (exists f, codegen.currentFunction c = Some f) as [f Hf].
  { unfold codegen.currentBlock in Hb.
    destruct (codegen.insertBlock c); [|discriminate].
    destruct (codegen.currentFunction c) as [f|]; [|discriminate]. eauto. }
  exists f. unfold codegen.Return_codeGen in H. destruct value_ as [e|].
  - inv_bind H val c1 H1. inv_bind H returnType c2 H2.
    inv_bind H converted c3 H3.
    destruct (codegen.checkTypeCompatible returnType (llvm.getType converted)) eqn:T;
      [|discriminate].
    simpl in H. apply emit_Ok in H. subst c'.
    destruct (codeGen_currentFunction _ _ _ H1 Hf) as (f1 & Hf1 & Eh).
    assert (R : returnType = llvm.returnType f).
    { unfold codegen.getCurrentFunctionReturnType, bind, get, fromOption in H2.
      rewrite Hf1 in H2. inversion H2.
      unfold header in Eh. inversion Eh. reflexivity. }
    apply codeGen_value_quiet in H1.
    apply (quiet_frame (@getCurrentFunctionReturnType_frame _ builderView)) in H2.
    apply convertIfNeeded_quiet in H3.
    pose proof (appends_trans H1 (appends_trans H2 H3)) as A.
    destruct (appends_current A Hb) as (added & N & Hc).
    exists added, (Some converted). split; [exact Hf|]. split; [|split].
    + rewrite (insertAt_current _ _ Hc), extendBlock_app. reflexivity.
    + exact N.
    + split; [discriminate|]. apply Type_beq_eq in T. congruence.
  - inv_bind H returnType c2 H2.
    destruct (llvm.isVoidTy returnType) eqn:V; [|discriminate].
    simpl in H. apply emit_Ok in H. subst c'.
    assert (R : returnType = llvm.returnType f /\ c2 = c).
    { unfold codegen.getCurrentFunctionReturnType, bind, get, fromOption in H2.
      rewrite Hf in H2. inversion H2. auto. }
    destruct R as [-> ->].
    exists [], None. split; [exact Hf|]. split; [|split].
    + rewrite (insertAt_current _ _ Hb). reflexivity.
    + constructor.
    + split; [reflexivity|]. destruct (llvm.returnType f); try discriminate. reflexivity.
Qed.

Lemma return_has_the_function_type_witness :
  exists c',
    codegen.Return_codeGen 1 (Some (ast.IntLiteral 7)) (atEntry (llvm.IntegerTy 64))
    = Ok (tt, c')
    /\ exists f added r,
         codegen.currentFunction (atEntry (llvm.IntegerTy 64)) = Some f
         /\ codegen.currentBlock c'
            = Some (extendBlock (added ++ [llvm.Ret r]) (llvm.mkBasicBlock "entry" []))
         /\ nonTerminators added
         /\ match r with
            | Some v => Some (ast.IntLiteral 7) <> None
                        /\ llvm.getType v = llvm.returnType f
            | None => Some (ast.IntLiteral 7) = None
                      /\ llvm.returnType f = llvm.VoidTy
            end.
Proof.
  eexists. split; [vm_compute; reflexivity|].
  apply (@return_has_the_function_type 1 (Some (ast.IntLiteral 7))
           (atEntry (llvm.IntegerTy 64))).
  - reflexivity.
  - vm_compute. reflexivity.
Defined.

(** ** The control flow of [if] and [while] *)

Lemma settled_advances m blk c c' :
  settled m blk c -> advances c c' -> settled m blk c'.
Proof.
  intros (Hne & Hm) (_ & b0 & E0 & _ & Hsame & b' & E' & _ & Hor).
  assert (m < length (blocksOf c)) by (apply nth_error_Some; congruence).
  split.
  - rewrite E'. intros X. inversion X. subst b'.
    destruct Hor as [-> | Hge]; [congruence | lia].
  - rewrite Hsame; [exact Hm | lia | congruence].
Qed.

Lemma settled_move m blk c b u c' :
  settled m blk c -> codegen.SetInsertPoint b c = Ok (u, c') -> b <> m ->
  settled m blk c'.
Proof.
  intros (_ & Hm) H Hb. apply SetInsertPoint_Ok in H. destruct H as (HB & EB & _).
  split; [rewrite EB; congruence | rewrite HB; exact Hm].
Qed.

Lemma settled_branchIfOpen m blk c t u c' :
  settled m blk c -> wellPlaced c -> codegen.branchIfOpen t c = Ok (u, c') ->
  settled m blk c'.
Proof.
  intros J W H. eapply settled_advances; [exact J|].
  eapply branchIfOpen_advances; eassumption.
Qed.

Lemma moved_placed b c u c' :
  codegen.SetInsertPoint b c = Ok (u, c') -> b < length (blocksOf c) -> wellPlaced c'.
Proof.
  intros H Hb. apply SetInsertPoint_Ok in H. destruct H as (HB & EB & _).
  exists b. rewrite HB. auto.
Qed.

Lemma each_statement_steps fuel (l : list ast.StatementNode) : Forall (steps fuel) l.
Proof. apply Forall_forall. intros s _. apply StatementNode_codeGen_stepped. Qed.

(** The lowering of the statements of a body leaves alone a block that is
    not the insertion block when it starts. *)
Lemma each_settled fuel l m blk c c' :
  settled m blk c -> wellPlaced c ->
  (fix each (l : list ast.StatementNode) : codegen.CG unit :=
     match l with
     | [] => ret tt
     | stmt :: r => codegen.StatementNode_codeGen fuel stmt ;;; each r
     end) l c = Ok (tt, c') ->
  settled m blk c' /\ wellPlaced c'.
Proof.
  intros J W H.
  pose proof (@each_advances fuel l (each_statement_steps fuel l) c c' W H) as A.
  split; [eapply settled_advances; eassumption | eapply advances_placed; exact A].
Qed.

Lemma nth_error_snoc {A} (l : list A) x : nth_error (l ++ [x]) (length l) = Some x.
Proof. rewrite nth_error_app2, Nat.sub_diag by apply le_n. reflexivity. Qed.

(** X16.  An [if] statement met in block [b0] of a function of [L] blocks
    appends to [b0] the instructions of its condition, none a terminator,
    and the conditional branch on the integer value of the condition to the
    blocks [L] and [L + 1]: the blocks created for the [then] arm and for
    the [else] arm or, without an [else], for what follows.  No other block
    that existed is changed, and the builder is left at the block created
    for what follows, named [ifcont] and empty. *)
Theorem if_branches_on_its_condition fuel cnd tb fb c c' b0 blk :
  codegen.insertBlock c = Some b0 ->
  nth_error (blocksOf c) b0 = Some blk ->
  codegen.StatementNode_codeGen fuel (ast.If cnd tb fb) c = Ok (tt, c') ->
  exists added cond,
    nonTerminators added
    /\ llvm.isIntegerTy (llvm.getType cond) = true
    /\ nth_error (blocksOf c') b0
       = Some (extendBlock
                 (added ++ [llvm.CondBr cond (length (blocksOf c))
                                        (length (blocksOf c) + 1)]) blk)
    /\ (forall i, i < length (blocksOf c) -> i <> b0 ->
                  nth_error (blocksOf c') i = nth_error (blocksOf c) i)
    /\ codegen.insertBlock c'
       = Some (length (blocksOf c) + match fb with Some _ => 2 | None => 1 end)
    /\ codegen.currentBlock c' = Some (llvm.mkBasicBlock "ifcont" []).
Proof.
  intros E0 Hblk H.
  assert (Hb0 : b0 < length (blocksOf c)) by (apply nth_error_Some; congruence).
  assert (W : wellPlaced c) by (exists b0; auto).
  pose proof (StatementNode_codeGen_stepped fuel (ast.If cnd tb fb) W H) as [Adv _].
  cbn [codegen.StatementNode_codeGen] in H.
  inv_bind H blk0 c0 H0. apply GetInsertBlock_Ok in H0. destruct H0 as [-> _].
  inv_bind H thenBB c1 H1. apply createBlock_Ok in H1.
  destruct H1 as (-> & B1 & I1 & F1).
  inv_bind H elseBB c2 H2.
  inv_bind H mergeBB c3 H3. apply createBlock_Ok in H3.
  destruct H3 as (-> & B3 & I3 & F3).
  inv_bind H cond c4 H4.
  destruct (llvm.isIntegerTy (llvm.getType cond)) eqn:Hint; [|discriminate].
  simpl negb in H. cbv iota in H.
  inv_bind H u5 c5 H5. inv_bind H u6 c6 H6. inv_bind H u7 c7 H7.
  inv_bind H u8 c8 H8. inv_bind H u9 c9 H9. destruct u7.
  (* the blocks created *)
  assert (B2 : blocksOf c2
               = blocksOf c ++ llvm.mkBasicBlock "then" []
                 :: match fb with
                    | Some _ => [llvm.mkBasicBlock "else" []]
                    | None => []
                    end
               /\ codegen.insertBlock c2 = Some b0
               /\ elseBB = match fb with
                           | Some _ => Some (length (blocksOf c) + 1)
                           | None => None
                           end).
  { destruct fb as [falseBody|].
    - inv_bind H2 e c2' H2'. apply createBlock_Ok in H2'.
      destruct H2' as (-> & B2 & I2 & F2). inversion H2; subst. clear H2.
      rewrite B2, B1, <- app_assoc, length_app. simpl.
      split; [reflexivity|]. split; [congruence | reflexivity].
    - inversion H2; subst. clear H2. rewrite B1.
      split; [reflexivity|]. split; [congruence | reflexivity]. }
  destruct B2 as (B2 & I2 & ->).
  set (L := length (blocksOf c)) in *.
  set (m := L + match fb with Some _ => 2 | None => 1 end).
  assert (Hm : length (blocksOf c2) = m).
  { rewrite B2, length_app. unfold m, L. destruct fb; simpl; lia. }
  rewrite Hm in *.
  assert (N3 : nth_error (blocksOf c3) m = Some (llvm.mkBasicBlock "ifcont" [])).
  { rewrite B3, <- Hm. apply nth_error_snoc. }
  (* the condition and the branch *)
  pose proof (codeGen_value_quiet fuel cnd _ H4) as (_ & I4 & added & Nadd & B4).
  rewrite I3, I2 in B4, I4.
  assert (E5 : c5 = codegen.insertAt (llvm.CondBr cond L (L + 1)) c4).
  { destruct fb; apply emit_Ok in H5; rewrite H5; unfold m;
      repeat f_equal; lia. }
  clear H5.
  assert (I5 : codegen.insertBlock c5 = Some b0)
    by (rewrite E5; destruct (insertAt_point (llvm.CondBr cond L (L + 1)) c4);
        congruence).
  assert (B5 : blocksOf c5
               = codegen.updateNth b0
                   (extendBlock (added ++ [llvm.CondBr cond L (L + 1)]))
                   (blocksOf c3)).
  { rewrite E5, blocksOf_insertAt, I4, B4, updateNth_twice.
    apply updateNth_ext. intros x. apply extendBlock_app. }
  assert (Hlt : b0 < m) by (unfold m; destruct fb; lia).
  assert (S0 : nth_error (blocksOf c5) b0
               = Some (extendBlock (added ++ [llvm.CondBr cond L (L + 1)]) blk)).
  { rewrite B5, updateNth_same, B3, B2, <- app_assoc.
    rewrite nth_error_app1 by exact Hb0. rewrite Hblk. reflexivity. }
  assert (Sm : nth_error (blocksOf c5) m = Some (llvm.mkBasicBlock "ifcont" [])).
  { rewrite B5, updateNth_other by lia. exact N3. }
  assert (Len5 : length (blocksOf c5) = m + 1).
  { rewrite B5, updateNth_length, B3, length_app, Hm. reflexivity. }
  (* the arms *)
  assert (J6 : settled b0 (extendBlock (added ++ [llvm.CondBr cond L (L + 1)]) blk) c6
               /\ settled m (llvm.mkBasicBlock "ifcont" []) c6 /\ wellPlaced c6).
  { pose proof (SetInsertPoint_Ok H6) as (HB & EB & _).
    split; [|split].
    - split; [rewrite EB; intros X; inversion X; lia | rewrite HB; exact S0].
    - split; [rewrite EB; intros X; inversion X; unfold m in *; destruct fb; lia
             | rewrite HB; exact Sm].
    - eapply moved_placed; [exact H6|]. rewrite Len5. unfold m. lia. }
  destruct J6 as (J0 & Jm & W6).
  destruct (@each_settled _ _ _ _ _ _ J0 W6 H7) as [J0' W7].
  destruct (@each_settled _ _ _ _ _ _ Jm W6 H7) as [Jm' _].
  pose proof (@settled_branchIfOpen _ _ _ _ _ _ J0' W7 H8) as J08.
  pose proof (@settled_branchIfOpen _ _ _ _ _ _ Jm' W7 H8) as Jm8.
  assert (J9 : settled b0 (extendBlock (added ++ [llvm.CondBr cond L (L + 1)]) blk) c9
               /\ settled m (llvm.mkBasicBlock "ifcont" []) c9).
  { destruct fb as [falseBody|]; [|inversion H9; subst; auto].
    inv_bind H9 u10 c10 H10. inv_bind H9 u11 c11 H11. destruct u11.
    assert (Hlen8 : L + 1 < length (blocksOf c8)).
    { destruct Jm8 as [_ X]. assert (m < length (blocksOf c8)) by (apply nth_error_Some; congruence). unfold m in X. lia. }
    pose proof (moved_placed H10 Hlen8) as W10.
    assert (J10 : settled b0 (extendBlock (added ++ [llvm.CondBr cond L (L + 1)]) blk)
                          c10)
      by (eapply settled_move; [exact J08 | exact H10 | lia]).
    assert (Jm10 : settled m (llvm.mkBasicBlock "ifcont" []) c10)
      by (eapply settled_move; [exact Jm8 | exact H10 | unfold m; lia]).
    destruct (@each_settled _ _ _ _ _ _ J10 W10 H11) as [J11 W11].
    destruct (@each_settled _ _ _ _ _ _ Jm10 W10 H11) as [Jm11 _].
    split; eapply settled_branchIfOpen; eassumption. }
  destruct J9 as [[_ X0] [_ Xm]].
  apply SetInsertPoint_Ok in H. destruct H as (HB & EB & _).
  exists added, cond. split; [exact Nadd|]. split; [exact Hint|].
  split; [rewrite HB; exact X0|]. split.
  - destruct Adv as (_ & b & Eb & _ & Hsame & _).
    assert (b = b0) by congruence. subst b. exact Hsame.
  - split; [exact EB|]. rewrite currentBlock_blocksOf, EB, HB. exact Xm.
Qed.

Lemma if_branches_on_its_condition_witness :
  exists c',
    codegen.StatementNode_codeGen 1
      (ast.If (ast.IntLiteral 1) [ast.Return (Some (ast.IntLiteral 2))]
              (Some [ast.Return (Some (ast.IntLiteral 3))]))
      (atEntry (llvm.IntegerTy 32)) = Ok (tt, c')
    /\ exists added cond,
         nonTerminators added
         /\ llvm.isIntegerTy (llvm.getType cond) = true
         /\ nth_error (blocksOf c') 0
            = Some (extendBlock (added ++ [llvm.CondBr cond 1 2])
                                (llvm.mkBasicBlock "entry" []))
         /\ (forall i, i < 1 -> i <> 0 ->
                       nth_error (blocksOf c') i
                       = nth_error (blocksOf (atEntry (llvm.IntegerTy 32))) i)
         /\ codegen.insertBlock c' = Some 3
         /\ codegen.currentBlock c' = Some (llvm.mkBasicBlock "ifcont" []).
Proof.
  eexists. split; [vm_compute; reflexivity|].
  apply (@if_branches_on_its_condition 1 (ast.IntLiteral 1)
           [ast.Return (Some (ast.IntLiteral 2))]
           (Some [ast.Return (Some (ast.IntLiteral 3))])
           (atEntry (llvm.IntegerTy 32)) _ 0 (llvm.mkBasicBlock "entry" [])).
  - reflexivity.
  - reflexivity.
  - vm_compute. reflexivity.
Defined.

(** X17.  A [while] statement met in block [b0] of a function of [L]
    blocks closes [b0] with the branch to block [L], created for the
    condition.  Block [L], named [cond], holds the instructions of the
    condition, none a terminator, and the conditional branch on its integer
    value to block [L + 1], where the body starts, and to block [L + 2],
    named [exit] and empty, where the builder is left.  The block the body
    ends in is given the branch back to block [L].  No other block that
    existed is changed. *)
Theorem while_loops_through_its_condition fuel cnd body c c' b0 blk :
  codegen.insertBlock c = Some b0 ->
  nth_error (blocksOf c) b0 = Some blk ->
  codegen.StatementNode_codeGen fuel (ast.While cnd body) c = Ok (tt, c') ->
  exists added cond bodyEnd last,
    nonTerminators added
    /\ llvm.isIntegerTy (llvm.getType cond) = true
    /\ nth_error (blocksOf c') b0
       = Some (extendBlock [llvm.Br (length (blocksOf c))] blk)
    /\ nth_error (blocksOf c') (length (blocksOf c))
       = Some (llvm.mkBasicBlock "cond"
                 (added ++ [llvm.CondBr cond (length (blocksOf c) + 1)
                                        (length (blocksOf c) + 2)]))
    /\ (bodyEnd = length (blocksOf c) + 1 \/ length (blocksOf c) + 3 <= bodyEnd)
    /\ nth_error (blocksOf c') bodyEnd
       = Some (extendBlock [llvm.Br (length (blocksOf c))] last)
    /\ (forall i, i < length (blocksOf c) -> i <> b0 ->
                  nth_error (blocksOf c') i = nth_error (blocksOf c) i)
    /\ codegen.insertBlock c' = Some (length (blocksOf c) + 2)
    /\ codegen.currentBlock c' = Some (llvm.mkBasicBlock "exit" []).
Proof.
  intros E0 Hblk H.
  assert (Hb0 : b0 < length (blocksOf c)) by (apply nth_error_Some; congruence).
  assert (W : wellPlaced c) by (exists b0; auto).
  pose proof (StatementNode_codeGen_stepped fuel (ast.While cnd body) W H) as [Adv _].
  cbn [codegen.StatementNode_codeGen] in H.
  inv_bind H blk0 c0 H0. apply GetInsertBlock_Ok in H0. destruct H0 as [-> _].
  inv_bind H condBB c1 H1. apply createBlock_Ok in H1.
  destruct H1 as (-> & B1 & I1 & F1).
  inv_bind H bodyBB c2 H2. apply createBlock_Ok in H2.
  destruct H2 as (-> & B2 & I2 & F2).
  inv_bind H exitBB c3 H3. apply createBlock_Ok in H3.
  destruct H3 as (-> & B3 & I3 & F3).
  inv_bind H u4 c4 H4. inv_bind H u5 c5 H5. inv_bind H cond c6 H6.
  destruct (llvm.isIntegerTy (llvm.getType cond)) eqn:Hint; [|discriminate].
  simpl negb in H. cbv iota in H.
  inv_bind H u7 c7 H7. inv_bind H u8 c8 H8. inv_bind H u9 c9 H9.
  inv_bind H u10 c10 H10. destruct u9.
  rewrite B2, B1, !length_app in *. simpl length in *.
  set (L := length (blocksOf c)) in *.
  replace (L + 1 + 1) with (L + 2) in * by lia.
  assert (B3' : blocksOf c3
                = blocksOf c ++ [llvm.mkBasicBlock "cond" [];
                                 llvm.mkBasicBlock "body" [];
                                 llvm.mkBasicBlock "exit" []])
    by (rewrite B3, <- !app_assoc; reflexivity).
  clear B3 B2 B1.
  assert (I3' : codegen.insertBlock c3 = Some b0) by congruence.
  (* the branch to the condition *)
  apply emit_Ok in H4.
  assert (B4 : blocksOf c4
               = codegen.updateNth b0 (extendBlock [llvm.Br L]) (blocksOf c3))
    by (rewrite H4, blocksOf_insertAt, I3'; reflexivity).
  assert (Len4 : length (blocksOf c4) = L + 3)
    by (rewrite B4, updateNth_length, B3', length_app; reflexivity).
  assert (N4 : forall k x,
             nth_error [llvm.mkBasicBlock "cond" []; llvm.mkBasicBlock "body" [];
                        llvm.mkBasicBlock "exit" []] k = Some x ->
             nth_error (blocksOf c4) (L + k) = Some x).
  { intros k x Hk. rewrite B4, updateNth_other by lia.
    rewrite B3', nth_error_app2 by (unfold L; lia).
    replace (L + k - length (blocksOf c)) with k by (unfold L; lia). exact Hk. }
  assert (S4 : nth_error (blocksOf c4) b0 = Some (extendBlock [llvm.Br L] blk)).
  { rewrite B4, updateNth_same, B3', nth_error_app1 by exact Hb0.
    rewrite Hblk. reflexivity. }
  pose proof (SetInsertPoint_Ok H5) as (HB5 & EB5 & _).
  assert (W5 : wellPlaced c5) by (exists L; rewrite HB5, Len4; split; [exact EB5 | lia]).
  assert (J0 : settled b0 (extendBlock [llvm.Br L] blk) c5).
  { split; [rewrite EB5; intros X; inversion X; lia | rewrite HB5; exact S4]. }
  assert (Jx : settled (L + 2) (llvm.mkBasicBlock "exit" []) c5).
  { split; [rewrite EB5; intros X; inversion X; lia|].
    rewrite HB5. apply (N4 2). reflexivity. }
  assert (C5 : codegen.currentBlock c5 = Some (llvm.mkBasicBlock "cond" [])).
  { rewrite currentBlock_blocksOf, EB5, HB5.
    replace L with (L + 0) at 1 by lia. apply (N4 0). reflexivity. }
  (* the condition *)
  pose proof (codeGen_value_quiet fuel cnd _ H6) as A6.
  destruct (appends_current A6 C5) as (added & Nadd & C6).
  pose proof (appends_advances A6 W5) as Adv6.
  apply emit_Ok in H7.
  pose proof (insertAt_current (llvm.CondBr cond (L + 1) (L + 2)) _ C6) as C7.
  rewrite <- H7, extendBlock_app in C7.
  assert (Adv7 : advances c5 c7).
  { eapply advances_trans; [exact Adv6|]. rewrite H7.
    apply insertAt_advances. eapply advances_placed; exact Adv6. }
  pose proof (settled_advances J0 Adv7) as J07.
  pose proof (settled_advances Jx Adv7) as Jx7.
  assert (I7 : codegen.insertBlock c7 = Some L).
  { destruct A6 as (_ & I6 & _).
    destruct (insertAt_point (llvm.CondBr cond (L + 1) (L + 2)) c6) as [_ I7].
    rewrite H7, I7, I6. exact EB5. }
  rewrite currentBlock_blocksOf, I7 in C7.
  assert (Len7 : L + 3 <= length (blocksOf c7)).
  { destruct Adv7 as (_ & b & _ & HL & _). rewrite HB5, Len4 in HL. exact HL. }
  (* the body *)
  pose proof (SetInsertPoint_Ok H8) as (HB8 & EB8 & _).
  assert (W8 : wellPlaced c8) by (exists (L + 1); rewrite HB8; split; [exact EB8 | lia]).
  assert (J08 : settled b0 (extendBlock [llvm.Br L] blk) c8)
    by (eapply settled_move; [exact J07 | exact H8 | lia]).
  assert (Jx8 : settled (L + 2) (llvm.mkBasicBlock "exit" []) c8)
    by (eapply settled_move; [exact Jx7 | exact H8 | lia]).
  assert (Jc8 : settled L (extendBlock (added ++ [llvm.CondBr cond (L + 1) (L + 2)])
                                       (llvm.mkBasicBlock "cond" [])) c8).
  { split; [rewrite EB8; intros X; inversion X; lia | rewrite HB8; exact C7]. }
  pose proof (@each_advances fuel body (each_statement_steps fuel body) c8 c9 W8 H9)
    as Adv9.
  pose proof (advances_placed Adv9) as W9.
  apply emit_Ok in H10.
  assert (Adv10 : advances c8 c10)
    by (eapply advances_trans; [exact Adv9|]; rewrite H10;
        apply insertAt_advances; exact W9).
  pose proof (settled_advances J08 Adv10) as [_ X0].
  pose proof (settled_advances Jx8 Adv10) as [_ Xx].
  pose proof (settled_advances Jc8 Adv10) as [_ Xc].
  destruct Adv9 as (_ & b8 & E8 & _ & _ & bodyEnd & E9 & Hlt9 & Hor).
  assert (b8 = L + 1) by congruence. subst b8.
  destruct (nth_error (blocksOf c9) bodyEnd) as [last|] eqn:N9;
    [|apply nth_error_None in N9; lia].
  assert (X9 : nth_error (blocksOf c10) bodyEnd
               = Some (extendBlock [llvm.Br L] last))
    by (rewrite H10, blocksOf_insertAt, E9, updateNth_same, N9; reflexivity).
  apply SetInsertPoint_Ok in H. destruct H as (HB & EB & _).
  exists added, cond, bodyEnd, last.
  split; [exact Nadd|]. split; [exact Hint|].
  split; [rewrite HB; exact X0|]. split; [rewrite HB; exact Xc|].
  split; [rewrite HB8 in Hor; destruct Hor as [->|Hge]; [left; reflexivity | right; lia]|].
  split; [rewrite HB; exact X9|]. split.
  - destruct Adv as (_ & b & Eb & _ & Hsame & _).
    assert (b = b0) by congruence. subst b. exact Hsame.
  - split; [exact EB|]. rewrite currentBlock_blocksOf, EB, HB. exact Xx.
Qed.

Lemma while_loops_through_its_condition_witness :
  exists c',
    codegen.StatementNode_codeGen 1
      (ast.While (ast.IntLiteral 1) [ast.ExpressionStatement (ast.IntLiteral 2)])
      (atEntry llvm.VoidTy) = Ok (tt, c')
    /\ exists added cond bodyEnd last,
         nonTerminators added
         /\ llvm.isIntegerTy (llvm.getType cond) = true
         /\ nth_error (blocksOf c') 0
            = Some (extendBlock [llvm.Br 1] (llvm.mkBasicBlock "entry" []))
         /\ nth_error (blocksOf c') 1
            = Some (llvm.mkBasicBlock "cond" (added ++ [llvm.CondBr cond 2 3]))
         /\ (bodyEnd = 2 \/ 4 <= bodyEnd)
         /\ nth_error (blocksOf c') bodyEnd = Some (extendBlock [llvm.Br 1] last)
         /\ (forall i, i < 1 -> i <> 0 ->
                       nth_error (blocksOf c') i
                       = nth_error (blocksOf (atEntry llvm.VoidTy)) i)
         /\ codegen.insertBlock c' = Some 3
         /\ codegen.currentBlock c' = Some (llvm.mkBasicBlock "exit" []).
Proof.
  eexists. split; [vm_compute; reflexivity|].
  apply (@while_loops_through_its_condition 1 (ast.IntLiteral 1)
           [ast.ExpressionStatement (ast.IntLiteral 2)]
           (atEntry llvm.VoidTy) _ 0 (llvm.mkBasicBlock "entry" [])).
  - reflexivity.
  - reflexivity.
  - vm_compute. reflexivity.
Defined.

(** ** The slot of a declared variable *)

Lemma insertAt_keeps i c :
  codegen.scopes (codegen.insertAt i c) = codegen.scopes c
  /\ codegen.nextId (codegen.insertAt i c) = codegen.nextId c.
Proof. unfold codegen.insertAt. destruct (codegen.insertBlock c); auto. Qed.

Lemma scopes_insertAt i c : codegen.scopes (codegen.insertAt i c) = codegen.scopes c.
Proof. apply insertAt_keeps. Qed.

(** X18.  A variable declaration that is lowered first appends the
    [alloca] of the lowered type of the variable, whose result takes the
    next identifier.  With an initial value, the last instruction appended
    is the store into that slot of a value of exactly the lowered type;
    nothing appended is a terminator.  Afterwards the name is bound to the
    slot, whatever it was bound to before, and no other name is bound
    differently. *)
Theorem declaration_binds_its_slot fuel type_ name_ initialValue_ c c' blk :
  codegen.currentBlock c = Some blk ->
  codegen.VariableDeclaration_codeGen fuel type_ name_ initialValue_ c = Ok (tt, c') ->
  exists ty c1 more,
    codegen.typeCodeGen fuel type_ c = Ok (ty, c1)
    /\ codegen.currentBlock c'
       = Some (extendBlock
                 (llvm.Alloca (llvm.AllocaInst (codegen.nextId c) ty) name_ :: more)
                 blk)
    /\ nonTerminators more
    /\ match initialValue_ with
       | Some _ => exists pre v,
                     more = pre ++ [llvm.Store v (llvm.AllocaInst (codegen.nextId c) ty)]
                     /\ llvm.getType v = ty
       | None => more = []
       end
    /\ codegen.lookupIn name_ (codegen.scopes c') = Some (codegen.nextId c, ty)
    /\ forall other, other <> name_ ->
         codegen.lookupIn other (codegen.scopes c')
         = codegen.lookupIn other (codegen.scopes c).
Proof.
  intros Hb H. unfold codegen.VariableDeclaration_codeGen in H.
  inv_bind H ty c1 H1. exists ty, c1.
  assert (V1 : builderView c1 = builderView c)
    by (generalize H1; apply typeCodeGen_frame; reflexivity).
  assert (N1 : codegen.nextId c1 = codegen.nextId c)
    by (generalize H1; apply typeCodeGen_frame; reflexivity).
  assert (S1 : codegen.scopes c1 = codegen.scopes c)
    by (generalize H1; apply typeCodeGen_frame; reflexivity).
  inv_bind H variable c2 H2.
  cbv [codegen.CreateAlloca codegen.fresh codegen.emit bind gets modify ret] in H2.
  inversion H2; subst variable c2. clear H2. rewrite N1 in *.
  set (slot := llvm.AllocaInst (codegen.nextId c) ty) in *.
  set (c2 := codegen.insertAt (llvm.Alloca slot name_)
                              (codegen.set_nextId (S (codegen.nextId c)) c1)) in *.
  assert (C2 : codegen.currentBlock c2
               = Some (extendBlock [llvm.Alloca slot name_] blk)).
  { apply insertAt_current. rewrite <- Hb, <- (currentBlock_view V1). reflexivity. }
  assert (S2 : codegen.scopes c2 = codegen.scopes c)
    by (unfold c2; rewrite scopes_insertAt; exact S1).
  inv_bind H u3 c3 H3. destruct u3.
  assert (exists more,
             codegen.currentBlock c3
             = Some (extendBlock (llvm.Alloca slot name_ :: more) blk)
             /\ nonTerminators more
             /\ match initialValue_ with
                | Some _ => exists pre v,
                              more = pre ++ [llvm.Store v slot] /\ llvm.getType v = ty
                | None => more = []
                end
             /\ codegen.scopes c3 = codegen.scopes c)
    as (more & C3 & Nmore & Hinit & S3).
  { destruct initialValue_ as [init|].
    - inv_bind H3 init_val c4 H4. inv_bind H3 converted c5 H5.
      destruct (codegen.checkTypeCompatible ty (llvm.getType converted)) eqn:T;
        [|discriminate].
      apply emit_Ok in H3. subst c3.
      assert (S5 : codegen.scopes c5 = codegen.scopes c2).
      { assert (E4 : codegen.scopes c4 = codegen.scopes c2)
          by (generalize H4; apply codeGen_value_frame; intros; try reflexivity;
              apply scopes_insertAt).
        assert (E5 : codegen.scopes c5 = codegen.scopes c4)
          by (generalize H5; apply convertIfNeeded_frame; intros; try reflexivity;
              apply scopes_insertAt).
        congruence. }
      apply codeGen_value_quiet in H4. apply convertIfNeeded_quiet in H5.
      destruct (appends_current (appends_trans H4 H5) C2) as (pre & Npre & C5).
      exists (pre ++ [llvm.Store converted slot]). split; [|split; [|split]].
      + rewrite (insertAt_current _ _ C5), !extendBlock_app. reflexivity.
      + apply Forall_app. split; [exact Npre|]. constructor; [reflexivity|constructor].
      + exists pre, converted. split; [reflexivity|].
        apply Type_beq_eq in T. congruence.
      + rewrite scopes_insertAt. congruence.
    - inversion H3; subst c3. exists []. split; [exact C2|].
      split; [constructor|]. split; [reflexivity | exact S2]. }
  exists more.
  unfold codegen.declareVariable in H. inv_bind H ss c4 H4.
  inversion H4; subst ss c4. clear H4.
  destruct (codegen.scopes c3) as [|top rest] eqn:Ess; [discriminate|].
  inversion H; subst c'. clear H.
  split; [exact H1|]. split; [exact C3|]. split; [exact Nmore|].
  split; [exact Hinit|]. cbn [codegen.scopes codegen.set_scopes].
  rewrite <- S3. cbn [codegen.lookupIn]. split.
  - rewrite find_assign_same. reflexivity.
  - intros other Hne. rewrite (find_assign_other _ Hne). reflexivity.
Qed.

Lemma declaration_binds_its_slot_witness :
  exists c',
    codegen.VariableDeclaration_codeGen 1 (ast.PrimitiveTypeNode ast.Long true) "x"
      (Some (ast.IntLiteral 7)) (atEntry llvm.VoidTy) = Ok (tt, c')
    /\ exists ty c1 more,
         codegen.typeCodeGen 1 (ast.PrimitiveTypeNode ast.Long true) (atEntry llvm.VoidTy)
         = Ok (ty, c1)
         /\ codegen.currentBlock c'
            = Some (extendBlock
                      (llvm.Alloca
                         (llvm.AllocaInst (codegen.nextId (atEntry llvm.VoidTy)) ty) "x"
                       :: more)
                      (llvm.mkBasicBlock "entry" []))
         /\ nonTerminators more
         /\ (exists pre v,
               more = pre ++ [llvm.Store v (llvm.AllocaInst
                                              (codegen.nextId (atEntry llvm.VoidTy)) ty)]
               /\ llvm.getType v = ty)
         /\ codegen.lookupIn "x" (codegen.scopes c')
            = Some (codegen.nextId (atEntry llvm.VoidTy), ty)
         /\ forall other, other <> "x" ->
              codegen.lookupIn other (codegen.scopes c')
              = codegen.lookupIn other (codegen.scopes (atEntry llvm.VoidTy)).
Proof.
  eexists. split; [vm_compute; reflexivity|].
  apply (@declaration_binds_its_slot 1 (ast.PrimitiveTypeNode ast.Long true) "x"
           (Some (ast.IntLiteral 7)) (atEntry llvm.VoidTy)).
  - reflexivity.
  - vm_compute. reflexivity.
Defined.

(** ** Statements after a return *)

(** After a return statement the insertion block has a terminator. *)
Lemma Return_closes fuel v c u c1 closed c2 :
  codegen.Return_codeGen fuel v c = Ok (u, c1) ->
  codegen.hasTerminator c1 = Ok (closed, c2) -> closed = true.
Proof.
  intros H T. apply hasTerminator_Ok in T. destruct T as (-> & blk1 & Hb1 & ->).
  assert (W1 : wellPlaced c1) by (eapply currentBlock_placed; exact Hb1).
  assert (exists c0 r, appends c c0 /\ c1 = codegen.insertAt (llvm.Ret r) c0)
    as (c0 & r & A & ->).
  { unfold codegen.Return_codeGen in H. destruct v as [e|].
    - inv_bind H val c3 H3. inv_bind H returnType c4 H4.
      inv_bind H converted c5 H5.
      destruct (negb _); [discriminate|]. apply emit_Ok in H.
      exists c5, (Some converted). split; [|exact H].
      apply codeGen_value_quiet in H3.
      apply (quiet_frame (@getCurrentFunctionReturnType_frame _ builderView)) in H4.
      apply convertIfNeeded_quiet in H5.
      eauto using appends_trans.
    - inv_bind H returnType c4 H4.
      destruct (negb _); [discriminate|]. apply emit_Ok in H.
      exists c4, None. split; [|exact H].
      apply (quiet_frame (@getCurrentFunctionReturnType_frame _ builderView)) in H4.
      exact H4. }
  destruct (insertAt_point (llvm.Ret r) c0) as [_ I].
  destruct W1 as (b & Eb & Hlt). rewrite I in Eb.
  rewrite blocksOf_insertAt, Eb, updateNth_length in Hlt.
  destruct (placed_currentBlock (ex_intro _ b (conj Eb Hlt))) as [blk0 Hb0].
  rewrite (insertAt_current _ _ Hb0) in Hb1. inversion Hb1.
  rewrite (@closed_getTerminator _ (llvm.instructions blk0) r); reflexivity.
Qed.

(** X19.  What follows a return statement among the statements of a
    function body is not lowered: the function is filled, or the lowering
    fails, exactly as for the body cut after the return. *)
Theorem statements_after_return_are_not_lowered
        fuel node function paramTypes pre v rest c :
  codegen.generateFunctionBody fuel node function paramTypes
                               (pre ++ ast.Return v :: rest) c
  = codegen.generateFunctionBody fuel node function paramTypes
                                 (pre ++ [ast.Return v]) c.
Proof.
  assert (G : forall c0,
             codegen.generateStatements fuel (pre ++ ast.Return v :: rest) c0
             = codegen.generateStatements fuel (pre ++ [ast.Return v]) c0).
  { induction pre as [|s pre IH]; intros c0; simpl; unfold bind.
    - destruct (codegen.Return_codeGen fuel v c0) as [[u c1]|e] eqn:R; [|reflexivity].
      destruct (codegen.hasTerminator c1) as [[closed c2]|e] eqn:T; [|reflexivity].
      rewrite (Return_closes _ _ _ R T). reflexivity.
    - destruct (codegen.StatementNode_codeGen fuel s c0) as [[u c1]|e]; [|reflexivity].
      destruct (codegen.hasTerminator c1) as [[[|] c2]|e]; try reflexivity.
      apply IH. }
  unfold codegen.generateFunctionBody, bind.
  repeat match goal with
         | |- match ?m ?s with _ => _ end = match ?m ?s with _ => _ end =>
             destruct (m s) as [[? ?]|?]; [|reflexivity]
         end.
  rewrite G. reflexivity.
Qed.

(** ** The scopes of the builder *)

Section OuterScopes.

Import codegen.

Variable fuel : nat.

Lemma outerScopes_insertAt i c : outerScopes (insertAt i c) = outerScopes c.
Proof. unfold outerScopes. rewrite scopes_insertAt. reflexivity. Qed.

Lemma outerScopes_addBlock name c : outerScopes (addBlock name c) = outerScopes c.
Proof. reflexivity. Qed.

Lemma declareVariable_outer name a : preserves outerScopes (declareVariable name a).
Proof.
  intros c u c' H. unfold declareVariable in H. inv_bind H ss c1 H1.
  inversion H1; subst ss c1. clear H1. unfold outerScopes.
  destruct (scopes c) as [|top rest]; [discriminate|]. inversion H. reflexivity.
Qed.

Ltac outer lem :=
  apply lem; intros; try reflexivity;
  first [apply outerScopes_insertAt | apply outerScopes_addBlock].

Lemma typeCodeGen_outer t : preserves outerScopes (typeCodeGen fuel t).
Proof. outer typeCodeGen_frame. Qed.
Lemma codeGen_outer e : preserves outerScopes (codeGen fuel e).
Proof. outer codeGen_value_frame. Qed.
Lemma codeGenLValue_outer e : preserves outerScopes (codeGenLValue fuel e).
Proof. outer codeGen_address_frame. Qed.
Lemma convertIfNeeded_outer v ty sg : preserves outerScopes (convertIfNeeded v ty sg).
Proof. outer convertIfNeeded_frame. Qed.
Lemma emit_outer i : preserves outerScopes (emit i).
Proof. outer emit_frame. Qed.
Lemma CreateAlloca_outer ty name : preserves outerScopes (CreateAlloca ty name).
Proof. outer CreateAlloca_frame. Qed.
Lemma createBlock_outer name : preserves outerScopes (createBlock name).
Proof. outer createBlock_frame. Qed.
Lemma SetInsertPoint_outer b : preserves outerScopes (SetInsertPoint b).
Proof. outer SetInsertPoint_frame. Qed.
Lemma GetInsertBlock_outer : preserves outerScopes GetInsertBlock.
Proof. outer GetInsertBlock_frame. Qed.
Lemma hasTerminator_outer : preserves outerScopes hasTerminator.
Proof. outer hasTerminator_frame. Qed.
Lemma returnType_outer : preserves outerScopes getCurrentFunctionReturnType.
Proof. outer getCurrentFunctionReturnType_frame. Qed.
Lemma reportError_outer {A} k msg : preserves outerScopes (@reportError A k msg).
Proof. intros c a c' H. discriminate. Qed.

#[local] Hint Resolve declareVariable_outer typeCodeGen_outer codeGen_outer
  codeGenLValue_outer convertIfNeeded_outer emit_outer CreateAlloca_outer
  createBlock_outer SetInsertPoint_outer GetInsertBlock_outer hasTerminator_outer
  returnType_outer reportError_outer : frame.

Lemma each_outer l :
  Forall (fun s => preserves outerScopes (StatementNode_codeGen fuel s)) l ->
  preserves outerScopes
    ((fix each (l : list ast.StatementNode) : CG unit :=
        match l with
        | [] => ret tt
        | stmt :: r => StatementNode_codeGen fuel stmt ;;; each r
        end) l).
Proof. induction 1; frame. Qed.

(** No statement changes the scopes below the innermost one. *)
Lemma StatementNode_codeGen_outer : forall s,
  preserves outerScopes (StatementNode_codeGen fuel s).
Proof.
  induction s using StatementNode_induction; cbn [StatementNode_codeGen];
    unfold VariableDeclaration_codeGen, AssignmentStatement_codeGen, Return_codeGen,
      branchIfOpen, CreateStore, CreateRet, CreateRetVoid, CreateBr, CreateCondBr;
    try (frame; fail).
  - pose proof (each_outer H) as Ht.
    destruct fb as [falseBody|]; [pose proof (each_outer H0) as Hf|]; frame.
  - pose proof (each_outer H) as Hb. frame.
Qed.

#[local] Hint Resolve StatementNode_codeGen_outer : frame.

Lemma copyParams_outer : forall params i, preserves outerScopes (copyParams i params).
Proof.
  induction params as [|[name ty] r IH]; intros i; simpl; unfold CreateStore; frame.
Qed.

Lemma generateStatements_outer : forall body,
  preserves outerScopes (generateStatements fuel body).
Proof. induction body as [|s r IH]; simpl; frame. Qed.

End OuterScopes.

(** X20.  Lowering a function leaves the scopes of the builder as it found
    them: the scope pushed for the body, which receives the parameters and
    every variable declared in the body, is the one popped at the end, and
    no scope below it is changed.  So the variables of a function are not
    bound while the next function is lowered. *)
Theorem function_leaves_the_scopes fuel node c function c' :
  codegen.FunctionNode_codeGen fuel node c = Ok (function, c') ->
  codegen.scopes c' = codegen.scopes c.
Proof.
  intros H. unfold codegen.FunctionNode_codeGen in H.
  destruct (ast.fn_type_ node) as [type_|]; [|discriminate].
  inv_bind H type c1 H1. inv_bind H parameters c2 H2.
  inv_bind H fn c3 H3. inversion H3; subst fn c3. clear H3.
  inv_bind H u4 c4 H4. inversion H4; subst u4 c4. clear H4.
  inv_bind H u5 c5 H5. inversion H; subst. clear H.
  assert (S1 : codegen.scopes c1 = codegen.scopes c)
    by (generalize H1; apply typeCodeGen_frame; reflexivity).
  assert (S2 : codegen.scopes c2 = codegen.scopes c1)
    by (generalize H2; apply paramsCodeGen_frame; reflexivity).
  rewrite <- S1, <- S2. clear S1 S2 H1 H2.
  destruct (ast.fn_body_ node) as [body|]; [|inversion H5; reflexivity].
  unfold codegen.generateFunctionBody in H5.
  inv_bind H5 u1 d1 K1. inversion K1; subst u1 d1. clear K1.
  inv_bind H5 entry d2 K2.
  assert (P2 : preserves codegen.scopes (codegen.createBlock "entry"))
    by (apply createBlock_frame; reflexivity).
  apply P2 in K2. cbn [codegen.scopes codegen.set_insertPoint] in K2.
  inv_bind H5 v3 d3 K3. inversion K3; subst v3 d3. clear K3.
  inv_bind H5 v4 d4 K4. inversion K4; subst v4 d4. clear K4.
  inv_bind H5 v5 d5 K5. inversion K5; subst v5 d5. clear K5.
  inv_bind H5 u6 d6 K6. apply copyParams_outer in K6.
  inv_bind H5 u7 d7 K7. apply generateStatements_outer in K7.
  inv_bind H5 closed d8 K8. apply hasTerminator_outer in K8.
  inv_bind H5 u9 d9 K9.
  assert (S9 : outerScopes d9 = outerScopes d8).
  { destruct closed; [inversion K9; reflexivity|].
    apply emit_Ok in K9. subst d9. apply outerScopes_insertAt. }
  inversion H5; subst c'. cbn [codegen.scopes codegen.set_scopes].
  change (tl (codegen.scopes d9)) with (outerScopes d9).
  rewrite S9, K8, K7, K6. unfold outerScopes. cbn. exact K2.
Qed.

Lemma function_leaves_the_scopes_witness :
  exists function c',
    codegen.FunctionNode_codeGen 2 declaresAndReturns (codegen.new [])
    = Ok (function, c')
    /\ codegen.scopes c' = codegen.scopes (codegen.new []).
Proof.
  eexists. eexists. split; [vm_compute; reflexivity|].
  eapply (@function_leaves_the_scopes 2 declaresAndReturns (codegen.new [])).
  vm_compute. reflexivity.
Defined.

(** ** The functions of the module *)

Lemma parseFunction_public fuel :
  yields (fun f => ast.fn_isPublic_ f = true) (parser.parseFunction fuel).
Proof. unfold parser.parseFunction. yielding. Qed.

Lemma nameAndLinkage_headers c :
  map nameAndLinkage (codegen.functions c)
  = map (fun h => let '(n, _, _, l, _) := h in (n, l)) (headers c).
Proof. unfold headers. rewrite map_map. reflexivity. Qed.

(** [FunctionNode::codeGen] adds one function to the module, after those
    it holds. *)
Lemma FunctionNode_codeGen_adds fuel node c function c' :
  codegen.FunctionNode_codeGen fuel node c = Ok (function, c') ->
  map nameAndLinkage (codegen.functions c')
  = map nameAndLinkage (codegen.functions c) ++ [createdAs node].
Proof.
  intros H. unfold codegen.FunctionNode_codeGen in H.
  destruct (ast.fn_type_ node) as [type_|]; [|discriminate].
  inv_bind H type c1 H1. inv_bind H parameters c2 H2.
  inv_bind H fn c3 H3. inversion H3; subst fn c3. clear H3.
  inv_bind H u4 c4 H4. inversion H4; subst u4 c4. clear H4.
  inv_bind H u5 c5 H5. inversion H; subst. clear H.
  assert (F1 : codegen.functions c1 = codegen.functions c)
    by (generalize H1; apply typeCodeGen_frame; reflexivity).
  assert (F2 : codegen.functions c2 = codegen.functions c1)
    by (generalize H2; apply paramsCodeGen_frame; reflexivity).
  rewrite <- F1, <- F2. clear F1 F2 H1 H2.
  destruct (ast.fn_body_ node) as [body|].
  - apply generateFunctionBody_headers in H5.
    rewrite nameAndLinkage_headers, H5.
    rewrite (map_updateNth_same
               (fun h : string * llvm.Type_ * list llvm.Type_ * llvm.Linkage * list string =>
                  let '(n, _, _, l, _) := h in (n, l)))
      by (intros [[[[n r] ps] l] a]; reflexivity).
    unfold headers. cbn [codegen.functions codegen.set_functions].
    rewrite map_map, map_app. reflexivity.
  - inversion H5; subst c'. cbn [codegen.functions codegen.set_functions].
    rewrite map_app. reflexivity.
Qed.

Lemma codeGenFunctions_adds fuel : forall fs c u c',
  codegen.codeGenFunctions fuel fs c = Ok (u, c') ->
  map nameAndLinkage (codegen.functions c')
  = map nameAndLinkage (codegen.functions c) ++ map createdAs fs.
Proof.
  induction fs as [|func r IH]; intros c u c' H; simpl in H.
  - inversion H; subst. rewrite app_nil_r. reflexivity.
  - inv_bind H function c1 H1. apply FunctionNode_codeGen_adds in H1.
    apply IH in H. rewrite H, H1, <- app_assoc. reflexivity.
Qed.

Lemma codeGenClasses_functions fuel : forall cs,
  preserves codegen.functions (codegen.codeGenClasses fuel cs).
Proof.
  induction cs as [|structure r IH]; simpl.
  - apply preserves_ret.
  - apply preserves_bind; [|intros; exact IH].
    apply ClassNode_codeGen_frame; reflexivity.
Qed.



(** * The lowering of types *)

Section TypesAgain.

Import codegen.

Lemma declaredKept_refl c : sorted (namedStructs c) -> declaredKept c c.
Proof. intros H. split; auto. Qed.

Lemma declaredKept_trans c1 c2 c3 :
  declaredKept c1 c2 -> declaredKept c2 c3 -> declaredKept c1 c3.
Proof. intros [_ H1] [S2 H2]. split; auto. Qed.

Variable g : ast.TypeNode -> CG llvm.Type_.

Hypothesis g_kept : forall t c ty c',
  sorted (namedStructs c) -> g t c = Ok (ty, c') -> declaredKept c c'.

Lemma membersCodeGen_kept : forall members c ts c',
  sorted (namedStructs c) ->
  membersCodeGen g members c = Ok (ts, c') -> declaredKept c c'.
Proof.
  induction members as [|[name [ty|]] r IH]; simpl; intros c ts c' Hs H.
  - inversion H; subst. apply declaredKept_refl. exact Hs.
  - inv_bind H t c1 H1. inv_bind H ts' c2 H2. inversion H; subst.
    pose proof (g_kept Hs H1) as K1.
    eapply declaredKept_trans; [exact K1|]. eapply IH; [apply K1 | exact H2].
  - discriminate.
Qed.

(** A class that was lowered is found declared when it is lowered again. *)
Lemma classCodeGen_again cls c ty c' :
  sorted (namedStructs c) ->
  classCodeGen g cls c = Ok (ty, c') ->
  declaredKept c c' /\ classCodeGen g cls c' = Ok (ty, c').
Proof.
  intros Hs H. unfold classCodeGen in H.
  inv_bind H found c0 H0. apply gets_Ok in H0. destruct H0 as [-> ->].
  destruct (smap.find (ast.name_ cls) (namedStructs c)) as [[ty0 names]|] eqn:F.
  - inversion H; subst. split; [apply declaredKept_refl; exact Hs|].
    unfold classCodeGen, bind, gets. rewrite F. reflexivity.
  - inv_bind H u1 c1 H1. inversion H1; subst u1 c1. clear H1.
    inv_bind H body c2 H2. inv_bind H u3 c3 H3. inversion H3; subst u3 c3. clear H3.
    inversion H; subst ty c'. clear H.
    apply membersCodeGen_kept in H2;
      [|cbn [namedStructs set_namedStructs]; apply insert_sorted; exact Hs].
    destruct H2 as [S2 K2]. cbn [namedStructs set_namedStructs] in K2.
    split.
    + split; [exact S2|]. intros name d Hd. cbn [namedStructs set_bodies].
      apply K2. apply find_insert_kept; assumption.
    + unfold classCodeGen, bind, gets. cbn [namedStructs set_bodies].
      rewrite (K2 _ _ (@find_insert_fresh _ _ _ _ F)). reflexivity.
Qed.

End TypesAgain.

(** X22.  Lowering a type a second time gives the same LLVM type and
    changes nothing: every class met was declared by the first lowering,
    and a declared class is returned as it was declared, without being
    created or given a body again.  The table of declared structs stays
    ordered and only grows: each entry it had is kept as it was. *)
Theorem type_is_lowered_once : forall fuel t c ty c',
  sorted (codegen.namedStructs c) ->
  codegen.typeCodeGen fuel t c = Ok (ty, c') ->
  declaredKept c c' /\ codegen.typeCodeGen fuel t c' = Ok (ty, c').
Proof.
  induction fuel as [|fuel IH]; intros t; simpl; [discriminate|].
  induction t as [k sg|target IHt|target IHt len|decl]; intros c ty c' Hs H.
  - inversion H; subst. split; [apply declaredKept_refl; exact Hs | reflexivity].
  - inv_bind H t0 c1 H1. inversion H; subst ty c1. clear H.
    destruct (IHt _ _ _ Hs H1) as [K Again]. split; [exact K|].
    apply bind_eq with (k := fun _ => ret llvm.PointerTy) in Again. exact Again.
  - inv_bind H t0 c1 H1. inversion H; subst ty c1. clear H.
    destruct (IHt _ _ _ Hs H1) as [K Again]. split; [exact K|].
    apply bind_eq with (k := fun targetType => ret (llvm.ArrayTy targetType len))
      in Again.
    exact Again.
  - inv_bind H cls c1 H1.
    assert (E1 : c1 = c /\ nth_error (codegen.classes c) decl = Some cls).
    { unfold codegen.getDecl in H1. inv_bind H1 cs c0 H0.
      apply gets_Ok in H0. destruct H0 as [-> ->].
      destruct (nth_error (codegen.classes c) decl); inversion H1. auto. }
    destruct E1 as [-> Hcls].
    assert (P : preserves codegen.classes
                  (codegen.classCodeGen (codegen.typeCodeGen fuel) cls))
      by (apply classCodeGen_frame; try reflexivity;
          intros; apply typeCodeGen_frame; reflexivity).
    pose proof (P _ _ _ H) as Ecs.
    apply classCodeGen_again in H;
      [| intros t0 d ty0 d' Hd Ht; exact (proj1 (IH _ _ _ _ Hd Ht)) | exact Hs].
    destruct H as [K Again]. split; [exact K|].
    assert (D : codegen.getDecl decl c' = Ok (cls, c')).
    { unfold codegen.getDecl, bind, gets, fromOption. rewrite Ecs, Hcls. reflexivity. }
    apply bind_eq with (k := codegen.classCodeGen (codegen.typeCodeGen fuel)) in D.
    rewrite <- Again. exact D.
Qed.

Lemma type_is_lowered_once_witness :
  exists ty c',
    codegen.typeCodeGen 3 (ast.ClassReferenceNode 0) (codegen.new [listNode])
    = Ok (ty, c')
    /\ declaredKept (codegen.new [listNode]) c'
    /\ codegen.typeCodeGen 3 (ast.ClassReferenceNode 0) c' = Ok (ty, c').
Proof.
  eexists. eexists. split; [vm_compute; reflexivity|].
  apply (@type_is_lowered_once 3 (ast.ClassReferenceNode 0) (codegen.new [listNode])).
  - constructor.
  - vm_compute. reflexivity.
Defined.

(** * The command line (main) *)

Lemma readArguments_options : forall options rest srcFile outputFile,
  readArguments (commandLine options ++ rest) srcFile outputFile
  = readArguments rest (lastValue true options srcFile)
                       (lastValue false options outputFile).
Proof.
  induction options as [|[[|] value] r IH]; intros rest srcFile outputFile;
    [reflexivity | |]; simpl; apply IH.
Qed.

(** X23.  The arguments of the compiler are read as options [-f value] and
    [-o value] in any order and number: the last [-f] names the source
    file, the last [-o] the output file (none when there is no [-o]), and a
    value is never read as an option; without a source file named, or with
    an empty one, the run ends with the error that [-f] is missing.  An
    argument in the place of an option that is neither [-f] nor [-o] ends
    the run with the error that names it, whatever follows.  An option that
    is the last argument has its value read past the arguments, at the
    null pointer that ends [argv]. *)
Theorem arguments_are_options :
  (forall options,
      mainArguments (commandLine options)
      = if String.eqb (lastValue true options "") ""
        then Abort (Fatal error.Syntax "Missing required argument: -f <source file>")
        else Ok (lastValue true options "", lastValue false options ""))
  /\ (forall options a rest,
        a <> "-f" -> a <> "-o" ->
        mainArguments (commandLine options ++ a :: rest)
        = Abort (Fatal error.Syntax ("Invalid argument: '" ++ a ++ "'")))
  /\ (forall options isSource,
        mainArguments (commandLine options ++ [flag isSource]) = Abort NullDeref).
Proof.
  split; [|split].
  - intros options. unfold mainArguments.
    rewrite <- (app_nil_r (commandLine options)), readArguments_options.
    reflexivity.
  - intros options a rest Hf Ho. unfold mainArguments.
    rewrite readArguments_options. simpl.
    apply String.eqb_neq in Hf. apply String.eqb_neq in Ho.
    rewrite Hf, Ho. reflexivity.
  - intros options isSource. unfold mainArguments.
    rewrite readArguments_options. destruct isSource; reflexivity.
Qed.

Lemma arguments_are_options_witness :
  mainArguments (commandLine [(true, "a.ax"); (false, "-f")] ++ "b.ax" :: ["-o"])
  = Abort (Fatal error.Syntax "Invalid argument: 'b.ax'").
Proof.
  apply (proj1 (proj2 arguments_are_options) [(true, "a.ax"); (false, "-f")] "b.ax" ["-o"]).
  - discriminate.
  - discriminate.
Defined.

(** * The position of a token *)

Section TokenPosition.

Import lexer.

Lemma positionAfter_app s : forall r pos,
  positionAfter (s ++ r) pos = positionAfter r (positionAfter s pos).
Proof. induction s as [|c s IH]; intros r pos; simpl; auto. Qed.

Lemma substring_snoc : forall s k c,
  String.get k s = Some c ->
  String.substring 0 (S k) s = (String.substring 0 k s ++ str1 c)%string.
Proof.
  induction s as [|a s IH]; intros [|k] c H; simpl in H; try discriminate.
  - inversion H; subst. simpl. destruct s; reflexivity.
  - simpl. rewrite (IH _ _ H). reflexivity.
Qed.

Lemma positionOf_next k s c :
  String.get k s = Some c -> positionOf (S k) s = advancePos c (positionOf k s).
Proof.
  intros H. unfold positionOf. rewrite (substring_snoc _ _ H), positionAfter_app.
  reflexivity.
Qed.

Lemma staysPositioned_ret {A} (a : A) : staysPositioned (ret a).
Proof. intros L b L' H P. inversion H; subst. exact P. Qed.

Lemma staysPositioned_abort {A} e : staysPositioned (@abort Lexer A e).
Proof. intros L b L' H. discriminate. Qed.

Lemma staysPositioned_gets {A} (f : Lexer -> A) : staysPositioned (gets f).
Proof. intros L b L' H P. inversion H; subst. exact P. Qed.

Lemma staysPositioned_bind {A B} (m : LM A) (k : A -> LM B) :
  staysPositioned m -> (forall a, staysPositioned (k a)) -> staysPositioned (bind m k).
Proof.
  intros Hm Hk L b L' H P. apply bind_Ok in H. destruct H as (a & L1 & H1 & H2).
  eapply Hk; [exact H2|]. eapply Hm; eassumption.
Qed.

Lemma peekChar_positioned k : staysPositioned (peekChar k).
Proof. intros L c L' H P. apply peekChar_Ok in H. destruct H as [-> _]. exact P. Qed.

Lemma inRange_positioned k : staysPositioned (inRange k).
Proof. apply staysPositioned_gets. Qed.

Lemma consumeChar_positioned : staysPositioned consumeChar.
Proof.
  intros L c L' H P. apply consumeChar_Ok in H. destruct H as [G ->].
  unfold positioned in *. cbn [srcCursor_ src_ advanceCursor].
  replace (src_ (advancePosition c L)) with (src_ L)
    by (unfold advancePosition; destruct (Ascii.eqb c NL); reflexivity).
  replace (srcCursor_ (advancePosition c L)) with (srcCursor_ L)
    by (unfold advancePosition; destruct (Ascii.eqb c NL); reflexivity).
  rewrite (positionOf_next _ _ G), <- P. unfold advancePos, advancePosition.
  destruct (Ascii.eqb c NL); reflexivity.
Qed.

Create HintDb positioned.

#[local] Hint Resolve staysPositioned_ret staysPositioned_abort staysPositioned_gets
  peekChar_positioned inRange_positioned consumeChar_positioned : positioned.

Ltac positioned_step :=
  match goal with
  | |- staysPositioned (bind _ _) => apply staysPositioned_bind; [| intros]
  | |- staysPositioned _ => solve [eauto with positioned]
  | |- staysPositioned (if ?b then _ else _) => destruct b
  | |- staysPositioned (match ?x with _ => _ end) => destruct x
  | |- staysPositioned (let '(_, _) := ?x in _) => destruct x
  end.

Ltac positionedly := repeat positioned_step.

Lemma skipLineComment_positioned fuel : staysPositioned (skipLineComment fuel).
Proof. induction fuel; simpl; positionedly. Qed.

Lemma skipBlockComment_positioned fuel : staysPositioned (skipBlockComment fuel).
Proof. induction fuel; simpl; positionedly. Qed.

Lemma scanWhile_positioned p fuel : forall acc, staysPositioned (scanWhile p fuel acc).
Proof. induction fuel; intros acc; simpl; positionedly. Qed.

Lemma scanFraction_positioned fuel : forall acc ran,
  staysPositioned (scanFraction fuel acc ran).
Proof. induction fuel; intros acc ran; simpl; positionedly. Qed.

Lemma scanString_positioned fuel : forall acc, staysPositioned (scanString fuel acc).
Proof. induction fuel; intros acc; simpl; positionedly. Qed.

#[local] Hint Resolve skipLineComment_positioned skipBlockComment_positioned
  scanWhile_positioned scanFraction_positioned scanString_positioned : positioned.

Lemma lexToken_positioned fuel : staysPositioned (lexToken fuel).
Proof. unfold lexToken. positionedly. Qed.

(** [lexToken] stamps the token with the lexer's position on entry, where
    the first character of the token is. *)
Lemma lexToken_stamp fuel L t L' :
  lexToken fuel L = Ok (t, L') ->
  exists c, String.get (srcCursor_ L) (src_ L) = Some c
            /\ startsWith c t /\ row t = row_ L /\ col t = col_ L.
Proof.
  intros H. unfold lexToken in H.
  inv_bind H newToken L0 H0. inversion H0; subst newToken L0. clear H0.
  inv_bind H c L1 H1. apply peekChar_Ok in H1. destruct H1 as [-> Hget].
  rewrite Nat.add_0_r in Hget. exists c. split; [exact Hget|].
  cbn [src row col] in H.
  destruct (find_symbol c symbolMap) as [ty|] eqn:Hs.
  { inv_bind H c' L1 H1. inversion H; subst. clear H.
    split; [|split; reflexivity].
    unfold startsWith. cbn [type src]. rewrite (substring_get _ _ Hget).
    apply find_symbol_In in Hs. cbn in Hs.
    repeat (destruct Hs as [<- | Hs]; [exists ""; reflexivity|]). contradiction. }
  destruct (isdigit c) eqn:Hd.
  { inv_bind H lit L1 H1.
    eapply scanWhile_first in H1; [| exact Hget | exact Hd].
    destruct H1 as (ds & -> & Hds). cbn [append] in *.
    inv_bind H d L2 H2.
    destruct (Ascii.eqb d "."%char).
    - inv_bind H dot L3 H3. inv_bind H fr L4 H4. destruct fr as [lit0 isFloat].
      apply scanFraction_extends in H4. destruct H4 as (fs & -> & _).
      inversion H; subst. clear H. split; [|split; reflexivity].
      unfold startsWith, push_char. cbn [type src append].
      destruct isFloat; eexists; reflexivity.
    - inversion H; subst. split; [|split; reflexivity].
      unfold startsWith. cbn [type src]. eexists; reflexivity. }
  destruct (Ascii.eqb c DQUOTE) eqn:Eq.
  { inv_bind H c' L1 H1. inv_bind H content L2 H2. inv_bind H more L3 H3.
    destruct (negb more); [discriminate|].
    inv_bind H c'' L4 H4. inversion H; subst.
    split; [|split; reflexivity]. apply Ascii.eqb_eq in Eq. exact Eq. }
  destruct (isalpha c || Ascii.eqb c "_"%char) eqn:Ha; [|discriminate].
  inv_bind H kw L1 H1.
  assert (Hw : isword c = true).
  { unfold isword, isalnum. apply orb_true_iff in Ha.
    destruct Ha as [-> | ->]; [reflexivity | apply orb_true_r]. }
  eapply scanWhile_first in H1; [| exact Hget | exact Hw].
  destruct H1 as (r & -> & Hr). cbn [append] in *.
  destruct (find_keyword (String c r) keywordMap) as [ty|] eqn:Hk;
    inversion H; subst; clear H; (split; [|split; reflexivity]);
    unfold startsWith; cbn [type src].
  - apply find_keyword_In in Hk. cbn in Hk.
    repeat (destruct Hk as [<- | Hk]; [exists r; reflexivity|]). contradiction.
  - exists r. reflexivity.
Qed.

End TokenPosition.

(** X24.  A token that [nextToken] returns from a lexer whose line and
    column are those of the character at its cursor bears the line and the
    column, counted from 1, of the first character of the token (of the
    opening quote, for a string literal), which lies at or after the
    cursor, before the cursor that is left; the end of file bears none.
    The lexer that is left is again at the line and column of the
    character at its cursor, as the lexer of a new text is. *)
Theorem token_bears_its_position L t L' :
  positioned L ->
  lexer.nextToken L = Ok (t, L') ->
  positioned L'
  /\ (lexer.type t <> lexer.EndOfFile ->
      exists k c,
        lexer.srcCursor_ L <= k < lexer.srcCursor_ L'
        /\ String.get k (lexer.src_ L) = Some c
        /\ startsWith c t
        /\ (lexer.row t, lexer.col t) = positionOf k (lexer.src_ L)).
Proof.
  intros P H. unfold lexer.nextToken in H.
  inv_bind H n L0 H0. inversion H0; subst n L0. clear H0.
  remember (S (lexer.size L)) as fuel eqn:Ef. clear Ef. revert fuel L P H.
  assert (Lex : forall fuel L,
             positioned L -> lexer.lexToken fuel L = Ok (t, L') ->
             positioned L'
             /\ (lexer.type t <> lexer.EndOfFile ->
                 exists k c,
                   lexer.srcCursor_ L <= k < lexer.srcCursor_ L'
                   /\ String.get k (lexer.src_ L) = Some c
                   /\ startsWith c t
                   /\ (lexer.row t, lexer.col t) = positionOf k (lexer.src_ L))).
  { intros fuel L P H. split; [eapply lexToken_positioned; eassumption|].
    intros _. destruct (lexToken_stamp _ _ H) as (c & G & St & Er & Ec).
    apply lexToken_advanced in H. destruct H as (_ & Hlt & _).
    exists (lexer.srcCursor_ L), c. split; [lia|]. split; [exact G|].
    split; [exact St|]. rewrite Er, Ec. exact P. }
  assert (Skip : forall L L1 fuel,
             positioned L1 -> forward L L1 ->
             (positioned L1 -> lexer.nextTokenLoop fuel L1 = Ok (t, L') ->
              positioned L'
              /\ (lexer.type t <> lexer.EndOfFile ->
                  exists k c,
                    lexer.srcCursor_ L1 <= k < lexer.srcCursor_ L'
                    /\ String.get k (lexer.src_ L1) = Some c
                    /\ startsWith c t
                    /\ (lexer.row t, lexer.col t) = positionOf k (lexer.src_ L1))) ->
             lexer.nextTokenLoop fuel L1 = Ok (t, L') ->
             positioned L'
             /\ (lexer.type t <> lexer.EndOfFile ->
                 exists k c,
                   lexer.srcCursor_ L <= k < lexer.srcCursor_ L'
                   /\ String.get k (lexer.src_ L) = Some c
                   /\ startsWith c t
                   /\ (lexer.row t, lexer.col t) = positionOf k (lexer.src_ L))).
  { intros L L1 fuel P1 (Es & _ & Hle) IH H.
    destruct (IH P1 H) as [P' K]. split; [exact P'|].
    intros Hne. destruct (K Hne) as (k & c & Hk & G & St & E).
    exists k, c. rewrite Es in *. split; [lia | auto]. }
  induction fuel as [|fuel IH]; intros L P H; cbn [lexer.nextTokenLoop] in H;
    [discriminate|].
  inv_bind H more L0 H0. inversion H0; subst more L0. clear H0.
  destruct (lexer.srcCursor_ L + 0 <? lexer.size L) eqn:R.
  2:{ inversion H; subst. split; [exact P|]. intros Hne. contradiction Hne.
      reflexivity. }
  inv_bind H c L1 H1. apply peekChar_Ok in H1. destruct H1 as [-> _].
  destruct (Ascii.eqb c NL || isspace c).
  { inv_bind H c' L2 H2.
    eapply Skip; [eapply consumeChar_positioned; eassumption
                 | eapply consumeChar_forward; exact H2
                 | intros P2 H'; eapply IH; eassumption
                 | exact H]. }
  inv_bind H more1 L2 H2. inversion H2; subst more1 L2. clear H2.
  destruct (Ascii.eqb c "/"%char && _); [|eapply Lex; eassumption].
  inv_bind H c1 L3 H3. apply peekChar_Ok in H3. destruct H3 as [-> _].
  destruct (Ascii.eqb c1 "/"%char).
  { inv_bind H a1 L4 H4. inv_bind H a2 L5 H5. inv_bind H a3 L6 H6.
    eapply Skip; [| | intros P6 H'; eapply IH; eassumption | exact H].
    - eapply skipLineComment_positioned; [exact H6|].
      eapply consumeChar_positioned; [exact H5|].
      eapply consumeChar_positioned; eassumption.
    - eapply forward_trans; [eapply consumeChar_forward; exact H4|].
      eapply forward_trans; [eapply consumeChar_forward; exact H5|].
      eapply skipLineComment_forward; exact H6. }
  destruct (Ascii.eqb c1 "*"%char); [|eapply Lex; eassumption].
  inv_bind H a1 L4 H4. inv_bind H a2 L5 H5. inv_bind H a3 L6 H6.
  eapply Skip; [| | intros P6 H'; eapply IH; eassumption | exact H].
  - eapply skipBlockComment_positioned; [exact H6|].
    eapply consumeChar_positioned; [exact H5|].
    eapply consumeChar_positioned; eassumption.
  - eapply forward_trans; [eapply consumeChar_forward; exact H4|].
    eapply forward_trans; [eapply consumeChar_forward; exact H5|].
    eapply skipBlockComment_forward; exact H6.
Qed.

Lemma token_bears_its_position_witness :
  exists t L',
    lexer.nextToken (lexer.new secondLine) = Ok (t, L')
    /\ positioned L'
    /\ (lexer.type t <> lexer.EndOfFile ->
        exists k c,
          lexer.srcCursor_ (lexer.new secondLine) <= k < lexer.srcCursor_ L'
          /\ String.get k (lexer.src_ (lexer.new secondLine)) = Some c
          /\ startsWith c t
          /\ (lexer.row t, lexer.col t)
             = positionOf k (lexer.src_ (lexer.new secondLine))).
Proof.
  eexists. eexists. split; [vm_compute; reflexivity|].
  apply (@token_bears_its_position (lexer.new secondLine)).
  - reflexivity.
  - vm_compute. reflexivity.
Defined.

(** * Operator precedence *)

Section Precedence.

Import parser.

Variable terminator : lexer.TokenType.
Hypothesis terminator_no_operator : binaryOp terminator = None.

Lemma primary_literal f a v r p :
  literal a v ->
  parsePrimaryExpression (S f) terminator (ahead (a :: r) p)
  = Ok (ast.IntLiteral v, ahead r p).
Proof.
  intros [Ht Hv]. cbn [parsePrimaryExpression]. unfold bind at 1.
  rewrite peekType_ahead, Ht. unfold bind at 1.
  rewrite (@expect_ahead lexer.IntLit a r p Ht). unfold bind, liftRes.
  rewrite Hv. reflexivity.
Qed.

Lemma isTerminator_ahead t r p :
  isTerminator terminator (ahead (t :: r) p)
  = Ok (lexer.TokenType_beq (lexer.type t) terminator
        || (lexer.TokenType_beq terminator lexer.Comma
            && lexer.TokenType_beq (lexer.type t) lexer.RParen),
        ahead (t :: r) p).
Proof. unfold isTerminator, bind. rewrite peekType_ahead. reflexivity. Qed.

Lemma operator_goes_on o op :
  binaryOp (lexer.type o) = Some op ->
  stopsAt terminator o = false
  /\ lexer.TokenType_beq (lexer.type o) lexer.Equals = false
  /\ tokenToBinaryOp (lexer.type o) = ret op
  /\ (0 <= getOperatorPrecedence (lexer.type o))%Z.
Proof.
  intros Ho. unfold stopsAt.
  destruct (lexer.type o); try discriminate;
    destruct terminator; try discriminate;
    inversion Ho; subst; repeat split; try reflexivity; cbn; lia.
Qed.

Lemma stops_at_terminator t : lexer.type t = terminator -> stopsAt terminator t = true.
Proof.
  intros E. unfold stopsAt. rewrite E.
  rewrite (@lexer.internal_TokenType_dec_lb terminator terminator eq_refl). reflexivity.
Qed.

Ltac run H := rewrite (@bind_eq _ _ _ _ _ _ _ _ H).

(** The loop of [parseBinaryOpRHS] returns its left operand at the
    terminator. *)
Lemma stops_at f exprPrec lhs t r p :
  stopsAt terminator t = true ->
  parseBinaryOpRHS (S f) exprPrec lhs terminator (ahead (t :: r) p)
  = Ok (lhs, ahead (t :: r) p).
Proof.
  intros Hs. cbn [parseBinaryOpRHS]. run (isTerminator_ahead t r p).
  fold (stopsAt terminator t). rewrite Hs. reflexivity.
Qed.

(** One turn of the loop of [parseBinaryOpRHS] at an operator [o] whose
    right operand starts with a literal [a], followed by [n]: the right
    operand is the literal when the loop stops at [n] or [n] is an operator
    that does not bind tighter than [o], and otherwise what the loop makes of
    the literal and the operators that bind tighter. *)
Lemma operator_turn f exprPrec lhs o op a v n r p rhs q :
  binaryOp (lexer.type o) = Some op -> literal a v ->
  (exprPrec <= getOperatorPrecedence (lexer.type o))%Z ->
  ast.exprIsSigned lhs = true ->
  (stopsAt terminator n = false -> lexer.TokenType_beq (lexer.type n) lexer.Equals = false) ->
  (if stopsAt terminator n then ret (ast.IntLiteral v)
   else if (getOperatorPrecedence (lexer.type o)
            <? getOperatorPrecedence (lexer.type n))%Z
        then parseBinaryOpRHS (S f) (getOperatorPrecedence (lexer.type o) + 1)
                              (ast.IntLiteral v) terminator
        else ret (ast.IntLiteral v)) (ahead (n :: r) p) = Ok (rhs, q) ->
  ast.exprIsSigned rhs = true ->
  parseBinaryOpRHS (S (S f)) exprPrec lhs terminator (ahead (o :: a :: n :: r) p)
  = parseBinaryOpRHS (S f) exprPrec (ast.BinaryOperation op lhs rhs true) terminator q.
Proof.
  intros Ho Ha Hp Hs Hn Hrhs Hsr.
  destruct (operator_goes_on o Ho) as (T & E & Op & _).
  remember (S f) as g eqn:Eg.
  cbn [parseBinaryOpRHS]. run (isTerminator_ahead o (a :: n :: r) p).
  fold (stopsAt terminator o). rewrite T. cbv iota.
  run (peekType_ahead o (a :: n :: r) p).
  run (@peekT_ahead lexer.Equals 1 (o :: a :: n :: r) a p eq_refl).
  rewrite E. cbn [andb]. cbv iota.
  unfold bind at 1. cbn [ret].
  replace (getOperatorPrecedence (lexer.type o) <? exprPrec)%Z with false
    by (symmetry; apply Z.ltb_ge; exact Hp).
  cbv iota.
  assert (C : (consume ;;; ret tt) (ahead (o :: a :: n :: r) p)
              = Ok (tt, ahead (a :: n :: r) p))
    by (unfold bind; rewrite consume_ahead_token; reflexivity).
  run C. rewrite Eg at 1. run (primary_literal f (n :: r) p Ha).
  run (peekType_ahead n r p).
  run (isTerminator_ahead n r p). fold (stopsAt terminator n).
  match goal with
  | |- bind ?m _ _ = _ => assert (R : m (ahead (n :: r) p) = Ok (rhs, q))
  end.
  { rewrite <- Hrhs. destruct (stopsAt terminator n); [reflexivity|].
    rewrite (Hn eq_refl). reflexivity. }
  run R. rewrite Hs, Hsr. cbn [Bool.eqb negb]. cbv iota.
  unfold bind at 1. cbn [ret]. rewrite Op. reflexivity.
Qed.

(** The loop returns its left operand at an operator, not followed by [=],
    that binds less tightly than asked. *)
Lemma returns_at_weaker f exprPrec lhs n x r p :
  stopsAt terminator n = false ->
  lexer.TokenType_beq (lexer.type n) lexer.Equals = false ->
  (getOperatorPrecedence (lexer.type n) < exprPrec)%Z ->
  parseBinaryOpRHS (S f) exprPrec lhs terminator (ahead (n :: x :: r) p)
  = Ok (lhs, ahead (n :: x :: r) p).
Proof.
  intros Hs He Hp. cbn [parseBinaryOpRHS]. run (isTerminator_ahead n (x :: r) p).
  fold (stopsAt terminator n). rewrite Hs. cbv iota.
  run (peekType_ahead n (x :: r) p).
  run (@peekT_ahead lexer.Equals 1 (n :: x :: r) x p eq_refl).
  rewrite He. cbn [andb]. cbv iota. unfold bind at 1. cbn [ret].
  replace (getOperatorPrecedence (lexer.type n) <? exprPrec)%Z with true
    by (symmetry; apply Z.ltb_lt; exact Hp).
  reflexivity.
Qed.

Lemma isLiteral_literal t : isLiteral t -> literal t (valueOf t).
Proof.
  intros [Ht [v Hv]]. split; [exact Ht|]. unfold valueOf. rewrite Hv. reflexivity.
Qed.

Lemma multiplicative_operator o :
  multiplicative o ->
  binaryOp (lexer.type o) = Some (operationOf o)
  /\ getOperatorPrecedence (lexer.type o) = 20%Z.
Proof. unfold operationOf. intros [E | E]; rewrite E; split; reflexivity. Qed.

Lemma additive_operator o :
  additive o ->
  binaryOp (lexer.type o) = Some (operationOf o)
  /\ getOperatorPrecedence (lexer.type o) = 10%Z.
Proof. unfold operationOf. intros [E | E]; rewrite E; split; reflexivity. Qed.

Lemma timesAll_signed ms : forall lhs,
  ast.exprIsSigned lhs = true -> ast.exprIsSigned (timesAll lhs ms) = true.
Proof.
  induction ms as [|m ms IH]; intros lhs H; [exact H|]. apply IH. reflexivity.
Qed.

(** The turns of the loop over the factors of a product. *)
Lemma factors_turns exprPrec : forall ms lhs fuel after p,
  (exprPrec <= 20)%Z ->
  Forall (fun m => multiplicative (fst m) /\ isLiteral (snd m)) ms ->
  ast.exprIsSigned lhs = true ->
  endsProduct terminator after ->
  length ms < fuel ->
  parseBinaryOpRHS fuel exprPrec lhs terminator (ahead (factorTokens ms ++ after) p)
  = parseBinaryOpRHS (fuel - length ms) exprPrec (timesAll lhs ms) terminator
                     (ahead after p).
Proof.
  induction ms as [|[o a] ms IH]; intros lhs fuel after p Hq Hms Hs Hend Hf.
  - cbn. rewrite Nat.sub_0_r. reflexivity.
  - inversion Hms as [|? ? [Ho Ha] Hms']; subst. cbn [fst snd] in Ho, Ha.
    destruct (multiplicative_operator Ho) as [Hop Hp].
    destruct fuel as [|[|f]]; cbn [length] in Hf; try lia.
    cbn [factorTokens flat_map app fst snd].
    fold (factorTokens ms).
    assert (exists n r, factorTokens ms ++ after = n :: r
                        /\ (stopsAt terminator n = false ->
                            lexer.TokenType_beq (lexer.type n) lexer.Equals = false)
                        /\ (stopsAt terminator n = true
                            \/ (getOperatorPrecedence (lexer.type n) <= 20)%Z))
      as (n & r & En & Hne & Hn).
    { destruct ms as [|[o' a'] ms'].
      - destruct after as [|n r]; [contradiction|]. exists n, r.
        split; [reflexivity|]. cbn in Hend.
        destruct Hend as [St | [[E | E] _]].
        + split; [congruence | left; exact St].
        + split; [rewrite E; reflexivity | right; rewrite E; cbn; lia].
        + split; [rewrite E; reflexivity | right; rewrite E; cbn; lia].
      - inversion Hms' as [|? ? [Ho' _] _]; subst. cbn [fst] in Ho'.
        exists o', (a' :: factorTokens ms' ++ after). split; [reflexivity|].
        destruct Ho' as [E | E]; rewrite E; split; try reflexivity;
          right; cbn; lia. }
    rewrite En.
    rewrite (@operator_turn f exprPrec lhs o (operationOf o) a (valueOf a) n r p
               (ast.IntLiteral (valueOf a)) (ahead (n :: r) p) Hop
               (isLiteral_literal Ha)); [| lia | exact Hs | exact Hne | | reflexivity].
    + rewrite <- En. rewrite IH; try assumption; [|reflexivity|cbn [length] in Hf; lia].
      cbn [length]. replace (S (S f) - S (length ms)) with (S f - length ms) by lia.
      reflexivity.
    + destruct Hn as [St | Hle]; [rewrite St; reflexivity|].
      destruct (stopsAt terminator n); [reflexivity|]. rewrite Hp.
      replace (20 <? getOperatorPrecedence (lexer.type n))%Z with false
        by (symmetry; apply Z.ltb_ge; exact Hle).
      reflexivity.
Qed.

(** The loop that was asked for operators that bind tighter than [+] and
    [-] returns the product. *)
Lemma product_returns ms lhs fuel after p :
  Forall (fun m => multiplicative (fst m) /\ isLiteral (snd m)) ms ->
  ast.exprIsSigned lhs = true ->
  endsProduct terminator after ->
  length ms < fuel ->
  parseBinaryOpRHS fuel 11 lhs terminator (ahead (factorTokens ms ++ after) p)
  = Ok (timesAll lhs ms, ahead after p).
Proof.
  intros Hms Hs Hend Hf.
  rewrite factors_turns; try assumption; [|lia].
  destruct (fuel - length ms) as [|f] eqn:E; [lia|].
  destruct after as [|n r]; [contradiction|]. cbn in Hend.
  destruct Hend as [St | [Hn Hr]]; [apply stops_at; exact St|].
  destruct r as [|x r]; [contradiction|].
  destruct (additive_operator Hn) as [Hop Hp].
  destruct (operator_goes_on n Hop) as (St & He & _ & _).
  apply returns_at_weaker; [exact St | exact He | rewrite Hp; lia].
Qed.

Lemma summands_end ts stop rest :
  Forall (fun s => additive (fst s) /\ isProduct (snd s)) ts ->
  stopsAt terminator stop = true ->
  endsProduct terminator (summandTokens ts ++ stop :: rest).
Proof.
  intros Hts St. destruct ts as [|[o [a ms]] ts]; cbn; [left; exact St|].
  inversion Hts as [|? ? [Ho _] _]; subst. right. split; [exact Ho | discriminate].
Qed.

(** The turns of the loop over the products that are added or
    subtracted. *)
Lemma summands_turns : forall ts lhs fuel stop rest p,
  Forall (fun s => additive (fst s) /\ isProduct (snd s)) ts ->
  ast.exprIsSigned lhs = true ->
  stopsAt terminator stop = true ->
  length (summandTokens ts) < fuel ->
  parseBinaryOpRHS fuel 0 lhs terminator (ahead (summandTokens ts ++ stop :: rest) p)
  = Ok (plusAll lhs ts, ahead (stop :: rest) p).
Proof.
  induction ts as [|[o [a ms]] ts IH]; intros lhs fuel stop rest p Hts Hs St Hf.
  - destruct fuel as [|f]; [cbn in Hf; lia|]. apply stops_at. exact St.
  - inversion Hts as [|? ? [Ho [Ha Hms]] Hts']; subst. cbn [fst snd] in Ho, Ha, Hms.
    destruct (additive_operator Ho) as [Hop Hp].
    pose proof (@summands_end ts stop rest Hts' St) as Hend.
    cbn [summandTokens flat_map productTokens fst snd app] in *.
    fold (summandTokens ts) in *. rewrite <- app_assoc.
    cbn [length] in Hf. rewrite length_app in Hf.
    destruct fuel as [|[|f]]; try lia.
    set (after := summandTokens ts ++ stop :: rest) in *.
    assert (exists n r, factorTokens ms ++ after = n :: r
                        /\ (stopsAt terminator n = false ->
                            lexer.TokenType_beq (lexer.type n) lexer.Equals = false)
                        /\ (if stopsAt terminator n then ret (ast.IntLiteral (valueOf a))
                            else if (getOperatorPrecedence (lexer.type o)
                                     <? getOperatorPrecedence (lexer.type n))%Z
                                 then parseBinaryOpRHS
                                        (S f) (getOperatorPrecedence (lexer.type o) + 1)
                                        (ast.IntLiteral (valueOf a)) terminator
                                 else ret (ast.IntLiteral (valueOf a)))
                             (ahead (n :: r) p)
                           = Ok (productTree (a, ms), ahead after p))
      as (n & r & En & Hne & Hrhs).
    { rewrite Hp. destruct ms as [|[m b] ms'].
      - destruct after as [|n r] eqn:Ea; [contradiction|]. exists n, r.
        split; [reflexivity|]. cbn in Hend.
        destruct Hend as [Stn | [Hn _]].
        + split; [congruence|]. rewrite Stn. reflexivity.
        + destruct (additive_operator Hn) as [Hopn Hpn].
          destruct (operator_goes_on n Hopn) as (Stn & He & _ & _).
          split; [intros _; exact He|]. rewrite Stn, Hpn. reflexivity.
      - inversion Hms as [|? ? [Hm Hb] Hms']; subst. cbn [fst snd] in Hm, Hb.
        destruct (multiplicative_operator Hm) as [Hopm Hpm].
        destruct (operator_goes_on m Hopm) as (Stm & He & _ & _).
        exists m, (b :: factorTokens ms' ++ after). split; [reflexivity|].
        split; [intros _; exact He|]. rewrite Stm, Hpm. cbn [Z.ltb Z.compare Z.add].
        change (m :: b :: factorTokens ms' ++ after)
          with (factorTokens ((m, b) :: ms') ++ after).
        apply product_returns; try assumption; [reflexivity|].
        assert (L : forall l : list (lexer.Token * lexer.Token),
                     length l <= length (factorTokens l)).
        { clear. induction l as [|x l IHl]; cbn; [lia|]. unfold factorTokens in IHl. lia. }
        pose proof (L ((m, b) :: ms')). lia. }
    rewrite En.
    rewrite (@operator_turn f 0 lhs o (operationOf o) a (valueOf a) n r p
               (productTree (a, ms)) (ahead after p) Hop (isLiteral_literal Ha));
      [| rewrite Hp; lia | exact Hs | exact Hne | exact Hrhs
       | apply timesAll_signed; reflexivity].
    unfold after. rewrite IH; try assumption; [reflexivity | reflexivity | lia].
Qed.

End Precedence.

(** X25.  Sums of products are nested by precedence, to the left.  On the
    tokens of a first product of integer literals, of products added to or
    subtracted from it, and of a token the expression ends at,
    [parseExpression] takes the tokens up to that token and returns the
    additions and subtractions nested to the left, each on the
    multiplications and divisions of its product nested to the left: no
    operand of [*] or [/] is an addition or a subtraction. *)
Theorem sums_of_products_nest_by_precedence
        terminator fuel first ts stop rest p :
  binaryOp terminator = None ->
  isProduct first ->
  Forall (fun s => additive (fst s) /\ isProduct (snd s)) ts ->
  stopsAt terminator stop = true ->
  length (productTokens first ++ summandTokens ts) + 1 < fuel ->
  parser.parseExpression fuel terminator
    (ahead (productTokens first ++ summandTokens ts ++ stop :: rest) p)
  = Ok (plusAll (productTree first) ts, ahead (stop :: rest) p).
Proof.
  intros Ht [Ha Hms] Hts St Hf. destruct first as [a ms]. cbn [fst snd] in Ha, Hms.
  unfold productTokens in *. cbn [fst snd app length] in *.
  rewrite length_app in Hf.
  destruct fuel as [|[|f]]; try lia.
  remember (S f) as g eqn:Eg. cbn [parser.parseExpression]. rewrite Eg at 1.
  rewrite (@bind_eq _ _ _ _ _ _ _ _
             (@primary_literal terminator f a (valueOf a)
                (factorTokens ms ++ summandTokens ts ++ stop :: rest) p
                (isLiteral_literal Ha))).
  assert (L : length ms <= length (factorTokens ms)).
  { clear. induction ms as [|x l IHl]; cbn; [lia|]. unfold factorTokens in IHl. lia. }
  rewrite (@factors_turns terminator Ht 0 ms); try assumption;
    [| lia | reflexivity | apply summands_end; assumption | lia].
  apply summands_turns; try assumption; [apply timesAll_signed; reflexivity | lia].
Qed.

Lemma sums_of_products_nest_by_precedence_witness :
  parser.parseExpression 12 lexer.Semi
    (ahead (productTokens (tokenOf lexer.IntLit "1", [])
            ++ summandTokens [(tokenOf lexer.Plus "+", twoTimesThree);
                              (tokenOf lexer.Minus "-", fourByFive)]
            ++ tokenOf lexer.Semi ";" :: [])
           (parserOn ""))
  = Ok (ast.BinaryOperation ast.Subtract
          (ast.BinaryOperation ast.Add (ast.IntLiteral 1)
             (ast.BinaryOperation ast.Multiply (ast.IntLiteral 2) (ast.IntLiteral 3) true)
             true)
          (ast.BinaryOperation ast.Divide (ast.IntLiteral 4) (ast.IntLiteral 5) true)
          true,
        ahead [tokenOf lexer.Semi ";"] (parserOn "")).
Proof.
  apply (@sums_of_products_nest_by_precedence lexer.Semi 12
           (tokenOf lexer.IntLit "1", [])
           [(tokenOf lexer.Plus "+", twoTimesThree);
            (tokenOf lexer.Minus "-", fourByFive)]
           (tokenOf lexer.Semi ";") [] (parserOn "")).
  - reflexivity.
  - split; [split; [reflexivity | eexists; vm_compute; reflexivity] | constructor].
  - constructor; [|constructor; [|constructor]].
    + split; [left; reflexivity|]. split.
      * split; [reflexivity | eexists; vm_compute; reflexivity].
      * constructor; [|constructor]. split; [left; reflexivity|].
        split; [reflexivity | eexists; vm_compute; reflexivity].
    + split; [right; reflexivity|]. split.
      * split; [reflexivity | eexists; vm_compute; reflexivity].
      * constructor; [|constructor]. split; [right; reflexivity|].
        split; [reflexivity | eexists; vm_compute; reflexivity].
  - reflexivity.
  - vm_compute. lia.
Defined.

(** * Calls and the functions they name *)

Section Within.

Import parser.

Variable F : list ast.FunctionNode.

Let names := map ast.fn_name_ F.

Lemma within_ret {A} (Q : A -> Prop) a : Q a -> within F Q (ret a).
Proof. intros H p b p' E R. inversion R; subst. auto. Qed.

Lemma within_abort {A} (Q : A -> Prop) e : within F Q (abort e).
Proof. intros p b p' E R. discriminate. Qed.

Lemma within_bind_with {A B} (P : A -> Prop) (Q : B -> Prop) (m : PM A) (k : A -> PM B) :
  within F P m -> (forall a, P a -> within F Q (k a)) -> within F Q (bind m k).
Proof.
  intros Hm Hk p b p' E H. inv_bind H a p1 H1.
  destruct (Hm _ _ _ E H1) as [Pa E1]. eapply Hk; eassumption.
Qed.

Lemma within_kept {A} (m : PM A) : preserves functions_ m -> within F (fun _ => True) m.
Proof. intros Hm p a p' E H. split; [exact I|]. rewrite (Hm _ _ _ H). exact E. Qed.

Lemma within_bind {A B} (Q : B -> Prop) (m : PM A) (k : A -> PM B) :
  preserves functions_ m -> (forall a, within F Q (k a)) -> within F Q (bind m k).
Proof.
  intros Hm Hk. eapply within_bind_with; [apply within_kept; exact Hm|].
  intros a _. apply Hk.
Qed.

Lemma within_bind_never {A B} (Q : B -> Prop) (m : PM A) (k : A -> PM B) :
  (forall s r, m s <> Ok r) -> within F Q (bind m k).
Proof. intros Hm p b p' E H. inv_bind H a p1 H1. exfalso. eapply Hm. exact H1. Qed.

Lemma within_never {A} (Q : A -> Prop) (m : PM A) :
  (forall s r, m s <> Ok r) -> within F Q m.
Proof. intros Hm p b p' E H. exfalso. eapply Hm. exact H. Qed.

Lemma within_bind_ret {A B} (Q : B -> Prop) (a : A) (k : A -> PM B) :
  within F Q (k a) -> within F Q (bind (ret a) k).
Proof. intros H p b p' E R. eapply H; eassumption. Qed.

Lemma within_bind_assoc {A B C} (Q : C -> Prop) (m : PM A) (k1 : A -> PM B)
      (k : B -> PM C) :
  within F Q (bind m (fun x => bind (k1 x) k)) -> within F Q (bind (bind m k1) k).
Proof.
  intros H p c p' E R. apply (H p c p' E). unfold bind in *.
  destruct (m p) as [[a p1]|e]; [exact R | discriminate].
Qed.

(** A function that was looked up is a function of the list. *)
Lemma findFunction_name name : forall fs f,
  findFunction name fs = Some f -> existsb (String.eqb name) (map ast.fn_name_ fs) = true.
Proof.
  induction fs as [|g fs IH]; cbn; intros f H; [discriminate|].
  rewrite (String.eqb_sym name). destruct (String.eqb (ast.fn_name_ g) name);
    [reflexivity | eapply IH; exact H].
Qed.

Lemma lookupFunctionReturnType_within name :
  within F (fun r => match r with
                     | Some _ => existsb (String.eqb name) names = true
                     | None => True
                     end)
         (lookupFunctionReturnType name).
Proof.
  intros p r p' E H. unfold lookupFunctionReturnType in H. apply gets_Ok in H.
  destruct H as [-> ->]. split; [|exact E]. rewrite E.
  destruct (findFunction name F) as [f|] eqn:Ef; [|exact I].
  destruct (ast.fn_type_ f); [|exact I]. eapply findFunction_name. exact Ef.
Qed.

Ltac functions_kept :=
  first [ apply liftL_frame | apply peek_frame | apply peekT_frame | apply consume_frame
        | apply peekType_frame | apply expect_frame | apply validateIdentifier_frame
        | apply getTypeNode_frame | apply lookupVariableType_frame
        | apply lookupFunctionReturnType_frame | apply getDecl_frame
        | apply pushScope_frame | apply popScope_frame | apply indexVariableType_frame
        | apply countTokens_frame | apply parseType_frame | apply getNextTypeLength_frame
        | apply applyDrefs_frame | apply tokenToBinaryOp_frame | apply isTerminator_frame
        | apply checkInstanceCall_frame | apply indexParams_frame
        | apply parseParams_frame | apply preserves_gets | apply preserves_liftRes
        | apply preserves_ret | apply preserves_fromOption ];
  intros; reflexivity.

Lemma resolved_binary op l r s :
  resolved names l = true -> resolved names r = true ->
  resolved names (ast.BinaryOperation op l r s) = true.
Proof. intros Hl Hr. cbn. rewrite Hl, Hr. reflexivity. Qed.

Lemma resolved_StructAccess e m sn s t :
  resolved names e = true -> resolved names (ast.StructAccess e m sn s t) = true.
Proof. intros H. exact H. Qed.

Lemma resolved_Dref e t s :
  resolved names e = true -> resolved names (ast.Dref e t s) = true.
Proof. intros H. exact H. Qed.

Lemma resolved_AddressOf e s :
  resolved names e = true -> resolved names (ast.AddressOf e s) = true.
Proof. intros H. exact H. Qed.

Lemma resolved_ArrayAccess a i s t :
  resolved names a = true -> resolved names i = true ->
  resolved names (ast.ArrayAccess a i s t) = true.
Proof. intros Ha Hi. cbn. rewrite Ha, Hi. reflexivity. Qed.

Lemma resolved_PtrIndexAccess a i s t :
  resolved names a = true -> resolved names i = true ->
  resolved names (ast.PtrIndexAccess a i s t) = true.
Proof. intros Ha Hi. cbn. rewrite Ha, Hi. reflexivity. Qed.

Lemma resolved_FunctionCall n args s :
  existsb (String.eqb n) names = true -> forallb (resolved names) args = true ->
  resolved names (ast.FunctionCall n args s) = true.
Proof. intros Hn Ha. cbn. rewrite Hn, Ha. reflexivity. Qed.

Lemma resolved_this e s :
  resolved names e = true -> forallb (resolved names) [ast.AddressOf e s] = true.
Proof. intros H. cbn. rewrite H. reflexivity. Qed.

Create HintDb within.

#[local] Hint Resolve within_abort lookupFunctionReturnType_within forallb_snoc
  resolved_binary resolved_StructAccess resolved_Dref resolved_AddressOf
  resolved_ArrayAccess resolved_PtrIndexAccess resolved_FunctionCall resolved_this
  : within.

Ltac within_step :=
  match goal with
  | |- within _ _ (ret _) => apply within_ret; cbn [fst snd]
  | |- within _ _ (bind (ret _) _) => apply within_bind_ret; cbv beta iota
  | |- within _ _ (bind (bind _ _) _) => apply within_bind_assoc
  | |- within _ _ (bind (emitSemanticError _) _) =>
      apply within_bind_never; intros; apply emitSemanticError_never
  | |- within _ _ (bind (emitSyntaxError _) _) =>
      apply within_bind_never; intros; apply emitSyntaxError_never
  | |- within _ _ (emitSemanticError _) =>
      apply within_never; intros; apply emitSemanticError_never
  | |- within _ _ (emitSyntaxError _) =>
      apply within_never; intros; apply emitSyntaxError_never
  | |- within _ _ (bind (if ?b then _ else _) _) => destruct b eqn:?
  | |- within _ _ (bind (let '(_, _) := ?x in _) _) =>
      is_var x; destruct x; cbn [fst snd] in *
  | |- within _ _ (bind (match ?x with _ => _ end) _) => destruct x eqn:?
  | |- within _ _ (bind _ _) =>
      first [ eapply within_bind_with; [solve [eauto with within] | cbv beta; intros]
            | apply within_bind; [solve [functions_kept] | intros] ]
  | |- within _ _ _ => solve [eauto with within]
  | |- within _ _ (if ?b then _ else _) => destruct b eqn:?
  | |- within _ _ (let '(_, _) := ?x in _) => is_var x; destruct x; cbn [fst snd] in *
  | |- within _ _ (match ?x with _ => _ end) => destruct x eqn:?
  end.

Ltac withining := repeat within_step; auto with within.

Lemma applyDrefs_resolved n : forall target ty,
  resolved names target = true ->
  within F (fun r => resolved names (fst r) = true) (applyDrefs n target ty).
Proof.
  induction n as [|n IH]; intros target ty H; cbn [applyDrefs].
  - apply within_ret. exact H.
  - destruct (asPointerTypeNode (Some ty)); [|withining].
    apply IH. exact H.
Qed.

#[local] Hint Resolve applyDrefs_resolved : within.

Lemma expressions_resolved fuel :
  within F (fun r => resolved names (fst r) = true) (parseValue fuel)
  /\ (forall a target ty, resolved names target = true ->
        within F (fun r => resolved names (fst r) = true) (parsePostfix fuel a target ty))
  /\ (forall args, forallb (resolved names) args = true ->
        within F (fun l => forallb (resolved names) l = true) (parseArgs fuel args))
  /\ (forall t, within F (fun e => resolved names e = true)
                       (parsePrimaryExpression fuel t))
  /\ (forall prec lhs t, resolved names lhs = true ->
        within F (fun e => resolved names e = true) (parseBinaryOpRHS fuel prec lhs t))
  /\ (forall t, within F (fun e => resolved names e = true) (parseExpression fuel t)).
Proof.
  induction fuel as [|fuel (IHv & IHp & IHa & IHpr & IHb & IHe)].
  - split; [|split; [|split; [|split; [|split]]]]; intros; cbn; apply within_abort.
  - split; [|split; [|split; [|split; [|split]]]]; intros.
    + cbn [parseValue]. withining.
    + cbn [parsePostfix]. apply within_bind; [functions_kept|]. intros isPeriod.
      destruct isPeriod; [|withining; destruct a; auto with within].
      apply within_bind; [functions_kept|]. intros _.
      assert (T : resolved names
                    (snd (fst
                       match ty with
                       | ast.ClassReferenceNode decl => (Some decl, target, ty)
                       | ast.PointerTypeNode (ast.ClassReferenceNode decl as pointee) =>
                           (Some decl, ast.Dref target pointee (ast.isSigned pointee),
                            pointee)
                       | _ => (None, target, ty)
                       end)) = true).
      { destruct ty as [k s|[k s|t|t n|d]|t n|d]; cbn [fst snd]; auto with within. }
      destruct (match ty with
                | ast.ClassReferenceNode decl => (Some decl, target, ty)
                | ast.PointerTypeNode (ast.ClassReferenceNode decl as pointee) =>
                    (Some decl, ast.Dref target pointee (ast.isSigned pointee), pointee)
                | _ => (None, target, ty)
                end) as [[st tg] dt].
      cbn [fst snd] in T. withining.
    + cbn [parseArgs]. withining.
    + cbn [parsePrimaryExpression]. withining.
    + cbn [parseBinaryOpRHS]. withining.
    + cbn [parseExpression]. withining.
Qed.

Lemma parseValue_resolved fuel :
  within F (fun r => resolved names (fst r) = true) (parseValue fuel).
Proof. apply expressions_resolved. Qed.

Lemma parseArgs_resolved fuel args :
  forallb (resolved names) args = true ->
  within F (fun l => forallb (resolved names) l = true) (parseArgs fuel args).
Proof. apply expressions_resolved. Qed.

Lemma parseExpression_resolved fuel t :
  within F (fun e => resolved names e = true) (parseExpression fuel t).
Proof. apply expressions_resolved. Qed.

#[local] Hint Resolve parseValue_resolved parseArgs_resolved parseExpression_resolved
  : within.

Lemma resolved_Assignment t v :
  resolved names t = true -> resolved names v = true ->
  resolvedStatement names (ast.AssignmentStatement t v) = true.
Proof. intros Ht Hv. cbn. rewrite Ht, Hv. reflexivity. Qed.

Lemma resolved_If c tb fb :
  resolved names c = true -> forallb (resolvedStatement names) tb = true ->
  forallb (resolvedStatement names) (bodyOf fb) = true ->
  resolvedStatement names (ast.If c tb fb) = true.
Proof.
  intros Hc Ht Hf. cbn. rewrite Hc, Ht. destruct fb; [exact Hf | reflexivity].
Qed.

Lemma resolved_While c body :
  resolved names c = true -> forallb (resolvedStatement names) body = true ->
  resolvedStatement names (ast.While c body) = true.
Proof. intros Hc Hb. cbn. rewrite Hc, Hb. reflexivity. Qed.

Lemma resolved_call n args s :
  existsb (String.eqb n) names = true -> forallb (resolved names) args = true ->
  resolvedStatement names (ast.ExpressionStatement (ast.FunctionCall n args s)) = true.
Proof. intros Hn Ha. cbn. rewrite Hn, Ha. reflexivity. Qed.

#[local] Hint Resolve resolved_Assignment resolved_If resolved_While resolved_call
  : within.

Lemma statements_resolved fuel :
  within F (fun s => resolvedStatement names s = true) (parseStatement fuel)
  /\ (forall b body, forallb (resolvedStatement names) body = true ->
        within F (fun l => forallb (resolvedStatement names) l = true)
               (parseBlock fuel b body)).
Proof.
  induction fuel as [|fuel (IHs & IHb)].
  - split; intros; cbn; apply within_abort.
  - split; intros.
    + cbn [parseStatement]. withining.
    + cbn [parseBlock]. withining.
Qed.

Lemma parseFunction_resolved fuel :
  within F (fun f => resolvedFunction names f = true) (parseFunction fuel).
Proof.
  pose proof (proj2 (statements_resolved fuel)) as Hb.
  unfold parseFunction. withining.
Qed.

End Within.

(** ** Calls at code generation *)

Lemma resolved_more names names' :
  incl names names' ->
  forall e, resolved names e = true -> resolved names' e = true.
Proof.
  intros I. induction e using ExpressionNode_induction; cbn [resolved]; intros R;
    auto;
    repeat match goal with
           | H : _ && _ = true |- _ => apply andb_prop in H; destruct H
           end;
    repeat (apply andb_true_intro; split); auto.
  - apply existsb_exists in H0. destruct H0 as (x & Hx & E).
    apply existsb_exists. exists x. split; [apply I; exact Hx | exact E].
  - rewrite forallb_forall in *. rewrite Forall_forall in H. auto.
Qed.

Lemma resolvedStatement_more names names' :
  incl names names' ->
  forall s, resolvedStatement names s = true -> resolvedStatement names' s = true.
Proof.
  intros I. pose proof (resolved_more I) as E.
  induction s using StatementNode_induction; cbn [resolvedStatement]; intros R.
  - destruct i; auto.
  - apply andb_prop in R. destruct R. apply andb_true_intro. auto.
  - destruct v; auto.
  - apply andb_prop in R. destruct R as [R Hf]. apply andb_prop in R.
    destruct R as [Hc Ht].
    repeat (apply andb_true_intro; split); auto.
    + rewrite forallb_forall in *. rewrite Forall_forall in H. auto.
    + destruct fb as [l|]; [|reflexivity]. cbn [bodyOf] in H0.
      rewrite forallb_forall in *. rewrite Forall_forall in H0. auto.
  - apply andb_prop in R. destruct R as [Hc Hb].
    apply andb_true_intro. split; auto.
    rewrite forallb_forall in *. rewrite Forall_forall in H. auto.
  - auto.
Qed.

Lemma resolvedFunction_more names names' f :
  incl names names' ->
  resolvedFunction names f = true -> resolvedFunction names' f = true.
Proof.
  intros I. unfold resolvedFunction. destruct (ast.fn_body_ f) as [body|]; auto.
  rewrite !forallb_forall. intros H s Hs.
  apply (resolvedStatement_more I). auto.
Qed.

Lemma callsBackward_snoc f : forall fs seen,
  callsBackward seen fs = true ->
  resolvedFunction (seen ++ map ast.fn_name_ fs) f = true ->
  callsBackward seen (fs ++ [f]) = true.
Proof.
  induction fs as [|g r IH]; intros seen B R; cbn [callsBackward app map] in *.
  - rewrite app_nil_r in R. rewrite R. reflexivity.
  - apply andb_prop in B. destruct B as [Bg Br]. rewrite Bg. cbn [andb].
    apply IH; [exact Br|]. rewrite <- app_assoc. exact R.
Qed.

(** What a file adds to the function list calls backward as well. *)
Lemma parseFile_callsBackward fuel p u p' :
  parser.parseFile fuel p = Ok (u, p') ->
  callsBackward [] (parser.functions_ p) = true ->
  callsBackward [] (parser.functions_ p') = true.
Proof.
  intros H.
  refine (@parseFile_keeps
            (fun q q' => callsBackward [] (parser.functions_ q) = true ->
                         callsBackward [] (parser.functions_ q') = true)
            (fun F f => resolvedFunction (map ast.fn_name_ F) f = true)
            _ _ _ _ _ _ _ fuel p u p' H).
  - intros fuel' q f q' Hf.
    exact (proj1 (@parseFunction_resolved (parser.functions_ q) fuel' q f q'
                    eq_refl Hf)).
  - intros q1 q2 q3 A B F. auto.
  - intros q q' E F. unfold holdings in E. inversion E as [[Et Ec Ef]].
    rewrite Ef. exact F.
  - intros f q Hf F. cbn. apply callsBackward_snoc; assumption.
  - intros alias k s q F. exact F.
  - intros name decl members q _ _ F. exact F.
  - intros name members q _ _ F. exact F.
Qed.

Section Resolving.

Import codegen.

Variable P Q R : CodegenContext -> Prop.

Lemma resolving_bind {A B} (m : CG A) (k : A -> CG B) :
  resolving P Q m -> (forall a, resolving Q R (k a)) -> resolving P R (bind m k).
Proof.
  intros Hm Hk c Hc. destruct (Hm c Hc) as [Nm Om]. unfold bind.
  destruct (m c) as [[a c1]|e] eqn:E.
  - apply (Hk a c1). eapply Om. reflexivity.
  - split; [|discriminate]. intros name N. apply (Nm name). congruence.
Qed.

Lemma resolving_ret {A} (a : A) : (forall c, P c -> Q c) -> resolving P Q (ret a).
Proof.
  intros I c Hc. split; [discriminate|]. intros b c' E. inversion E; subst. auto.
Qed.

Lemma resolving_abort {A} e : otherError e -> resolving P Q (@abort _ A e).
Proof.
  intros O c Hc. split; [|discriminate]. intros name E. inversion E.
  exact (O name H0).
Qed.

Lemma resolving_modify g : (forall c, P c -> Q (g c)) -> resolving P Q (modify g).
Proof.
  intros I c Hc. split; [discriminate|]. intros b c' E. inversion E; subst. auto.
Qed.

End Resolving.

Section Resolves.

Import codegen.

Variable names : list string.

Let D := declares names.

Lemma resolves_get : resolving D D get.
Proof. intros c Hc. split; [discriminate|]. intros b c' E. inversion E; subst. auto. Qed.

Lemma resolves_gets {A} (g : CodegenContext -> A) : resolving D D (gets g).
Proof. intros c Hc. split; [discriminate|]. intros b c' E. inversion E; subst. auto. Qed.

Lemma resolves_fromOption {A} (o : option A) e :
  otherError e -> resolving D D (fromOption o e).
Proof.
  intros O. destruct o; [apply resolving_ret; auto | apply resolving_abort; exact O].
Qed.

Lemma resolves_liftRes {A} (r : Res A) :
  (forall e, r = Abort e -> otherError e) -> resolving D D (liftRes r).
Proof.
  intros O. destruct r as [a|e]; [apply resolving_ret; auto|].
  apply resolving_abort. apply O. reflexivity.
Qed.

Lemma resolves_reportError {A} kind msg :
  otherError (Fatal kind msg) -> resolving D D (@reportError A kind msg).
Proof. apply resolving_abort. Qed.

Lemma resolves_kept g : (forall c, fnames (g c) = fnames c) -> resolving D D (modify g).
Proof.
  intros E. apply resolving_modify. intros c Hc. unfold D, declares.
  rewrite E. exact Hc.
Qed.

Lemma fnames_insertAt i c : fnames (insertAt i c) = fnames c.
Proof.
  unfold insertAt. destruct (insertBlock c); [|reflexivity].
  apply map_updateNth_same. reflexivity.
Qed.

Lemma fnames_addBlock name c : fnames (addBlock name c) = fnames c.
Proof. apply map_updateNth_same. reflexivity. Qed.

Lemma fnames_setArgNames function argNames c :
  fnames (set_functions (updateNth function (setArgNames argNames) (functions c)) c)
  = fnames c.
Proof. apply map_updateNth_same. reflexivity. Qed.

Lemma lookupMemberIndex_other cls member e :
  ast.lookupMemberIndex cls member = Abort e -> otherError e.
Proof.
  unfold ast.lookupMemberIndex. destruct (smap.index_of member (ast.members_ cls));
    intros E; inversion E. intros name N. discriminate N.
Qed.

Create HintDb resolves.

#[local] Hint Resolve resolves_get resolves_gets : resolves.

(** An error with another text than that of an unknown function. *)
Ltac other := intros ? E; cbn in E; discriminate E.

Ltac resolves_step :=
  match goal with
  | |- resolving _ _ (bind _ _) => apply (@resolving_bind D D D); [| intros]
  | |- resolving _ _ (ret _) => apply resolving_ret; auto
  | |- resolving _ _ (abort _) => apply resolving_abort; other
  | |- resolving _ _ (reportError _ _) => apply resolves_reportError; other
  | |- resolving _ _ (fromOption _ _) => apply resolves_fromOption; other
  | |- resolving _ _ (liftRes (ast.lookupMemberIndex _ _)) =>
      apply resolves_liftRes; apply lookupMemberIndex_other
  | |- resolving _ _ (modify _) =>
      apply resolves_kept; intros;
      first [reflexivity | apply fnames_insertAt | apply fnames_addBlock
            | apply fnames_setArgNames]
  | |- resolving _ _ _ => solve [eauto with resolves]
  | |- resolving _ _ (if ?b then _ else _) => destruct b
  | |- resolving _ _ (match ?x with _ => _ end) => destruct x
  | |- resolving _ _ (let '(_, _) := ?x in _) => destruct x
  end.

Ltac resolves := repeat resolves_step.

Lemma fresh_resolves : resolving D D fresh.
Proof. unfold fresh. resolves. Qed.
Lemma emit_resolves i : resolving D D (emit i).
Proof. unfold emit. resolves. Qed.
Lemma createBlock_resolves name : resolving D D (createBlock name).
Proof. unfold createBlock. resolves. Qed.
Lemma SetInsertPoint_resolves b : resolving D D (SetInsertPoint b).
Proof. unfold SetInsertPoint. resolves. Qed.
Lemma GetInsertBlock_resolves : resolving D D GetInsertBlock.
Proof. unfold GetInsertBlock. resolves. Qed.

#[local] Hint Resolve fresh_resolves emit_resolves createBlock_resolves
  SetInsertPoint_resolves GetInsertBlock_resolves : resolves.

Lemma hasTerminator_resolves : resolving D D hasTerminator.
Proof. unfold hasTerminator. resolves. Qed.
Lemma getCurrentFunctionReturnType_resolves : resolving D D getCurrentFunctionReturnType.
Proof. unfold getCurrentFunctionReturnType. resolves. Qed.
Lemma pushScope_resolves : resolving D D pushScope.
Proof. unfold pushScope. resolves. Qed.
Lemma popScope_resolves : resolving D D popScope.
Proof. unfold popScope. resolves. Qed.
Lemma declareVariable_resolves name a : resolving D D (declareVariable name a).
Proof. unfold declareVariable. resolves. Qed.
Lemma lookupVariable_resolves name : resolving D D (lookupVariable name).
Proof. unfold lookupVariable. resolves. Qed.
Lemma getDecl_resolves d : resolving D D (getDecl d).
Proof. unfold getDecl. resolves. Qed.
Lemma structElementType_resolves name i : resolving D D (structElementType name i).
Proof. unfold structElementType. resolves. Qed.
Lemma CreateAlloca_resolves ty name : resolving D D (CreateAlloca ty name).
Proof. unfold CreateAlloca. resolves. Qed.
Lemma CreateStore_resolves v ptr : resolving D D (CreateStore v ptr).
Proof. unfold CreateStore. resolves. Qed.
Lemma CreateLoad_resolves ty ptr name : resolving D D (CreateLoad ty ptr name).
Proof. unfold CreateLoad. resolves. Qed.
Lemma CreateGEP_resolves ty e ptr idx name : resolving D D (CreateGEP ty e ptr idx name).
Proof. unfold CreateGEP. resolves. Qed.
Lemma CreateCast_resolves op v ty : resolving D D (CreateCast op v ty).
Proof. unfold CreateCast. resolves. Qed.
Lemma CreateNeg_resolves v : resolving D D (CreateNeg v).
Proof. unfold CreateNeg. resolves. Qed.
Lemma CreateBinary_resolves op l r : resolving D D (CreateBinary op l r).
Proof. unfold CreateBinary. resolves. Qed.
Lemma CreateICmp_resolves p l r : resolving D D (CreateICmp p l r).
Proof. unfold CreateICmp. resolves. Qed.
Lemma CreateCall_resolves callee args : resolving D D (CreateCall callee args).
Proof. unfold CreateCall. resolves. Qed.
Lemma CreateRet_resolves v : resolving D D (CreateRet v).
Proof. unfold CreateRet. resolves. Qed.
Lemma CreateRetVoid_resolves : resolving D D CreateRetVoid.
Proof. unfold CreateRetVoid. resolves. Qed.
Lemma CreateBr_resolves d : resolving D D (CreateBr d).
Proof. unfold CreateBr. resolves. Qed.
Lemma CreateCondBr_resolves v t e : resolving D D (CreateCondBr v t e).
Proof. unfold CreateCondBr. resolves. Qed.

#[local] Hint Resolve hasTerminator_resolves getCurrentFunctionReturnType_resolves
  pushScope_resolves popScope_resolves declareVariable_resolves lookupVariable_resolves
  getDecl_resolves structElementType_resolves CreateAlloca_resolves CreateStore_resolves
  CreateLoad_resolves CreateGEP_resolves CreateCast_resolves CreateNeg_resolves
  CreateBinary_resolves
  CreateICmp_resolves CreateCall_resolves CreateRet_resolves CreateRetVoid_resolves
  CreateBr_resolves CreateCondBr_resolves : resolves.

Lemma convertIfNeeded_resolves v ty sg : resolving D D (convertIfNeeded v ty sg).
Proof. unfold convertIfNeeded. resolves. Qed.

Lemma membersCodeGen_resolves g :
  (forall t, resolving D D (g t)) ->
  forall members, resolving D D (membersCodeGen g members).
Proof.
  intros Hg. induction members as [|[name [ty|]] r IH]; simpl; resolves.
Qed.

#[local] Hint Resolve convertIfNeeded_resolves membersCodeGen_resolves : resolves.

Lemma classCodeGen_resolves g cls :
  (forall t, resolving D D (g t)) -> resolving D D (classCodeGen g cls).
Proof. intros Hg. unfold classCodeGen. resolves. Qed.

#[local] Hint Resolve classCodeGen_resolves : resolves.

Lemma typeCodeGen_resolves fuel : forall t, resolving D D (typeCodeGen fuel t).
Proof.
  induction fuel as [|fuel IH]; intros t; simpl.
  - resolves.
  - induction t; resolves.
Qed.

#[local] Hint Resolve typeCodeGen_resolves : resolves.

Lemma ClassNode_codeGen_resolves fuel cls : resolving D D (ClassNode_codeGen fuel cls).
Proof. unfold ClassNode_codeGen. resolves. Qed.

(** A function the parser found by its name is one the module has. *)
Lemma findFunction_declared name c :
  D c -> existsb (String.eqb name) names = true ->
  exists callee,
    find (fun f => String.eqb (llvm.f_name f) name) (functions c) = Some callee.
Proof.
  intros Hc Hn. apply existsb_exists in Hn. destruct Hn as (x & Hx & E).
  apply String.eqb_eq in E. subst x. apply Hc in Hx.
  unfold fnames in Hx. apply in_map_iff in Hx. destruct Hx as (f & Ef & Hf).
  destruct (find (fun f => String.eqb (llvm.f_name f) name) (functions c))
    as [callee|] eqn:N; [eauto|].
  pose proof (find_none _ _ N f Hf) as K. cbn in K.
  rewrite Ef, String.eqb_refl in K. discriminate.
Qed.

Lemma resolves_call name {B} (k : option llvm.Function -> CG B) :
  existsb (String.eqb name) names = true ->
  (forall callee, resolving D D (k (Some callee))) ->
  resolving D D (bind (findFunction name) k).
Proof.
  intros Hn Hk c Hc. destruct (findFunction_declared name Hc Hn) as [callee E].
  unfold bind, findFunction, gets. rewrite E. apply Hk. exact Hc.
Qed.

Variable fuel : nat.

Lemma StructAccess_resolves lv m ty :
  resolving D D lv -> resolving D D (StructAccess_codeGenLValue fuel lv m ty).
Proof. intros H. unfold StructAccess_codeGenLValue. resolves. Qed.

Lemma ArrayAccess_resolves lv iv ty :
  resolving D D lv -> resolving D D iv ->
  resolving D D (ArrayAccess_codeGenLValue fuel lv iv ty).
Proof. intros H1 H2. unfold ArrayAccess_codeGenLValue. resolves. Qed.

Lemma PtrIndexAccess_resolves pv iv ty :
  resolving D D pv -> resolving D D iv ->
  resolving D D (PtrIndexAccess_codeGenLValue fuel pv iv ty).
Proof. intros H1 H2. unfold PtrIndexAccess_codeGenLValue. resolves. Qed.

Lemma BinaryOperation_emit_resolves op sg L R :
  resolving D D (BinaryOperation_emit op sg L R).
Proof. unfold BinaryOperation_emit. resolves. Qed.

#[local] Hint Resolve StructAccess_resolves ArrayAccess_resolves
  PtrIndexAccess_resolves BinaryOperation_emit_resolves : resolves.

Lemma codeGen_resolves : forall e,
  resolved names e = true ->
  resolving D D (codeGen fuel e) /\ resolving D D (codeGenLValue fuel e).
Proof.
  induction e using ExpressionNode_induction; intros Hr; cbn [resolved] in Hr;
    repeat match goal with
           | H : _ && _ = true |- _ => apply andb_prop in H; destruct H
           end;
    repeat match goal with
           | IH : ?h = true -> _, H : ?h = true |- _ => specialize (IH H); destruct IH
           end;
    simpl;
    try (split; resolves; fail).
  split; [|resolves].
  apply resolves_call; [assumption|]. intros callee.
  destruct (negb _); [resolves|].
  apply (@resolving_bind D D D); [|intros; resolves].
  induction H as [|a r Ha _ IH]; [resolves|].
  cbn [forallb] in H1. apply andb_prop in H1. destruct H1 as [Ra Rr].
  destruct (Ha Ra) as [Va _]. specialize (IH Rr). resolves.
Qed.

Lemma codeGen_value_resolves e :
  resolved names e = true -> resolving D D (codeGen fuel e).
Proof. apply codeGen_resolves. Qed.

Lemma codeGen_address_resolves e :
  resolved names e = true -> resolving D D (codeGenLValue fuel e).
Proof. apply codeGen_resolves. Qed.

#[local] Hint Resolve codeGen_value_resolves codeGen_address_resolves : resolves.

Lemma branchIfOpen_resolves m : resolving D D (branchIfOpen m).
Proof. unfold branchIfOpen. resolves. Qed.

#[local] Hint Resolve branchIfOpen_resolves : resolves.

Lemma each_resolves l :
  Forall (fun s => resolvedStatement names s = true ->
                   resolving D D (StatementNode_codeGen fuel s)) l ->
  forallb (resolvedStatement names) l = true ->
  resolving D D
    ((fix each (l : list ast.StatementNode) : CG unit :=
        match l with
        | [] => ret tt
        | stmt :: r => StatementNode_codeGen fuel stmt ;;; each r
        end) l).
Proof.
  induction 1 as [|s r Hs _ IH]; intros Hr; [resolves|].
  cbn [forallb] in Hr. apply andb_prop in Hr. destruct Hr as [Rs Rr].
  specialize (Hs Rs). specialize (IH Rr). resolves.
Qed.

Lemma StatementNode_codeGen_resolves : forall s,
  resolvedStatement names s = true -> resolving D D (StatementNode_codeGen fuel s).
Proof.
  induction s using StatementNode_induction; intros Hr;
    cbn [resolvedStatement] in Hr; cbn [StatementNode_codeGen].
  - unfold VariableDeclaration_codeGen. destruct i; resolves.
  - apply andb_prop in Hr. destruct Hr. unfold AssignmentStatement_codeGen. resolves.
  - unfold Return_codeGen. destruct v; resolves.
  - apply andb_prop in Hr. destruct Hr as [Hr Rf]. apply andb_prop in Hr.
    destruct Hr as [Rc Rt]. pose proof (each_resolves H Rt) as Ht.
    destruct fb as [falseBody|]; [pose proof (each_resolves H0 Rf) as Hf|]; resolves.
  - apply andb_prop in Hr. destruct Hr as [Rc Rb].
    pose proof (each_resolves H Rb) as Hb. resolves.
  - resolves.
Qed.

#[local] Hint Resolve StatementNode_codeGen_resolves : resolves.

Lemma copyParams_resolves : forall params i, resolving D D (copyParams i params).
Proof. induction params as [|[name ty] r IH]; intros i; simpl; resolves. Qed.

Lemma generateStatements_resolves : forall body,
  forallb (resolvedStatement names) body = true ->
  resolving D D (generateStatements fuel body).
Proof.
  induction body as [|s r IH]; intros Hr; simpl; [resolves|].
  cbn [forallb] in Hr. apply andb_prop in Hr. destruct Hr as [Rs Rr].
  specialize (IH Rr). resolves.
Qed.

Lemma paramsCodeGen_resolves : forall params, resolving D D (paramsCodeGen fuel params).
Proof. induction params as [|[name [ty|]] r IH]; simpl; resolves. Qed.

#[local] Hint Resolve copyParams_resolves generateStatements_resolves
  paramsCodeGen_resolves : resolves.

Lemma generateFunctionBody_resolves node function paramTypes body :
  forallb (resolvedStatement names) body = true ->
  resolving D D (generateFunctionBody fuel node function paramTypes body).
Proof. intros Hr. unfold generateFunctionBody. resolves. Qed.

End Resolves.

Lemma FunctionNode_codeGen_resolves fuel names node :
  resolvedFunction names node = true ->
  resolving (declares names) (declares (names ++ [ast.fn_name_ node]))
            (codegen.FunctionNode_codeGen fuel node).
Proof.
  intros Hr. unfold codegen.FunctionNode_codeGen.
  set (D := declares names). set (D' := declares (names ++ [ast.fn_name_ node])).
  destruct (ast.fn_type_ node) as [type_|];
    [|apply resolving_abort; intros name N; discriminate N].
  apply (@resolving_bind D D D'); [apply typeCodeGen_resolves | intros type].
  apply (@resolving_bind D D D'); [apply paramsCodeGen_resolves | intros parameters].
  apply (@resolving_bind D D D'); [apply resolves_gets | intros function].
  apply (@resolving_bind D D' D').
  - apply resolving_modify. intros c Hc n Hn.
    unfold fnames. cbn [codegen.functions codegen.set_functions].
    rewrite map_app. apply in_app_or in Hn. apply in_or_app.
    destruct Hn as [Hn|Hn]; [left; apply Hc; exact Hn | right; exact Hn].
  - intros _. apply (@resolving_bind D' D' D'); [|intros; apply resolving_ret; auto].
    unfold resolvedFunction in Hr.
    destruct (ast.fn_body_ node) as [body|]; [|apply resolving_ret; auto].
    apply generateFunctionBody_resolves.
    rewrite forallb_forall in *. intros s Hs.
    apply (@resolvedStatement_more names); [apply incl_appl, incl_refl | auto].
Qed.

Lemma codeGenFunctions_resolves fuel : forall fs seen,
  callsBackward seen fs = true ->
  resolving (declares seen) (declares (seen ++ map ast.fn_name_ fs))
            (codegen.codeGenFunctions fuel fs).
Proof.
  induction fs as [|f r IH]; intros seen B; cbn [callsBackward] in B;
    cbn [codegen.codeGenFunctions map].
  - apply resolving_ret. intros c Hc. rewrite app_nil_r. exact Hc.
  - apply andb_prop in B. destruct B as [Bf Br].
    apply (@resolving_bind (declares seen) (declares (seen ++ [ast.fn_name_ f]))).
    + apply FunctionNode_codeGen_resolves. exact Bf.
    + intros _. specialize (IH _ Br). rewrite <- app_assoc in IH. exact IH.
Qed.

Lemma codeGenClasses_resolves fuel names : forall cs,
  resolving (declares names) (declares names) (codegen.codeGenClasses fuel cs).
Proof.
  induction cs as [|cls r IH]; cbn [codegen.codeGenClasses].
  - apply resolving_ret. auto.
  - apply (@resolving_bind (declares names) (declares names));
      [apply ClassNode_codeGen_resolves | intros _; exact IH].
Qed.

(** X26.  Every call the parser accepts is resolved at code generation.  The
    functions of a text that [parseFile] accepts call only functions that
    stand before them in the function list (a call of a name the parser does
    not hold yet, the function's own name included, ends the process with
    "Call to undefined function"), and the lowering of such a list never ends
    with the error "Unknown function" of [FunctionCall::codeGen]: the
    function called has been created by the time its caller is lowered. *)
Theorem parsed_calls_are_resolved fuel source p :
  parseSource fuel source = Ok p ->
  callsBackward [] (parser.functions_ p) = true
  /\ forall cfuel name,
       codegen.codeGenModule cfuel p
       <> Abort (Fatal error.Codegen ("Unknown function '" ++ name ++ "'")).
Proof.
  unfold parseSource. intros H.
  destruct (parser.parseFile fuel
              (parser.set_lexer (lexer.new source) (parser.new source "")))
    as [[u q]|e] eqn:E; inversion H; subst q. clear H.
  pose proof (@parseFile_callsBackward fuel _ u p E eq_refl) as B.
  split; [exact B|]. intros cfuel name N.
  unfold codegen.codeGenModule in N.
  assert (K : resolving (declares []) (declares ([] ++ map ast.fn_name_ (parser.functions_ p)))
                (codegen.codeGenClasses cfuel (parser.classes_ p) ;;;
                 codegen.codeGenFunctions cfuel (parser.functions_ p))).
  { apply (@resolving_bind (declares []) (declares []));
      [apply codeGenClasses_resolves | intros _].
    apply codeGenFunctions_resolves. exact B. }
  destruct (K (codegen.new (parser.classes_ p))) as [Never _].
  { intros n Hn. destruct Hn. }
  destruct ((codegen.codeGenClasses cfuel (parser.classes_ p) ;;;
             codegen.codeGenFunctions cfuel (parser.functions_ p))
              (codegen.new (parser.classes_ p))) as [[u' c]|e] eqn:G;
    [discriminate N|].
  apply (Never name). inversion N. reflexivity.
Qed.

Lemma parsed_calls_are_resolved_witness :
  exists p,
    parseSource 20 "int f(int a); int g() { return f(1); }" = Ok p
    /\ forall name,
         codegen.codeGenModule 20 p
         <> Abort (Fatal error.Codegen ("Unknown function '" ++ name ++ "'")).
Proof.
  eexists. split; [vm_compute; reflexivity|].
  intros name.
  refine (proj2 (@parsed_calls_are_resolved 20
                   "int f(int a); int g() { return f(1); }" _ _) 20 name).
  vm_compute. reflexivity.
Defined.

(** * Expressions in the insertion block *)

(** X27.  Lowering an expression, to its value or to its address, is
    straight-line code: it appends instructions, none of them a terminator,
    to the insertion block; it creates no block, leaves the insertion point
    where it was and every other block of the function as it was, and
    changes neither the variables in scope nor the name, type and linkage of
    any function of the module. *)
Theorem expression_is_lowered_in_place fuel e c v c' blk :
  codegen.currentBlock c = Some blk ->
  codegen.codeGen fuel e c = Ok (v, c')
  \/ codegen.codeGenLValue fuel e c = Ok (v, c') ->
  exists added,
    nonTerminators added
    /\ codegen.currentBlock c' = Some (extendBlock added blk)
    /\ codegen.insertFunction c' = codegen.insertFunction c
    /\ codegen.insertBlock c' = codegen.insertBlock c
    /\ length (blocksOf c') = length (blocksOf c)
    /\ (forall i, codegen.insertBlock c <> Some i ->
                  nth_error (blocksOf c') i = nth_error (blocksOf c) i)
    /\ codegen.scopes c' = codegen.scopes c
    /\ headers c' = headers c.
Proof.
  intros Hb H.
  assert (A : appends c c').
  { destruct H as [H|H];
      [apply codeGen_value_quiet in H | apply codeGen_address_quiet in H]; exact H. }
  assert (S : codegen.scopes c' = codegen.scopes c).
  { destruct H as [H|H]; generalize H;
      [apply codeGen_value_frame | apply codeGen_address_frame];
      intros; try reflexivity; apply scopes_insertAt. }
  assert (E : headers c' = headers c).
  { destruct H as [H|H]; generalize H;
      [apply codeGen_value_frame | apply codeGen_address_frame];
      intros; try reflexivity; apply headers_insertAt. }
  destruct A as (F & B & added & N & U).
  rewrite currentBlock_blocksOf in Hb |- *. rewrite B.
  destruct (codegen.insertBlock c) as [b|]; [|discriminate].
  exists added. split; [exact N|]. split; [|split; [exact F|split; [reflexivity|]]].
  - rewrite U, updateNth_same, Hb. reflexivity.
  - split; [rewrite U; apply updateNth_length|]. split; [|split; [exact S | exact E]].
    intros i Hi. rewrite U. apply updateNth_other. congruence.
Qed.

Lemma expression_is_lowered_in_place_witness :
  exists v c',
    codegen.codeGen 1 (ast.BinaryOperation ast.Add (ast.IntLiteral 1) (ast.IntLiteral 2)
                                           true)
                    (atEntry llvm.VoidTy) = Ok (v, c')
    /\ exists added,
         nonTerminators added
         /\ codegen.currentBlock c'
            = Some (extendBlock added (llvm.mkBasicBlock "entry" []))
         /\ codegen.insertFunction c' = 0
         /\ codegen.insertBlock c' = Some 0
         /\ length (blocksOf c') = 1
         /\ (forall i, Some 0 <> Some i ->
                       nth_error (blocksOf c') i
                       = nth_error (blocksOf (atEntry llvm.VoidTy)) i)
         /\ codegen.scopes c' = [smap.empty]
         /\ headers c' = headers (atEntry llvm.VoidTy).
Proof.
  eexists. eexists. split; [vm_compute; reflexivity|].
  eapply (@expression_is_lowered_in_place 1
           (ast.BinaryOperation ast.Add (ast.IntLiteral 1) (ast.IntLiteral 2) true)
           (atEntry llvm.VoidTy)).
  - reflexivity.
  - left. vm_compute. reflexivity.
Defined.
